(** * Presence-Tracker: a shallow embedding of the reconciliation engine

    The development follows [src/bluetooth_scanner.py] (connection
    controller and probe scheduler) and [src/presence_tracker.py]
    (reconciliation loop and upstream sync client).

    Conventions of the embedding.
    - Python floats (timestamps, durations) are idealised as rationals [Q];
      Python ints are [Z].  Rounding of IEEE doubles is not represented.
      The one float operation of the modelled code that can raise, the
      conversion of an unbounded int in [float * int], is ([float_of_int]).
    - Module-level globals that carry state live in one [State] record
      and are threaded through a state monad [M]; the adapter path cache
      is one of them.  The connection handles ([_system_bus],
      [_convex_client], the executor), the main-loop flag and the locks
      are set up once and only give access to the outside: they belong to
      the world.
    - Everything outside the process (clocks, BlueZ over D-Bus, bluetoothctl,
      the Convex store) is a [World]: each primitive is a function of the
      history of interactions so far.  Every interaction is appended to the
      [trace] of the state, newest event first, so "was this primitive
      invoked" is a statement about the trace.
    - Clock reads whose value only feeds a log line are left out, as is
      logging itself and the instrumentation-only dictionary
      [device_registration_timeline]. *)

From Stdlib Require Import QArith Qminmax Lqa ZArith Lia Ascii String.
From stdpp Require Import gmap strings list fin_maps sorting.


(* ===================================================================== *)
(** * Numbers and strings *)
(* ===================================================================== *)

(** An exception that escapes a call, and the two ways a call can end. *)
Inductive exception := OverflowError.

Inductive result (A : Type) :=
| Ok (a : A)
| Raises (e : exception).

Arguments Ok {A} a.
Arguments Raises {A} e.

(** The first integer that no longer converts to a double: halfway between
    the largest finite double, [2^1024 - 2^971], and [2^1024]. *)
Definition DBL_OVERFLOW : Z := (2 ^ 1024 - 2 ^ 970)%Z.

(** The conversion Python applies to the int operand of [float * int].
    Out of range it raises [OverflowError: int too large to convert to
    float]; in range the value is taken exactly. *)
Definition float_of_int (n : Z) : result Q :=
  if (Z.abs n <? DBL_OVERFLOW)%Z then Ok (inject_Z n) else Raises OverflowError.

(** Python's [a < b] on floats. *)
Definition Qltb (a b : Q) : bool := negb (Qle_bool b a).

#[global] Instance Q_eq_dec : EqDecision Q.
Proof. solve_decision. Defined.

(** [str.upper()] restricted to ASCII, which is what MAC addresses are. *)
Definition ascii_upper (c : ascii) : ascii :=
  let n := Ascii.N_of_ascii c in
  if ((97 <=? n)%N && (n <=? 122)%N)%bool then Ascii.ascii_of_N (n - 32) else c.

Fixpoint upper (s : string) : string :=
  match s with
  | EmptyString => EmptyString
  | String c s' => String (ascii_upper c) (upper s')
  end.

(** Truthiness of an optional string: [None] and [""] are falsy. *)
Definition truthy_str (o : option string) : bool :=
  match o with
  | Some s => negb (String.eqb s "")
  | None => false
  end.

(** [a or b] on optional strings. *)
Definition str_or (a b : option string) : option string :=
  if truthy_str a then a else b.

(* ===================================================================== *)
(** * Data model *)
(* ===================================================================== *)

(** One entry of the BlueZ snapshot ([get_device_snapshot]).  A missing key
    reads as [None] / [false] through [dict.get]. *)
Record device_info := {
  di_path : option string;
  di_name : option string;
  di_alias : option string;
  di_connected : bool;
  di_paired : bool;
  di_trusted : bool;
  di_rssi : option Z;
  di_tx_power : option Z
}.

#[global] Instance device_info_eq_dec : EqDecision device_info.
Proof. solve_decision. Defined.

Abbreviation snapshot := (gmap string device_info).

(** A device record as returned by the store query [devices:getDevices].
    [sd_status] distinguishes a missing key ([None]), a null value
    ([Some None]) and a string. *)
Record store_device := {
  sd_macAddress : option string;
  sd_name : option string;
  sd_status : option (option string);
  sd_connectedSince : option Q;
  sd_pendingRegistration : bool;
  sd_firstName : option string;
  sd_lastName : option string
}.

(** Result of the store action [devices:cleanupExpiredGracePeriods]. *)
Record cleanup_result := {
  cr_deletedCount : option Z;
  cr_deletedMacs : option (list string)
}.

(** The store functions the tracker calls, with the arguments captured by
    the closure handed to [_submit_convex_call]. *)
Inductive convex_call :=
| GetDevices
| RegisterPendingDevice (macAddress name : string)
| CleanupExpiredGracePeriods
| LogAttendance (userId userName status : string)
| UpdateDeviceStatus (macAddress status : string).

#[global] Instance convex_call_eq_dec : EqDecision convex_call.
Proof. solve_decision. Defined.

(** What waiting on the future can produce: a result (possibly Python
    [None]), a [TimeoutError], or any other exception. *)
Inductive outcome (T : Type) :=
| Returned (r : option T)
| TimedOut
| Raised.
Arguments Returned {T} r.
Arguments TimedOut {T}.
Arguments Raised {T}.

Inductive outcome_kind := KReturned | KTimedOut | KRaised.

Definition kind_of {T} (o : outcome T) : outcome_kind :=
  match o with
  | Returned _ => KReturned
  | TimedOut => KTimedOut
  | Raised => KRaised
  end.

(** Completion of the worker thread of [_invoke_with_hard_timeout]. *)
Inductive worker_outcome :=
| WorkerDone (error : option string)
| WorkerStuck.

(** Completion of [subprocess.run] in [_run_bluetoothctl_operation]. *)
Inductive bluetoothctl_outcome :=
| BtCompleted (returncode : Z) (detail : option string)
| BtTimeoutExpired
| BtFileNotFound.

(** What fetching the managed objects gives [remove_device] and
    [refresh_discovery]: the call raised, or it returned objects, of which
    the model keeps the adapter path a search of them finds, if any. *)
Inductive adapter_lookup :=
| LookupRaised
| LookupDone (found : option string).

(** Completion of a D-Bus call on the adapter: it returned, it raised a
    [DBusException], or it raised anything else. *)
Inductive adapter_call :=
| CallDone
| CallDBusException
| CallRaised.

(** Interactions with the outside world. *)
Inductive event :=
| EvMonotonic (t : Q)
| EvTime (t : Q)
| EvSleep (seconds : Q)
| EvSnapshot (s : snapshot)
| EvTrust (path : string) (ok : bool)
| EvDbusMethod (path method : string) (timeout : Z) (o : worker_outcome)
| EvBluetoothctl (command mac : string) (o : bluetoothctl_outcome)
| EvReadConnected (path : string) (r : option bool)
| EvAdapterLookup (o : adapter_lookup)
| EvRemoveDevice (mac path : string) (ok : bool)
| EvStartDiscovery (o : adapter_call)
| EvStopDiscovery (o : adapter_call)
| EvConvexSubmit (c : convex_call) (k : outcome_kind).

(** A closure run on the Convex executor: its outcome may depend on the
    whole history. *)
Definition convex_fn (T : Type) := list event -> outcome T.

(** The outside world.  [w_set_order] is the order in which iterating a
    Python [set] visits its elements: unspecified, but each element once. *)
Record World := {
  w_monotonic : list event -> Q;
  w_time : list event -> Q;
  w_snapshot : list event -> snapshot;
  w_trust : list event -> string -> bool;
  w_dbus_method : list event -> string -> string -> Z -> Q -> worker_outcome;
  w_bluetoothctl : list event -> string -> string -> Q -> bluetoothctl_outcome;
  w_read_connected : list event -> string -> option bool;
  w_adapter : list event -> adapter_lookup;
  w_remove_device : list event -> string -> bool;
  w_start_discovery : list event -> adapter_call;
  w_stop_discovery : list event -> adapter_call;
  w_set_order : gset string -> list string;
  w_set_order_perm : forall X, w_set_order X ≡ₚ elements X;
  w_getDevices : convex_fn (list store_device);
  w_registerPendingDevice : string -> string -> convex_fn unit;
  w_cleanupExpiredGracePeriods : convex_fn cleanup_result;
  w_logAttendance : string -> string -> string -> convex_fn unit;
  w_updateDeviceStatus : string -> string -> convex_fn unit
}.

(** Tunable constants (environment variables with defaults). *)
Record Config := {
  CONNECT_TIMEOUT_SECONDS : Z;
  CONNECT_TIMEOUT_BUFFER_SECONDS : Q;
  PROBE_CONNECT_TIMEOUT_SECONDS : Z;
  PROBE_CONNECT_TIMEOUT_BUFFER_SECONDS : Q;
  IN_RANGE_SCAN_SECONDS : Z;
  RSSI_FRESHNESS_SECONDS : Z;
  MAX_RECONNECT_PER_CYCLE : Z;
  PROBE_BACKOFF_BASE_SECONDS : Q;
  PROBE_BACKOFF_MAX_SECONDS : Q;
  GRACE_PERIOD_SECONDS : Z;
  PRESENT_TTL_SECONDS : Z;
  NEWLY_REGISTERED_GRACE_PERIOD : Z;
  FIRST_SEEN_DEBOUNCE_SECONDS : Z;
  FULL_PROBE_ENABLED : bool;
  FULL_PROBE_INTERVAL_SECONDS : Z;
  FULL_PROBE_DISCONNECT_AFTER : bool;
  PROBE_TIME_BUDGET_SECONDS : Q;
  DISCOVERY_REFRESH_INTERVAL_SECONDS : Z;
  DISCONNECT_CONNECTED_AFTER_CYCLE : bool;
  MAX_CONVEX_CONSECUTIVE_TIMEOUTS : Z;
  CONVEX_CIRCUIT_OPEN_SECONDS : Q
}.

Definition default_config : Config := {|
  CONNECT_TIMEOUT_SECONDS := 10;
  CONNECT_TIMEOUT_BUFFER_SECONDS := 2;
  PROBE_CONNECT_TIMEOUT_SECONDS := 5;
  PROBE_CONNECT_TIMEOUT_BUFFER_SECONDS := 1;
  IN_RANGE_SCAN_SECONDS := 5;
  RSSI_FRESHNESS_SECONDS := 15;
  MAX_RECONNECT_PER_CYCLE := 4;
  PROBE_BACKOFF_BASE_SECONDS := 5;
  PROBE_BACKOFF_MAX_SECONDS := 300;
  GRACE_PERIOD_SECONDS := 300;
  PRESENT_TTL_SECONDS := 120;
  NEWLY_REGISTERED_GRACE_PERIOD := 120;
  FIRST_SEEN_DEBOUNCE_SECONDS := 10;
  FULL_PROBE_ENABLED := true;
  FULL_PROBE_INTERVAL_SECONDS := 60;
  FULL_PROBE_DISCONNECT_AFTER := true;
  PROBE_TIME_BUDGET_SECONDS := 8;
  DISCOVERY_REFRESH_INTERVAL_SECONDS := 20;
  DISCONNECT_CONNECTED_AFTER_CYCLE := false;
  MAX_CONVEX_CONSECUTIVE_TIMEOUTS := 3;
  CONVEX_CIRCUIT_OPEN_SECONDS := 30
|}.

Definition with_max_reconnect (n : Z) (cfg : Config) : Config := {|
  CONNECT_TIMEOUT_SECONDS := CONNECT_TIMEOUT_SECONDS cfg;
  CONNECT_TIMEOUT_BUFFER_SECONDS := CONNECT_TIMEOUT_BUFFER_SECONDS cfg;
  PROBE_CONNECT_TIMEOUT_SECONDS := PROBE_CONNECT_TIMEOUT_SECONDS cfg;
  PROBE_CONNECT_TIMEOUT_BUFFER_SECONDS := PROBE_CONNECT_TIMEOUT_BUFFER_SECONDS cfg;
  IN_RANGE_SCAN_SECONDS := IN_RANGE_SCAN_SECONDS cfg;
  RSSI_FRESHNESS_SECONDS := RSSI_FRESHNESS_SECONDS cfg;
  MAX_RECONNECT_PER_CYCLE := n;
  PROBE_BACKOFF_BASE_SECONDS := PROBE_BACKOFF_BASE_SECONDS cfg;
  PROBE_BACKOFF_MAX_SECONDS := PROBE_BACKOFF_MAX_SECONDS cfg;
  GRACE_PERIOD_SECONDS := GRACE_PERIOD_SECONDS cfg;
  PRESENT_TTL_SECONDS := PRESENT_TTL_SECONDS cfg;
  NEWLY_REGISTERED_GRACE_PERIOD := NEWLY_REGISTERED_GRACE_PERIOD cfg;
  FIRST_SEEN_DEBOUNCE_SECONDS := FIRST_SEEN_DEBOUNCE_SECONDS cfg;
  FULL_PROBE_ENABLED := FULL_PROBE_ENABLED cfg;
  FULL_PROBE_INTERVAL_SECONDS := FULL_PROBE_INTERVAL_SECONDS cfg;
  FULL_PROBE_DISCONNECT_AFTER := FULL_PROBE_DISCONNECT_AFTER cfg;
  PROBE_TIME_BUDGET_SECONDS := PROBE_TIME_BUDGET_SECONDS cfg;
  DISCOVERY_REFRESH_INTERVAL_SECONDS := DISCOVERY_REFRESH_INTERVAL_SECONDS cfg;
  DISCONNECT_CONNECTED_AFTER_CYCLE := DISCONNECT_CONNECTED_AFTER_CYCLE cfg;
  MAX_CONVEX_CONSECUTIVE_TIMEOUTS := MAX_CONVEX_CONSECUTIVE_TIMEOUTS cfg;
  CONVEX_CIRCUIT_OPEN_SECONDS := CONVEX_CIRCUIT_OPEN_SECONDS cfg
|}.

(** Fixed constant. *)
Definition RECONNECT_COOLDOWN : Q := 30.

(** Module globals of both files, plus the interaction trace. *)
Record State := {
  _last_connection_attempts : gmap string Q;
  _failed_connection_attempts : gmap string Z;
  _next_probe_allowed_at : gmap string Q;
  _last_rssi_refresh_time : Q;
  _adapter_path_cache : option string;
  failed_registrations : gset string;
  device_previous_status : gmap string string;
  recently_seen_devices : gmap string Q;
  device_first_seen : gmap string Q;
  last_full_probe_time : Q;
  last_discovery_refresh_time : Q;
  _convex_consecutive_timeouts : Z;
  _convex_circuit_open_until : Q;
  trace : list event
}.

Definition initial_state : State := {|
  _last_connection_attempts := ∅;
  _failed_connection_attempts := ∅;
  _next_probe_allowed_at := ∅;
  _last_rssi_refresh_time := 0;
  _adapter_path_cache := None;
  failed_registrations := ∅;
  device_previous_status := ∅;
  recently_seen_devices := ∅;
  device_first_seen := ∅;
  last_full_probe_time := 0;
  last_discovery_refresh_time := 0;
  _convex_consecutive_timeouts := 0;
  _convex_circuit_open_until := 0;
  trace := []
|}.

Definition set_last_connection_attempts v (s : State) : State :=
  {| _last_connection_attempts := v;
     _failed_connection_attempts := _failed_connection_attempts s;
     _next_probe_allowed_at := _next_probe_allowed_at s;
     _last_rssi_refresh_time := _last_rssi_refresh_time s;
     _adapter_path_cache := _adapter_path_cache s;
     failed_registrations := failed_registrations s;
     device_previous_status := device_previous_status s;
     recently_seen_devices := recently_seen_devices s;
     device_first_seen := device_first_seen s;
     last_full_probe_time := last_full_probe_time s;
     last_discovery_refresh_time := last_discovery_refresh_time s;
     _convex_consecutive_timeouts := _convex_consecutive_timeouts s;
     _convex_circuit_open_until := _convex_circuit_open_until s;
     trace := trace s |}.

Definition set_failed_connection_attempts v (s : State) : State :=
  {| _last_connection_attempts := _last_connection_attempts s;
     _failed_connection_attempts := v;
     _next_probe_allowed_at := _next_probe_allowed_at s;
     _last_rssi_refresh_time := _last_rssi_refresh_time s;
     _adapter_path_cache := _adapter_path_cache s;
     failed_registrations := failed_registrations s;
     device_previous_status := device_previous_status s;
     recently_seen_devices := recently_seen_devices s;
     device_first_seen := device_first_seen s;
     last_full_probe_time := last_full_probe_time s;
     last_discovery_refresh_time := last_discovery_refresh_time s;
     _convex_consecutive_timeouts := _convex_consecutive_timeouts s;
     _convex_circuit_open_until := _convex_circuit_open_until s;
     trace := trace s |}.

Definition set_next_probe_allowed_at v (s : State) : State :=
  {| _last_connection_attempts := _last_connection_attempts s;
     _failed_connection_attempts := _failed_connection_attempts s;
     _next_probe_allowed_at := v;
     _last_rssi_refresh_time := _last_rssi_refresh_time s;
     _adapter_path_cache := _adapter_path_cache s;
     failed_registrations := failed_registrations s;
     device_previous_status := device_previous_status s;
     recently_seen_devices := recently_seen_devices s;
     device_first_seen := device_first_seen s;
     last_full_probe_time := last_full_probe_time s;
     last_discovery_refresh_time := last_discovery_refresh_time s;
     _convex_consecutive_timeouts := _convex_consecutive_timeouts s;
     _convex_circuit_open_until := _convex_circuit_open_until s;
     trace := trace s |}.

Definition set_last_rssi_refresh_time v (s : State) : State :=
  {| _last_connection_attempts := _last_connection_attempts s;
     _failed_connection_attempts := _failed_connection_attempts s;
     _next_probe_allowed_at := _next_probe_allowed_at s;
     _last_rssi_refresh_time := v;
     _adapter_path_cache := _adapter_path_cache s;
     failed_registrations := failed_registrations s;
     device_previous_status := device_previous_status s;
     recently_seen_devices := recently_seen_devices s;
     device_first_seen := device_first_seen s;
     last_full_probe_time := last_full_probe_time s;
     last_discovery_refresh_time := last_discovery_refresh_time s;
     _convex_consecutive_timeouts := _convex_consecutive_timeouts s;
     _convex_circuit_open_until := _convex_circuit_open_until s;
     trace := trace s |}.

Definition set_failed_registrations v (s : State) : State :=
  {| _last_connection_attempts := _last_connection_attempts s;
     _failed_connection_attempts := _failed_connection_attempts s;
     _next_probe_allowed_at := _next_probe_allowed_at s;
     _last_rssi_refresh_time := _last_rssi_refresh_time s;
     _adapter_path_cache := _adapter_path_cache s;
     failed_registrations := v;
     device_previous_status := device_previous_status s;
     recently_seen_devices := recently_seen_devices s;
     device_first_seen := device_first_seen s;
     last_full_probe_time := last_full_probe_time s;
     last_discovery_refresh_time := last_discovery_refresh_time s;
     _convex_consecutive_timeouts := _convex_consecutive_timeouts s;
     _convex_circuit_open_until := _convex_circuit_open_until s;
     trace := trace s |}.

Definition set_device_previous_status v (s : State) : State :=
  {| _last_connection_attempts := _last_connection_attempts s;
     _failed_connection_attempts := _failed_connection_attempts s;
     _next_probe_allowed_at := _next_probe_allowed_at s;
     _last_rssi_refresh_time := _last_rssi_refresh_time s;
     _adapter_path_cache := _adapter_path_cache s;
     failed_registrations := failed_registrations s;
     device_previous_status := v;
     recently_seen_devices := recently_seen_devices s;
     device_first_seen := device_first_seen s;
     last_full_probe_time := last_full_probe_time s;
     last_discovery_refresh_time := last_discovery_refresh_time s;
     _convex_consecutive_timeouts := _convex_consecutive_timeouts s;
     _convex_circuit_open_until := _convex_circuit_open_until s;
     trace := trace s |}.

Definition set_recently_seen_devices v (s : State) : State :=
  {| _last_connection_attempts := _last_connection_attempts s;
     _failed_connection_attempts := _failed_connection_attempts s;
     _next_probe_allowed_at := _next_probe_allowed_at s;
     _last_rssi_refresh_time := _last_rssi_refresh_time s;
     _adapter_path_cache := _adapter_path_cache s;
     failed_registrations := failed_registrations s;
     device_previous_status := device_previous_status s;
     recently_seen_devices := v;
     device_first_seen := device_first_seen s;
     last_full_probe_time := last_full_probe_time s;
     last_discovery_refresh_time := last_discovery_refresh_time s;
     _convex_consecutive_timeouts := _convex_consecutive_timeouts s;
     _convex_circuit_open_until := _convex_circuit_open_until s;
     trace := trace s |}.

Definition set_device_first_seen v (s : State) : State :=
  {| _last_connection_attempts := _last_connection_attempts s;
     _failed_connection_attempts := _failed_connection_attempts s;
     _next_probe_allowed_at := _next_probe_allowed_at s;
     _last_rssi_refresh_time := _last_rssi_refresh_time s;
     _adapter_path_cache := _adapter_path_cache s;
     failed_registrations := failed_registrations s;
     device_previous_status := device_previous_status s;
     recently_seen_devices := recently_seen_devices s;
     device_first_seen := v;
     last_full_probe_time := last_full_probe_time s;
     last_discovery_refresh_time := last_discovery_refresh_time s;
     _convex_consecutive_timeouts := _convex_consecutive_timeouts s;
     _convex_circuit_open_until := _convex_circuit_open_until s;
     trace := trace s |}.

Definition set_last_full_probe_time v (s : State) : State :=
  {| _last_connection_attempts := _last_connection_attempts s;
     _failed_connection_attempts := _failed_connection_attempts s;
     _next_probe_allowed_at := _next_probe_allowed_at s;
     _last_rssi_refresh_time := _last_rssi_refresh_time s;
     _adapter_path_cache := _adapter_path_cache s;
     failed_registrations := failed_registrations s;
     device_previous_status := device_previous_status s;
     recently_seen_devices := recently_seen_devices s;
     device_first_seen := device_first_seen s;
     last_full_probe_time := v;
     last_discovery_refresh_time := last_discovery_refresh_time s;
     _convex_consecutive_timeouts := _convex_consecutive_timeouts s;
     _convex_circuit_open_until := _convex_circuit_open_until s;
     trace := trace s |}.

Definition set_last_discovery_refresh_time v (s : State) : State :=
  {| _last_connection_attempts := _last_connection_attempts s;
     _failed_connection_attempts := _failed_connection_attempts s;
     _next_probe_allowed_at := _next_probe_allowed_at s;
     _last_rssi_refresh_time := _last_rssi_refresh_time s;
     _adapter_path_cache := _adapter_path_cache s;
     failed_registrations := failed_registrations s;
     device_previous_status := device_previous_status s;
     recently_seen_devices := recently_seen_devices s;
     device_first_seen := device_first_seen s;
     last_full_probe_time := last_full_probe_time s;
     last_discovery_refresh_time := v;
     _convex_consecutive_timeouts := _convex_consecutive_timeouts s;
     _convex_circuit_open_until := _convex_circuit_open_until s;
     trace := trace s |}.

Definition set_convex_consecutive_timeouts v (s : State) : State :=
  {| _last_connection_attempts := _last_connection_attempts s;
     _failed_connection_attempts := _failed_connection_attempts s;
     _next_probe_allowed_at := _next_probe_allowed_at s;
     _last_rssi_refresh_time := _last_rssi_refresh_time s;
     _adapter_path_cache := _adapter_path_cache s;
     failed_registrations := failed_registrations s;
     device_previous_status := device_previous_status s;
     recently_seen_devices := recently_seen_devices s;
     device_first_seen := device_first_seen s;
     last_full_probe_time := last_full_probe_time s;
     last_discovery_refresh_time := last_discovery_refresh_time s;
     _convex_consecutive_timeouts := v;
     _convex_circuit_open_until := _convex_circuit_open_until s;
     trace := trace s |}.

Definition set_convex_circuit_open_until v (s : State) : State :=
  {| _last_connection_attempts := _last_connection_attempts s;
     _failed_connection_attempts := _failed_connection_attempts s;
     _next_probe_allowed_at := _next_probe_allowed_at s;
     _last_rssi_refresh_time := _last_rssi_refresh_time s;
     _adapter_path_cache := _adapter_path_cache s;
     failed_registrations := failed_registrations s;
     device_previous_status := device_previous_status s;
     recently_seen_devices := recently_seen_devices s;
     device_first_seen := device_first_seen s;
     last_full_probe_time := last_full_probe_time s;
     last_discovery_refresh_time := last_discovery_refresh_time s;
     _convex_consecutive_timeouts := _convex_consecutive_timeouts s;
     _convex_circuit_open_until := v;
     trace := trace s |}.

Definition set_adapter_path_cache v (s : State) : State :=
  {| _last_connection_attempts := _last_connection_attempts s;
     _failed_connection_attempts := _failed_connection_attempts s;
     _next_probe_allowed_at := _next_probe_allowed_at s;
     _last_rssi_refresh_time := _last_rssi_refresh_time s;
     _adapter_path_cache := v;
     failed_registrations := failed_registrations s;
     device_previous_status := device_previous_status s;
     recently_seen_devices := recently_seen_devices s;
     device_first_seen := device_first_seen s;
     last_full_probe_time := last_full_probe_time s;
     last_discovery_refresh_time := last_discovery_refresh_time s;
     _convex_consecutive_timeouts := _convex_consecutive_timeouts s;
     _convex_circuit_open_until := _convex_circuit_open_until s;
     trace := trace s |}.

Definition set_trace v (s : State) : State :=
  {| _last_connection_attempts := _last_connection_attempts s;
     _failed_connection_attempts := _failed_connection_attempts s;
     _next_probe_allowed_at := _next_probe_allowed_at s;
     _last_rssi_refresh_time := _last_rssi_refresh_time s;
     _adapter_path_cache := _adapter_path_cache s;
     failed_registrations := failed_registrations s;
     device_previous_status := device_previous_status s;
     recently_seen_devices := recently_seen_devices s;
     device_first_seen := device_first_seen s;
     last_full_probe_time := last_full_probe_time s;
     last_discovery_refresh_time := last_discovery_refresh_time s;
     _convex_consecutive_timeouts := _convex_consecutive_timeouts s;
     _convex_circuit_open_until := _convex_circuit_open_until s;
     trace := v |}.

(* ===================================================================== *)
(** * The state monad *)
(* ===================================================================== *)

Definition M (A : Type) : Type := State -> A * State.

Definition ret {A} (a : A) : M A := fun s => (a, s).

Definition bind {A B} (c : M A) (k : A -> M B) : M B :=
  fun s => let (a, s') := c s in k a s'.

Definition gets {A} (f : State -> A) : M A := fun s => (f s, s).

Definition modify (f : State -> State) : M unit := fun s => (tt, f s).

Notation "x <- c1 ;; c2" := (bind c1 (fun x => c2))
  (at level 100, c1 at next level, right associativity).
Notation "c1 ;; c2" := (bind c1 (fun _ => c2))
  (at level 100, right associativity).

(** [for x in xs: body x] where the body may ask to [break]. *)
Fixpoint for_each {A} (xs : list A) (body : A -> M unit) : M unit :=
  match xs with
  | [] => ret tt
  | x :: xs' => body x ;; for_each xs' body
  end.

Definition emit (e : event) : M unit :=
  modify (fun s => set_trace (e :: trace s) s).

(** [sorted(xs, key=key)]: a stable sort; insertion from the right keeps
    equal keys in their original order. *)
Fixpoint insert_by {A} (key : A -> Q) (x : A) (l : list A) : list A :=
  match l with
  | [] => [x]
  | y :: l' =>
      if Qle_bool (key x) (key y) then x :: l else y :: insert_by key x l'
  end.

Fixpoint sorted_by {A} (key : A -> Q) (l : list A) : list A :=
  match l with
  | [] => []
  | x :: l' => insert_by key x (sorted_by key l')
  end.

(** [results[mac] = value] on an insertion-ordered dictionary. *)
Fixpoint dict_set {V} (k : string) (v : V) (d : list (string * V))
  : list (string * V) :=
  match d with
  | [] => [(k, v)]
  | (k', v') :: d' =>
      if String.eqb k' k then (k, v) :: d' else (k', v') :: dict_set k v d'
  end.

(** Keys of a snapshot whose entry satisfies [P]. *)
Definition macs_where (P : device_info -> bool) (s : snapshot) : list string :=
  (filter (fun kv => Is_true (P kv.2)) (map_to_list s)).*1.

(** The store calls recorded in a trace, newest first. *)
Fixpoint submitted (tr : list event) : list convex_call :=
  match tr with
  | [] => []
  | EvConvexSubmit c _ :: tr' => c :: submitted tr'
  | _ :: tr' => submitted tr'
  end.

(** ** Vocabulary for statements about runs *)

(** [steps R c]: running [c] from any state leads to an [R]-related state. *)
Definition steps (R : relation State) {A} (c : M A) : Prop :=
  forall st, R st (c st).2.

(** The computation only talks to the world, and every new event
    satisfies [P]; globals are untouched. *)
Definition only_events (P : event -> Prop) : relation State :=
  fun st st' =>
    exists evs, st' = set_trace (evs ++ trace st) st /\ Forall P evs.

(** Every new event satisfies [P]; globals may change. *)
Definition new_events (P : event -> Prop) : relation State :=
  fun st st' => exists evs, trace st' = evs ++ trace st /\ Forall P evs.

Definition is_snapshot_fetch (e : event) : Prop :=
  match e with EvSnapshot _ => True | _ => False end.

Definition is_connect_primitive (e : event) : Prop :=
  match e with
  | EvDbusMethod _ _ _ _ | EvBluetoothctl _ _ _ => True
  | _ => False
  end.

Definition is_connected_read (e : event) : Prop :=
  match e with EvReadConnected _ _ => True | _ => False end.

Definition is_trust_event (e : event) : Prop :=
  match e with EvTrust _ _ => True | _ => False end.

Definition is_removal (e : event) : Prop :=
  match e with EvRemoveDevice _ _ _ => True | _ => False end.

(** The snapshot has no usable link handle for the address: no record
    under the upper-cased address, or a record whose path is missing or
    empty. *)
Definition no_link_handle (mac : string) (s : snapshot) : Prop :=
  truthy_str (s !! upper mac ≫= di_path) = false.

(** Does a property read (or its failure, [None]) agree with the expected
    connection state? *)
Definition read_matches (expect_connected : bool) (r : option bool) : bool :=
  match r with
  | Some c => if expect_connected then c else negb c
  | None => false
  end.

(** What the snapshot says about the expected state of [mac]. *)
Definition snapshot_matches (mac : string) (expect_connected : bool)
    (s : snapshot) : bool :=
  let connected :=
    match s !! upper mac with
    | Some device => di_connected device
    | None => false
    end in
  if expect_connected then connected else negb connected.

(** The verification protocol in the words of the specification: up to
    three reads of the live property, a pause of 200ms after the first
    failed read and twice that after the second, and only after three
    failed reads a snapshot as the final check.  Events are listed oldest
    first. *)
Inductive verification_run (mac path : string) (expect : bool)
  : list event -> bool -> Prop :=
| vr_first r1 :
    read_matches expect r1 = true ->
    verification_run mac path expect [EvReadConnected path r1] true
| vr_second r1 d1 r2 :
    read_matches expect r1 = false ->
    (d1 == 2 # 10)%Q ->
    read_matches expect r2 = true ->
    verification_run mac path expect
      [EvReadConnected path r1; EvSleep d1; EvReadConnected path r2] true
| vr_third r1 d1 r2 d2 r3 :
    read_matches expect r1 = false ->
    (d1 == 2 # 10)%Q ->
    read_matches expect r2 = false ->
    (d2 == 2 * d1)%Q ->
    read_matches expect r3 = true ->
    verification_run mac path expect
      [EvReadConnected path r1; EvSleep d1; EvReadConnected path r2;
       EvSleep d2; EvReadConnected path r3] true
| vr_fallback r1 d1 r2 d2 r3 s :
    read_matches expect r1 = false ->
    (d1 == 2 # 10)%Q ->
    read_matches expect r2 = false ->
    (d2 == 2 * d1)%Q ->
    read_matches expect r3 = false ->
    verification_run mac path expect
      [EvReadConnected path r1; EvSleep d1; EvReadConnected path r2;
       EvSleep d2; EvReadConnected path r3; EvSnapshot s]
      (snapshot_matches mac expect s).

(** The reads, the pauses and the snapshots in a list of events. *)
Definition reads_of (evs : list event) : list (option bool) :=
  omap (fun e => match e with EvReadConnected _ r => Some r | _ => None end) evs.

Definition sleeps_of (evs : list event) : list Q :=
  omap (fun e => match e with EvSleep d => Some d | _ => None end) evs.

Definition snapshots_of (evs : list event) : list snapshot :=
  omap (fun e => match e with EvSnapshot s => Some s | _ => None end) evs.

(** ** Example worlds *)

(** A world in which every clock reads [t], every fetch returns [snap],
    every link primitive fails and every store call has outcome [o]. *)
Definition const_world (t : Q) (snap : snapshot) (o : outcome_kind) : World := {|
  w_monotonic := fun _ => t;
  w_time := fun _ => t;
  w_snapshot := fun _ => snap;
  w_trust := fun _ _ => false;
  w_dbus_method := fun _ _ _ _ _ => WorkerStuck;
  w_bluetoothctl := fun _ _ _ _ => BtTimeoutExpired;
  w_read_connected := fun _ _ => None;
  w_adapter := fun _ => LookupDone None;
  w_remove_device := fun _ _ => false;
  w_start_discovery := fun _ => CallRaised;
  w_stop_discovery := fun _ => CallRaised;
  w_set_order := elements;
  w_set_order_perm := fun X => reflexivity (elements X);
  w_getDevices := fun _ =>
    match o with
    | KReturned => Returned (Some []) | KTimedOut => TimedOut | KRaised => Raised
    end;
  w_registerPendingDevice := fun _ _ _ =>
    match o with
    | KReturned => Returned (Some tt) | KTimedOut => TimedOut | KRaised => Raised
    end;
  w_cleanupExpiredGracePeriods := fun _ =>
    match o with
    | KReturned =>
        Returned (Some {| cr_deletedCount := None; cr_deletedMacs := None |})
    | KTimedOut => TimedOut
    | KRaised => Raised
    end;
  w_logAttendance := fun _ _ _ _ =>
    match o with
    | KReturned => Returned (Some tt) | KTimedOut => TimedOut | KRaised => Raised
    end;
  w_updateDeviceStatus := fun _ _ _ =>
    match o with
    | KReturned => Returned (Some tt) | KTimedOut => TimedOut | KRaised => Raised
    end
|}.

Fixpoint cleanups_so_far (tr : list event) : Z :=
  match tr with
  | [] => 0
  | EvConvexSubmit CleanupExpiredGracePeriods _ :: tr' => 1 + cleanups_so_far tr'
  | _ :: tr' => cleanups_so_far tr'
  end.

(** A world for running whole cycles: one paired device with a signal
    reading is in the snapshot, the adapter scans, the store is reachable
    and empty, and both clocks start at 100 and advance by 20 seconds with
    every completed cycle (each cycle ends with one cleanup action). *)
Definition demo_device : device_info := {|
  di_path := Some "/org/bluez/hci0/dev_AA_BB_CC_DD_EE_FF";
  di_name := None; di_alias := None; di_connected := false;
  di_paired := true; di_trusted := false; di_rssi := Some (-60)%Z;
  di_tx_power := None
|}.

Definition demo_world : World := {|
  w_monotonic := fun tr => (100 + 20 * inject_Z (cleanups_so_far tr))%Q;
  w_time := fun tr => (100 + 20 * inject_Z (cleanups_so_far tr))%Q;
  w_snapshot := fun _ => {[ "AA:BB:CC:DD:EE:FF" := demo_device ]};
  w_trust := fun _ _ => true;
  w_dbus_method := fun _ _ _ _ _ => WorkerStuck;
  w_bluetoothctl := fun _ _ _ _ => BtTimeoutExpired;
  w_read_connected := fun _ _ => None;
  w_adapter := fun _ => LookupDone (Some "/org/bluez/hci0");
  w_remove_device := fun _ _ => true;
  w_start_discovery := fun _ => CallDone;
  w_stop_discovery := fun _ => CallDone;
  w_set_order := elements;
  w_set_order_perm := fun X => reflexivity (elements X);
  w_getDevices := fun _ => Returned (Some []);
  w_registerPendingDevice := fun _ _ _ => Returned (Some tt);
  w_cleanupExpiredGracePeriods := fun _ =>
    Returned (Some {| cr_deletedCount := None; cr_deletedMacs := None |});
  w_logAttendance := fun _ _ _ _ => Returned (Some tt);
  w_updateDeviceStatus := fun _ _ _ => Returned (Some tt)
|}.

(** The store calls of a trace with their outcomes, newest first. *)
Fixpoint outcomes_of (tr : list event) : list (convex_call * outcome_kind) :=
  match tr with
  | [] => []
  | EvConvexSubmit c k :: tr' => (c, k) :: outcomes_of tr'
  | _ :: tr' => outcomes_of tr'
  end.

(** The [RemoveDevice] calls of a trace, newest first: address, device
    path, and whether the call succeeded. *)
Fixpoint removals_of (tr : list event) : list (string * string * bool) :=
  match tr with
  | [] => []
  | EvRemoveDevice mac path ok :: tr' => (mac, path, ok) :: removals_of tr'
  | _ :: tr' => removals_of tr'
  end.

(** A record of the store for some other device. *)
Definition known_device : store_device := {|
  sd_macAddress := Some "11:22:33:44:55:66";
  sd_name := Some "Phone";
  sd_status := Some (Some "absent");
  sd_connectedSince := None;
  sd_pendingRegistration := false;
  sd_firstName := None;
  sd_lastName := None
|}.

(** [demo_world] with a store that is slow to wake up: the first device
    query times out, every later one returns [known_device]. *)
Definition slow_start_world : World := {|
  w_monotonic := w_monotonic demo_world;
  w_time := w_time demo_world;
  w_snapshot := w_snapshot demo_world;
  w_trust := w_trust demo_world;
  w_dbus_method := w_dbus_method demo_world;
  w_bluetoothctl := w_bluetoothctl demo_world;
  w_read_connected := w_read_connected demo_world;
  w_adapter := w_adapter demo_world;
  w_remove_device := w_remove_device demo_world;
  w_start_discovery := w_start_discovery demo_world;
  w_stop_discovery := w_stop_discovery demo_world;
  w_set_order := elements;
  w_set_order_perm := fun X => reflexivity (elements X);
  w_getDevices := fun tr =>
    match outcomes_of tr with
    | [] => TimedOut
    | _ => Returned (Some [known_device])
    end;
  w_registerPendingDevice := w_registerPendingDevice demo_world;
  w_cleanupExpiredGracePeriods := w_cleanupExpiredGracePeriods demo_world;
  w_logAttendance := w_logAttendance demo_world;
  w_updateDeviceStatus := w_updateDeviceStatus demo_world
|}.

(** A state late in a long absence: the address has failed 1024 probes in
    a row, the last of which scheduled the next attempt for time 900. *)
Definition long_absent_state : State :=
  set_failed_connection_attempts {[ "AA:BB:CC:DD:EE:FF" := 1024%Z ]}
    (set_next_probe_allowed_at {[ "AA:BB:CC:DD:EE:FF" := 900%Q ]}
       initial_state).

(* ===================================================================== *)
(** * The model *)
(* ===================================================================== *)

Section Model.
Context (cfg : Config) (w : World).

(** ** Clocks *)

(** [time.monotonic()] *)
Definition monotonic : M Q :=
  tr <- gets trace ;;
  let t := w_monotonic w tr in
  emit (EvMonotonic t) ;; ret t.

(** [time.time()] *)
Definition time_time : M Q :=
  tr <- gets trace ;;
  let t := w_time w tr in
  emit (EvTime t) ;; ret t.

(** [time.sleep(seconds)] *)
Definition sleep (seconds : Q) : M unit := emit (EvSleep seconds).

(** ** bluetooth_scanner.py: snapshot access *)

(** [get_device_snapshot()]: one [GetManagedObjects] round trip; on a
    D-Bus error the function returns the empty dictionary. *)
Definition get_device_snapshot : M snapshot :=
  tr <- gets trace ;;
  let s := w_snapshot w tr in
  emit (EvSnapshot s) ;; ret s.

(** [snapshot or get_device_snapshot()]: [None] and the empty dictionary
    are both falsy, so both trigger a fresh fetch. *)
Definition snapshot_or (snap : option snapshot) : M snapshot :=
  match snap with
  | Some s => if bool_decide (s = ∅) then get_device_snapshot else ret s
  | None => get_device_snapshot
  end.

Definition _device_has_presence_signal (device_info : device_info)
    (rssi_fresh : bool) : bool :=
  if di_connected device_info then true
  else if negb rssi_fresh then false
  else bool_decide (di_rssi device_info <> None)
       || bool_decide (di_tx_power device_info <> None).

Definition _is_rssi_fresh (now : Q) : M bool :=
  last <- gets _last_rssi_refresh_time ;;
  ret (Qle_bool (now - last) (inject_Z (RSSI_FRESHNESS_SECONDS cfg))).

Definition check_device_connected (mac_address : string)
    (snap : option snapshot) : M bool :=
  s <- snapshot_or snap ;;
  match s !! upper mac_address with
  | None => ret false
  | Some device => ret (di_connected device)
  end.

Definition get_device_name (mac_address : string) (snap : option snapshot)
  : M (option string) :=
  s <- snapshot_or snap ;;
  match s !! upper mac_address with
  | None => ret None
  | Some device => ret (str_or (di_alias device) (di_name device))
  end.

Definition get_all_connected_devices (snap : option snapshot)
  : M (list string) :=
  s <- snapshot_or snap ;;
  ret (macs_where di_connected s).

Definition get_paired_devices (snap : option snapshot) : M (list string) :=
  s <- snapshot_or snap ;;
  ret (macs_where di_paired s).

Definition _get_device_path (mac_address : string) (snap : option snapshot)
  : M (option string) :=
  s <- snapshot_or snap ;;
  match s !! upper mac_address with
  | None => ret None
  | Some device => ret (di_path device)
  end.

Definition trust_device (mac_address : string) (snap : option snapshot)
  : M bool :=
  s <- snapshot_or snap ;;
  device_path <- _get_device_path mac_address (Some s) ;;
  if negb (truthy_str device_path) then ret false
  else
    let path := default "" device_path in
    tr <- gets trace ;;
    let ok := w_trust w tr path in
    emit (EvTrust path ok) ;; ret ok.

Definition is_device_trusted (mac_address : string) (snap : option snapshot)
  : M bool :=
  s <- snapshot_or snap ;;
  match s !! upper mac_address with
  | None => ret false
  | Some device => ret (di_trusted device)
  end.

(** ** bluetooth_scanner.py: connection controller *)

(** [_invoke_with_hard_timeout(lambda: _dbus_device_method(device_path,
    method_name, timeout), ..., hard_timeout)].  An exception whose text is
    empty is falsy and therefore reported as success. *)
Definition _invoke_with_hard_timeout (device_path method_name : string)
    (timeout : Z) (hard_timeout : Q) : M (bool * option string) :=
  tr <- gets trace ;;
  let o := w_dbus_method w tr device_path method_name timeout hard_timeout in
  emit (EvDbusMethod device_path method_name timeout o) ;;
  match o with
  | WorkerStuck => ret (false, Some "hard timeout")
  | WorkerDone error =>
      if truthy_str error then ret (false, error) else ret (true, None)
  end.

Definition _run_bluetoothctl_operation (command mac_address : string)
    (hard_timeout : Q) : M (bool * option string) :=
  tr <- gets trace ;;
  let o := w_bluetoothctl w tr command mac_address hard_timeout in
  emit (EvBluetoothctl command mac_address o) ;;
  match o with
  | BtCompleted returncode detail => ret ((returncode =? 0)%Z, detail)
  | BtTimeoutExpired => ret (false, Some "bluetoothctl timeout")
  | BtFileNotFound => ret (false, Some "bluetoothctl missing")
  end.

(** [_read_connected_property(device_path)]: [None] when the read raised. *)
Definition _read_connected_property (device_path : string) : M (option bool) :=
  tr <- gets trace ;;
  let r := w_read_connected w tr device_path in
  emit (EvReadConnected device_path r) ;; ret r.

(** The [for attempt in range(max_attempts)] loop of
    [_verify_connected_state]; [true] stands for the early [return True]. *)
Fixpoint verify_attempts (max_attempts : Z) (base_delay : Q)
    (attempts : list Z) (device_path : string) (expect_connected : bool)
  : M bool :=
  match attempts with
  | [] => ret false
  | attempt :: rest =>
      connected <- _read_connected_property device_path ;;
      let pause :=
        if (attempt <? max_attempts - 1)%Z
        then sleep (base_delay * inject_Z (2 ^ attempt))%Q
        else ret tt in
      match connected with
      | None =>
          pause ;;
          verify_attempts max_attempts base_delay rest device_path
            expect_connected
      | Some c =>
          let state_matches := if expect_connected then c else negb c in
          if state_matches then ret true
          else
            pause ;;
            verify_attempts max_attempts base_delay rest device_path
              expect_connected
      end
  end.

Definition _verify_connected_state (mac_address device_path : string)
    (expect_connected : bool) : M bool :=
  let max_attempts := 3%Z in
  let base_delay := (2 # 10)%Q in
  matched <- verify_attempts max_attempts base_delay (seqZ 0 max_attempts)
               device_path expect_connected ;;
  if matched then ret true
  else
    connected <- check_device_connected mac_address None ;;
    ret (if expect_connected then connected else negb connected).

(** The delay computed in [_record_probe_failure]:
    [min(PROBE_BACKOFF_BASE_SECONDS * (2 ** (failures - 1)),
         PROBE_BACKOFF_MAX_SECONDS)].
    The power is an int and the base a float, so the product converts the
    power first. *)
Definition probe_backoff (failures : Z) : result Q :=
  match float_of_int (2 ^ (failures - 1)) with
  | Ok factor =>
      Ok (Qmin (PROBE_BACKOFF_BASE_SECONDS cfg * factor)%Q
               (PROBE_BACKOFF_MAX_SECONDS cfg))
  | Raises e => Raises e
  end.

(** The count is stored before the delay is computed; when the computation
    raises, the next-allowed time keeps its previous value. *)
Definition _record_probe_failure (mac_address : string) : M (result unit) :=
  failed <- gets _failed_connection_attempts ;;
  let failures := (default 0 (failed !! mac_address) + 1)%Z in
  modify (set_failed_connection_attempts (<[mac_address := failures]> failed)) ;;
  if (failures <=? 0)%Z then ret (Ok tt)
  else
    match probe_backoff failures with
    | Raises e => ret (Raises e)
    | Ok backoff =>
        t <- monotonic ;;
        modify (fun s =>
          set_next_probe_allowed_at
            (<[mac_address := (t + backoff)%Q]> (_next_probe_allowed_at s)) s) ;;
        ret (Ok tt)
    end.

Definition _reset_probe_failure (mac_address : string) : M unit :=
  modify (fun s =>
    set_failed_connection_attempts
      (delete mac_address (_failed_connection_attempts s)) s) ;;
  modify (fun s =>
    set_next_probe_allowed_at
      (delete mac_address (_next_probe_allowed_at s)) s).

Definition HARD_CONNECT_TIMEOUT_SECONDS : Q :=
  (inject_Z (CONNECT_TIMEOUT_SECONDS cfg) + CONNECT_TIMEOUT_BUFFER_SECONDS cfg)%Q.

Definition HARD_PROBE_CONNECT_TIMEOUT_SECONDS : Q :=
  (inject_Z (PROBE_CONNECT_TIMEOUT_SECONDS cfg)
   + PROBE_CONNECT_TIMEOUT_BUFFER_SECONDS cfg)%Q.

(** [connect_device] has no handler of its own: an exception raised while
    the failure is recorded escapes to the caller. *)
Definition connect_device (mac_address : string) (snap : option snapshot)
    (timeout : Z) : M (result bool) :=
  s <- snapshot_or snap ;;
  trusted <- is_device_trusted mac_address (Some s) ;;
  (if negb trusted then trust_device mac_address (Some s) ;; ret tt
   else ret tt) ;;
  device_path <- _get_device_path mac_address (Some s) ;;
  if negb (truthy_str device_path) then ret (Ok false)
  else
    let path := default "" device_path in
    let hard_timeout :=
      if (timeout =? PROBE_CONNECT_TIMEOUT_SECONDS cfg)%Z
      then HARD_PROBE_CONNECT_TIMEOUT_SECONDS
      else (inject_Z timeout + CONNECT_TIMEOUT_BUFFER_SECONDS cfg)%Q in
    r <- _invoke_with_hard_timeout path "Connect" timeout hard_timeout ;;
    (if negb r.1
     then _run_bluetoothctl_operation "connect" mac_address hard_timeout ;;
          ret tt
     else ret tt) ;;
    verified <- _verify_connected_state mac_address path true ;;
    if verified then _reset_probe_failure mac_address ;; ret (Ok true)
    else
      recorded <- _record_probe_failure mac_address ;;
      match recorded with
      | Ok _ => ret (Ok false)
      | Raises e => ret (Raises e)
      end.

Definition disconnect_device (mac_address : string) (snap : option snapshot)
  : M bool :=
  device_path <- _get_device_path mac_address snap ;;
  if negb (truthy_str device_path) then ret false
  else
    let path := default "" device_path in
    r <- _invoke_with_hard_timeout path "Disconnect"
           (CONNECT_TIMEOUT_SECONDS cfg) HARD_CONNECT_TIMEOUT_SECONDS ;;
    (if negb r.1
     then _run_bluetoothctl_operation "disconnect" mac_address
            HARD_CONNECT_TIMEOUT_SECONDS ;;
          ret tt
     else ret tt) ;;
    _verify_connected_state mac_address path false.

(** [_get_managed_objects()] as [remove_device] and [refresh_discovery]
    call it, just before [_get_adapter_path]. *)
Definition _get_managed_objects : M adapter_lookup :=
  tr <- gets trace ;;
  let o := w_adapter w tr in
  emit (EvAdapterLookup o) ;; ret o.

(** [_get_adapter_path(managed_objects)] on objects that were fetched:
    the cached path when there is one, whatever the objects hold; else
    the adapter found in the objects, which is cached from then on.  (An
    empty reply is fetched once more when nothing is cached; [found], and
    [LookupRaised] before it, stand for the outcome of both fetches.) *)
Definition _get_adapter_path (found : option string) : M (option string) :=
  cache <- gets _adapter_path_cache ;;
  match cache with
  | Some path => ret (Some path)
  | None =>
      match found with
      | Some path =>
          modify (set_adapter_path_cache (Some path)) ;; ret (Some path)
      | None => ret None
      end
  end.

(** [remove_device]: [ok] is false when [RemoveDevice], or reaching the
    adapter object, raised. *)
Definition remove_device (mac_address : string) (snap : option snapshot)
  : M bool :=
  s <- snapshot_or snap ;;
  device_path <- _get_device_path mac_address (Some s) ;;
  if negb (truthy_str device_path) then ret false
  else
    let path := default "" device_path in
    managed_objects <- _get_managed_objects ;;
    match managed_objects with
    | LookupRaised => ret false
    | LookupDone found =>
        adapter_path <- _get_adapter_path found ;;
        if negb (truthy_str adapter_path) then ret false
        else
          tr' <- gets trace ;;
          let ok := w_remove_device w tr' path in
          emit (EvRemoveDevice mac_address path ok) ;; ret ok
    end.

(** ** bluetooth_scanner.py: probe scheduler *)

Definition _can_attempt_reconnection (mac_address : string) : M bool :=
  now <- monotonic ;;
  attempts <- gets _last_connection_attempts ;;
  let last_attempt := default 0%Q (attempts !! mac_address) in
  t <- time_time ;;
  let time_since_attempt := (t - last_attempt)%Q in
  if Qltb time_since_attempt RECONNECT_COOLDOWN then ret false
  else
    allowed <- gets _next_probe_allowed_at ;;
    match allowed !! mac_address with
    | Some next_allowed =>
        if negb (Qeq_bool next_allowed 0) && Qltb now next_allowed
        then ret false else ret true
    | None => ret true
    end.

Definition _record_connection_attempt (mac_address : string) : M unit :=
  t <- time_time ;;
  modify (fun s =>
    set_last_connection_attempts
      (<[mac_address := t]> (_last_connection_attempts s)) s).

Definition last_attempt (attempts : gmap string Q) (mac : string) : Q :=
  default 0%Q (attempts !! mac).

Definition _pick_reconnect_candidates (candidates : gset string)
    (max_count : Z) : M (list string) :=
  if (max_count <=? 0)%Z then ret (w_set_order w candidates)
  else
    attempts <- gets _last_connection_attempts ;;
    ret (take (Z.to_nat max_count)
           (sorted_by (last_attempt attempts) (w_set_order w candidates))).

(** The body runs under [try ... except Exception], which turns a raised
    exception into a failed probe. *)
Definition _probe_single_device (mac_address : string)
    (disconnect_after : bool) (snap : option snapshot) : M (string * bool) :=
  _record_connection_attempt mac_address ;;
  attempt <- connect_device mac_address snap (PROBE_CONNECT_TIMEOUT_SECONDS cfg) ;;
  match attempt with
  | Ok success =>
      (if success && disconnect_after
       then disconnect_device mac_address snap ;; ret tt
       else ret tt) ;;
      ret (mac_address, success)
  | Raises _ => ret (mac_address, false)
  end.

(** The [for mac_address in ordered_candidates] loop of [probe_devices]. *)
Fixpoint probe_loop (ordered_candidates : list string)
    (disconnect_after : bool) (snap : option snapshot)
    (time_budget_seconds : option Q) (start_time : Q)
    (results : list (string * bool)) : M (list (string * bool)) :=
  match ordered_candidates with
  | [] => ret results
  | mac_address :: rest =>
      exceeded <-
        match time_budget_seconds with
        | Some budget =>
            t <- monotonic ;; ret (Qle_bool budget (t - start_time))
        | None => ret false
        end ;;
      if (exceeded : bool) then ret results
      else
        can <- _can_attempt_reconnection mac_address ;;
        if negb can
        then probe_loop rest disconnect_after snap time_budget_seconds
               start_time results
        else
          r <- _probe_single_device mac_address disconnect_after snap ;;
          probe_loop rest disconnect_after snap time_budget_seconds
            start_time (dict_set r.1 r.2 results)
  end.

Definition probe_devices (mac_addresses : list string)
    (disconnect_after : bool) (connected_macs : option (gset string))
    (snap : option snapshot) (time_budget_seconds : option Q)
  : M (list (string * bool)) :=
  match mac_addresses with
  | [] => ret []
  | _ =>
      let candidate_set : gset string := list_to_set (upper <$> mac_addresses) in
      let candidate_set :=
        match connected_macs with
        | Some c =>
            if bool_decide (c = ∅) then candidate_set
            else candidate_set ∖ set_map upper c
        | None => candidate_set
        end in
      if bool_decide (candidate_set = ∅) then ret []
      else
        let max_candidates :=
          if (0 <? MAX_RECONNECT_PER_CYCLE cfg)%Z
          then MAX_RECONNECT_PER_CYCLE cfg else 0%Z in
        ordered_candidates <-
          _pick_reconnect_candidates candidate_set max_candidates ;;
        match ordered_candidates with
        | [] => ret []
        | _ =>
            start_time <- monotonic ;;
            probe_loop ordered_candidates disconnect_after snap
              time_budget_seconds start_time []
        end
  end.

Definition get_devices_in_range (s : snapshot) (now : option Q)
  : M (gset string) :=
  now' <-
    match now with
    | Some t => if Qeq_bool t 0 then time_time else ret t
    | None => time_time
    end ;;
  rssi_fresh <- _is_rssi_fresh now' ;;
  ret (list_to_set
         (macs_where (fun info => _device_has_presence_signal info rssi_fresh) s)).

(** [refresh_discovery(duration)].  A [DBusException] of
    [StartDiscovery] or [StopDiscovery] is swallowed and the refresh goes
    on; any other exception ends it at once ([CallRaised] of the start
    also stands for a failure to reach the adapter object). *)
Definition refresh_discovery (duration : Z) : M unit :=
  if (duration <=? 0)%Z then ret tt
  else
    managed_objects <- _get_managed_objects ;;
    match managed_objects with
    | LookupRaised => ret tt
    | LookupDone found =>
        adapter_path <- _get_adapter_path found ;;
        if negb (truthy_str adapter_path) then ret tt
        else
          tr <- gets trace ;;
          let started := w_start_discovery w tr in
          emit (EvStartDiscovery started) ;;
          match started with
          | CallRaised => ret tt
          | _ =>
              sleep (inject_Z duration) ;;
              tr' <- gets trace ;;
              let stopped := w_stop_discovery w tr' in
              emit (EvStopDiscovery stopped) ;;
              match stopped with
              | CallRaised => ret tt
              | _ =>
                  t <- time_time ;;
                  modify (set_last_rssi_refresh_time t)
              end
          end
    end.

(** ** presence_tracker.py: upstream sync client *)

(** [future = _convex_executor.submit(fn); future.result(timeout=...)] *)
Definition executor_submit {T} (fn : convex_fn T) (description : convex_call)
  : M (outcome T) :=
  tr <- gets trace ;;
  let o := fn tr in
  emit (EvConvexSubmit description (kind_of o)) ;; ret o.

(** [_submit_convex_call(fn, description)].  The description stands for
    the name of the store function together with the arguments the closure
    captured. *)
Definition _submit_convex_call {T} (fn : convex_fn T) (description : convex_call)
  : M (option T) :=
  now <- monotonic ;;
  open_until <- gets _convex_circuit_open_until ;;
  if Qltb now open_until then ret None
  else
    o <- executor_submit fn description ;;
    match o with
    | Returned result =>
        modify (set_convex_consecutive_timeouts 0) ;;
        ret result
    | TimedOut =>
        n <- gets _convex_consecutive_timeouts ;;
        modify (set_convex_consecutive_timeouts (n + 1)) ;;
        (if (MAX_CONVEX_CONSECUTIVE_TIMEOUTS cfg <=? n + 1)%Z
         then t <- monotonic ;;
              modify (set_convex_circuit_open_until
                        (t + CONVEX_CIRCUIT_OPEN_SECONDS cfg)%Q)
         else ret tt) ;;
        ret None
    | Raised =>
        modify (set_convex_consecutive_timeouts 0) ;;
        ret None
    end.

(** [get_known_devices()] *)
Definition get_known_devices : M (list store_device) :=
  result <- _submit_convex_call (w_getDevices w) GetDevices ;;
  match result with
  | None => ret []
  | Some devices => ret devices
  end.

(** [register_new_device(mac_address, name)] *)
Definition register_new_device (mac_address : string) (name : option string)
  : M bool :=
  let name' := default "" (str_or name (Some "")) in
  result <- _submit_convex_call (w_registerPendingDevice w mac_address name')
              (RegisterPendingDevice mac_address name') ;;
  match result with
  | None => ret false
  | Some _ => ret true
  end.

(** [log_attendance(mac_address, name, status)] *)
Definition log_attendance (mac_address name status : string) : M bool :=
  result <- _submit_convex_call (w_logAttendance w mac_address name status)
              (LogAttendance mac_address name status) ;;
  match result with
  | None => ret false
  | Some _ => ret true
  end.

(** [get_device_by_mac(mac_address)] *)
Definition get_device_by_mac (mac_address : string) : M (option store_device) :=
  devices <- get_known_devices ;;
  ret (List.find
         (fun device => bool_decide (sd_macAddress device = Some mac_address))
         devices).

(** ** presence_tracker.py: reconciliation loop *)

Definition discard_failed_registration (mac_address : string) : M unit :=
  modify (fun s =>
    set_failed_registrations (failed_registrations s ∖ {[mac_address]}) s).

Definition add_failed_registration (mac_address : string) : M unit :=
  modify (fun s =>
    set_failed_registrations (failed_registrations s ∪ {[mac_address]}) s).

Definition set_previous_status (mac_address status : string) : M unit :=
  modify (fun s =>
    set_device_previous_status
      (<[mac_address := status]> (device_previous_status s)) s).

Definition bump_recently_seen (mac_address : string) (now : Q) : M unit :=
  modify (fun s =>
    set_recently_seen_devices
      (<[mac_address := now]> (recently_seen_devices s)) s).

(** [device_first_seen.pop(mac_address, None)] *)
Definition pop_first_seen (mac_address : string) : M unit :=
  modify (fun s =>
    set_device_first_seen (delete mac_address (device_first_seen s)) s).

(** [cleanup_expired_devices(snapshot)] *)
Definition cleanup_expired_devices (snap : option snapshot) : M bool :=
  result <- _submit_convex_call (w_cleanupExpiredGracePeriods w)
              CleanupExpiredGracePeriods ;;
  match result with
  | None => ret false
  | Some r =>
      let deleted_count := default 0%Z (cr_deletedCount r) in
      let deleted_macs := default [] (cr_deletedMacs r) in
      (if (0 <? deleted_count)%Z
       then for_each deleted_macs (fun mac_address =>
              disconnect_device mac_address snap ;;
              remove_device mac_address snap ;;
              discard_failed_registration mac_address)
       else ret tt) ;;
      ret true
  end.

(** [{device.get("macAddress") for device in convex_devices
      if device.get("macAddress")}] *)
Definition convex_macs_of (convex_devices : list store_device) : gset string :=
  list_to_set
    (omap (fun device =>
             if truthy_str (sd_macAddress device) then sd_macAddress device
             else None)
          convex_devices).

(** [cleanup_stale_bluetooth_pairings(convex_devices, snapshot)] *)
Definition cleanup_stale_bluetooth_pairings
    (convex_devices : option (list store_device)) (snap : option snapshot)
  : M unit :=
  s <- snapshot_or snap ;;
  paired_devices <- get_paired_devices (Some s) ;;
  let paired_set : gset string := list_to_set paired_devices in
  connected_devices <- get_all_connected_devices (Some s) ;;
  let connected_set : gset string := list_to_set connected_devices in
  convex_devices' <-
    match convex_devices with
    | Some (d :: ds) => ret (d :: ds)
    | _ => get_known_devices
    end ;;
  match convex_devices' with
  | [] => ret tt
  | _ =>
      let convex_macs := convex_macs_of convex_devices' in
      let stale_devices := paired_set ∖ convex_macs ∖ connected_set in
      for_each (w_set_order w stale_devices) (fun mac_address =>
        remove_device mac_address (Some s) ;; ret tt)
  end.

Definition status_of (is_connected : bool) : string :=
  if is_connected then "present" else "absent".

(** The tail of [update_device_status], after the store accepted the
    update: attendance is logged for records that are not pending, and the
    new status is remembered. *)
Definition after_status_update (mac_address new_status : string)
    (device_cache : option (gmap string store_device)) : M bool :=
  device <-
    match device_cache with
    | Some cache =>
        if bool_decide (cache = ∅) then get_device_by_mac mac_address
        else ret (cache !! mac_address)
    | None => get_device_by_mac mac_address
    end ;;
  match device with
  | Some d =>
      if negb (sd_pendingRegistration d)
      then
        let name :=
          if truthy_str (sd_firstName d) && truthy_str (sd_lastName d)
          then (default "" (sd_firstName d) ++ " "
                ++ default "" (sd_lastName d))%string
          else default mac_address (sd_name d) in
        log_attendance mac_address name new_status ;; ret tt
      else ret tt
  | None => ret tt
  end ;;
  set_previous_status mac_address new_status ;;
  ret true.

(** [update_device_status(mac_address, is_connected, current_status,
    device_cache)] *)
Definition update_device_status (mac_address : string) (is_connected : bool)
    (current_status : option string)
    (device_cache : option (gmap string store_device)) : M bool :=
  let new_status := status_of is_connected in
  remembered <- gets device_previous_status ;;
  let previous_status :=
    match current_status with
    | Some _ => current_status
    | None => remembered !! mac_address
    end in
  if bool_decide (previous_status = Some new_status)
  then set_previous_status mac_address new_status ;; ret true
  else
    result <- _submit_convex_call
                (w_updateDeviceStatus w mac_address new_status)
                (UpdateDeviceStatus mac_address new_status) ;;
    match result with
    | None => ret false
    | Some _ => after_status_update mac_address new_status device_cache
    end.

(** [_should_register_device(mac_address, device_info, now)] *)
Definition _should_register_device (mac_address : string)
    (device_info : device_info) (now : Q) : M bool :=
  if negb (di_paired device_info || di_connected device_info
           || di_trusted device_info)
  then ret false
  else
    let has_presence :=
      di_connected device_info
      || bool_decide (di_rssi device_info <> None)
      || bool_decide (di_tx_power device_info <> None) in
    if negb has_presence then ret false
    else
      seen <- gets device_first_seen ;;
      match seen !! mac_address with
      | None =>
          modify (set_device_first_seen (<[mac_address := now]> seen)) ;;
          ret false
      | Some first_seen =>
          if Qltb (now - first_seen)
                  (inject_Z (FIRST_SEEN_DEBOUNCE_SECONDS cfg))
          then ret false
          else ret true
      end.

(** The [for mac_address in devices_in_range] loop of
    [_find_registration_candidates]. *)
Fixpoint find_candidates_loop (macs : list string) (s : snapshot)
    (connected_set : gset string) (now : Q)
    (candidates : list (string * device_info))
  : M (list (string * device_info)) :=
  match macs with
  | [] => ret candidates
  | mac_address :: rest =>
      if bool_decide (mac_address ∈ connected_set)
      then find_candidates_loop rest s connected_set now candidates
      else
        match s !! mac_address with
        | None => find_candidates_loop rest s connected_set now candidates
        | Some device_info =>
            ok <- _should_register_device mac_address device_info now ;;
            if ok
            then find_candidates_loop rest s connected_set now
                   (candidates ++ [(mac_address, device_info)])
            else find_candidates_loop rest s connected_set now candidates
        end
  end.

Definition _find_registration_candidates (s : snapshot)
    (connected_set : gset string) (now : Q)
  : M (list (string * device_info)) :=
  devices_in_range <- get_devices_in_range s (Some now) ;;
  find_candidates_loop (w_set_order w devices_in_range) s connected_set now [].

(** [{device.get("macAddress"): device for device in devices
      if device.get("macAddress")}]: a later record overrides an earlier
    one. *)
Definition devices_by_mac_of (devices : list store_device)
  : gmap string store_device :=
  foldl (fun acc device =>
           if truthy_str (sd_macAddress device)
           then <[default "" (sd_macAddress device) := device]> acc
           else acc)
        ∅ devices.

(** Registration of connected devices (first registration loop of
    [check_and_update_devices]). *)
Definition register_connected_devices (s : snapshot)
    (connected_set : gset string)
    (devices_by_mac : gmap string store_device) : M unit :=
  for_each (w_set_order w connected_set) (fun mac_address =>
    match devices_by_mac !! mac_address with
    | Some _ => discard_failed_registration mac_address
    | None =>
        device_name <- get_device_name mac_address (Some s) ;;
        ok <- register_new_device mac_address device_name ;;
        if ok then discard_failed_registration mac_address
        else add_failed_registration mac_address
    end).

(** Body of the second registration loop: one debounced candidate. *)
Definition register_candidate (devices_by_mac : gmap string store_device)
    (candidate : string * device_info) : M unit :=
  let mac_address := candidate.1 in
  let device_info := candidate.2 in
  match devices_by_mac !! mac_address with
  | Some _ => pop_first_seen mac_address
  | None =>
      let device_name := str_or (di_alias device_info) (di_name device_info) in
      ok <- register_new_device mac_address device_name ;;
      if ok
      then discard_failed_registration mac_address ;;
           pop_first_seen mac_address
      else add_failed_registration mac_address
  end.

(** Registration of in-range, not connected devices (second registration
    loop of [check_and_update_devices], with its call of
    [_find_registration_candidates]). *)
Definition register_in_range_devices (s : snapshot)
    (connected_set : gset string) (now : Q)
    (devices_by_mac : gmap string store_device) : M unit :=
  registration_candidates <-
    _find_registration_candidates s connected_set now ;;
  for_each registration_candidates (register_candidate devices_by_mac).

(** Body of the status loop of [check_and_update_devices]. *)
Definition update_status_of_device (present_set : gset string)
    (devices_by_mac : gmap string store_device) (device : store_device)
  : M unit :=
  if negb (truthy_str (sd_macAddress device)) then ret tt
  else
    let mac_address := default "" (sd_macAddress device) in
    let current_status :=
      match sd_status device with
      | None => Some "unknown"
      | Some v => v
      end in
    let is_present := bool_decide (mac_address ∈ present_set) in
    let new_status := status_of is_present in
    if bool_decide (Some new_status <> current_status)
    then update_device_status mac_address is_present current_status
           (Some devices_by_mac) ;;
         ret tt
    else set_previous_status mac_address new_status.

Definition update_known_devices (present_set : gset string)
    (devices_by_mac : gmap string store_device)
    (devices : list store_device) : M unit :=
  for_each devices (update_status_of_device present_set devices_by_mac).

(** [{d.get("macAddress") for d in devices
      if d.get("macAddress") and not d.get("pendingRegistration")}] *)
Definition registered_macs_of (devices : list store_device) : gset string :=
  list_to_set
    (omap (fun d =>
             if truthy_str (sd_macAddress d) && negb (sd_pendingRegistration d)
             then sd_macAddress d else None)
          devices).

(** The rate-limited full probe of [check_and_update_devices]. *)
Definition full_probe (s : snapshot) (connected_set devices_in_range
    registered_macs : gset string) (now : Q) : M (list (string * bool)) :=
  last_probe <- gets last_full_probe_time ;;
  let probe_due :=
    Qle_bool (inject_Z (FULL_PROBE_INTERVAL_SECONDS cfg)) (now - last_probe) in
  if negb (bool_decide (registered_macs = ∅)) && FULL_PROBE_ENABLED cfg
     && probe_due
  then
    recently <- gets recently_seen_devices ;;
    let stale_candidates : gset string :=
      filter (fun mac =>
                Is_true (negb (bool_decide (mac ∈ devices_in_range))
                         && Qltb (inject_Z (PRESENT_TTL_SECONDS cfg))
                                 (now - default 0%Q (recently !! mac))))
             registered_macs in
    if bool_decide (stale_candidates = ∅) then ret []
    else
      results <- probe_devices (elements stale_candidates)
                   (FULL_PROBE_DISCONNECT_AFTER cfg) (Some connected_set)
                   (Some s) (Some (PROBE_TIME_BUDGET_SECONDS cfg)) ;;
      modify (set_last_full_probe_time now) ;;
      ret results
  else ret [].

(** Newly registered devices enter the presence set at once. *)
Definition bump_newly_registered (now : Q) (device : store_device) : M unit :=
  if negb (truthy_str (sd_macAddress device)) then ret tt
  else
    let mac_address := default "" (sd_macAddress device) in
    match sd_connectedSince device with
    | Some connected_since =>
        if negb (Qeq_bool connected_since 0)
           && bool_decide (sd_status device = Some (Some "present"))
           && Qle_bool (now - connected_since / 1000)
                       (inject_Z (NEWLY_REGISTERED_GRACE_PERIOD cfg))
        then bump_recently_seen mac_address now
        else ret tt
    | None => ret tt
    end.

(** Discovery refresh at the head of a cycle, rate-limited. *)
Definition refresh_if_due (now : Q) : M unit :=
  last_refresh <- gets last_discovery_refresh_time ;;
  if Qle_bool (inject_Z (DISCOVERY_REFRESH_INTERVAL_SECONDS cfg))
              (now - last_refresh)
  then refresh_discovery (IN_RANGE_SCAN_SECONDS cfg) ;;
       modify (set_last_discovery_refresh_time now)
  else ret tt.

(** Recently-seen tracking of a cycle: in-range devices, probe successes
    and newly registered devices are bumped, the presence set is read off
    and expired entries are pruned. *)
Definition track_presence (now : Q) (s : snapshot)
    (connected_set devices_in_range : gset string)
    (devices : list store_device) : M (gset string) :=
  for_each (w_set_order w devices_in_range)
    (fun mac => bump_recently_seen mac now) ;;
  reconnect_results <-
    full_probe s connected_set devices_in_range (registered_macs_of devices)
      now ;;
  for_each reconnect_results
    (fun r => if (r.2 : bool) then bump_recently_seen r.1 now else ret tt) ;;
  for_each devices (bump_newly_registered now) ;;
  recently <- gets recently_seen_devices ;;
  let fresh :=
    filter (fun kv => Is_true (Qle_bool (now - kv.2)
                                 (inject_Z (PRESENT_TTL_SECONDS cfg))))
           recently in
  modify (set_recently_seen_devices fresh) ;;
  ret (dom fresh).

(** Optional disconnect of connected devices at the end of a cycle. *)
Definition disconnect_connected (s : snapshot) (connected_set : gset string)
  : M unit :=
  if DISCONNECT_CONNECTED_AFTER_CYCLE cfg
     && negb (bool_decide (connected_set = ∅))
  then for_each (w_set_order w connected_set) (fun mac_address =>
         disconnect_device mac_address (Some s) ;; ret tt)
  else ret tt.

(** [check_and_update_devices()]: one reconciliation cycle. *)
Definition check_and_update_devices : M unit :=
  now <- time_time ;;
  refresh_if_due now ;;
  s <- get_device_snapshot ;;
  let connected_set : gset string := list_to_set (macs_where di_connected s) in
  devices <- get_known_devices ;;
  let devices_by_mac := devices_by_mac_of devices in
  devices_in_range <- get_devices_in_range s (Some now) ;;
  present_set <-
    track_presence now s connected_set devices_in_range devices ;;
  register_connected_devices s connected_set devices_by_mac ;;
  register_in_range_devices s connected_set now devices_by_mac ;;
  update_known_devices present_set devices_by_mac devices ;;
  disconnect_connected s connected_set ;;
  cleanup_expired_devices (Some s) ;;
  cleanup_stale_bluetooth_pairings (Some devices) (Some s).

End Model.

(* ===================================================================== *)
(** * The model, continued: the rest of the scanner *)
(* ===================================================================== *)

(** How long an attempt counts as recent (seconds). *)
Definition RECENT_ATTEMPT_WINDOW : Q := 60.

(** The two switches read by [auto_reconnect_paired_devices]. *)
Record ReconnectConfig := {
  DISCONNECT_AFTER_SUCCESS : bool;
  ALLOW_PAIRED_PROBE_ON_EMPTY_SCAN : bool
}.

Definition default_reconnect_config : ReconnectConfig := {|
  DISCONNECT_AFTER_SUCCESS := true;
  ALLOW_PAIRED_PROBE_ON_EMPTY_SCAN := true
|}.

(** [_normalize_mac(address)] *)
Definition _normalize_mac (address : option string) : option string :=
  if negb (truthy_str address) then None else upper <$> address.

(** [info.get("alias") or info.get("name") or "Unknown"] *)
Definition name_or_unknown (info : device_info) : string :=
  default "Unknown"
    (str_or (str_or (di_alias info) (di_name info)) (Some "Unknown")).

Section Scanner_more.
Context (cfg : Config) (rcfg : ReconnectConfig) (w : World).

(** [scan_for_devices(snapshot)]: the loop assigns [devices[mac] = name]
    for every entry of the snapshot. *)
Definition scan_for_devices (snap : option snapshot) : M (gmap string string) :=
  s <- snapshot_or w snap ;;
  ret (foldl (fun devices kv => <[kv.1 := name_or_unknown kv.2]> devices)
             ∅ (map_to_list s)).

(** [scan_paired_devices(snapshot)] *)
Definition scan_paired_devices (snap : option snapshot)
  : M (gmap string string) :=
  s <- snapshot_or w snap ;;
  ret (foldl (fun devices kv =>
                if di_paired kv.2
                then <[kv.1 := name_or_unknown kv.2]> devices
                else devices)
             ∅ (map_to_list s)).

(** [scan_for_devices_in_range()] *)
Definition scan_for_devices_in_range : M (gset string) :=
  s <- get_device_snapshot w ;;
  now <- time_time w ;;
  rssi_fresh <- _is_rssi_fresh cfg now ;;
  ret (list_to_set
         (macs_where (fun info => _device_has_presence_signal info rssi_fresh) s)).

(** [_cleanup_old_attempts()]: the addresses to forget are collected first
    and deleted afterwards. *)
Definition _cleanup_old_attempts : M unit :=
  current_time <- time_time w ;;
  attempts <- gets _last_connection_attempts ;;
  let to_remove :=
    (filter (fun kv => Is_true (Qltb RECENT_ATTEMPT_WINDOW (current_time - kv.2)))
            (map_to_list attempts)).*1 in
  for_each to_remove (fun mac_address =>
    modify (fun s =>
      set_last_connection_attempts
        (delete mac_address (_last_connection_attempts s)) s)).

(** [_reconnect_single_device(mac_address, disconnect_after_success,
    snapshot)]: [None] when no attempt was made.  The connect and
    disconnect calls run under [try ... except Exception]. *)
Definition _reconnect_single_device (mac_address : string)
    (disconnect_after_success : bool) (snap : option snapshot)
  : M (option (string * bool)) :=
  can <- _can_attempt_reconnection w mac_address ;;
  if negb can then ret None
  else
    _record_connection_attempt w mac_address ;;
    attempt <- connect_device cfg w mac_address snap
                 (PROBE_CONNECT_TIMEOUT_SECONDS cfg) ;;
    match attempt with
    | Ok success =>
        (if success
         then (if disconnect_after_success
               then disconnect_device cfg w mac_address snap ;; ret tt
               else ret tt)
         else ret tt) ;;
        ret (Some (mac_address, success))
    | Raises _ => ret (Some (mac_address, false))
    end.

(** The [for mac_address in ordered_candidates] loop of
    [auto_reconnect_paired_devices]. *)
Fixpoint reconnect_loop (ordered_candidates : list string)
    (disconnect_after_success : bool) (s : snapshot)
    (results : list (string * bool)) : M (list (string * bool)) :=
  match ordered_candidates with
  | [] => ret results
  | mac_address :: rest =>
      attempt <- _reconnect_single_device mac_address disconnect_after_success
                   (Some s) ;;
      match attempt with
      | None => reconnect_loop rest disconnect_after_success s results
      | Some r =>
          reconnect_loop rest disconnect_after_success s
            (dict_set mac_address r.2 results)
      end
  end.

(** The candidates of [auto_reconnect_paired_devices]: paired, in range,
    not connected, and inside the optional whitelist and registered set. *)
Definition devices_to_connect_of (paired_set connected_set
    devices_in_range : gset string)
    (whitelist_macs registered_macs : option (gset string)) : gset string :=
  let devices_in_range :=
    if bool_decide (devices_in_range = ∅)
       && ALLOW_PAIRED_PROBE_ON_EMPTY_SCAN rcfg
    then paired_set else devices_in_range in
  let devices_to_connect := (paired_set ∩ devices_in_range) ∖ connected_set in
  let devices_to_connect :=
    match whitelist_macs with
    | Some allowed => devices_to_connect ∩ allowed
    | None => devices_to_connect
    end in
  match registered_macs with
  | Some allowed => devices_to_connect ∩ allowed
  | None => devices_to_connect
  end.

(** [auto_reconnect_paired_devices(whitelist_macs, registered_macs,
    disconnect_after_success)] *)
Definition auto_reconnect_paired_devices
    (whitelist_macs registered_macs : option (gset string))
    (disconnect_after_success : option bool) : M (list (string * bool)) :=
  let disconnect_after_success :=
    default (DISCONNECT_AFTER_SUCCESS rcfg) disconnect_after_success in
  _cleanup_old_attempts ;;
  s <- get_device_snapshot w ;;
  connected_devices <- get_all_connected_devices w (Some s) ;;
  let connected_set : gset string := list_to_set connected_devices in
  paired_devices <- get_paired_devices w (Some s) ;;
  let paired_set : gset string := list_to_set paired_devices in
  devices_in_range <- get_devices_in_range cfg w s None ;;
  let devices_to_connect :=
    devices_to_connect_of paired_set connected_set devices_in_range
      whitelist_macs registered_macs in
  if bool_decide (devices_to_connect = ∅) then ret []
  else
    let max_candidates :=
      if (0 <? MAX_RECONNECT_PER_CYCLE cfg)%Z
      then MAX_RECONNECT_PER_CYCLE cfg else 0%Z in
    ordered_candidates <-
      _pick_reconnect_candidates w devices_to_connect max_candidates ;;
    match ordered_candidates with
    | [] => ret []
    | _ => reconnect_loop ordered_candidates disconnect_after_success s []
    end.

(** presence_tracker.py: [scan_all_connected_devices()] *)
Definition scan_all_connected_devices : M (list string) :=
  get_all_connected_devices w None.

End Scanner_more.

(* ===================================================================== *)
(** * Statements about the model *)
(* ===================================================================== *)

Definition any_event (e : event) : Prop := True.

(** The snapshot a function works from has no link handle for the address:
    the snapshot passed in, or, when none or an empty one is passed,
    whatever the provider returns. *)
Definition unresolvable (w : World) (mac : string) (snap : option snapshot)
  : Prop :=
  match snap with
  | Some s =>
      if bool_decide (s = ∅)
      then forall tr, no_link_handle mac (w_snapshot w tr)
      else no_link_handle mac s
  | None => forall tr, no_link_handle mac (w_snapshot w tr)
  end.

Definition paired_in (s : snapshot) (mac : string) : Prop :=
  exists d, s !! mac = Some d /\ di_paired d = true.

Definition connected_in (s : snapshot) (mac : string) : Prop :=
  exists d, s !! mac = Some d /\ di_connected d = true.

(** Events of the upstream sync client. *)
Definition is_store_io (e : event) : Prop :=
  match e with
  | EvMonotonic _ | EvConvexSubmit _ _ => True
  | _ => False
  end.

(** Events [remove_device mac] can produce. *)
Definition removal_of (mac : string) (e : event) : Prop :=
  match e with
  | EvRemoveDevice m _ _ => m = mac
  | EvSnapshot _ | EvAdapterLookup _ => True
  | _ => False
  end.

(** The store answered the device query with at least one record. *)
Definition yields_devices (o : outcome (list store_device)) : Prop :=
  match o with
  | Returned (Some (_ :: _)) => True
  | _ => False
  end.

(** The store calls made between two states, newest first. *)
Definition calls_since (st st' : State) : list convex_call :=
  take (length (submitted (trace st')) - length (submitted (trace st)))
       (submitted (trace st')).

(** What may be said of an event of stale-pairing cleanup when the paired
    set was read from [sp], the connected set from [sc] and the store's
    records are [known]: a removal only hits an address that is paired,
    unknown to the store and not connected. *)
Definition stale_removal_only (sp sc : snapshot) (known : list store_device)
    (e : event) : Prop :=
  match e with
  | EvRemoveDevice mac _ _ =>
      known <> [] /\ paired_in sp mac /\ (mac ∉ convex_macs_of known)
      /\ ~ connected_in sc mac
  | _ => True
  end.

(** The store calls a computation adds all satisfy [P]. *)
Definition calls_added (P : convex_call -> Prop) : relation State :=
  fun st st' =>
    exists evs, trace st' = evs ++ trace st /\ Forall P (submitted evs).

Definition not_status_update (c : convex_call) : Prop :=
  match c with UpdateDeviceStatus _ _ => False | _ => True end.

(** The status the store last knew for a record, as the status loop and
    [update_device_status] read it: the record's [status]; ["unknown"]
    when the key is missing; the status remembered in
    [device_previous_status] when the value is null. *)
Definition last_known_status (st : State) (device : store_device)
  : option string :=
  match sd_status device with
  | None => Some "unknown"
  | Some (Some status) => Some status
  | Some None =>
      device_previous_status st !! default "" (sd_macAddress device)
  end.

(** The status claim read literally, for one record of the status loop:
    the [updateDeviceStatus] mutation reaches the executor if and only if
    the derived status differs from the record's status. *)
Definition status_dedup_claim (cfg : Config) (w : World)
    (present_set : gset string) (devices_by_mac : gmap string store_device)
    (device : store_device) (st : State) : Prop :=
  let mac := default "" (sd_macAddress device) in
  let new_status := status_of (bool_decide (mac ∈ present_set)) in
  let st' :=
    (update_status_of_device cfg w present_set devices_by_mac device st).2 in
  UpdateDeviceStatus mac new_status ∈ calls_since st st'
  <-> last_known_status st device <> Some new_status.

(** [_should_register_device]'s two conditions on the snapshot entry:
    paired, connected or trusted, and a presence signal. *)
Definition registrable (info : device_info) : bool :=
  (di_paired info || di_connected info || di_trusted info)
  && (di_connected info
      || bool_decide (di_rssi info <> None)
      || bool_decide (di_tx_power info <> None)).

(** What makes an address a debounced registration candidate in a cycle
    at time [now], given the first-seen timestamps [seen] the cycle
    started with: it is in the snapshot, not connected, registrable, and
    was first seen at least the debounce window ago. *)
Definition debounced_candidate (cfg : Config) (s : snapshot)
    (connected_set : gset string) (now : Q) (seen : gmap string Q)
    (mac : string) (info : device_info) : Prop :=
  (mac ∉ connected_set)
  /\ s !! mac = Some info
  /\ registrable info = true
  /\ exists first_seen,
       seen !! mac = Some first_seen
       /\ (inject_Z (FIRST_SEEN_DEBOUNCE_SECONDS cfg) <= now - first_seen)%Q.

(** The address is among [macs], not connected, and its snapshot entry is
    registrable: what a cycle must see to record a first-seen timestamp. *)
Definition observed_in (s : snapshot) (connected_set : gset string)
    (macs : list string) (mac : string) : Prop :=
  mac ∈ macs
  /\ (mac ∉ connected_set)
  /\ exists info, s !! mac = Some info /\ registrable info = true.

Definition is_registration_of (mac : string) (c : convex_call) : Prop :=
  match c with RegisterPendingDevice m _ => m = mac | _ => False end.

(** The candidates of a probe: the upper-cased addresses handed in, minus
    the upper-cased connected ones. *)
Definition probe_candidates (mac_addresses : list string)
    (connected_macs : option (gset string)) : gset string :=
  list_to_set (upper <$> mac_addresses)
  ∖ set_map upper (default (∅ : gset string) connected_macs).

Definition older_or_equal (key : string -> Q) (a b : string) : Prop :=
  (key a <= key b)%Q.

(** [picked] is a selection of at most [max] candidates, oldest first:
    distinct candidates, as many as the cap and the candidate set allow, in
    non-decreasing order of [key], and no candidate left out is older than
    a picked one. *)
Definition oldest_first_selection (key : string -> Q)
    (candidates : gset string) (max : Z) (picked : list string) : Prop :=
  NoDup picked
  /\ (forall a, a ∈ picked -> a ∈ candidates)
  /\ Z.of_nat (length picked) = Z.min max (Z.of_nat (size candidates))
  /\ StronglySorted (older_or_equal key) picked
  /\ (forall a b, a ∈ picked -> b ∈ candidates -> b ∉ picked ->
        older_or_equal key a b).

(** The probe claim for one call of [probe_devices]: no attempted address
    is a connected one, at most the configured maximum is attempted, and
    the attempted addresses are, in order, part of an oldest-first
    selection under the key "last attempt, 0 if never attempted". *)
Definition probe_selection_claim (cfg : Config) (w : World)
    (mac_addresses : list string) (disconnect_after : bool)
    (connected_macs : option (gset string)) (snap : option snapshot)
    (time_budget_seconds : option Q) (st : State) : Prop :=
  let attempted :=
    (probe_devices cfg w mac_addresses disconnect_after connected_macs snap
       time_budget_seconds st).1.*1 in
  let candidates := probe_candidates mac_addresses connected_macs in
  let key := last_attempt (_last_connection_attempts st) in
  (forall a, a ∈ attempted ->
     a ∈ candidates
     /\ (a ∉ default (∅ : gset string) connected_macs)
     /\ (a ∉ (set_map upper (default (∅ : gset string) connected_macs)
              : gset string)))
  /\ (Z.of_nat (length attempted) <= MAX_RECONNECT_PER_CYCLE cfg)%Z
  /\ exists picked,
       oldest_first_selection key candidates (MAX_RECONNECT_PER_CYCLE cfg)
         picked
       /\ attempted `sublist_of` picked.

(** What a cycle saw when it reached the debounced registration path:
    its timestamp, its snapshot, the connected set, and the in-range
    addresses in the order they were visited. *)
Record observation := {
  ob_now : Q;
  ob_snapshot : snapshot;
  ob_connected : gset string;
  ob_in_range : list string
}.

(** The observation of the cycle that starts in state [st], obtained by
    running [check_and_update_devices] up to the debounced registration
    path. *)
Definition cycle_observation (cfg : Config) (w : World) (st : State)
  : observation :=
  let (now, st1) := time_time w st in
  let st2 := (refresh_if_due cfg w now st1).2 in
  let (s, st3) := get_device_snapshot w st2 in
  let connected_set : gset string := list_to_set (macs_where di_connected s) in
  let (devices, st4) := get_known_devices cfg w st3 in
  let (devices_in_range, st5) := get_devices_in_range cfg w s (Some now) st4 in
  let st6 :=
    (track_presence cfg w now s connected_set devices_in_range devices st5).2 in
  let st7 :=
    (register_connected_devices cfg w s connected_set
       (devices_by_mac_of devices) st6).2 in
  {| ob_now := now;
     ob_snapshot := s;
     ob_connected := connected_set;
     ob_in_range :=
       w_set_order w (get_devices_in_range cfg w s (Some now) st7).1 |}.

Definition observed (ob : observation) (mac : string) : Prop :=
  observed_in (ob_snapshot ob) (ob_connected ob) (ob_in_range ob) mac.

(** States reached from the initial state by running cycles, with the
    observations of those cycles, newest first. *)
Inductive cycles_run (cfg : Config) (w : World)
  : list observation -> State -> Prop :=
| cycles_start : cycles_run cfg w [] initial_state
| cycles_step history st :
    cycles_run cfg w history st ->
    cycles_run cfg w (cycle_observation cfg w st :: history)
      (check_and_update_devices cfg w st).2.

(** Every first-seen timestamp was recorded by a cycle of the history
    that observed the address. *)
Definition first_seen_justified (history : list observation) (st : State)
  : Prop :=
  forall mac t,
    device_first_seen st !! mac = Some t ->
    exists ob, ob ∈ history /\ ob_now ob = t /\ observed ob mac.

(** The store calls a cycle may make, given what it observed and the
    first-seen timestamps [seen] it started with: a registration is either
    of a connected address, or of an in-range, not connected address first
    seen at least the debounce window before. *)
Definition cycle_call_allowed (cfg : Config) (ob : observation)
    (seen : gmap string Q) (c : convex_call) : Prop :=
  match c with
  | RegisterPendingDevice mac _ =>
      mac ∈ ob_connected ob
      \/ (mac ∈ ob_in_range ob
          /\ (mac ∉ ob_connected ob)
          /\ exists first_seen,
               seen !! mac = Some first_seen
               /\ (inject_Z (FIRST_SEEN_DEBOUNCE_SECONDS cfg)
                   <= ob_now ob - first_seen)%Q)
  | _ => True
  end.

Definition not_registration (c : convex_call) : Prop :=
  match c with RegisterPendingDevice _ _ => False | _ => True end.

(** A computation that leaves [device_first_seen] alone and whose store
    calls all satisfy [P]. *)
Definition cycle_frame (P : convex_call -> Prop) : relation State :=
  fun st st' =>
    device_first_seen st' = device_first_seen st /\ calls_added P st st'.

(** Recorded failure counts are at least one. *)
Definition failure_counts_positive (st : State) : Prop :=
  forall mac n, _failed_connection_attempts st !! mac = Some n -> (1 <= n)%Z.

(** The candidates [_pick_reconnect_candidates] returns under a positive
    cap. *)
Definition picked_candidates (w : World) (st : State)
    (candidates : gset string) (max_count : Z) : list string :=
  take (Z.to_nat max_count)
    (sorted_by (last_attempt (_last_connection_attempts st))
       (w_set_order w candidates)).

(** The part of [check_and_update_devices] that follows the debounced
    registration path. *)
Definition cycle_rest (cfg : Config) (w : World) (s : snapshot)
    (connected_set present_set : gset string) (devices : list store_device)
  : M unit :=
  bind (update_known_devices cfg w present_set (devices_by_mac_of devices)
          devices)
    (fun _ =>
       bind (disconnect_connected cfg w s connected_set)
         (fun _ =>
            bind (cleanup_expired_devices cfg w (Some s))
              (fun _ =>
                 cleanup_stale_bluetooth_pairings cfg w (Some devices)
                   (Some s)))).

(** Lemmas stating that a function keeps a [cycle_frame]. *)
Create HintDb frame.

(** Lemmas stating the footprint of a function. *)
Create HintDb footprint.

(** ** Atomic steps

    Everything the model does to the state is one of the steps below: an
    interaction appended to the trace, or one assignment to a global.  A
    store call that completed counts as one step together with the update
    of the timeout counter that follows it. *)
Inductive atom :=
| AEmit (e : event)
| ARecordAttempt (mac : string) (t : Q)
| AForgetAttempt (mac : string)
| ACountFailure (mac : string)
| AForgetFailure (mac : string)
| AScheduleProbe (mac : string) (t : Q)
| AForgetSchedule (mac : string)
| ASetRssiRefresh (t : Q)
| AAddFailedRegistration (mac : string)
| ADiscardFailedRegistration (mac : string)
| ASetPreviousStatus (mac status : string)
| ABumpRecentlySeen (mac : string) (t : Q)
| APruneRecentlySeen (now : Q) (ttl : Z)
| ASetFirstSeen (mac : string) (t : Q)
| AForgetFirstSeen (mac : string)
| ASetLastFullProbe (t : Q)
| ASetLastDiscoveryRefresh (t : Q)
| ACacheAdapter (path : string)
| ACallCompleted (c : convex_call) (k : outcome_kind)
| AOpenCircuit (open_until : Q).

Definition apply_atom (a : atom) (s : State) : State :=
  match a with
  | AEmit e => set_trace (e :: trace s) s
  | ARecordAttempt mac t =>
      set_last_connection_attempts (<[mac := t]> (_last_connection_attempts s)) s
  | AForgetAttempt mac =>
      set_last_connection_attempts (delete mac (_last_connection_attempts s)) s
  | ACountFailure mac =>
      set_failed_connection_attempts
        (<[mac := (default 0 (_failed_connection_attempts s !! mac) + 1)%Z]>
           (_failed_connection_attempts s)) s
  | AForgetFailure mac =>
      set_failed_connection_attempts
        (delete mac (_failed_connection_attempts s)) s
  | AScheduleProbe mac t =>
      set_next_probe_allowed_at (<[mac := t]> (_next_probe_allowed_at s)) s
  | AForgetSchedule mac =>
      set_next_probe_allowed_at (delete mac (_next_probe_allowed_at s)) s
  | ASetRssiRefresh t => set_last_rssi_refresh_time t s
  | AAddFailedRegistration mac =>
      set_failed_registrations (failed_registrations s ∪ {[mac]}) s
  | ADiscardFailedRegistration mac =>
      set_failed_registrations (failed_registrations s ∖ {[mac]}) s
  | ASetPreviousStatus mac status =>
      set_device_previous_status
        (<[mac := status]> (device_previous_status s)) s
  | ABumpRecentlySeen mac t =>
      set_recently_seen_devices (<[mac := t]> (recently_seen_devices s)) s
  | APruneRecentlySeen now ttl =>
      set_recently_seen_devices
        (filter (fun kv => Is_true (Qle_bool (now - kv.2) (inject_Z ttl)))
                (recently_seen_devices s)) s
  | ASetFirstSeen mac t =>
      set_device_first_seen (<[mac := t]> (device_first_seen s)) s
  | AForgetFirstSeen mac =>
      set_device_first_seen (delete mac (device_first_seen s)) s
  | ASetLastFullProbe t => set_last_full_probe_time t s
  | ASetLastDiscoveryRefresh t => set_last_discovery_refresh_time t s
  | ACacheAdapter path => set_adapter_path_cache (Some path) s
  | ACallCompleted c k =>
      set_convex_consecutive_timeouts
        (match k with
         | KTimedOut => (_convex_consecutive_timeouts s + 1)%Z
         | _ => 0%Z
         end)
        (set_trace (EvConvexSubmit c k :: trace s) s)
  | AOpenCircuit open_until => set_convex_circuit_open_until open_until s
  end.

(** [runs A st st']: [st'] is reached from [st] by atomic steps, each
    allowed by [A] in the state it is taken from. *)
Inductive runs (A : State -> atom -> Prop) : State -> State -> Prop :=
| runs_done st : runs A st st
| runs_step st a st' :
    A st a -> runs A (apply_atom a st) st' -> runs A st st'.

(** Footprints: which atomic steps a function may take. *)

(** Reading the snapshot. *)
Definition fp_query (st : State) (a : atom) : Prop :=
  match a with AEmit (EvSnapshot _) => True | _ => False end.

(** Reading the clocks. *)
Definition fp_clock (st : State) (a : atom) : Prop :=
  match a with AEmit (EvMonotonic _) | AEmit (EvTime _) => True | _ => False end.

(** Verifying a connection state. *)
Definition fp_verify (st : State) (a : atom) : Prop :=
  match a with
  | AEmit (EvReadConnected _ _) | AEmit (EvSleep _) | AEmit (EvSnapshot _) => True
  | _ => False
  end.

(** [connect_device mac]: trust, connect, verify, and the failure state of
    [mac] alone. *)
Definition fp_connect (mac : string) (st : State) (a : atom) : Prop :=
  match a with
  | AEmit (EvSnapshot _) | AEmit (EvTrust _ _) | AEmit (EvReadConnected _ _)
  | AEmit (EvSleep _) | AEmit (EvMonotonic _) => True
  | AEmit (EvDbusMethod _ method _ _) => method = "Connect"
  | AEmit (EvBluetoothctl command m _) => command = "connect" /\ m = mac
  | ACountFailure m | AForgetFailure m | AForgetSchedule m => m = mac
  | AScheduleProbe m _ => m = mac
  | _ => False
  end.

(** [disconnect_device mac]: disconnect and verify; no global is written. *)
Definition fp_disconnect (mac : string) (st : State) (a : atom) : Prop :=
  match a with
  | AEmit (EvSnapshot _) | AEmit (EvReadConnected _ _) | AEmit (EvSleep _) => True
  | AEmit (EvDbusMethod _ method _ _) => method = "Disconnect"
  | AEmit (EvBluetoothctl command m _) => command = "disconnect" /\ m = mac
  | _ => False
  end.

(** [remove_device mac]: snapshots, the adapter lookup and its cache, and
    the removal of [mac]. *)
Definition fp_remove (mac : string) (st : State) (a : atom) : Prop :=
  match a with
  | AEmit (EvSnapshot _) | AEmit (EvAdapterLookup _) => True
  | AEmit (EvRemoveDevice m _ _) => m = mac
  | ACacheAdapter _ => True
  | _ => False
  end.

(** Probing and reconnecting: clocks, the attempt times, and connecting
    to and disconnecting from devices. *)
Definition fp_probe (st : State) (a : atom) : Prop :=
  fp_clock st a
  \/ (exists mac, fp_connect mac st a)
  \/ (exists mac, fp_disconnect mac st a)
  \/ match a with
     | ARecordAttempt _ _ | AForgetAttempt _ => True
     | _ => False
     end.

(** The events a footprint lets a function add to the trace. *)
Definition allowed_event (A : State -> atom -> Prop) (e : event) : Prop :=
  forall st, A st (AEmit e).

(** A computation keeps the value of [f]. *)
Definition kept {T} (f : State -> T) : relation State :=
  fun st st' => f st' = f st.

(** The globals of the tracker, the circuit breaker, the RSSI clock and
    the adapter path cache: everything but the three reconnect maps and
    the trace. *)
Definition tracker_state (st : State) :=
  (failed_registrations st, device_previous_status st,
   recently_seen_devices st, device_first_seen st,
   last_full_probe_time st, last_discovery_refresh_time st,
   _convex_consecutive_timeouts st, _convex_circuit_open_until st,
   _last_rssi_refresh_time st, _adapter_path_cache st).

(** The three reconnect maps at one address. *)
Definition reconnect_state_at (st : State) (mac : string) :=
  (_last_connection_attempts st !! mac,
   _failed_connection_attempts st !! mac,
   _next_probe_allowed_at st !! mac).

(** Interactions of probing: clocks, sleeps, snapshots, trust, connect
    and disconnect, property reads.  Unpairing, discovery and store calls
    are not among them. *)
Definition is_link_event (e : event) : Prop :=
  match e with
  | EvMonotonic _ | EvTime _ | EvSleep _ | EvSnapshot _ | EvTrust _ _
  | EvDbusMethod _ _ _ _ | EvBluetoothctl _ _ _ | EvReadConnected _ _ => True
  | _ => False
  end.

(** An interaction that shows the device as not connected: a read of the
    live property returning [False], or a snapshot in which the device is
    missing or not connected. *)
Definition confirms_disconnected (mac : string) (e : event) : Prop :=
  match e with
  | EvReadConnected _ r => r = Some false
  | EvSnapshot s => snapshot_matches mac false s = true
  | _ => False
  end.

(** The snapshot [s] is one the function was given or fetched. *)
Definition consulted (snap : option snapshot) (evs : list event) (s : snapshot)
  : Prop :=
  snap = Some s \/ EvSnapshot s ∈ evs.

(** The snapshot [s] was fetched between the two states. *)
Definition fetched_between (st st' : State) (s : snapshot) : Prop :=
  exists evs, trace st' = evs ++ trace st /\ EvSnapshot s ∈ evs.

(** The D-Bus call did not report success: the worker is stuck, or it
    raised with a message. *)
Definition dbus_failed (o : worker_outcome) : bool :=
  match o with
  | WorkerDone error => truthy_str error
  | WorkerStuck => true
  end.

(** The store record [device] counts as registered a moment ago under the
    address [mac]: it has this address, a non-zero [connectedSince] (in
    milliseconds) no longer ago than the grace period, and the status
    "present". *)
Definition newly_registered (cfg : Config) (now : Q) (device : store_device)
    (mac : string) : Prop :=
  sd_macAddress device = Some mac /\ mac <> ""
  /\ sd_status device = Some (Some "present")
  /\ exists connected_since,
       sd_connectedSince device = Some connected_since
       /\ ~ (connected_since == 0)%Q
       /\ (now - connected_since / 1000
           <= inject_Z (NEWLY_REGISTERED_GRACE_PERIOD cfg))%Q.

(** The time [t] is no longer ago than the presence TTL. *)
Definition within_ttl (cfg : Config) (now t : Q) : Prop :=
  (now - t <= inject_Z (PRESENT_TTL_SECONDS cfg))%Q.

(** The trace shows a clock read that found the circuit closed, followed
    by the events [evs]. *)
Definition after_closed_read (w : World) (st : State) (evs : list event)
  : Prop :=
  exists tr,
    trace st = evs ++ EvMonotonic (w_monotonic w tr) :: tr
    /\ (_convex_circuit_open_until st <= w_monotonic w tr)%Q.

(** The steps of the upstream sync client: a clock read; a store call
    that completes right after a clock read that found the circuit closed;
    opening the circuit for the configured time, counted from a clock read
    that follows a call that timed out, once the counter of consecutive
    timeouts has reached the threshold. *)
Definition fp_store (cfg : Config) (w : World) (st : State) (a : atom)
  : Prop :=
  match a with
  | AEmit (EvMonotonic _) => True
  | ACallCompleted _ _ => after_closed_read w st []
  | AOpenCircuit open_until =>
      exists t c,
        after_closed_read w st [EvMonotonic t; EvConvexSubmit c KTimedOut]
        /\ open_until = (t + CONVEX_CIRCUIT_OPEN_SECONDS cfg)%Q
        /\ (MAX_CONVEX_CONSECUTIVE_TIMEOUTS cfg
            <= _convex_consecutive_timeouts st)%Z
  | _ => False
  end.

(** What a cycle does short of unpairing: the steps of the sync client,
    and any other step that neither reaches the store nor removes a
    device. *)
Definition fp_tracker (cfg : Config) (w : World) (st : State) (a : atom)
  : Prop :=
  fp_store cfg w st a
  \/ match a with
     | AEmit (EvConvexSubmit _ _) | AEmit (EvRemoveDevice _ _ _)
     | ACallCompleted _ _ | AOpenCircuit _ => False
     | _ => True
     end.

(** A whole cycle: the above, and removing devices. *)
Definition fp_cycle (cfg : Config) (w : World) (st : State) (a : atom)
  : Prop :=
  fp_tracker cfg w st a \/ exists mac, fp_remove mac st a.

(** The number of store calls that timed out since the last one that did
    not, read off a trace (newest event first). *)
Fixpoint timeout_streak (tr : list event) : Z :=
  match tr with
  | [] => 0
  | EvConvexSubmit _ KTimedOut :: tr' => timeout_streak tr' + 1
  | EvConvexSubmit _ _ :: _ => 0
  | _ :: tr' => timeout_streak tr'
  end.

(** The circuit has never been opened, or it was last opened for the
    configured time counted from a clock read that followed a timed-out
    call, the last of a streak of timeouts that had reached the
    threshold. *)
Definition opening_justified (cfg : Config) (st : State) : Prop :=
  _convex_circuit_open_until st = _convex_circuit_open_until initial_state
  \/ exists evs t c tr,
       trace st = evs ++ EvMonotonic t :: EvConvexSubmit c KTimedOut :: tr
       /\ _convex_circuit_open_until st
          = (t + CONVEX_CIRCUIT_OPEN_SECONDS cfg)%Q
       /\ (MAX_CONVEX_CONSECUTIVE_TIMEOUTS cfg
           <= timeout_streak (EvConvexSubmit c KTimedOut :: tr))%Z.

(** The store answered the cleanup action with expired devices: a positive
    count and at least one address. *)
Definition yields_expired (o : outcome cleanup_result) : Prop :=
  match o with
  | Returned (Some r) =>
      (0 < default 0 (cr_deletedCount r))%Z /\ default [] (cr_deletedMacs r) <> []
  | _ => False
  end.

(* ===================================================================== *)
(** * Basic facts *)
(* ===================================================================== *)

Lemma Qltb_lt (a b : Q) : Qltb a b = true <-> (a < b)%Q.
Proof.
  unfold Qltb. rewrite negb_true_iff.
  split.
  - intros H. apply Qnot_le_lt. intros Hle.
    apply Qle_bool_iff in Hle. congruence.
  - intros H. destruct (Qle_bool b a) eqn:E; [|reflexivity].
    apply Qle_bool_iff in E. exfalso. apply (Qlt_not_le _ _ H E).
Qed.

Lemma Qltb_ge (a b : Q) : Qltb a b = false <-> (b <= a)%Q.
Proof.
  unfold Qltb. rewrite negb_false_iff. apply Qle_bool_iff.
Qed.

Lemma set_trace_id (st : State) : set_trace (trace st) st = st.
Proof. destruct st; reflexivity. Qed.

(** ** Relating the state before and after a computation *)

#[global] Instance only_events_preorder P : PreOrder (only_events P).
Proof.
  split.
  - intros st. exists []. simpl. rewrite set_trace_id. auto.
  - intros st1 st2 st3 [e1 [-> H1]] [e2 [-> H2]].
    exists (e2 ++ e1). simpl. rewrite <- app_assoc. split; [reflexivity|].
    apply Forall_app; auto.
Qed.

#[global] Instance new_events_preorder P : PreOrder (new_events P).
Proof.
  split.
  - intros st. exists []. auto.
  - intros st1 st2 st3 [e1 [E1 H1]] [e2 [E2 H2]].
    exists (e2 ++ e1). rewrite E2, E1, <- app_assoc. split; [reflexivity|].
    apply Forall_app; auto.
Qed.

Lemma only_events_new P st st' : only_events P st st' -> new_events P st st'.
Proof. intros [evs [-> H]]. exists evs. auto. Qed.

Lemma only_events_mono (P Q : event -> Prop) st st' :
  (forall e, P e -> Q e) -> only_events P st st' -> only_events Q st st'.
Proof.
  intros HPQ [evs [-> H]]. exists evs. split; [reflexivity|].
  eapply Forall_impl; eauto.
Qed.

Lemma new_events_mono (P Q : event -> Prop) st st' :
  (forall e, P e -> Q e) -> new_events P st st' -> new_events Q st st'.
Proof.
  intros HPQ [evs [E H]]. exists evs. split; [assumption|].
  eapply Forall_impl; eauto.
Qed.

Section Steps.
Context (R : relation State) `{!PreOrder R}.

Lemma steps_ret {A} (a : A) : steps R (ret a).
Proof. intros st. simpl. reflexivity. Qed.

Lemma steps_gets {A} (f : State -> A) : steps R (gets f).
Proof. intros st. simpl. reflexivity. Qed.

Lemma steps_bind {A B} (c : M A) (k : A -> M B) :
  steps R c -> (forall a, steps R (k a)) -> steps R (bind c k).
Proof.
  intros Hc Hk st. unfold bind.
  specialize (Hc st). destruct (c st) as [a st1]. simpl in Hc.
  etransitivity; [exact Hc | apply Hk].
Qed.

Lemma steps_for_each {A} (xs : list A) (body : A -> M unit) :
  (forall x, x ∈ xs -> steps R (body x)) -> steps R (for_each xs body).
Proof.
  induction xs as [|x xs IH]; intros H; simpl.
  - apply steps_ret.
  - apply steps_bind.
    + apply H. left.
    + intros _. apply IH. intros y Hy. apply H. right. exact Hy.
Qed.

End Steps.

Lemma steps_mono (R R' : relation State) {A} (c : M A) :
  (forall st st', R st st' -> R' st st') -> steps R c -> steps R' c.
Proof. intros H Hc st. apply H, Hc. Qed.

Lemma steps_emit_only (P : event -> Prop) e : P e -> steps (only_events P) (emit e).
Proof.
  intros HP st. exists [e]. simpl. split; [reflexivity|]. constructor; auto.
Qed.

Lemma steps_emit_new (P : event -> Prop) e : P e -> steps (new_events P) (emit e).
Proof.
  intros HP. eapply steps_mono; [apply only_events_new|].
  apply steps_emit_only; exact HP.
Qed.

Lemma steps_modify_new (P : event -> Prop) (f : State -> State) :
  (forall st, trace (f st) = trace st) -> steps (new_events P) (modify f).
Proof. intros Hf st. exists []. simpl. rewrite Hf. auto. Qed.

(** ** Running the circuit breaker *)

Section Circuit_breaker.
Context (cfg : Config) (w : World).

(** C1. While the circuit is open (the monotonic clock reads less than
    [_convex_circuit_open_until]), [_submit_convex_call] returns [None];
    the only interaction is the clock read, so [fn] is neither submitted to
    the executor nor run, and no global changes. *)
Theorem submit_convex_call_circuit_open
    {T} (fn : convex_fn T) (description : convex_call) (st : State) :
  (w_monotonic w (trace st) < _convex_circuit_open_until st)%Q ->
  let (result, st') := _submit_convex_call cfg w fn description st in
  result = None
  /\ st' = set_trace (EvMonotonic (w_monotonic w (trace st)) :: trace st) st
  /\ submitted (trace st') = submitted (trace st).
Proof.
  intros Hopen. apply Qltb_lt in Hopen.
  unfold _submit_convex_call, monotonic, bind, gets, emit, modify, ret; simpl.
  rewrite Hopen. repeat split; reflexivity.
Qed.

(** C7. With the circuit closed, the call is dispatched and the breaker
    reacts to its outcome: a timeout adds one to the consecutive-timeout
    counter and, once the counter has reached the threshold, sets
    [_convex_circuit_open_until] to the clock reading taken at that moment
    plus the open duration; a result or any other exception resets the
    counter to zero and leaves [_convex_circuit_open_until] alone.  The
    defaults are a threshold of 3 and 30 seconds. *)
Theorem submit_convex_call_breaker
    {T} (fn : convex_fn T) (description : convex_call) (st : State) :
  let now := w_monotonic w (trace st) in
  (_convex_circuit_open_until st <= now)%Q ->
  let at_dispatch := EvMonotonic now :: trace st in
  let st' := (_submit_convex_call cfg w fn description st).2 in
  let n := _convex_consecutive_timeouts st in
  match fn at_dispatch with
  | TimedOut =>
      _convex_consecutive_timeouts st' = (n + 1)%Z
      /\ (if (MAX_CONVEX_CONSECUTIVE_TIMEOUTS cfg <=? n + 1)%Z
          then _convex_circuit_open_until st'
               = (w_monotonic w (EvConvexSubmit description KTimedOut
                                   :: at_dispatch)
                  + CONVEX_CIRCUIT_OPEN_SECONDS cfg)%Q
          else _convex_circuit_open_until st' = _convex_circuit_open_until st)
  | Returned _ | Raised =>
      _convex_consecutive_timeouts st' = 0%Z
      /\ _convex_circuit_open_until st' = _convex_circuit_open_until st
  end
  /\ MAX_CONVEX_CONSECUTIVE_TIMEOUTS default_config = 3%Z
  /\ CONVEX_CIRCUIT_OPEN_SECONDS default_config = 30%Q.
Proof.
  intros now Hclosed at_dispatch st' n. apply Qltb_ge in Hclosed.
  split; [|split; reflexivity].
  subst st' n at_dispatch.
  unfold _submit_convex_call, executor_submit, monotonic, bind, gets, emit,
    modify, ret; simpl.
  fold now. rewrite Hclosed. simpl.
  destruct (fn (EvMonotonic now :: trace st)) as [r| |]; simpl.
  - split; reflexivity.
  - destruct (MAX_CONVEX_CONSECUTIVE_TIMEOUTS cfg
              <=? _convex_consecutive_timeouts st + 1)%Z; simpl;
      split; reflexivity.
  - split; reflexivity.
Qed.

End Circuit_breaker.

(** C1, at a concrete input: the breaker is open until 100 and the clock
    reads 50. *)
Lemma submit_convex_call_circuit_open_witness :
  let w := const_world 50 ∅ KReturned in
  let st := set_convex_circuit_open_until 100 initial_state in
  (_submit_convex_call default_config w (w_getDevices w) GetDevices st).1 = None
  /\ submitted
       (trace (_submit_convex_call default_config w (w_getDevices w)
                 GetDevices st).2) = [].
Proof.
  intros w st.
  pose proof (submit_convex_call_circuit_open default_config w
                (w_getDevices w) GetDevices st) as H.
  destruct (_submit_convex_call default_config w (w_getDevices w) GetDevices st)
    as [result st'].
  destruct H as [H1 [_ H3]]; [reflexivity|].
  split; [exact H1 | exact H3].
Defined.

(** C7, at a concrete input: two timeouts so far, the third one opens the
    circuit for 30 seconds from the clock reading 50. *)
Lemma submit_convex_call_breaker_witness :
  let w := const_world 50 ∅ KTimedOut in
  let st := set_convex_consecutive_timeouts 2 initial_state in
  let st' := (_submit_convex_call default_config w (w_getDevices w)
                GetDevices st).2 in
  _convex_consecutive_timeouts st' = 3%Z
  /\ _convex_circuit_open_until st' = (50 + 30)%Q.
Proof.
  intros w st st'.
  assert (Hclosed : (_convex_circuit_open_until st
                     <= w_monotonic w (trace st))%Q) by (vm_compute; discriminate).
  destruct (submit_convex_call_breaker default_config w (w_getDevices w)
              GetDevices st Hclosed) as [H _].
  exact H.
Defined.

(** ** Outcome verification *)

Section Verification.
Context (w : World).

(** One round of the loop: read, return early on a match, otherwise pause
    and go on. *)
Lemma verify_attempts_step max_attempts base_delay attempt rest device_path
    expect_connected (st : State) :
  verify_attempts w max_attempts base_delay (attempt :: rest) device_path
    expect_connected st
  = let r := w_read_connected w (trace st) device_path in
    let st1 := set_trace (EvReadConnected device_path r :: trace st) st in
    if read_matches expect_connected r then (true, st1)
    else
      bind (if (attempt <? max_attempts - 1)%Z
            then sleep (base_delay * inject_Z (2 ^ attempt))%Q
            else ret tt)
           (fun _ => verify_attempts w max_attempts base_delay rest
                       device_path expect_connected) st1.
Proof.
  simpl. unfold _read_connected_property, bind, gets, emit, modify, ret. simpl.
  destruct (w_read_connected w (trace st) device_path) as [c|]; simpl.
  - destruct expect_connected; destruct c; reflexivity.
  - reflexivity.
Qed.

(** Every run of [_verify_connected_state] is a [verification_run]. *)
Lemma verify_connected_state_run
    (mac_address device_path : string) (expect_connected : bool) (st : State) :
  let (result, st') :=
    _verify_connected_state w mac_address device_path expect_connected st in
  exists evs,
    st' = set_trace (rev evs ++ trace st) st
    /\ verification_run mac_address device_path expect_connected evs result.
Proof.
  unfold _verify_connected_state.
  change (seqZ 0 3) with [0; 1; 2]%Z.
  unfold bind at 1.
  rewrite verify_attempts_step; cbv zeta.
  destruct (read_matches expect_connected (w_read_connected w (trace st) device_path))
    eqn:M1.
  { simpl. exists [EvReadConnected device_path (w_read_connected w (trace st) device_path)].
    split; [reflexivity|]. constructor. exact M1. }
  change ((0 <? 3 - 1)%Z) with true. cbv iota.
  unfold sleep at 1, emit at 1, modify at 1, bind at 1. cbv beta iota.
  rewrite verify_attempts_step; cbv zeta.
  match goal with
  | |- context [read_matches _ (w_read_connected w (trace ?s) _)] =>
      set (st2 := s)
  end.
  destruct (read_matches expect_connected (w_read_connected w (trace st2) device_path))
    eqn:M2.
  { simpl.
    exists [EvReadConnected device_path (w_read_connected w (trace st) device_path);
            EvSleep ((2 # 10) * inject_Z (2 ^ 0));
            EvReadConnected device_path (w_read_connected w (trace st2) device_path)].
    split; [reflexivity|]. constructor; auto. reflexivity. }
  change ((1 <? 3 - 1)%Z) with true. cbv iota.
  unfold sleep at 1, emit at 1, modify at 1, bind at 1. cbv beta iota.
  rewrite verify_attempts_step; cbv zeta.
  match goal with
  | |- context [read_matches _ (w_read_connected w (trace ?s) _)] =>
      set (st3 := s)
  end.
  destruct (read_matches expect_connected (w_read_connected w (trace st3) device_path))
    eqn:M3.
  { simpl.
    exists [EvReadConnected device_path (w_read_connected w (trace st) device_path);
            EvSleep ((2 # 10) * inject_Z (2 ^ 0));
            EvReadConnected device_path (w_read_connected w (trace st2) device_path);
            EvSleep ((2 # 10) * inject_Z (2 ^ 1));
            EvReadConnected device_path (w_read_connected w (trace st3) device_path)].
    split; [reflexivity|]. constructor; auto; reflexivity. }
  change ((2 <? 3 - 1)%Z) with false. cbv iota.
  unfold ret at 1, bind at 1. cbv beta iota.
  unfold verify_attempts, ret at 1. cbv beta iota.
  unfold check_device_connected, snapshot_or, get_device_snapshot, bind, gets,
    emit, modify, ret. cbv beta iota. simpl.
  match goal with
  | |- context [w_snapshot w ?t] => set (s := w_snapshot w t)
  end.
  assert (Hrun : verification_run mac_address device_path expect_connected
            [EvReadConnected device_path (w_read_connected w (trace st) device_path);
             EvSleep ((2 # 10) * inject_Z (2 ^ 0));
             EvReadConnected device_path (w_read_connected w (trace st2) device_path);
             EvSleep ((2 # 10) * inject_Z (2 ^ 1));
             EvReadConnected device_path (w_read_connected w (trace st3) device_path);
             EvSnapshot s]
            (snapshot_matches mac_address expect_connected s))
    by (constructor; auto; reflexivity).
  unfold snapshot_matches in Hrun.
  destruct (s !! upper mac_address) as [device|]; simpl;
    (eexists; split; [|exact Hrun]; reflexivity).
Qed.

(** C6. [_verify_connected_state] only talks to the world, and what it
    does is a [verification_run].  It reads the live [Connected] property
    at least once and at most three times; it pauses between reads, 200ms
    and then 400ms, and not after the last one; it returns [True] at the
    first read that matches; and it fetches a snapshot, once, exactly when
    three reads have failed to match, the snapshot then deciding the
    result. *)
Theorem verify_connected_state_protocol
    (mac_address device_path : string) (expect_connected : bool) (st : State) :
  let (result, st') :=
    _verify_connected_state w mac_address device_path expect_connected st in
  exists evs,
    st' = set_trace (rev evs ++ trace st) st
    /\ verification_run mac_address device_path expect_connected evs result
    /\ (1 <= length (reads_of evs) <= 3)%nat
    /\ Forall2 Qeq (sleeps_of evs)
         (take (length (reads_of evs) - 1) [2 # 10; 4 # 10]%Q)
    /\ match snapshots_of evs with
       | [] =>
           result = true
           /\ exists r,
                last (reads_of evs) = Some r
                /\ read_matches expect_connected r = true
       | [s] =>
           length (reads_of evs) = 3%nat
           /\ Forall (fun r => read_matches expect_connected r = false)
                (reads_of evs)
           /\ last evs = Some (EvSnapshot s)
           /\ result = snapshot_matches mac_address expect_connected s
       | _ => False
       end.
Proof.
  pose proof (verify_connected_state_run mac_address device_path
                expect_connected st) as H.
  destruct (_verify_connected_state w mac_address device_path
              expect_connected st) as [result st'].
  destruct H as [evs [E Hrun]]. exists evs.
  split; [exact E|]. split; [exact Hrun|].
  destruct Hrun as [r1 H1 | r1 d1 r2 H1 D1 H2 | r1 d1 r2 d2 r3 H1 D1 H2 D2 H3
                   | r1 d1 r2 d2 r3 s H1 D1 H2 D2 H3]; simpl.
  - split; [lia|]. split; [constructor|]. split; [reflexivity|]. eauto.
  - split; [lia|]. split; [repeat constructor; exact D1|].
    split; [reflexivity|]. eauto.
  - split; [lia|]. split.
    { repeat constructor; [exact D1|]. rewrite D2, D1. reflexivity. }
    split; [reflexivity|]. eauto.
  - split; [lia|]. split.
    { repeat constructor; [exact D1|]. rewrite D2, D1. reflexivity. }
    split; [reflexivity|]. split; [repeat constructor; assumption|].
    split; reflexivity.
Qed.

Lemma verification_run_reads mac path expect evs result :
  verification_run mac path expect evs result -> Exists is_connected_read evs.
Proof. intros H. destruct H; apply Exists_cons_hd; exact I. Qed.

End Verification.

(** ** The connection controller *)

Section Connection.
Context (cfg : Config) (w : World).

Lemma steps_snapshot_or snap :
  steps (only_events is_snapshot_fetch) (snapshot_or w snap).
Proof.
  assert (Hf : steps (only_events is_snapshot_fetch) (get_device_snapshot w)).
  { unfold get_device_snapshot.
    apply steps_bind; [apply _ | apply steps_gets; apply _ |]. intros tr.
    apply steps_bind; [apply _ | | intros; apply steps_ret; apply _].
    apply steps_emit_only. exact I. }
  destruct snap as [s|]; simpl; [|exact Hf].
  destruct (bool_decide (s = ∅)); [exact Hf|]. apply steps_ret; apply _.
Qed.

Lemma snapshot_or_unresolvable mac snap st :
  unresolvable w mac snap ->
  unresolvable w mac (Some (snapshot_or w snap st).1).
Proof.
  unfold unresolvable, snapshot_or.
  destruct snap as [s|].
  - destruct (bool_decide (s = ∅)) eqn:E; simpl.
    + intros H. destruct (bool_decide (w_snapshot w (trace st) = ∅)); auto.
    + rewrite E. auto.
  - simpl. intros H. destruct (bool_decide (w_snapshot w (trace st) = ∅)); auto.
Qed.

Lemma snapshot_or_no_link_handle mac snap st :
  unresolvable w mac snap -> no_link_handle mac (snapshot_or w snap st).1.
Proof.
  unfold unresolvable, snapshot_or.
  destruct snap as [s|].
  - destruct (bool_decide (s = ∅)) eqn:E; simpl; auto.
  - simpl. auto.
Qed.

Lemma steps_get_device_path mac snap :
  steps (only_events is_snapshot_fetch) (_get_device_path w mac snap).
Proof.
  unfold _get_device_path.
  apply steps_bind; [apply _ | apply steps_snapshot_or |]. intros s.
  destruct (s !! upper mac); apply steps_ret; apply _.
Qed.

Lemma get_device_path_value mac snap st :
  (_get_device_path w mac snap st).1
  = (snapshot_or w snap st).1 !! upper mac ≫= di_path.
Proof.
  unfold _get_device_path, bind.
  destruct (snapshot_or w snap st) as [s st1]. simpl.
  destruct (s !! upper mac); reflexivity.
Qed.

Lemma get_device_path_unresolvable mac snap st :
  unresolvable w mac snap ->
  truthy_str (_get_device_path w mac snap st).1 = false.
Proof.
  intros H. rewrite get_device_path_value.
  apply (snapshot_or_no_link_handle mac snap st H).
Qed.

Lemma steps_is_device_trusted mac snap :
  steps (only_events is_snapshot_fetch) (is_device_trusted w mac snap).
Proof.
  unfold is_device_trusted.
  apply steps_bind; [apply _ | apply steps_snapshot_or |]. intros s.
  destruct (s !! upper mac); apply steps_ret; apply _.
Qed.

Lemma steps_trust_device mac snap :
  steps (only_events (fun e => is_snapshot_fetch e \/ is_trust_event e))
    (trust_device w mac snap).
Proof.
  unfold trust_device.
  apply steps_bind; [apply _ | |].
  { eapply steps_mono; [|apply steps_snapshot_or].
    intros ? ?. apply only_events_mono. auto. }
  intros s. apply steps_bind; [apply _ | |].
  { eapply steps_mono; [|apply steps_get_device_path].
    intros ? ?. apply only_events_mono. auto. }
  intros p. destruct (negb (truthy_str p)); [apply steps_ret; apply _|].
  apply steps_bind; [apply _ | apply steps_gets; apply _ |]. intros tr.
  apply steps_bind; [apply _ | | intros; apply steps_ret; apply _].
  apply steps_emit_only. right. exact I.
Qed.

Lemma trust_device_unresolvable mac snap st :
  unresolvable w mac snap ->
  only_events is_snapshot_fetch st (trust_device w mac snap st).2.
Proof.
  intros H. unfold trust_device, bind.
  pose proof (steps_snapshot_or snap st) as H1.
  pose proof (snapshot_or_unresolvable mac snap st H) as Hs.
  destruct (snapshot_or w snap st) as [s st1]. simpl in H1, Hs.
  pose proof (steps_get_device_path mac (Some s) st1) as H2.
  pose proof (get_device_path_unresolvable mac (Some s) st1 Hs) as Hp.
  destruct (_get_device_path w mac (Some s) st1) as [p st2]. simpl in H2, Hp.
  rewrite Hp. simpl. etransitivity; eassumption.
Qed.

Lemma steps_invoke_with_hard_timeout path method timeout hard :
  steps (only_events is_connect_primitive)
    (_invoke_with_hard_timeout w path method timeout hard).
Proof.
  unfold _invoke_with_hard_timeout.
  apply steps_bind; [apply _ | apply steps_gets; apply _ |]. intros tr.
  apply steps_bind; [apply _ | apply steps_emit_only; exact I |]. intros _.
  destruct (w_dbus_method w tr path method timeout hard) as [e|];
    [destruct (truthy_str e)|]; apply steps_ret; apply _.
Qed.

Lemma steps_run_bluetoothctl_operation command mac hard :
  steps (only_events is_connect_primitive)
    (_run_bluetoothctl_operation w command mac hard).
Proof.
  unfold _run_bluetoothctl_operation.
  apply steps_bind; [apply _ | apply steps_gets; apply _ |]. intros tr.
  apply steps_bind; [apply _ | apply steps_emit_only; exact I |]. intros _.
  destruct (w_bluetoothctl w tr command mac hard); apply steps_ret; apply _.
Qed.

(** [connect_device], stage by stage. *)
Lemma connect_device_unfold mac snap timeout st :
  connect_device cfg w mac snap timeout st
  = let (s, st1) := snapshot_or w snap st in
    let (trusted, st2) := is_device_trusted w mac (Some s) st1 in
    let st3 := if trusted then st2 else (trust_device w mac (Some s) st2).2 in
    let (device_path, st4) := _get_device_path w mac (Some s) st3 in
    if negb (truthy_str device_path) then (Ok false, st4)
    else
      let path := default "" device_path in
      let hard_timeout :=
        if (timeout =? PROBE_CONNECT_TIMEOUT_SECONDS cfg)%Z
        then HARD_PROBE_CONNECT_TIMEOUT_SECONDS cfg
        else (inject_Z timeout + CONNECT_TIMEOUT_BUFFER_SECONDS cfg)%Q in
      let (r, st5) :=
        _invoke_with_hard_timeout w path "Connect" timeout hard_timeout st4 in
      let st6 :=
        if r.1 then st5
        else (_run_bluetoothctl_operation w "connect" mac hard_timeout st5).2 in
      let (verified, st7) := _verify_connected_state w mac path true st6 in
      if verified then (Ok true, (_reset_probe_failure mac st7).2)
      else
        let (recorded, st8) := _record_probe_failure cfg w mac st7 in
        (match recorded with Ok _ => Ok false | Raises e => Raises e end, st8).
Proof.
  unfold connect_device, bind.
  destruct (snapshot_or w snap st) as [s st1].
  destruct (is_device_trusted w mac (Some s) st1) as [trusted st2].
  destruct trusted; simpl.
  - destruct (_get_device_path w mac (Some s) st2) as [p st4].
    destruct (negb (truthy_str p)); [reflexivity|].
    destruct (_invoke_with_hard_timeout w _ _ _ _ st4) as [r st5].
    destruct r as [ok err]. destruct ok; simpl.
    + destruct (_verify_connected_state w mac _ true st5) as [v st7].
      destruct v; [destruct (_reset_probe_failure mac st7)
                  | destruct (_record_probe_failure cfg w mac st7) as [[|] ?]];
        reflexivity.
    + destruct (_run_bluetoothctl_operation w _ _ _ st5) as [r' st6]. simpl.
      destruct (_verify_connected_state w mac _ true st6) as [v st7].
      destruct v; [destruct (_reset_probe_failure mac st7)
                  | destruct (_record_probe_failure cfg w mac st7) as [[|] ?]];
        reflexivity.
  - destruct (trust_device w mac (Some s) st2) as [t st3]. simpl.
    destruct (_get_device_path w mac (Some s) st3) as [p st4].
    destruct (negb (truthy_str p)); [reflexivity|].
    destruct (_invoke_with_hard_timeout w _ _ _ _ st4) as [r st5].
    destruct r as [ok err]. destruct ok; simpl.
    + destruct (_verify_connected_state w mac _ true st5) as [v st7].
      destruct v; [destruct (_reset_probe_failure mac st7)
                  | destruct (_record_probe_failure cfg w mac st7) as [[|] ?]];
        reflexivity.
    + destruct (_run_bluetoothctl_operation w _ _ _ st5) as [r' st6]. simpl.
      destruct (_verify_connected_state w mac _ true st6) as [v st7].
      destruct v; [destruct (_reset_probe_failure mac st7)
                  | destruct (_record_probe_failure cfg w mac st7) as [[|] ?]];
        reflexivity.
Qed.

Lemma only_events_any P st st' : only_events P st st' -> only_events any_event st st'.
Proof. apply only_events_mono. intros; exact I. Qed.

Lemma only_events_globals P st st' :
  only_events P st st' ->
  _failed_connection_attempts st' = _failed_connection_attempts st
  /\ _next_probe_allowed_at st' = _next_probe_allowed_at st
  /\ _last_connection_attempts st' = _last_connection_attempts st.
Proof. intros [evs [-> _]]. auto. Qed.

(** Powers of two convert up to [2 ^ 1023] and no further. *)
Lemma float_of_int_pow2 (k : Z) :
  (0 <= k < 1024)%Z -> float_of_int (2 ^ k) = Ok (inject_Z (2 ^ k)).
Proof.
  intros Hk. unfold float_of_int.
  assert (H1 : (0 < 2 ^ k)%Z) by (apply Z.pow_pos_nonneg; lia).
  assert (H2 : (2 ^ k <= 2 ^ 1023)%Z) by (apply Z.pow_le_mono_r; lia).
  assert (H3 : (2 ^ 1023 < DBL_OVERFLOW)%Z) by (vm_compute; reflexivity).
  rewrite Z.abs_eq by lia.
  destruct (Z.ltb_spec (2 ^ k) DBL_OVERFLOW); [reflexivity | lia].
Qed.

Lemma float_of_int_pow2_overflow (k : Z) :
  (1024 <= k)%Z -> float_of_int (2 ^ k) = Raises OverflowError.
Proof.
  intros Hk. unfold float_of_int.
  assert (H2 : (2 ^ 1024 <= 2 ^ k)%Z) by (apply Z.pow_le_mono_r; lia).
  assert (H3 : (DBL_OVERFLOW < 2 ^ 1024)%Z) by (vm_compute; reflexivity).
  rewrite Z.abs_eq by lia.
  destruct (Z.ltb_spec (2 ^ k) DBL_OVERFLOW); [lia | reflexivity].
Qed.

(** Up to 1024 failures the delay is the formula of the source. *)
Lemma probe_backoff_defined (failures : Z) :
  (1 <= failures <= 1024)%Z ->
  probe_backoff cfg failures
  = Ok (Qmin (PROBE_BACKOFF_BASE_SECONDS cfg * inject_Z (2 ^ (failures - 1)))%Q
             (PROBE_BACKOFF_MAX_SECONDS cfg)).
Proof.
  intros H. unfold probe_backoff. rewrite float_of_int_pow2 by lia. reflexivity.
Qed.

(** From the 1025th failure on, computing the delay raises. *)
Lemma probe_backoff_overflow (failures : Z) :
  (1025 <= failures)%Z -> probe_backoff cfg failures = Raises OverflowError.
Proof.
  intros H. unfold probe_backoff. rewrite float_of_int_pow2_overflow by lia.
  reflexivity.
Qed.

(** A computed backoff never exceeds the cap. *)
Lemma probe_backoff_le_cap (failures : Z) (delay : Q) :
  probe_backoff cfg failures = Ok delay ->
  (delay <= PROBE_BACKOFF_MAX_SECONDS cfg)%Q.
Proof.
  unfold probe_backoff. destruct (float_of_int _); [|discriminate].
  intros [= <-]. apply Q.le_min_r.
Qed.

(** With a non-negative base the backoff does not shrink as failures
    accumulate. *)
Lemma probe_backoff_mono (failures : Z) (delay delay' : Q) :
  (0 <= PROBE_BACKOFF_BASE_SECONDS cfg)%Q ->
  (1 <= failures)%Z ->
  probe_backoff cfg failures = Ok delay ->
  probe_backoff cfg (failures + 1) = Ok delay' ->
  (delay <= delay')%Q.
Proof.
  intros Hbase Hf E E'.
  destruct (Z_lt_le_dec failures 1024) as [Hlt|Hge].
  - rewrite probe_backoff_defined in E, E' by lia.
    injection E as <-. injection E' as <-.
    apply Q.min_le_compat_r.
    rewrite (Qmult_comm _ (inject_Z (2 ^ (failures - 1)))).
    rewrite (Qmult_comm _ (inject_Z (2 ^ (failures + 1 - 1)))).
    apply Qmult_le_compat_r; [|exact Hbase].
    rewrite <- Zle_Qle. apply Z.pow_le_mono_r; lia.
  - rewrite probe_backoff_overflow in E' by lia. discriminate.
Qed.

(** The two ways [connect_device] ends after an attempt. *)
Lemma reset_probe_failure_state mac st :
  let st' := (_reset_probe_failure mac st).2 in
  _failed_connection_attempts st' = delete mac (_failed_connection_attempts st)
  /\ _next_probe_allowed_at st' = delete mac (_next_probe_allowed_at st)
  /\ trace st' = trace st.
Proof. unfold _reset_probe_failure, bind, modify. simpl. auto. Qed.

Lemma record_probe_failure_state mac st delay :
  let n := default 0%Z (_failed_connection_attempts st !! mac) in
  (0 <= n)%Z ->
  probe_backoff cfg (n + 1) = Ok delay ->
  let (recorded, st') := _record_probe_failure cfg w mac st in
  let t := w_monotonic w (trace st) in
  recorded = Ok tt
  /\ _failed_connection_attempts st' = <[mac := (n + 1)%Z]> (_failed_connection_attempts st)
  /\ _next_probe_allowed_at st'
     = <[mac := (t + delay)%Q]> (_next_probe_allowed_at st)
  /\ trace st' = EvMonotonic t :: trace st.
Proof.
  intros n Hn Hd. unfold _record_probe_failure, monotonic, bind, gets, emit,
    modify, ret. cbn [fst snd _failed_connection_attempts
                      set_failed_connection_attempts]. fold n.
  destruct (n + 1 <=? 0)%Z eqn:E; [apply Z.leb_le in E; lia|].
  rewrite Hd. simpl. auto.
Qed.

(** When the delay cannot be computed the count has already been stored;
    the next-allowed time and the trace are as before. *)
Lemma record_probe_failure_raises mac st e :
  let n := default 0%Z (_failed_connection_attempts st !! mac) in
  (0 <= n)%Z ->
  probe_backoff cfg (n + 1) = Raises e ->
  _record_probe_failure cfg w mac st
  = (Raises e,
     set_failed_connection_attempts
       (<[mac := (n + 1)%Z]> (_failed_connection_attempts st)) st).
Proof.
  intros n Hn Hd. unfold _record_probe_failure, monotonic, bind, gets, emit,
    modify, ret. cbn [fst snd _failed_connection_attempts
                      set_failed_connection_attempts]. fold n.
  destruct (n + 1 <=? 0)%Z eqn:E; [apply Z.leb_le in E; lia|].
  rewrite Hd. reflexivity.
Qed.

(** C9. When the snapshot [connect_device] works from has no link handle
    for the address, it returns [False]; all it does is fetch snapshots, so
    neither the D-Bus [Connect] call nor the bluetoothctl fallback is
    invoked, and no failure is recorded. *)
Theorem connect_device_without_link_handle
    (mac_address : string) (snap : option snapshot) (timeout : Z) (st : State) :
  unresolvable w mac_address snap ->
  let (result, st') := connect_device cfg w mac_address snap timeout st in
  result = Ok false
  /\ exists evs,
       st' = set_trace (evs ++ trace st) st
       /\ Forall is_snapshot_fetch evs
       /\ Forall (fun e => ~ is_connect_primitive e) evs.
Proof.
  intros H. rewrite connect_device_unfold. cbv zeta.
  pose proof (steps_snapshot_or snap st) as H1.
  pose proof (snapshot_or_unresolvable mac_address snap st H) as Hs.
  destruct (snapshot_or w snap st) as [s st1]. simpl in H1, Hs.
  pose proof (steps_is_device_trusted mac_address (Some s) st1) as H2.
  destruct (is_device_trusted w mac_address (Some s) st1) as [trusted st2].
  simpl in H2.
  pose proof (trust_device_unresolvable mac_address (Some s) st2 Hs) as H3.
  set (st3 := if trusted then st2
              else (trust_device w mac_address (Some s) st2).2).
  assert (H3' : only_events is_snapshot_fetch st2 st3).
  { subst st3. destruct trusted; [reflexivity | exact H3]. }
  pose proof (steps_get_device_path mac_address (Some s) st3) as H4.
  pose proof (get_device_path_unresolvable mac_address (Some s) st3 Hs) as Hp.
  destruct (_get_device_path w mac_address (Some s) st3) as [p st4].
  simpl in H4, Hp. cbv beta iota. rewrite Hp. simpl.
  split; [reflexivity|].
  assert (Hall : only_events is_snapshot_fetch st st4).
  { etransitivity; [exact H1|]. etransitivity; [exact H2|].
    etransitivity; [exact H3' | exact H4]. }
  destruct Hall as [evs [E F]]. exists evs. split; [exact E|]. split; [exact F|].
  eapply Forall_impl; [exact F|].
  intros e He Hc. destruct e; simpl in *; contradiction.
Qed.

(** The shape of every run of [connect_device]: interactions that leave the
    globals alone, then one of three endings. *)
Lemma connect_device_stages
    (mac_address : string) (snap : option snapshot) (timeout : Z) (st : State) :
  let (result, st') := connect_device cfg w mac_address snap timeout st in
  exists evs,
    let st7 := set_trace (evs ++ trace st) st in
    (result = Ok false /\ st' = st7 /\ ~ Exists is_connected_read evs)
    \/ (Exists is_connected_read evs
        /\ result = Ok true /\ st' = (_reset_probe_failure mac_address st7).2)
    \/ (Exists is_connected_read evs
        /\ let (recorded, st8) := _record_probe_failure cfg w mac_address st7 in
           st' = st8
           /\ result = match recorded with
                       | Ok _ => Ok false
                       | Raises e => Raises e
                       end).
Proof.
  rewrite connect_device_unfold. cbv zeta.
  pose proof (steps_snapshot_or snap st) as H1.
  destruct (snapshot_or w snap st) as [s st1]. simpl in H1.
  pose proof (steps_is_device_trusted mac_address (Some s) st1) as H2.
  destruct (is_device_trusted w mac_address (Some s) st1) as [trusted st2].
  simpl in H2.
  pose proof (steps_trust_device mac_address (Some s) st2) as H3.
  set (st3 := if trusted then st2
              else (trust_device w mac_address (Some s) st2).2).
  set (quiet := fun e => is_snapshot_fetch e \/ is_trust_event e).
  assert (H3' : only_events quiet st2 st3).
  { subst st3. destruct trusted; [reflexivity | exact H3]. }
  pose proof (steps_get_device_path mac_address (Some s) st3) as H4.
  destruct (_get_device_path w mac_address (Some s) st3) as [p st4].
  simpl in H4. cbv beta iota.
  assert (Hpre : only_events quiet st st4).
  { etransitivity; [eapply only_events_mono; [|exact H1]; left; auto|].
    etransitivity; [eapply only_events_mono; [|exact H2]; left; auto|].
    etransitivity; [exact H3'|].
    eapply only_events_mono; [|exact H4]. left; auto. }
  assert (Hquiet : forall evs, Forall quiet evs -> ~ Exists is_connected_read evs).
  { intros evs F X. apply Exists_exists in X. destruct X as [e [He Hr]].
    rewrite Forall_forall in F. specialize (F e He).
    destruct e; simpl in Hr; try contradiction. destruct F as [F|F]; exact F. }
  destruct (negb (truthy_str p)).
  { destruct Hpre as [evs [E F]]. exists evs. left.
    split; [reflexivity|]. split; [exact E | exact (Hquiet evs F)]. }
  match goal with
  | |- context [_invoke_with_hard_timeout w ?a ?b ?c ?d st4] =>
      pose proof (steps_invoke_with_hard_timeout a b c d st4) as H5;
      destruct (_invoke_with_hard_timeout w a b c d st4) as [r st5]
  end.
  simpl in H5.
  match goal with
  | |- context [_run_bluetoothctl_operation w ?a ?b ?c st5] =>
      pose proof (steps_run_bluetoothctl_operation a b c st5) as H6;
      set (st6 := if r.1 then st5
                  else (_run_bluetoothctl_operation w a b c st5).2)
  end.
  assert (H6' : only_events is_connect_primitive st5 st6).
  { subst st6. destruct (r.1); [reflexivity | exact H6]. }
  match goal with
  | |- context [_verify_connected_state w ?a ?b ?c st6] =>
      pose proof (verify_connected_state_run w a b c st6) as H7;
      destruct (_verify_connected_state w a b c st6) as [verified st7]
  end.
  destruct H7 as [run [E7 Hrun]].
  assert (Hall : only_events any_event st st6).
  { etransitivity; [eapply only_events_any; exact Hpre|].
    etransitivity; [eapply only_events_any; exact H5|].
    eapply only_events_any; exact H6'. }
  destruct Hall as [evs6 [E6 _]].
  assert (E7' : st7 = set_trace ((rev run ++ evs6) ++ trace st) st).
  { rewrite E7, E6. simpl. rewrite <- app_assoc. reflexivity. }
  assert (Hread : Exists is_connected_read (rev run ++ evs6)).
  { apply Exists_app. left. apply Exists_rev.
    eapply verification_run_reads; exact Hrun. }
  destruct verified.
  - exists (rev run ++ evs6). cbv zeta. rewrite <- E7'. right. left. auto.
  - destruct (_record_probe_failure cfg w mac_address st7)
      as [recorded st8] eqn:E8.
    exists (rev run ++ evs6). cbv zeta. rewrite <- E7', E8. right. right. auto.
Qed.

(** What [connect_device] does to the failure state of the address while
    the count stays in the range where the delay can be computed. *)
Lemma connect_device_failure_state
    (mac_address : string) (snap : option snapshot) (timeout : Z) (st : State) :
  (forall n, _failed_connection_attempts st !! mac_address = Some n -> (0 <= n)%Z) ->
  let n := default 0%Z (_failed_connection_attempts st !! mac_address) in
  (n < 1024)%Z ->
  let (result, st') := connect_device cfg w mac_address snap timeout st in
  exists evs,
    trace st' = evs ++ trace st
    /\ (exists b, result = Ok b)
    /\ (result = Ok true ->
        _failed_connection_attempts st'
        = delete mac_address (_failed_connection_attempts st)
        /\ _next_probe_allowed_at st'
           = delete mac_address (_next_probe_allowed_at st))
    /\ (result = Ok false -> Exists is_connected_read evs ->
        _failed_connection_attempts st'
        = <[mac_address := (n + 1)%Z]> (_failed_connection_attempts st)
        /\ exists t rest,
             evs = EvMonotonic t :: rest
             /\ _next_probe_allowed_at st'
                = <[mac_address :=
                      (t + Qmin (PROBE_BACKOFF_BASE_SECONDS cfg
                                 * inject_Z (2 ^ (n + 1 - 1)))
                                (PROBE_BACKOFF_MAX_SECONDS cfg))%Q]>
                    (_next_probe_allowed_at st))
    /\ (result = Ok false -> ~ Exists is_connected_read evs ->
        _failed_connection_attempts st' = _failed_connection_attempts st
        /\ _next_probe_allowed_at st' = _next_probe_allowed_at st).
Proof.
  intros Hinv n Hlt.
  assert (Hn : (0 <= n)%Z).
  { subst n. destruct (_failed_connection_attempts st !! mac_address) as [k|] eqn:Ek;
      simpl; [apply Hinv; reflexivity | lia]. }
  pose proof (connect_device_stages mac_address snap timeout st) as H.
  destruct (connect_device cfg w mac_address snap timeout st) as [result st'].
  destruct H as [evs H]. cbv zeta in H.
  set (st7 := set_trace (evs ++ trace st) st) in H.
  destruct H as [[-> [-> Hno]] | [[Hread [-> ->]] | [Hread H]]].
  - exists evs. split; [reflexivity|]. split; [eauto|].
    split; [discriminate|]. split; [intros _ X; contradiction|]. auto.
  - destruct (reset_probe_failure_state mac_address st7) as [F1 [F2 F3]].
    exists evs. split; [exact F3|]. split; [eauto|].
    split; [auto|]. split; discriminate.
  - pose proof (record_probe_failure_state mac_address st7 _ Hn
                  (probe_backoff_defined (n + 1) ltac:(lia))) as F.
    destruct (_record_probe_failure cfg w mac_address st7) as [recorded st8].
    destruct H as [-> ->]. destruct F as [-> [F1 [F2 F3]]].
    exists (EvMonotonic (w_monotonic w (trace st7)) :: evs).
    split; [exact F3|]. split; [eauto|]. split; [discriminate|].
    split; [intros _ _; split; [exact F1 | eauto]|].
    intros _ X. exfalso. apply X. apply Exists_cons_tl. exact Hread.
Qed.

(** Past 1024 recorded failures a verified failure no longer reschedules:
    the count still grows, [OverflowError] escapes, and the next-allowed
    time of the address is the one it had. *)
Lemma connect_device_failure_overflow
    (mac_address : string) (snap : option snapshot) (timeout : Z) (st : State) :
  let n := default 0%Z (_failed_connection_attempts st !! mac_address) in
  (1024 <= n)%Z ->
  let (result, st') := connect_device cfg w mac_address snap timeout st in
  result <> Ok true ->
  Exists is_connected_read (take (length (trace st') - length (trace st))
                                 (trace st')) ->
  result = Raises OverflowError
  /\ _failed_connection_attempts st'
     = <[mac_address := (n + 1)%Z]> (_failed_connection_attempts st)
  /\ _next_probe_allowed_at st' = _next_probe_allowed_at st.
Proof.
  intros n Hge.
  pose proof (connect_device_stages mac_address snap timeout st) as H.
  destruct (connect_device cfg w mac_address snap timeout st) as [result st'].
  destruct H as [evs H]. cbv zeta in H.
  set (st7 := set_trace (evs ++ trace st) st) in H.
  destruct H as [[-> [-> Hno]] | [[Hread [-> ->]] | [Hread H]]].
  - intros _ X. exfalso. apply Hno. subst st7. simpl in X.
    rewrite length_app in X.
    replace (length evs + length (trace st) - length (trace st))%nat
      with (length evs) in X by lia.
    rewrite take_app_length in X. exact X.
  - intros X. contradiction.
  - intros _ _.
    rewrite (record_probe_failure_raises mac_address st7 OverflowError) in H.
    + destruct H as [-> ->]. auto.
    + subst st7. simpl. fold n. lia.
    + apply probe_backoff_overflow. subst st7. simpl. fold n. lia.
Qed.

(** Failure counts are at least one wherever they are recorded, so the
    premise on the counts holds in every state the program reaches. *)
Lemma failure_counts_positive_initial : failure_counts_positive initial_state.
Proof. intros mac n H. simpl in H. rewrite lookup_empty in H. discriminate. Qed.

Lemma connect_device_keeps_counts_positive mac snap timeout st :
  failure_counts_positive st ->
  failure_counts_positive (connect_device cfg w mac snap timeout st).2.
Proof.
  intros Hinv.
  pose proof (connect_device_stages mac snap timeout st) as H.
  destruct (connect_device cfg w mac snap timeout st) as [result st'].
  destruct H as [evs H]. cbv zeta in H. cbn [snd].
  set (st7 := set_trace (evs ++ trace st) st) in H.
  assert (Hn : (0 <= default 0 (_failed_connection_attempts st7 !! mac))%Z).
  { subst st7. simpl.
    destruct (_failed_connection_attempts st !! mac) as [k|] eqn:Ek;
      simpl; [|lia]. specialize (Hinv mac k Ek). lia. }
  destruct H as [[-> [-> Hno]] | [[Hread [-> ->]] | [Hread H]]].
  - exact Hinv.
  - destruct (reset_probe_failure_state mac st7) as [F1 _].
    intros m k. rewrite F1. intros Hk.
    apply lookup_delete_Some in Hk. destruct Hk as [_ Hk]. eapply Hinv; eauto.
  - assert (F1 : _failed_connection_attempts
                   (_record_probe_failure cfg w mac st7).2
                 = <[mac := (default 0%Z (_failed_connection_attempts st7 !! mac)
                             + 1)%Z]> (_failed_connection_attempts st7)).
    { destruct (probe_backoff cfg
                  (default 0%Z (_failed_connection_attempts st7 !! mac) + 1))
        as [delay|e] eqn:Ed.
      - pose proof (record_probe_failure_state mac st7 delay Hn Ed) as F.
        destruct (_record_probe_failure cfg w mac st7) as [recorded st8].
        destruct F as [_ [F _]]. exact F.
      - rewrite (record_probe_failure_raises mac st7 e Hn Ed). reflexivity. }
    destruct (_record_probe_failure cfg w mac st7) as [recorded st8].
    destruct H as [-> _]. cbn [snd] in F1.
    intros m k. rewrite F1. intros Hk.
    apply lookup_insert_Some in Hk. destruct Hk as [[_ <-]|[_ Hk]].
    + lia.
    + eapply Hinv; eauto.
Qed.

End Connection.

(** C2, evaluated where it stops holding.  The address has 1024 recorded
    failures and its last scheduled time, 900, has passed; the clock reads
    1000 and the connect attempt fails verification.  The count goes to
    1025, [2 ** 1024] does not convert to a float, [OverflowError] escapes
    [connect_device], and the next-allowed time stays at 900 instead of
    moving to 1000 + 300.  [_probe_single_device] reports a failed probe. *)
Theorem connect_device_backoff_overflow :
  let mac := "AA:BB:CC:DD:EE:FF" in
  let snap : snapshot := {[ mac := demo_device ]} in
  let w := const_world 1000 snap KReturned in
  let (result, st') :=
    connect_device default_config w mac (Some snap) 5 long_absent_state in
  result = Raises OverflowError
  /\ Exists is_connected_read (trace st')
  /\ _failed_connection_attempts long_absent_state !! mac = Some 1024%Z
  /\ _failed_connection_attempts st' !! mac = Some 1025%Z
  /\ _next_probe_allowed_at st' !! mac = Some 900%Q
  /\ (_probe_single_device default_config w mac true (Some snap)
        long_absent_state).1 = (mac, false).
Proof.
  cbv zeta.
  destruct (connect_device _ _ _ _ _ _) as [result st'] eqn:E.
  vm_compute in E. injection E as <- <-.
  split; [reflexivity|]. split.
  { cbn [trace]. apply Exists_exists. exists (EvReadConnected "/org/bluez/hci0/dev_AA_BB_CC_DD_EE_FF" None).
    split; [|exact I].
    repeat first [apply list_elem_of_here | apply list_elem_of_further]. }
  split; [vm_compute; reflexivity|]. split; [vm_compute; reflexivity|].
  split; vm_compute; reflexivity.
Qed.

(** C9, at a concrete input: the snapshot knows another device only. *)
Lemma connect_device_without_link_handle_witness :
  let other := {| di_path := Some "/org/bluez/hci0/dev_11_22_33_44_55_66";
                  di_name := None; di_alias := None; di_connected := false;
                  di_paired := true; di_trusted := true; di_rssi := None;
                  di_tx_power := None |} in
  let snap : snapshot := {[ "11:22:33:44:55:66" := other ]} in
  let w := const_world 50 snap KReturned in
  connect_device default_config w "AA:BB:CC:DD:EE:FF" (Some snap) 5
    initial_state
  = (Ok false, initial_state).
Proof.
  intros other snap w.
  assert (H : unresolvable w "AA:BB:CC:DD:EE:FF" (Some snap))
    by (vm_compute; reflexivity).
  pose proof (connect_device_without_link_handle default_config w
                "AA:BB:CC:DD:EE:FF" (Some snap) 5 initial_state H) as Hc.
  destruct (connect_device default_config w "AA:BB:CC:DD:EE:FF" (Some snap) 5
              initial_state) as [r st'] eqn:E.
  destruct Hc as [-> _].
  vm_compute in E. injection E as <-. reflexivity.
Defined.

(** Implications between event classes, by cases on the event. *)
Ltac event_cases :=
  let e := fresh "e" in
  let He := fresh "He" in
  intros e He; destruct e; simpl in *; auto; try contradiction.

(** ** Store calls in a trace *)

Lemma submitted_app evs tr : submitted (evs ++ tr) = submitted evs ++ submitted tr.
Proof.
  induction evs as [|e evs IH]; [reflexivity|].
  destruct e; simpl; rewrite ?IH; reflexivity.
Qed.

Lemma calls_since_app st st' evs :
  trace st' = evs ++ trace st -> calls_since st st' = submitted evs.
Proof.
  intros E. unfold calls_since. rewrite E, submitted_app, length_app.
  replace (length (submitted evs) + length (submitted (trace st))
           - length (submitted (trace st))) with (length (submitted evs)) by lia.
  apply take_app_length.
Qed.

Section Snapshot_sets.
Context (w : World).

Lemma set_order_elem (X : gset string) (x : string) :
  x ∈ w_set_order w X <-> x ∈ X.
Proof. rewrite (w_set_order_perm w X). apply elem_of_elements. Qed.

Lemma set_order_NoDup (X : gset string) : NoDup (w_set_order w X).
Proof. rewrite (w_set_order_perm w X). apply NoDup_elements. Qed.

Lemma elem_of_macs_where (P : device_info -> bool) (s : snapshot) (mac : string) :
  mac ∈ macs_where P s <-> exists d, s !! mac = Some d /\ P d = true.
Proof.
  unfold macs_where. rewrite list_elem_of_fmap. split.
  - intros [[k d] [-> H]]. apply list_elem_of_filter in H. destruct H as [HP Hin].
    apply elem_of_map_to_list in Hin. simpl in *.
    exists d. split; [exact Hin|]. apply Is_true_true. exact HP.
  - intros [d [Hd HP]]. exists (mac, d). split; [reflexivity|].
    apply list_elem_of_filter. split.
    + simpl. apply Is_true_true. exact HP.
    + apply elem_of_map_to_list. exact Hd.
Qed.

Lemma snapshot_or_nonempty (s : snapshot) (st : State) :
  s <> ∅ -> snapshot_or w (Some s) st = (s, st).
Proof.
  intros H. unfold snapshot_or. rewrite bool_decide_eq_false_2; auto.
Qed.

Lemma snapshot_or_empty (s : snapshot) (st : State) :
  s = ∅ -> (snapshot_or w (Some s) st).1 = w_snapshot w (trace st).
Proof.
  intros ->. unfold snapshot_or. rewrite bool_decide_eq_true_2; reflexivity.
Qed.

Lemma steps_get_managed_objects (P : event -> Prop) :
  (forall o, P (EvAdapterLookup o)) ->
  steps (new_events P) (_get_managed_objects w).
Proof.
  intros HP. unfold _get_managed_objects.
  apply steps_bind; [apply _ | apply steps_gets; apply _ |]. intros tr.
  apply steps_bind; [apply _ | | intros; apply steps_ret; apply _].
  apply steps_emit_new. apply HP.
Qed.

Lemma steps_get_adapter_path (P : event -> Prop) found :
  steps (new_events P) (_get_adapter_path found).
Proof.
  unfold _get_adapter_path.
  apply steps_bind; [apply _ | apply steps_gets; apply _ |]. intros cache.
  destruct cache as [path|]; [apply steps_ret; apply _|].
  destruct found as [path|]; [|apply steps_ret; apply _].
  apply steps_bind; [apply _ | | intros; apply steps_ret; apply _].
  apply steps_modify_new. reflexivity.
Qed.

Lemma steps_remove_device mac snap :
  steps (new_events (removal_of mac)) (remove_device w mac snap).
Proof.
  unfold remove_device.
  apply steps_bind; [apply _ | |].
  { eapply steps_mono; [|apply steps_snapshot_or].
    intros ? ? H. apply only_events_new.
    revert H. apply only_events_mono. event_cases. }
  intros s. apply steps_bind; [apply _ | |].
  { eapply steps_mono; [|apply steps_get_device_path].
    intros ? ? H. apply only_events_new.
    revert H. apply only_events_mono. event_cases. }
  intros p. destruct (negb (truthy_str p)); [apply steps_ret; apply _|].
  apply steps_bind;
    [apply _ | apply steps_get_managed_objects; intros; exact I |].
  intros [|found]; [apply steps_ret; apply _|].
  apply steps_bind; [apply _ | apply steps_get_adapter_path |].
  intros adapter_path.
  destruct (negb (truthy_str adapter_path)); [apply steps_ret; apply _|].
  apply steps_bind; [apply _ | apply steps_gets; apply _ |]. intros tr'.
  apply steps_bind; [apply _ | | intros; apply steps_ret; apply _].
  apply steps_emit_new. reflexivity.
Qed.

End Snapshot_sets.

Section Store.
Context (cfg : Config) (w : World).

Lemma steps_submit_convex_call {T} (fn : convex_fn T) description :
  steps (new_events is_store_io) (_submit_convex_call cfg w fn description).
Proof.
  assert (Hm : steps (new_events is_store_io) (monotonic w)).
  { unfold monotonic.
    apply steps_bind; [apply _ | apply steps_gets; apply _ |]. intros tr.
    apply steps_bind; [apply _ | | intros; apply steps_ret; apply _].
    apply steps_emit_new. exact I. }
  unfold _submit_convex_call.
  apply steps_bind; [apply _ | exact Hm |]. intros now.
  apply steps_bind; [apply _ | apply steps_gets; apply _ |]. intros open_until.
  destruct (Qltb now open_until); [apply steps_ret; apply _|].
  apply steps_bind; [apply _ | |].
  { unfold executor_submit.
    apply steps_bind; [apply _ | apply steps_gets; apply _ |]. intros tr.
    apply steps_bind; [apply _ | | intros; apply steps_ret; apply _].
    apply steps_emit_new. exact I. }
  intros [r| |].
  - apply steps_bind; [apply _ | | intros; apply steps_ret; apply _].
    apply steps_modify_new. reflexivity.
  - apply steps_bind; [apply _ | apply steps_gets; apply _ |]. intros n.
    apply steps_bind; [apply _ | apply steps_modify_new; reflexivity |].
    intros _.
    apply steps_bind; [apply _ | | intros; apply steps_ret; apply _].
    destruct (MAX_CONVEX_CONSECUTIVE_TIMEOUTS cfg <=? n + 1)%Z;
      [|apply steps_ret; apply _].
    apply steps_bind; [apply _ | exact Hm |]. intros t.
    apply steps_modify_new. reflexivity.
  - apply steps_bind; [apply _ | | intros; apply steps_ret; apply _].
    apply steps_modify_new. reflexivity.
Qed.

Lemma steps_get_known_devices :
  steps (new_events is_store_io) (get_known_devices cfg w).
Proof.
  unfold get_known_devices.
  apply steps_bind; [apply _ | apply steps_submit_convex_call |].
  intros [l|]; apply steps_ret; apply _.
Qed.

(** [get_known_devices] maps every failure to the empty list. *)
Lemma get_known_devices_failure (st : State) :
  let now := w_monotonic w (trace st) in
  (now < _convex_circuit_open_until st)%Q
  \/ match w_getDevices w (EvMonotonic now :: trace st) with
     | Returned (Some _) => False
     | _ => True
     end ->
  (get_known_devices cfg w st).1 = [].
Proof.
  intros now H.
  unfold get_known_devices, _submit_convex_call, executor_submit, monotonic,
    bind, gets, emit, modify, ret. simpl. fold now.
  destruct (Qltb now (_convex_circuit_open_until st)) eqn:E; [reflexivity|].
  destruct H as [H|H]; [apply Qltb_lt in H; congruence|].
  simpl.
  destruct (w_getDevices w (EvMonotonic now :: trace st)) as [[l|]| |]; simpl;
    try reflexivity; try contradiction.
  destruct (MAX_CONVEX_CONSECUTIVE_TIMEOUTS cfg
            <=? _convex_consecutive_timeouts st + 1)%Z; reflexivity.
Qed.

(** A store that never yields a device makes [get_known_devices] return
    the empty list, whatever the state. *)
Lemma get_known_devices_empty (st : State) :
  (forall tr, ~ yields_devices (w_getDevices w tr)) ->
  (get_known_devices cfg w st).1 = [].
Proof.
  intros Hw.
  unfold get_known_devices, _submit_convex_call, executor_submit, monotonic,
    bind, gets, emit, modify, ret. simpl.
  destruct (Qltb _ _); [reflexivity|]. simpl.
  specialize (Hw (EvMonotonic (w_monotonic w (trace st)) :: trace st)).
  destruct (w_getDevices w _) as [[[|d l]|]| |]; simpl; try reflexivity.
  - exfalso. apply Hw. exact I.
  - destruct (MAX_CONVEX_CONSECUTIVE_TIMEOUTS cfg
              <=? _convex_consecutive_timeouts st + 1)%Z; reflexivity.
Qed.

End Store.

(** ** Stale-pairing cleanup *)

Section Stale_cleanup.
Context (cfg : Config) (w : World).

(** [cleanup_stale_bluetooth_pairings], stage by stage. *)
Lemma cleanup_stale_unfold devs snap st :
  cleanup_stale_bluetooth_pairings cfg w devs snap st
  = let (s1, st1) := snapshot_or w snap st in
    let (sp, st2) := snapshot_or w (Some s1) st1 in
    let (sc, st3) := snapshot_or w (Some s1) st2 in
    let (known, st4) :=
      match devs with
      | Some (d :: ds) => (d :: ds, st3)
      | _ => get_known_devices cfg w st3
      end in
    match known with
    | [] => (tt, st4)
    | _ =>
        for_each
          (w_set_order w
             (list_to_set (macs_where di_paired sp) ∖ convex_macs_of known
              ∖ list_to_set (macs_where di_connected sc)))
          (fun mac => bind (remove_device w mac (Some s1)) (fun _ => ret tt))
          st4
    end.
Proof.
  unfold cleanup_stale_bluetooth_pairings, get_paired_devices,
    get_all_connected_devices, bind, ret.
  destruct (snapshot_or w snap st) as [s1 st1].
  destruct (snapshot_or w (Some s1) st1) as [sp st2]. cbv beta iota.
  destruct (snapshot_or w (Some s1) st2) as [sc st3]. cbv beta iota.
  destruct devs as [[|d ds]|]; cbv beta iota.
  - destruct (get_known_devices cfg w st3) as [known st4].
    destruct known; reflexivity.
  - reflexivity.
  - destruct (get_known_devices cfg w st3) as [known st4].
    destruct known; reflexivity.
Qed.

(** Everything stale-pairing cleanup does, with the data it worked from:
    the snapshot it settled on, the snapshots the paired and the connected
    addresses were read from, and the store's records. *)
Lemma cleanup_stale_run devs snap st :
  let r1 := snapshot_or w snap st in
  let rp := snapshot_or w (Some r1.1) r1.2 in
  let rc := snapshot_or w (Some r1.1) rp.2 in
  let known := match devs with
               | Some (d :: ds) => d :: ds
               | _ => (get_known_devices cfg w rc.2).1
               end in
  let st' := (cleanup_stale_bluetooth_pairings cfg w devs snap st).2 in
  exists evs,
    trace st' = evs ++ trace st
    /\ (r1.1 <> ∅ -> rp.1 = r1.1 /\ rc.1 = r1.1)
    /\ (r1.1 = ∅ ->
        rp.1 = w_snapshot w (trace r1.2) /\ rc.1 = w_snapshot w (trace rp.2))
    /\ Forall (stale_removal_only rp.1 rc.1 known) evs.
Proof.
  cbv zeta. rewrite cleanup_stale_unfold.
  pose proof (steps_snapshot_or w snap st) as H1.
  destruct (snapshot_or w snap st) as [s1 st1]. simpl in H1. cbn [fst snd].
  pose proof (steps_snapshot_or w (Some s1) st1) as H2.
  pose proof (snapshot_or_nonempty w s1 st1) as N2.
  pose proof (snapshot_or_empty w s1 st1) as M2.
  destruct (snapshot_or w (Some s1) st1) as [sp st2]. simpl in H2, M2.
  cbn [fst snd].
  pose proof (steps_snapshot_or w (Some s1) st2) as H3.
  pose proof (snapshot_or_nonempty w s1 st2) as N3.
  pose proof (snapshot_or_empty w s1 st2) as M3.
  destruct (snapshot_or w (Some s1) st2) as [sc st3]. simpl in H3, M3.
  cbn [fst snd].
  set (known_st := match devs with
                   | Some (d :: ds) => (d :: ds, st3)
                   | _ => get_known_devices cfg w st3
                   end).
  assert (H4 : new_events is_store_io st3 known_st.2).
  { subst known_st. destruct devs as [[|d ds]|]; simpl;
      try apply steps_get_known_devices. reflexivity. }
  assert (K : match devs with
              | Some (d :: ds) => d :: ds
              | _ => (get_known_devices cfg w st3).1
              end = known_st.1).
  { subst known_st. destruct devs as [[|d ds]|]; reflexivity. }
  rewrite K. clear K.
  destruct known_st as [known st4]. simpl in H4. cbn [fst snd].
  set (P := stale_removal_only sp sc known).
  assert (Hpre : new_events P st st4).
  { etransitivity; [eapply new_events_mono; [|apply only_events_new; exact H1];
                    subst P; event_cases|].
    etransitivity; [eapply new_events_mono; [|apply only_events_new; exact H2];
                    subst P; event_cases|].
    etransitivity; [eapply new_events_mono; [|apply only_events_new; exact H3];
                    subst P; event_cases|].
    eapply new_events_mono; [|exact H4]. subst P; event_cases. }
  assert (Hsame : s1 <> ∅ -> sp = s1 /\ sc = s1).
  { intros Hne. specialize (N2 Hne). specialize (N3 Hne).
    split; congruence. }
  assert (Hfetched : s1 = ∅ ->
            sp = w_snapshot w (trace st1) /\ sc = w_snapshot w (trace st2)).
  { intros He. split; auto. }
  destruct known as [|d0 known'].
  { destruct Hpre as [evs [E F]]. exists evs. auto. }
  set (known := d0 :: known') in *.
  set (stale := list_to_set (macs_where di_paired sp) ∖ convex_macs_of known
                ∖ list_to_set (macs_where di_connected sc)).
  assert (Hloop : new_events P st4
            (for_each (w_set_order w stale)
               (fun mac => bind (remove_device w mac (Some s1)) (fun _ => ret tt))
               st4).2).
  { apply (steps_for_each (new_events P)). intros mac Hmac.
    apply set_order_elem in Hmac. subst stale.
    apply elem_of_difference in Hmac. destruct Hmac as [Hmac Hnc].
    apply elem_of_difference in Hmac. destruct Hmac as [Hp Hnk].
    rewrite elem_of_list_to_set, elem_of_macs_where in Hp.
    rewrite elem_of_list_to_set, elem_of_macs_where in Hnc.
    apply steps_bind; [apply _ | | intros; apply steps_ret; apply _].
    eapply steps_mono; [|apply steps_remove_device].
    intros a b Hab. eapply new_events_mono; [|exact Hab].
    intros e He. destruct e; simpl in *; auto. subst mac0.
    unfold paired_in, connected_in. split; [discriminate|]. auto. }
  destruct (for_each _ _ st4) as [[] st5]. simpl in Hloop.
  assert (Hall : new_events P st st5) by (etransitivity; eassumption).
  destruct Hall as [evs [E F]]. exists evs. auto 6.
Qed.

(** [get_known_devices] returns the empty list when the circuit is open
    or the store does not answer with at least one record. *)
Lemma get_known_devices_nothing (st : State) :
  let now := w_monotonic w (trace st) in
  (now < _convex_circuit_open_until st)%Q
  \/ ~ yields_devices (w_getDevices w (EvMonotonic now :: trace st)) ->
  (get_known_devices cfg w st).1 = [].
Proof.
  intros now H.
  unfold get_known_devices, _submit_convex_call, executor_submit, monotonic,
    bind, gets, emit, modify, ret. simpl. fold now.
  destruct (Qltb now (_convex_circuit_open_until st)) eqn:E; [reflexivity|].
  destruct H as [H|H]; [apply Qltb_lt in H; congruence|].
  simpl.
  destruct (w_getDevices w (EvMonotonic now :: trace st)) as [[[|d l]|]| |];
    simpl; try reflexivity.
  - exfalso. apply H. exact I.
  - destruct (MAX_CONVEX_CONSECUTIVE_TIMEOUTS cfg
              <=? _convex_consecutive_timeouts st + 1)%Z; reflexivity.
Qed.

(** The two listings read the snapshot they settle on. *)
Lemma get_paired_devices_unfold (s : snapshot) (st : State) :
  get_paired_devices w (Some s) st
  = (macs_where di_paired (snapshot_or w (Some s) st).1,
     (snapshot_or w (Some s) st).2).
Proof.
  unfold get_paired_devices, bind, ret.
  destruct (snapshot_or w (Some s) st); reflexivity.
Qed.

Lemma get_all_connected_devices_unfold (s : snapshot) (st : State) :
  get_all_connected_devices w (Some s) st
  = (macs_where di_connected (snapshot_or w (Some s) st).1,
     (snapshot_or w (Some s) st).2).
Proof.
  unfold get_all_connected_devices, bind, ret.
  destruct (snapshot_or w (Some s) st); reflexivity.
Qed.

(** C5. Stale-pairing cleanup settles on a snapshot (the one it is given,
    or a fetched one), reads the paired and the connected addresses with
    [get_paired_devices] and [get_all_connected_devices], and works from
    the store's records: the list it is handed or, when that list is
    empty or missing, the answer to its own query.  Every address it
    removes is one of the paired addresses it read, is not an address of
    these records, and is not one of the connected addresses it read.
    Both listings read the snapshot the function settled on; only when
    that snapshot is empty does each listing read a snapshot fetched at
    that moment.  Being unknown to the store is thus never enough to be
    removed: an address connected in the snapshot the connected addresses
    were read from is spared. *)
Theorem cleanup_stale_spares_connected
    (devs : option (list store_device)) (snap : option snapshot) (st : State) :
  let r1 := snapshot_or w snap st in
  let rp := get_paired_devices w (Some r1.1) r1.2 in
  let rc := get_all_connected_devices w (Some r1.1) rp.2 in
  let known := match devs with
               | Some (d :: ds) => d :: ds
               | _ => (get_known_devices cfg w rc.2).1
               end in
  let st' := (cleanup_stale_bluetooth_pairings cfg w devs snap st).2 in
  exists evs,
    trace st' = evs ++ trace st
    /\ (forall mac path ok,
          EvRemoveDevice mac path ok ∈ evs ->
          mac ∈ rp.1 /\ (mac ∉ convex_macs_of known) /\ (mac ∉ rc.1))
    /\ (forall mac,
          r1.1 <> ∅ ->
          (mac ∈ rp.1 <-> paired_in r1.1 mac)
          /\ (mac ∈ rc.1 <-> connected_in r1.1 mac))
    /\ (forall mac,
          r1.1 = ∅ ->
          (mac ∈ rp.1 <-> paired_in (w_snapshot w (trace r1.2)) mac)
          /\ (mac ∈ rc.1 <-> connected_in (w_snapshot w (trace rp.2)) mac)).
Proof.
  cbv zeta.
  destruct (cleanup_stale_run devs snap st) as [evs [E [S [S' F]]]].
  revert S S' F.
  rewrite !get_paired_devices_unfold, !get_all_connected_devices_unfold.
  cbn [fst snd].
  set (r1 := snapshot_or w snap st).
  set (rp := snapshot_or w (Some r1.1) r1.2).
  set (rc := snapshot_or w (Some r1.1) rp.2).
  intros S S' F.
  exists evs. split; [exact E|]. split; [|split].
  - intros mac path ok Hin. rewrite Forall_forall in F.
    specialize (F _ Hin). simpl in F.
    destruct F as [_ [Hp [Hk Hc]]].
    rewrite !elem_of_macs_where. auto.
  - intros mac Hne. destruct (S Hne) as [-> ->].
    rewrite !elem_of_macs_where. split; reflexivity.
  - intros mac He. destruct (S' He) as [-> ->].
    rewrite !elem_of_macs_where. split; reflexivity.
Qed.

(** C10 (amended). When the list handed to stale-pairing cleanup is empty
    or missing, cleanup asks the store itself; when that query yields no
    device either (the circuit is open at that moment, or the call times
    out, raises, returns nothing or returns an empty list), cleanup
    removes no pairing.  Besides, [get_known_devices] returns the empty
    list on every such failure, in every world and state. *)
Theorem cleanup_stale_needs_known_devices
    (devs : option (list store_device)) (snap : option snapshot) (st : State) :
  devs = None \/ devs = Some [] ->
  let r1 := snapshot_or w snap st in
  let rp := get_paired_devices w (Some r1.1) r1.2 in
  let rc := get_all_connected_devices w (Some r1.1) rp.2 in
  let now := w_monotonic w (trace rc.2) in
  (now < _convex_circuit_open_until rc.2)%Q
  \/ ~ yields_devices (w_getDevices w (EvMonotonic now :: trace rc.2)) ->
  let st' := (cleanup_stale_bluetooth_pairings cfg w devs snap st).2 in
  (exists evs,
     trace st' = evs ++ trace st /\ Forall (fun e => ~ is_removal e) evs)
  /\ (forall (st0 : State),
        let now := w_monotonic w (trace st0) in
        (now < _convex_circuit_open_until st0)%Q
        \/ ~ yields_devices (w_getDevices w (EvMonotonic now :: trace st0)) ->
        (get_known_devices cfg w st0).1 = []).
Proof.
  cbv zeta. intros Hdevs.
  rewrite !get_paired_devices_unfold, !get_all_connected_devices_unfold.
  cbn [fst snd]. intros Hq.
  split; [|intros st0; apply get_known_devices_nothing].
  destruct (cleanup_stale_run devs snap st) as [evs [E [_ [_ F]]]].
  exists evs. split; [exact E|].
  assert (Hk : match devs with
               | Some (d :: ds) => d :: ds
               | _ => (get_known_devices cfg w
                         (snapshot_or w (Some (snapshot_or w snap st).1)
                            (snapshot_or w (Some (snapshot_or w snap st).1)
                               (snapshot_or w snap st).2).2).2).1
               end = []).
  { destruct Hdevs as [-> | ->]; apply get_known_devices_nothing; exact Hq. }
  rewrite Hk in F.
  eapply Forall_impl; [exact F|].
  intros e He Hr. destruct e; simpl in *; try contradiction.
  destruct He as [Hne _]. contradiction.
Qed.

End Stale_cleanup.

(** C10, at a concrete input: a paired, idle device, an empty list and a
    store that times out. *)
Lemma cleanup_stale_needs_known_devices_witness :
  let dev := {| di_path := Some "/org/bluez/hci0/dev_AA_BB_CC_DD_EE_FF";
                di_name := None; di_alias := None; di_connected := false;
                di_paired := true; di_trusted := true; di_rssi := None;
                di_tx_power := None |} in
  let snap : snapshot := {[ "AA:BB:CC:DD:EE:FF" := dev ]} in
  let w := const_world 50 snap KTimedOut in
  let st' := (cleanup_stale_bluetooth_pairings default_config w (Some [])
                (Some snap) initial_state).2 in
  exists evs,
    trace st' = evs ++ trace initial_state
    /\ Forall (fun e => ~ is_removal e) evs.
Proof.
  intros dev snap w st'.
  refine (proj1 (cleanup_stale_needs_known_devices default_config w (Some [])
                   (Some snap) initial_state (or_intror eq_refl) _)).
  right. intros H. exact H.
Defined.

(** C10 as claimed fails: in [slow_start_world] the query of the cycle
    times out, so the cycle's list of known devices is empty; stale
    cleanup then asks the store again, gets an answer, and removes the
    pairing of the idle device in that same cycle.  (The calls are listed
    newest first.) *)
Lemma stale_cleanup_claim_counterexample :
  let st' := (check_and_update_devices default_config slow_start_world
                initial_state).2 in
  outcomes_of (trace st')
  = [(GetDevices, KReturned); (CleanupExpiredGracePeriods, KReturned);
     (GetDevices, KTimedOut)]
  /\ removals_of (trace st')
     = [("AA:BB:CC:DD:EE:FF", "/org/bluez/hci0/dev_AA_BB_CC_DD_EE_FF", true)].
Proof. vm_compute. split; reflexivity. Qed.

(** ** Status updates *)

#[global] Instance calls_added_preorder P : PreOrder (calls_added P).
Proof.
  split.
  - intros st. exists []. simpl. auto.
  - intros st1 st2 st3 [e1 [E1 H1]] [e2 [E2 H2]].
    exists (e2 ++ e1). rewrite E2, E1, <- app_assoc. split; [reflexivity|].
    rewrite submitted_app. apply Forall_app; auto.
Qed.

Lemma calls_added_mono (P Q : convex_call -> Prop) st st' :
  (forall c, P c -> Q c) -> calls_added P st st' -> calls_added Q st st'.
Proof.
  intros HPQ [evs [E H]]. exists evs. split; [assumption|].
  eapply Forall_impl; eauto.
Qed.

Lemma steps_modify_calls P (f : State -> State) :
  (forall st, trace (f st) = trace st) -> steps (calls_added P) (modify f).
Proof. intros Hf st. exists []. simpl. rewrite Hf. auto. Qed.

Section Status.
Context (cfg : Config) (w : World).

(** The trace of one call of the wrapper: the clock read, then, with the
    circuit closed, the submission, and possibly the clock read that opens
    the circuit. *)
Lemma submit_convex_call_trace {T} (fn : convex_fn T) description st :
  let now := w_monotonic w (trace st) in
  let open := Qltb now (_convex_circuit_open_until st) in
  let r := _submit_convex_call cfg w fn description st in
  (open = true -> r.1 = None)
  /\ device_previous_status r.2 = device_previous_status st
  /\ device_first_seen r.2 = device_first_seen st
  /\ exists evs,
       trace r.2 = evs ++ trace st
       /\ submitted evs = if open then [] else [description].
Proof.
  intros now open r. subst r open.
  unfold _submit_convex_call, executor_submit, monotonic, bind, gets, emit,
    modify, ret. simpl. fold now.
  destruct (Qltb now (_convex_circuit_open_until st)); simpl.
  { split; [reflexivity|]. split; [reflexivity|]. split; [reflexivity|].
    exists [EvMonotonic now]. split; reflexivity. }
  split; [discriminate|].
  destruct (fn (EvMonotonic now :: trace st)) as [res| |]; simpl.
  - split; [reflexivity|]. split; [reflexivity|].
    exists [EvConvexSubmit description KReturned; EvMonotonic now].
    split; reflexivity.
  - destruct (MAX_CONVEX_CONSECUTIVE_TIMEOUTS cfg
              <=? _convex_consecutive_timeouts st + 1)%Z; simpl.
    + split; [reflexivity|]. split; [reflexivity|].
      eexists [_; EvConvexSubmit description KTimedOut; EvMonotonic now].
      split; reflexivity.
    + split; [reflexivity|]. split; [reflexivity|].
      exists [EvConvexSubmit description KTimedOut; EvMonotonic now].
      split; reflexivity.
  - split; [reflexivity|]. split; [reflexivity|].
    exists [EvConvexSubmit description KRaised; EvMonotonic now].
    split; reflexivity.
Qed.

Lemma steps_submit_calls {T} (fn : convex_fn T) description (P : convex_call -> Prop) :
  P description -> steps (calls_added P) (_submit_convex_call cfg w fn description).
Proof.
  intros HP st.
  destruct (submit_convex_call_trace fn description st)
    as [_ [_ [_ [evs [E S]]]]].
  exists evs. split; [exact E|]. rewrite S.
  destruct (Qltb _ _); auto.
Qed.

Lemma steps_log_attendance_calls mac name status :
  steps (calls_added not_status_update) (log_attendance cfg w mac name status).
Proof.
  unfold log_attendance.
  apply steps_bind; [apply _ | apply steps_submit_calls; exact I |].
  intros [r|]; apply steps_ret; apply _.
Qed.

Lemma steps_get_device_by_mac_calls mac :
  steps (calls_added not_status_update) (get_device_by_mac cfg w mac).
Proof.
  unfold get_device_by_mac, get_known_devices.
  apply steps_bind; [apply _ | | intros; apply steps_ret; apply _].
  apply steps_bind; [apply _ | apply steps_submit_calls; exact I |].
  intros [r|]; apply steps_ret; apply _.
Qed.

Lemma steps_after_status_update mac new_status cache :
  steps (calls_added not_status_update)
    (after_status_update cfg w mac new_status cache).
Proof.
  unfold after_status_update.
  apply steps_bind; [apply _ | |].
  { destruct cache as [c|]; [destruct (bool_decide (c = ∅))|];
      try apply steps_get_device_by_mac_calls. apply steps_ret; apply _. }
  intros device. apply steps_bind; [apply _ | |].
  { destruct device as [d|]; [|apply steps_ret; apply _].
    destruct (negb (sd_pendingRegistration d)); [|apply steps_ret; apply _].
    apply steps_bind; [apply _ | apply steps_log_attendance_calls |].
    intros; apply steps_ret; apply _. }
  intros _. apply steps_bind; [apply _ | | intros; apply steps_ret; apply _].
  apply steps_modify_calls. reflexivity.
Qed.

(** The store calls of [update_device_status]: none when the status is
    unchanged; otherwise the mutation, unless the circuit is open, followed
    by calls that are not status updates. *)
Lemma update_device_status_calls mac is_connected current_status cache st :
  let new_status := status_of is_connected in
  let previous_status :=
    match current_status with
    | Some _ => current_status
    | None => device_previous_status st !! mac
    end in
  let open :=
    Qltb (w_monotonic w (trace st)) (_convex_circuit_open_until st) in
  let st' :=
    (update_device_status cfg w mac is_connected current_status cache st).2 in
  exists evs,
    trace st' = evs ++ trace st
    /\ if bool_decide (previous_status = Some new_status)
       then evs = []
       else exists later,
              submitted evs
              = later ++ (if open then []
                          else [UpdateDeviceStatus mac new_status])
              /\ Forall not_status_update later.
Proof.
  intros new_status previous_status open st'. subst st'.
  unfold update_device_status. fold new_status.
  unfold bind at 1, gets at 1. cbv beta iota. fold previous_status.
  destruct (bool_decide (previous_status = Some new_status)).
  { exists []. split; reflexivity. }
  unfold bind at 1.
  pose proof (submit_convex_call_trace
                (w_updateDeviceStatus w mac new_status)
                (UpdateDeviceStatus mac new_status) st) as Hs.
  cbv zeta in Hs. fold open in Hs.
  destruct (_submit_convex_call cfg w _ _ st) as [r st1].
  simpl in Hs. destruct Hs as [_ [_ [_ [evs1 [E1 S1]]]]].
  destruct r as [u|].
  2:{ exists evs1. split; [exact E1|]. exists []. split; [exact S1|]. constructor. }
  pose proof (steps_after_status_update mac new_status cache st1) as Hlater.
  destruct (after_status_update cfg w mac new_status cache st1) as [b st2].
  simpl in Hlater. destruct Hlater as [evs2 [E2 F2]].
  exists (evs2 ++ evs1). simpl. rewrite E2, E1, <- app_assoc.
  split; [reflexivity|].
  exists (submitted evs2). rewrite submitted_app, S1. auto.
Qed.

Lemma status_of_not_unknown b : Some (status_of b) <> Some "unknown".
Proof. destruct b; discriminate. Qed.

(** One record of the status loop, in terms of store calls. *)
Lemma update_status_of_device_calls present_set devices_by_mac device st :
  truthy_str (sd_macAddress device) = true ->
  let mac := default "" (sd_macAddress device) in
  let new_status := status_of (bool_decide (mac ∈ present_set)) in
  let open :=
    Qltb (w_monotonic w (trace st)) (_convex_circuit_open_until st) in
  let st' :=
    (update_status_of_device cfg w present_set devices_by_mac device st).2 in
  exists evs,
    trace st' = evs ++ trace st
    /\ if bool_decide (last_known_status st device = Some new_status)
       then evs = []
       else exists later,
              submitted evs
              = later ++ (if open then []
                          else [UpdateDeviceStatus mac new_status])
              /\ Forall not_status_update later.
Proof.
  intros Hmac mac new_status open st'. subst st'.
  unfold update_status_of_device. rewrite Hmac. cbn [negb].
  cbv beta iota zeta. fold mac. fold new_status.
  unfold last_known_status. fold mac.
  destruct (sd_status device) as [[status|]|].
  - (* a string *)
    destruct (decide (Some new_status = Some status)) as [E|N].
    + rewrite (bool_decide_eq_false_2 (Some new_status <> Some status)) by tauto.
      rewrite (bool_decide_eq_true_2 (Some status = Some new_status)) by auto.
      exists []. split; reflexivity.
    + rewrite (bool_decide_eq_true_2 (Some new_status <> Some status)) by auto.
      rewrite (bool_decide_eq_false_2 (Some status = Some new_status))
        by (intros E; apply N; auto).
      unfold bind, ret. cbv beta iota.
      pose proof (update_device_status_calls mac
                    (bool_decide (mac ∈ present_set)) (Some status)
                    (Some devices_by_mac) st) as H.
      cbv zeta in H. fold new_status in H. fold open in H.
      rewrite (bool_decide_eq_false_2 (Some status = Some new_status)) in H
        by (intros E; apply N; auto).
      destruct (update_device_status cfg w mac _ _ _ st) as [b st1].
      exact H.
  - (* null: the remembered status decides *)
    rewrite (bool_decide_eq_true_2 (Some new_status <> None)) by discriminate.
    unfold bind, ret. cbv beta iota.
    pose proof (update_device_status_calls mac
                  (bool_decide (mac ∈ present_set)) None
                  (Some devices_by_mac) st) as H.
    cbv zeta in H. fold new_status in H. fold open in H.
    destruct (update_device_status cfg w mac _ _ _ st) as [b st1].
    exact H.
  - (* missing: "unknown" never equals a derived status *)
    rewrite (bool_decide_eq_true_2 (Some new_status <> Some "unknown"))
      by apply status_of_not_unknown.
    rewrite (bool_decide_eq_false_2 (Some "unknown" = Some new_status))
      by (intros E; symmetry in E; revert E; apply status_of_not_unknown).
    unfold bind, ret. cbv beta iota.
    pose proof (update_device_status_calls mac
                  (bool_decide (mac ∈ present_set)) (Some "unknown")
                  (Some devices_by_mac) st) as H.
    cbv zeta in H. fold new_status in H. fold open in H.
    rewrite (bool_decide_eq_false_2 (Some "unknown" = Some new_status)) in H
      by (intros E; symmetry in E; revert E; apply status_of_not_unknown).
    destruct (update_device_status cfg w mac _ _ _ st) as [b st1].
    exact H.
Qed.

(** C4 (amended). For a store record with an address, the
    [updateDeviceStatus] mutation reaches the executor if and only if the
    derived status differs from the last-known status and the circuit
    breaker is not open at that moment; when the status is unchanged the
    record causes no interaction at all, hence no store call; and no status
    update for another address or another status is ever made. *)
Theorem status_update_edge_triggered
    (present_set : gset string) (devices_by_mac : gmap string store_device)
    (device : store_device) (st : State) :
  truthy_str (sd_macAddress device) = true ->
  let mac := default "" (sd_macAddress device) in
  let new_status := status_of (bool_decide (mac ∈ present_set)) in
  let st' :=
    (update_status_of_device cfg w present_set devices_by_mac device st).2 in
  (UpdateDeviceStatus mac new_status ∈ calls_since st st'
   <-> last_known_status st device <> Some new_status
       /\ ~ (w_monotonic w (trace st) < _convex_circuit_open_until st)%Q)
  /\ (last_known_status st device = Some new_status ->
      trace st' = trace st /\ calls_since st st' = [])
  /\ (forall mac' status',
        UpdateDeviceStatus mac' status' ∈ calls_since st st' ->
        mac' = mac /\ status' = new_status).
Proof.
  intros Hmac mac new_status st'.
  destruct (update_status_of_device_calls present_set devices_by_mac device st
              Hmac) as [evs [E H]].
  fold mac new_status st' in E, H.
  rewrite (calls_since_app st st' evs E).
  destruct (bool_decide (last_known_status st device = Some new_status)) eqn:B.
  - apply bool_decide_eq_true in B. subst evs. simpl.
    split; [|split].
    + split; [intros X; inversion X | intros [N _]; contradiction].
    + intros _. simpl in E. split; [exact E | reflexivity].
    + intros m s' X. inversion X.
  - apply bool_decide_eq_false in B. destruct H as [later [S F]].
    rewrite S.
    assert (Hlater : forall m s', UpdateDeviceStatus m s' ∉ later).
    { intros m s' X. rewrite Forall_forall in F. exact (F _ X). }
    destruct (Qltb (w_monotonic w (trace st)) (_convex_circuit_open_until st))
      eqn:O.
    + apply Qltb_lt in O. rewrite app_nil_r.
      split; [|split].
      * split; [intros X; exfalso; exact (Hlater _ _ X) | intros [_ N]; contradiction].
      * intros X; contradiction.
      * intros m s' X. exfalso. exact (Hlater _ _ X).
    + apply Qltb_ge in O.
      split; [|split].
      * split.
        -- intros _. split; [exact B|]. intros X. exact (Qlt_not_le _ _ X O).
        -- intros _. apply elem_of_app. right. apply list_elem_of_singleton.
           reflexivity.
      * intros X; contradiction.
      * intros m s' X. apply elem_of_app in X. destruct X as [X|X].
        -- exfalso. exact (Hlater _ _ X).
        -- apply list_elem_of_singleton in X. injection X as -> ->. auto.
Qed.

End Status.

(** C4 read literally fails: the record says "absent", the device is in
    the presence set, and the circuit is open until 100 while the clock
    reads 50; the statuses differ, yet no mutation is submitted. *)
Lemma status_dedup_claim_counterexample :
  let mac := "AA:BB:CC:DD:EE:FF" in
  let device := {| sd_macAddress := Some mac; sd_name := Some "phone";
                   sd_status := Some (Some "absent");
                   sd_connectedSince := None;
                   sd_pendingRegistration := false;
                   sd_firstName := None; sd_lastName := None |} in
  let w := const_world 50 ∅ KReturned in
  let st := set_convex_circuit_open_until 100 initial_state in
  ~ status_dedup_claim default_config w {[ mac ]} {[ mac := device ]} device st.
Proof.
  intros mac device w st [_ H].
  assert (N : last_known_status st device
              <> Some (status_of (bool_decide
                                    (default "" (sd_macAddress device)
                                     ∈ ({[ mac ]} : gset string)))))
    by (vm_compute; discriminate).
  specialize (H N). vm_compute in H. inversion H.
Qed.

(** C4 (amended), at a concrete input: the same record with the circuit
    closed; the mutation is submitted. *)
Lemma status_update_edge_triggered_witness :
  let mac := "AA:BB:CC:DD:EE:FF" in
  let device := {| sd_macAddress := Some mac; sd_name := Some "phone";
                   sd_status := Some (Some "absent");
                   sd_connectedSince := None;
                   sd_pendingRegistration := false;
                   sd_firstName := None; sd_lastName := None |} in
  let w := const_world 50 ∅ KReturned in
  let st' := (update_status_of_device default_config w {[ mac ]}
                {[ mac := device ]} device initial_state).2 in
  UpdateDeviceStatus mac "present" ∈ calls_since initial_state st'.
Proof.
  intros mac device w st'.
  destruct (status_update_edge_triggered default_config w {[ mac ]}
              {[ mac := device ]} device initial_state eq_refl) as [[_ H] _].
  apply H. split.
  - vm_compute. discriminate.
  - vm_compute. discriminate.
Defined.

(** ** Debounced registration *)

Section Registration.
Context (cfg : Config) (w : World).

(** [_should_register_device] talks to nobody and touches only
    [device_first_seen]: a first observation is recorded and refused, a
    later one is accepted once the debounce window has passed. *)
Lemma should_register_device_cases mac info now st :
  let r := _should_register_device cfg mac info now st in
  if registrable info then
    match device_first_seen st !! mac with
    | None =>
        r = (false, set_device_first_seen
                      (<[mac := now]> (device_first_seen st)) st)
    | Some first_seen =>
        r = (negb (Qltb (now - first_seen)
                     (inject_Z (FIRST_SEEN_DEBOUNCE_SECONDS cfg))), st)
    end
  else r = (false, st).
Proof.
  unfold _should_register_device, registrable, bind, gets, modify, ret. simpl.
  destruct (di_paired info || di_connected info || di_trusted info); simpl;
    [|reflexivity].
  destruct (di_connected info || bool_decide (di_rssi info <> None)
            || bool_decide (di_tx_power info <> None)); simpl; [|reflexivity].
  destruct (device_first_seen st !! mac) as [t|]; [|reflexivity].
  destruct (Qltb _ _); reflexivity.
Qed.

Lemma observed_in_cons s connected_set macs x mac :
  observed_in s connected_set macs mac ->
  observed_in s connected_set (x :: macs) mac.
Proof. intros [H1 H2]. split; [right; exact H1 | exact H2]. Qed.

(** The candidate loop over distinct addresses: no interaction, only
    [device_first_seen] changes; an address without a timestamp gets [now]
    at most, an address with one keeps it; and every candidate added was a
    [debounced_candidate] with respect to the timestamps at loop entry. *)
Lemma find_candidates_loop_spec macs s connected_set now :
  NoDup macs ->
  forall candidates st,
    let r := find_candidates_loop cfg macs s connected_set now candidates st in
    r.2 = set_device_first_seen (device_first_seen r.2) st
    /\ (forall mac,
          match device_first_seen st !! mac with
          | Some t => device_first_seen r.2 !! mac = Some t
          | None =>
              device_first_seen r.2 !! mac = None
              \/ (observed_in s connected_set macs mac
                  /\ device_first_seen r.2 !! mac = Some now)
          end)
    /\ (forall mac info,
          mac ∈ macs -> mac ∉ connected_set -> s !! mac = Some info ->
          registrable info = true -> device_first_seen st !! mac = None ->
          device_first_seen r.2 !! mac = Some now)
    /\ exists added,
         r.1 = candidates ++ added
         /\ Forall (fun c => c.1 ∈ macs
                             /\ debounced_candidate cfg s connected_set now
                                  (device_first_seen st) c.1 c.2) added.
Proof.
  intros Hnd. induction Hnd as [|mac macs Hnotin Hnd IH]; intros candidates st.
  { simpl. split; [destruct st; reflexivity|]. split.
    - intros mac. destruct (device_first_seen st !! mac); auto.
    - split; [intros mac info Hin; inversion Hin|].
      exists []. rewrite app_nil_r. auto. }
  cbn [find_candidates_loop].
  assert (Hskip : forall cands,
    let r := find_candidates_loop cfg macs s connected_set now cands st in
    (mac ∈ connected_set \/ s !! mac = None
     \/ exists info, s !! mac = Some info /\ registrable info = false) ->
    r.2 = set_device_first_seen (device_first_seen r.2) st
    /\ (forall mac0,
          match device_first_seen st !! mac0 with
          | Some t => device_first_seen r.2 !! mac0 = Some t
          | None =>
              device_first_seen r.2 !! mac0 = None
              \/ (observed_in s connected_set (mac :: macs) mac0
                  /\ device_first_seen r.2 !! mac0 = Some now)
          end)
    /\ (forall mac0 info,
          mac0 ∈ mac :: macs -> mac0 ∉ connected_set -> s !! mac0 = Some info ->
          registrable info = true -> device_first_seen st !! mac0 = None ->
          device_first_seen r.2 !! mac0 = Some now)
    /\ exists added,
         r.1 = cands ++ added
         /\ Forall (fun c => c.1 ∈ mac :: macs
                             /\ debounced_candidate cfg s connected_set now
                                  (device_first_seen st) c.1 c.2) added).
  { intros cands r Hwhy. subst r.
    destruct (IH cands st) as [I1 [I2 [I3 [added [I4 I5]]]]].
    split; [exact I1|]. split; [|split].
    - intros mac0. specialize (I2 mac0).
      destruct (device_first_seen st !! mac0); [exact I2|].
      destruct I2 as [I2|[Hin I2]]; [left; exact I2|].
      right. split; [apply observed_in_cons; exact Hin | exact I2].
    - intros mac0 info Hin Hnc Hs Hreg Hnone.
      apply elem_of_cons in Hin. destruct Hin as [->|Hin].
      + exfalso. destruct Hwhy as [Hc|[Hn|[info' [Hs' Hr']]]];
          [contradiction | congruence | congruence].
      + eapply I3; eauto.
    - exists added. split; [exact I4|].
      eapply Forall_impl; [exact I5|]. intros c [Hc1 Hc2].
      split; [right; exact Hc1 | exact Hc2]. }
  destruct (bool_decide (mac ∈ connected_set)) eqn:Hconn.
  { apply bool_decide_eq_true in Hconn. apply Hskip. left; exact Hconn. }
  apply bool_decide_eq_false in Hconn.
  destruct (s !! mac) as [info|] eqn:Hs; [|apply Hskip; right; left; reflexivity].
  unfold bind.
  pose proof (should_register_device_cases mac info now st) as Hcase.
  cbv zeta in Hcase.
  destruct (registrable info) eqn:Hreg.
  2:{ rewrite Hcase. apply Hskip. right; right. exists info. auto. }
  destruct (device_first_seen st !! mac) as [t0|] eqn:Hseen.
  - (* seen before: accepted once the window has passed *)
    rewrite Hcase.
    destruct (Qltb (now - t0) (inject_Z (FIRST_SEEN_DEBOUNCE_SECONDS cfg)))
      eqn:Hdeb; cbn [negb].
    + (* too early *)
      destruct (IH candidates st) as [I1 [I2 [I3 [added [I4 I5]]]]].
      split; [exact I1|]. split; [|split].
      * intros mac0. specialize (I2 mac0).
        destruct (device_first_seen st !! mac0); [exact I2|].
        destruct I2 as [I2|[Hin I2]]; [left; exact I2|].
        right. split; [apply observed_in_cons; exact Hin | exact I2].
      * intros mac0 info0 Hin Hnc Hs0 Hreg0 Hnone.
        apply elem_of_cons in Hin. destruct Hin as [->|Hin]; [congruence|].
        eapply I3; eauto.
      * exists added. split; [exact I4|].
        eapply Forall_impl; [exact I5|]. intros c [Hc1 Hc2].
        split; [right; exact Hc1 | exact Hc2].
    + (* accepted *)
      apply Qltb_ge in Hdeb.
      destruct (IH (candidates ++ [(mac, info)]) st)
        as [I1 [I2 [I3 [added [I4 I5]]]]].
      split; [exact I1|]. split; [|split].
      * intros mac0. specialize (I2 mac0).
        destruct (device_first_seen st !! mac0); [exact I2|].
        destruct I2 as [I2|[Hin I2]]; [left; exact I2|].
        right. split; [apply observed_in_cons; exact Hin | exact I2].
      * intros mac0 info0 Hin Hnc Hs0 Hreg0 Hnone.
        apply elem_of_cons in Hin. destruct Hin as [->|Hin]; [congruence|].
        eapply I3; eauto.
      * exists ((mac, info) :: added). split.
        { rewrite I4, <- app_assoc. reflexivity. }
        constructor.
        { simpl. split; [left|].
          split; [exact Hconn|]. split; [exact Hs|]. split; [exact Hreg|].
          exists t0. auto. }
        eapply Forall_impl; [exact I5|]. intros c [Hc1 Hc2].
        split; [right; exact Hc1 | exact Hc2].
  - (* first observation: recorded, not a candidate *)
    rewrite Hcase. cbv beta iota.
    set (st1 := set_device_first_seen (<[mac := now]> (device_first_seen st)) st).
    destruct (IH candidates st1) as [I1 [I2 [I3 [added [I4 I5]]]]].
    split; [rewrite I1 at 1; reflexivity|]. split; [|split].
    + intros mac0. specialize (I2 mac0). subst st1. simpl in I2.
      destruct (decide (mac0 = mac)) as [->|Hne].
      * rewrite Hseen. rewrite lookup_insert_eq in I2.
        right. split; [|exact I2].
        split; [left|]. split; [exact Hconn|]. exists info. auto.
      * rewrite lookup_insert_ne in I2 by auto.
        destruct (device_first_seen st !! mac0); [exact I2|].
        destruct I2 as [I2|[Hin I2]]; [left; exact I2|].
        right. split; [apply observed_in_cons; exact Hin | exact I2].
    + intros mac0 info0 Hin Hnc Hs0 Hreg0 Hnone.
      apply elem_of_cons in Hin. destruct Hin as [->|Hin].
      * specialize (I2 mac). subst st1. simpl in I2.
        rewrite lookup_insert_eq in I2. exact I2.
      * eapply I3; eauto. subst st1. simpl.
        rewrite lookup_insert_ne; [exact Hnone|].
        intros ->. contradiction.
    + exists added. split; [exact I4|].
      eapply Forall_impl; [exact I5|]. intros c [Hc1 Hc2].
      split; [right; exact Hc1|].
      destruct Hc2 as [D1 [D2 [D3 [t [D4 D5]]]]].
      split; [exact D1|]. split; [exact D2|]. split; [exact D3|].
      exists t. split; [|exact D5].
      subst st1. simpl in D4.
      rewrite lookup_insert_ne in D4; [exact D4|].
      intros E. rewrite <- E in Hc1. contradiction.
Qed.

Lemma register_new_device_trace mac name st :
  let r := register_new_device cfg w mac name st in
  device_first_seen r.2 = device_first_seen st
  /\ exists evs,
       trace r.2 = evs ++ trace st
       /\ Forall (is_registration_of mac) (submitted evs).
Proof.
  unfold register_new_device, bind.
  match goal with
  | |- context [_submit_convex_call cfg w ?fn ?d st] =>
      pose proof (submit_convex_call_trace cfg w fn d st) as H;
      destruct (_submit_convex_call cfg w fn d st) as [res st1]
  end.
  cbv zeta in H. simpl in H. destruct H as [_ [_ [F [evs [E S]]]]].
  assert (Hsub : Forall (is_registration_of mac) (submitted evs)).
  { rewrite S. destruct (Qltb _ _); repeat constructor. }
  destruct res; simpl; eauto.
Qed.

(** One candidate of the registration loop: it can only submit a
    registration of its own address, none if the store already knows the
    address, and it leaves the first-seen timestamps of other addresses
    alone. *)
Lemma register_candidate_spec devices_by_mac (c : string * device_info) st :
  let st' := (register_candidate cfg w devices_by_mac c st).2 in
  (exists evs,
     trace st' = evs ++ trace st
     /\ Forall (is_registration_of c.1) (submitted evs)
     /\ (devices_by_mac !! c.1 <> None -> submitted evs = []))
  /\ (forall m,
        device_first_seen st' !! m = device_first_seen st !! m
        \/ (m = c.1 /\ device_first_seen st' !! m = None)).
Proof.
  unfold register_candidate.
  destruct (devices_by_mac !! c.1) as [known|] eqn:Hk.
  { simpl. split.
    - exists []. simpl. auto.
    - intros m. destruct (decide (m = c.1)) as [->|Hm].
      + right. split; [reflexivity | apply lookup_delete_eq].
      + left. apply lookup_delete_ne. auto. }
  unfold bind.
  pose proof (register_new_device_trace c.1
                (str_or (di_alias c.2) (di_name c.2)) st) as H.
  destruct (register_new_device cfg w c.1 _ st) as [ok st1].
  cbv zeta in H. simpl in H. destruct H as [F [evs [E S]]].
  destruct ok; simpl.
  - split.
    + exists evs. split; [exact E|]. split; [exact S|]. congruence.
    + intros m. destruct (decide (m = c.1)) as [->|Hm].
      * right. split; [reflexivity | apply lookup_delete_eq].
      * left. rewrite lookup_delete_ne by auto. rewrite F. reflexivity.
  - split.
    + exists evs. split; [exact E|]. split; [exact S|]. congruence.
    + intros m. left. rewrite F. reflexivity.
Qed.

(** The registration loop over a list of candidates. *)
Lemma register_candidates_spec devices_by_mac candidates st :
  let st' := (for_each candidates (register_candidate cfg w devices_by_mac) st).2 in
  (exists evs,
     trace st' = evs ++ trace st
     /\ Forall (fun call =>
                  exists c, c ∈ candidates /\ is_registration_of c.1 call
                            /\ devices_by_mac !! c.1 = None)
               (submitted evs))
  /\ (forall m,
        device_first_seen st' !! m = device_first_seen st !! m
        \/ (m ∈ candidates.*1 /\ device_first_seen st' !! m = None)).
Proof.
  revert st. induction candidates as [|c cs IH]; intros st.
  { simpl. split; [exists []; simpl; auto | auto]. }
  cbn [for_each]. unfold bind.
  pose proof (register_candidate_spec devices_by_mac c st) as H.
  destruct (register_candidate cfg w devices_by_mac c st) as [[] st1].
  cbv zeta in H. simpl in H. destruct H as [[evs1 [E1 [S1 N1]]] F1].
  destruct (IH st1) as [[evs2 [E2 S2]] F2].
  split.
  - exists (evs2 ++ evs1). rewrite E2, E1, <- app_assoc. split; [reflexivity|].
    rewrite submitted_app. apply Forall_app. split.
    + eapply Forall_impl; [exact S2|]. intros call [c' [Hin Hc']].
      exists c'. split; [right; exact Hin | exact Hc'].
    + destruct (devices_by_mac !! c.1) as [known|] eqn:Hk.
      * rewrite N1 by discriminate. constructor.
      * eapply Forall_impl; [exact S1|]. intros call Hcall.
        exists c. split; [left|]. auto.
  - intros m. rewrite fmap_cons.
    destruct (F2 m) as [F2m|[Hin F2m]].
    + destruct (F1 m) as [F1m|[-> F1m]].
      * left. congruence.
      * right. split; [left | congruence].
    + right. split; [right; exact Hin | exact F2m].
Qed.

Lemma get_devices_in_range_quiet s now st :
  let r := get_devices_in_range cfg w s now st in
  device_first_seen r.2 = device_first_seen st
  /\ exists evs, trace r.2 = evs ++ trace st /\ submitted evs = [].
Proof.
  unfold get_devices_in_range, _is_rssi_fresh, time_time, bind, gets, emit,
    modify, ret.
  destruct now as [t|]; [destruct (Qeq_bool t 0)|]; simpl;
    (split; [reflexivity|]);
    first [ exists []; split; reflexivity
          | eexists [_]; split; reflexivity ].
Qed.

Lemma register_in_range_devices_unfold s connected_set now devices_by_mac st :
  register_in_range_devices cfg w s connected_set now devices_by_mac st
  = let (in_range, st0) := get_devices_in_range cfg w s (Some now) st in
    let (candidates, st1) :=
      find_candidates_loop cfg (w_set_order w in_range) s connected_set now []
        st0 in
    for_each candidates (register_candidate cfg w devices_by_mac) st1.
Proof.
  unfold register_in_range_devices, _find_registration_candidates, bind.
  destruct (get_devices_in_range cfg w s (Some now) st) as [in_range st0].
  destruct (find_candidates_loop cfg _ s connected_set now [] st0)
    as [candidates st1].
  reflexivity.
Qed.

(** The debounced registration path of one cycle. *)
Lemma register_in_range_devices_spec s connected_set now devices_by_mac st :
  let in_range := (get_devices_in_range cfg w s (Some now) st).1 in
  let st' := (register_in_range_devices cfg w s connected_set now
                devices_by_mac st).2 in
  (forall c, c ∈ calls_since st st' ->
     exists mac name info,
       c = RegisterPendingDevice mac name
       /\ devices_by_mac !! mac = None
       /\ mac ∈ in_range
       /\ debounced_candidate cfg s connected_set now (device_first_seen st)
            mac info)
  /\ (forall mac t,
        device_first_seen st' !! mac = Some t ->
        device_first_seen st !! mac = Some t
        \/ (device_first_seen st !! mac = None /\ t = now
            /\ observed_in s connected_set (w_set_order w in_range) mac))
  /\ (forall mac info,
        mac ∈ in_range -> mac ∉ connected_set -> s !! mac = Some info ->
        registrable info = true -> device_first_seen st !! mac = None ->
        device_first_seen st' !! mac = Some now)
  /\ exists evs, trace st' = evs ++ trace st.
Proof.
  intros in_range st'. subst in_range st'.
  rewrite register_in_range_devices_unfold.
  pose proof (get_devices_in_range_quiet s (Some now) st) as H0.
  destruct (get_devices_in_range cfg w s (Some now) st) as [in_range st0].
  cbv zeta in H0. simpl in H0. destruct H0 as [F0 [evs0 [E0 S0]]].
  pose proof (find_candidates_loop_spec (w_set_order w in_range) s
                connected_set now (set_order_NoDup w in_range) [] st0) as H1.
  destruct (find_candidates_loop cfg (w_set_order w in_range) s connected_set
              now [] st0) as [cands st1].
  cbv zeta in H1. simpl in H1.
  destruct H1 as [G1 [G2 [G3 [added [G4 G5]]]]]. subst cands.
  pose proof (register_candidates_spec devices_by_mac added st1) as H2.
  destruct (for_each added (register_candidate cfg w devices_by_mac) st1)
    as [[] st2].
  cbv zeta in H2. simpl in H2 |- *. destruct H2 as [[evs2 [E2 S2]] F2].
  assert (T1 : trace st1 = trace st0) by (rewrite G1; reflexivity).
  assert (Hcalls : calls_since st st2 = submitted evs2).
  { rewrite (calls_since_app st st2 (evs2 ++ evs0)).
    - rewrite submitted_app, S0, app_nil_r. reflexivity.
    - rewrite E2, T1, E0, <- app_assoc. reflexivity. }
  assert (Hcand : forall m, m ∈ added.*1 ->
            exists t, device_first_seen st !! m = Some t).
  { intros m Hm. apply list_elem_of_fmap in Hm. destruct Hm as [c [-> Hc]].
    rewrite Forall_forall in G5. destruct (G5 c Hc) as [_ [_ [_ [_ [t [Ht _]]]]]].
    rewrite F0 in Ht. eauto. }
  split; [|split; [|split]];
    [| | |exists (evs2 ++ evs0); rewrite E2, T1, E0, <- app_assoc; reflexivity].
  - intros c Hc. rewrite Hcalls in Hc.
    rewrite Forall_forall in S2. destruct (S2 c Hc) as [cand [Hin [Hreg Hnone]]].
    rewrite Forall_forall in G5. destruct (G5 cand Hin) as [Hr D].
    destruct c; simpl in Hreg; try contradiction. subst macAddress.
    exists cand.1, name, cand.2. split; [reflexivity|]. split; [exact Hnone|].
    split; [apply (set_order_elem w); exact Hr|].
    rewrite F0 in D. exact D.
  - intros mac t Ht.
    destruct (F2 mac) as [F2m|[_ F2m]]; [|congruence].
    rewrite F2m in Ht. specialize (G2 mac). rewrite F0 in G2.
    destruct (device_first_seen st !! mac) as [t0|] eqn:E.
    + left. congruence.
    + right. destruct G2 as [G2|[Hobs G2]]; [congruence|].
      split; [reflexivity|]. split; [congruence | exact Hobs].
  - intros mac info Hin Hnc Hs Hreg Hnone.
    assert (Hna : mac ∉ added.*1).
    { intros Hin'. destruct (Hcand mac Hin') as [t Ht]. congruence. }
    destruct (F2 mac) as [F2m|[Hin' _]]; [|contradiction].
    rewrite F2m. eapply G3; eauto.
    + apply (set_order_elem w). exact Hin.
    + rewrite F0. exact Hnone.
Qed.

(** The debounced path of a cycle running at time [now]: every
    [registerPendingDevice] call is for an address that the store does not
    know, that is in range and not connected, and whose first-seen
    timestamp lies at least the debounce window before [now].  An address
    without a first-seen timestamp is not registered: the path records
    [now] as its timestamp when the address qualifies, and nothing else. *)
Lemma in_range_registration_debounced
    (s : snapshot) (connected_set : gset string) (now : Q)
    (devices_by_mac : gmap string store_device) (st : State) :
  let in_range := (get_devices_in_range cfg w s (Some now) st).1 in
  let st' := (register_in_range_devices cfg w s connected_set now
                devices_by_mac st).2 in
  (forall c, c ∈ calls_since st st' ->
     exists mac name info first_seen,
       c = RegisterPendingDevice mac name
       /\ devices_by_mac !! mac = None
       /\ mac ∈ in_range /\ (mac ∉ connected_set) /\ s !! mac = Some info
       /\ device_first_seen st !! mac = Some first_seen
       /\ (inject_Z (FIRST_SEEN_DEBOUNCE_SECONDS cfg) <= now - first_seen)%Q)
  /\ (forall mac,
        device_first_seen st !! mac = None ->
        (forall name, RegisterPendingDevice mac name ∉ calls_since st st')
        /\ (device_first_seen st' !! mac = None
            \/ device_first_seen st' !! mac = Some now))
  /\ (forall mac info,
        mac ∈ in_range -> mac ∉ connected_set -> s !! mac = Some info ->
        registrable info = true -> device_first_seen st !! mac = None ->
        device_first_seen st' !! mac = Some now)
  /\ FIRST_SEEN_DEBOUNCE_SECONDS default_config = 10%Z.
Proof.
  intros in_range st'.
  destruct (register_in_range_devices_spec s connected_set now devices_by_mac st)
    as [H1 [H2 [H3 _]]].
  fold in_range st' in H1, H2, H3.
  split; [|split; [|split; [exact H3 | reflexivity]]].
  - intros c Hc. destruct (H1 c Hc) as [mac [name [info [-> [K [R D]]]]]].
    destruct D as [D1 [D2 [_ [t [D4 D5]]]]].
    exists mac, name, info, t. auto 10.
  - intros mac Hnone. split.
    + intros name Hin. destruct (H1 _ Hin) as [m [n [info [E [_ [_ D]]]]]].
      injection E as <- <-.
      destruct D as [_ [_ [_ [t [D4 _]]]]]. congruence.
    + destruct (device_first_seen st' !! mac) as [t|] eqn:E; [|left; reflexivity].
      right. destruct (H2 mac t E) as [H|[_ [-> _]]]; [congruence|reflexivity].
Qed.

End Registration.

(** ** The probe scheduler *)

Lemma ascii_upper_idemp (c : ascii) : ascii_upper (ascii_upper c) = ascii_upper c.
Proof. destruct c as [[] [] [] [] [] [] [] []]; reflexivity. Qed.

Lemma upper_idemp (s : string) : upper (upper s) = upper s.
Proof.
  induction s as [|c s IH]; [reflexivity|].
  simpl. rewrite ascii_upper_idemp, IH. reflexivity.
Qed.

Section Sorting.
Context {A : Type} (key : A -> Q).

Let le (a b : A) : Prop := (key a <= key b)%Q.

Lemma insert_by_perm x l : insert_by key x l ≡ₚ x :: l.
Proof.
  induction l as [|y l IH]; [reflexivity|].
  simpl. destruct (Qle_bool (key x) (key y)); [reflexivity|].
  rewrite IH. apply Permutation_swap.
Qed.

Lemma sorted_by_perm l : sorted_by key l ≡ₚ l.
Proof.
  induction l as [|x l IH]; [reflexivity|].
  simpl. rewrite insert_by_perm, IH. reflexivity.
Qed.

Lemma insert_by_sorted x l :
  StronglySorted le l -> StronglySorted le (insert_by key x l).
Proof.
  induction l as [|y l IH]; intros Hs.
  - simpl. repeat constructor.
  - simpl. destruct (Qle_bool (key x) (key y)) eqn:E.
    + apply Qle_bool_iff in E. constructor; [exact Hs|].
      constructor; [exact E|].
      apply StronglySorted_cons in Hs. destruct Hs as [Hy _].
      eapply Forall_impl; [exact Hy|]. intros z Hz. unfold le in *.
      eapply Qle_trans; eauto.
    + assert (Hyx : le y x).
      { unfold le. apply Qlt_le_weak. apply Qnot_le_lt. intros H.
        apply Qle_bool_iff in H. congruence. }
      apply StronglySorted_cons in Hs. destruct Hs as [Hy Hl].
      constructor; [apply IH; exact Hl|].
      rewrite insert_by_perm. constructor; assumption.
Qed.

Lemma sorted_by_sorted l : StronglySorted le (sorted_by key l).
Proof.
  induction l as [|x l IH]; [constructor|].
  simpl. apply insert_by_sorted. exact IH.
Qed.

End Sorting.

Lemma dict_set_keys {V} (k : string) (v : V) (d : list (string * V)) :
  k ∉ d.*1 -> (dict_set k v d).*1 = d.*1 ++ [k].
Proof.
  induction d as [|[k' v'] d IH]; intros Hk; [reflexivity|].
  rewrite fmap_cons in Hk. cbn [fst] in Hk.
  apply not_elem_of_cons in Hk. destruct Hk as [Hne Hk].
  cbn [dict_set]. destruct (String.eqb k' k) eqn:E.
  - apply String.eqb_eq in E. congruence.
  - rewrite !fmap_cons. cbn [fst]. rewrite IH by exact Hk. reflexivity.
Qed.

Section Probe.
Context (cfg : Config) (w : World).

Lemma pick_reconnect_candidates_positive candidates max_count st :
  (0 < max_count)%Z ->
  _pick_reconnect_candidates w candidates max_count st
  = (picked_candidates w st candidates max_count, st).
Proof.
  intros H. unfold _pick_reconnect_candidates, picked_candidates, bind, gets, ret.
  destruct (max_count <=? 0)%Z eqn:E; [apply Z.leb_le in E; lia|].
  reflexivity.
Qed.

Lemma picked_candidates_selection candidates max_count st :
  (0 < max_count)%Z ->
  oldest_first_selection (last_attempt (_last_connection_attempts st))
    candidates max_count (picked_candidates w st candidates max_count).
Proof.
  intros Hmax. unfold picked_candidates.
  set (key := last_attempt (_last_connection_attempts st)).
  set (l := sorted_by key (w_set_order w candidates)).
  assert (Hperm : l ≡ₚ elements candidates).
  { subst l. rewrite sorted_by_perm. apply w_set_order_perm. }
  assert (Hnd : NoDup l) by (rewrite Hperm; apply NoDup_elements).
  assert (Hsorted : StronglySorted (older_or_equal key) l)
    by (subst l; apply sorted_by_sorted).
  assert (Hin : forall a, a ∈ l <-> a ∈ candidates).
  { intros a. rewrite Hperm. apply elem_of_elements. }
  split; [|split; [|split; [|split]]].
  - eapply sublist_NoDup; [exact Hnd | apply sublist_take].
  - intros a Ha. apply Hin. eapply subseteq_take; exact Ha.
  - rewrite length_take.
    assert (Hlen : length l = size candidates).
    { rewrite Hperm. reflexivity. }
    rewrite Hlen. lia.
  - rewrite <- (take_drop (Z.to_nat max_count) l) in Hsorted.
    eapply StronglySorted_app_1_l; exact Hsorted.
  - intros a b Ha Hb Hnb.
    assert (Hdrop : b ∈ drop (Z.to_nat max_count) l).
    { apply Hin in Hb. rewrite <- (take_drop (Z.to_nat max_count) l) in Hb.
      apply elem_of_app in Hb. destruct Hb as [Hb|Hb]; [contradiction|exact Hb]. }
    rewrite <- (take_drop (Z.to_nat max_count) l) in Hsorted.
    eapply StronglySorted_app_1_elem_of; eauto.
Qed.

Lemma probe_single_device_fst mac disconnect_after snap st :
  (_probe_single_device cfg w mac disconnect_after snap st).1.1 = mac.
Proof.
  unfold _probe_single_device, bind.
  destruct (_record_connection_attempt w mac st) as [[] st1].
  destruct (connect_device cfg w mac snap _ st1) as [[success|e] st2];
    [|reflexivity].
  destruct (success && disconnect_after).
  - unfold bind. destruct (disconnect_device cfg w mac snap st2) as [d st3].
    reflexivity.
  - reflexivity.
Qed.

(** The probe loop adds keys to the results in the order of the
    candidates, skipping some. *)
Lemma probe_loop_keys ordered disconnect_after snap budget start_time :
  NoDup ordered ->
  forall results st,
    (forall k, k ∈ results.*1 -> k ∉ ordered) ->
    exists attempted,
      (probe_loop cfg w ordered disconnect_after snap budget start_time
         results st).1.*1 = results.*1 ++ attempted
      /\ attempted `sublist_of` ordered.
Proof.
  intros Hnd. induction Hnd as [|mac rest Hnotin Hnd IH]; intros results st Hres.
  { exists []. simpl. rewrite app_nil_r. split; [reflexivity | constructor]. }
  cbn [probe_loop]. unfold bind at 1.
  match goal with
  | |- context [match budget with Some _ => _ | None => _ end st] =>
      destruct (match budget with
                | Some b =>
                    bind (monotonic w)
                      (fun t => ret (Qle_bool b (t - start_time)))
                | None => ret false
                end st) as [exceeded st1]
  end.
  destruct exceeded.
  { exists []. simpl. rewrite app_nil_r. split; [reflexivity|].
    apply sublist_nil_l. }
  unfold bind at 1.
  destruct (_can_attempt_reconnection w mac st1) as [can st2].
  destruct can; cbn [negb].
  - unfold bind at 1.
    pose proof (probe_single_device_fst mac disconnect_after snap st2) as Hfst.
    destruct (_probe_single_device cfg w mac disconnect_after snap st2)
      as [[k success] st3].
    simpl in Hfst. subst k. cbn [fst snd].
    assert (Hk : mac ∉ results.*1).
    { intros Hin. apply (Hres mac Hin). left. }
    destruct (IH (dict_set mac success results) st3) as [att [E S]].
    { intros k Hin. rewrite dict_set_keys in Hin by exact Hk.
      apply elem_of_app in Hin. destruct Hin as [Hin|Hin].
      - intros Hr. apply (Hres k Hin). right. exact Hr.
      - apply list_elem_of_singleton in Hin. subst k. exact Hnotin. }
    exists (mac :: att). split.
    + rewrite E, dict_set_keys by exact Hk. rewrite <- app_assoc. reflexivity.
    + apply sublist_skip. exact S.
  - destruct (IH results st2) as [att [E S]].
    { intros k Hin Hr. apply (Hres k Hin). right. exact Hr. }
    exists att. split; [exact E|]. apply sublist_cons. exact S.
Qed.

(** The candidates picked, whatever the cap. *)
Lemma pick_reconnect_candidates_subset candidates max_count st :
  let (ordered, st') := _pick_reconnect_candidates w candidates max_count st in
  st' = st
  /\ NoDup ordered
  /\ (forall a, a ∈ ordered -> a ∈ candidates)
  /\ ((0 < max_count)%Z -> (Z.of_nat (length ordered) <= max_count)%Z).
Proof.
  unfold _pick_reconnect_candidates, bind, gets, ret.
  destruct (max_count <=? 0)%Z eqn:E.
  - apply Z.leb_le in E. split; [reflexivity|].
    split; [apply set_order_NoDup|]. split; [|lia].
    intros a Ha. apply set_order_elem in Ha. exact Ha.
  - apply Z.leb_gt in E.
    destruct (picked_candidates_selection candidates max_count st E)
      as [Hnd [Hin [Hlen _]]].
    split; [reflexivity|]. split; [exact Hnd|]. split; [exact Hin|].
    intros _. unfold picked_candidates in Hlen. lia.
Qed.

(** Whatever the cap, the attempted addresses are candidates. *)
Lemma probe_devices_attempted macs disconnect_after connected snap budget st :
  let r := probe_devices cfg w macs disconnect_after connected snap budget st in
  let candidates := probe_candidates macs connected in
  r.1 = []
  \/ exists ordered st0,
       _pick_reconnect_candidates w candidates
         (if (0 <? MAX_RECONNECT_PER_CYCLE cfg)%Z
          then MAX_RECONNECT_PER_CYCLE cfg else 0%Z) st
       = (ordered, st0)
       /\ (NoDup ordered -> r.1.*1 `sublist_of` ordered).
Proof.
  intros r candidates. subst r.
  unfold probe_devices.
  destruct macs as [|m macs]; [left; reflexivity|].
  set (cs := match connected with
             | Some c =>
                 if bool_decide (c = ∅)
                 then list_to_set (upper <$> m :: macs)
                 else list_to_set (upper <$> m :: macs) ∖ set_map upper c
             | None => list_to_set (upper <$> m :: macs)
             end).
  assert (Hcs : cs = candidates).
  { subst cs candidates. unfold probe_candidates.
    destruct connected as [c|]; simpl.
    - destruct (bool_decide (c = ∅)) eqn:E; [|reflexivity].
      apply bool_decide_eq_true in E. subst c.
      rewrite set_map_empty, difference_empty_L. reflexivity.
    - rewrite set_map_empty, difference_empty_L. reflexivity. }
  rewrite Hcs.
  destruct (bool_decide (candidates = ∅)); [left; reflexivity|].
  unfold bind, monotonic, gets, emit, modify, ret.
  destruct (_pick_reconnect_candidates w candidates _ st) as [ordered st0].
  destruct ordered as [|o ordered]; [left; reflexivity|].
  right. exists (o :: ordered), st0. split; [reflexivity|].
  intros Hnd. unfold bind, gets, emit, modify, ret. cbv beta match.
  match goal with
  | |- context [probe_loop cfg w ?l ?d ?sn ?b ?t0 [] ?s0] =>
      destruct (probe_loop_keys l d sn b t0 Hnd [] s0) as [att [E S]]
  end.
  { intros k Hk. inversion Hk. }
  rewrite E. exact S.
Qed.

(** The probe theorem, under a positive cap. *)
Lemma probe_devices_selection macs disconnect_after connected snap budget st :
  (0 < MAX_RECONNECT_PER_CYCLE cfg)%Z ->
  probe_selection_claim cfg w macs disconnect_after connected snap budget st.
Proof.
  intros Hmax. unfold probe_selection_claim.
  set (candidates := probe_candidates macs connected).
  set (key := last_attempt (_last_connection_attempts st)).
  set (picked := picked_candidates w st candidates (MAX_RECONNECT_PER_CYCLE cfg)).
  pose proof (picked_candidates_selection candidates _ st Hmax) as Hsel.
  fold key picked in Hsel.
  assert (Hsub : (probe_devices cfg w macs disconnect_after connected snap
                    budget st).1.*1 `sublist_of` picked).
  { destruct (probe_devices_attempted macs disconnect_after connected snap
                budget st) as [E|[ordered [st0 [E S]]]].
    - rewrite E. apply sublist_nil_l.
    - fold candidates in E.
      destruct (0 <? MAX_RECONNECT_PER_CYCLE cfg)%Z eqn:Hpos;
        [|apply Z.ltb_ge in Hpos; lia].
      rewrite pick_reconnect_candidates_positive in E by exact Hmax.
      injection E as <- <-. apply S. apply Hsel. }
  destruct Hsel as [Hnd [Hin [Hlen [Hsorted Hleft]]]].
  split; [|split].
  - intros a Ha.
    assert (Hc : a ∈ candidates).
    { apply Hin. eapply (sublist_subseteq _ _ Hsub); exact Ha. }
    split; [exact Hc|].
    subst candidates. unfold probe_candidates in Hc.
    apply elem_of_difference in Hc. destruct Hc as [Hu Hnc].
    split; [|exact Hnc].
    intros Hconn. apply Hnc.
    apply elem_of_list_to_set, list_elem_of_fmap in Hu.
    destruct Hu as [m [-> _]].
    apply elem_of_map. exists (upper m). split; [|exact Hconn].
    symmetry. apply upper_idemp.
  - apply sublist_length in Hsub. lia.
  - exists picked. split; [|exact Hsub].
    split; [exact Hnd|]. split; [exact Hin|]. split; [exact Hlen|].
    split; [exact Hsorted | exact Hleft].
Qed.

(** Whatever the cap, no attempted address is a connected one. *)
Lemma probe_devices_spares_connected macs disconnect_after connected snap
    budget st a :
  a ∈ (probe_devices cfg w macs disconnect_after connected snap budget st).1.*1 ->
  a ∈ probe_candidates macs connected
  /\ (a ∉ default (∅ : gset string) connected)
  /\ (a ∉ (set_map upper (default (∅ : gset string) connected) : gset string)).
Proof.
  intros Ha.
  assert (Hc : a ∈ probe_candidates macs connected).
  { destruct (probe_devices_attempted macs disconnect_after connected snap
                budget st) as [E|[ordered [st0 [E S]]]].
    - rewrite E in Ha. inversion Ha.
    - pose proof (pick_reconnect_candidates_subset
                    (probe_candidates macs connected)
                    (if (0 <? MAX_RECONNECT_PER_CYCLE cfg)%Z
                     then MAX_RECONNECT_PER_CYCLE cfg else 0%Z) st) as Hp.
      rewrite E in Hp. destruct Hp as [_ [Hnd [Hin _]]].
      apply Hin. eapply sublist_subseteq; [exact (S Hnd) | exact Ha]. }
  split; [exact Hc|].
  unfold probe_candidates in Hc.
  apply elem_of_difference in Hc. destruct Hc as [Hu Hnc].
  split; [|exact Hnc].
  intros Hconn. apply Hnc.
  apply elem_of_list_to_set, list_elem_of_fmap in Hu.
  destruct Hu as [m [-> _]].
  apply elem_of_map. exists (upper m). split; [|exact Hconn].
  symmetry. apply upper_idemp.
Qed.

(** C8 (amended). Whatever the per-cycle maximum, [probe_devices]
    attempts no connected address.  Under a positive maximum it attempts
    at most the maximum, and the attempted addresses are, in order, part
    of the oldest-first selection of that many candidates, the key of an
    address being its last attempt and 0 if it was never attempted;
    recorded attempt times being non-negative, a never-attempted address
    is thus at least as old as any other. *)
Theorem probe_devices_fair_selection
    (mac_addresses : list string) (disconnect_after : bool)
    (connected_macs : option (gset string)) (snap : option snapshot)
    (time_budget_seconds : option Q) (st : State) :
  let attempted :=
    (probe_devices cfg w mac_addresses disconnect_after connected_macs snap
       time_budget_seconds st).1.*1 in
  let candidates := probe_candidates mac_addresses connected_macs in
  let key := last_attempt (_last_connection_attempts st) in
  (forall a, a ∈ attempted ->
     a ∈ candidates
     /\ (a ∉ default (∅ : gset string) connected_macs)
     /\ (a ∉ (set_map upper (default (∅ : gset string) connected_macs)
              : gset string)))
  /\ ((0 < MAX_RECONNECT_PER_CYCLE cfg)%Z ->
      (Z.of_nat (length attempted) <= MAX_RECONNECT_PER_CYCLE cfg)%Z
      /\ exists picked,
           oldest_first_selection key candidates (MAX_RECONNECT_PER_CYCLE cfg)
             picked
           /\ attempted `sublist_of` picked)
  /\ ((forall b t, _last_connection_attempts st !! b = Some t -> (0 <= t)%Q) ->
      forall a b,
        _last_connection_attempts st !! a = None -> older_or_equal key a b).
Proof.
  intros attempted candidates key. split; [|split].
  - intros a Ha. apply (probe_devices_spares_connected _ _ _ _ _ _ _ Ha).
  - intros Hmax.
    destruct (probe_devices_selection mac_addresses disconnect_after
                connected_macs snap time_budget_seconds st Hmax)
      as [_ [Hcap Hsel]].
    split; [exact Hcap | exact Hsel].
  - intros Hpos a b Ha. subst key. unfold older_or_equal, last_attempt.
    rewrite Ha. simpl.
    destruct (_last_connection_attempts st !! b) as [t|] eqn:Hb; simpl.
    + eapply Hpos; exact Hb.
    + apply Qle_refl.
Qed.

End Probe.

(** C8 read for every configuration fails: with a maximum of 0 the cap is
    switched off, and both candidates are attempted. *)
Lemma probe_selection_claim_counterexample :
  let cfg := with_max_reconnect 0 default_config in
  let w := const_world 1000 ∅ KReturned in
  ~ probe_selection_claim cfg w
      ["AA:BB:CC:DD:EE:01"; "AA:BB:CC:DD:EE:02"] true None None None
      initial_state.
Proof.
  intros cfg w [_ [Hcap _]].
  vm_compute in Hcap. apply Hcap. reflexivity.
Qed.

(** C8 (amended), at a concrete input: three addresses are handed in, the
    second is connected and the first was attempted before; under a
    maximum of 1 only the third, never attempted, is probed. *)
Example probe_devices_demo :
  let cfg := with_max_reconnect 1 default_config in
  let w := const_world 1000 ∅ KReturned in
  let st := set_last_connection_attempts {[ "AA:BB:CC:DD:EE:01" := 500%Q ]}
              initial_state in
  (probe_devices cfg w
     ["AA:BB:CC:DD:EE:01"; "AA:BB:CC:DD:EE:02"; "AA:BB:CC:DD:EE:03"] true
     (Some {[ "AA:BB:CC:DD:EE:02" ]}) None None st).1.*1
  = ["AA:BB:CC:DD:EE:03"].
Proof. vm_compute. reflexivity. Qed.

Lemma probe_devices_fair_selection_witness :
  let cfg := with_max_reconnect 1 default_config in
  let w := const_world 1000 ∅ KReturned in
  let st := set_last_connection_attempts {[ "AA:BB:CC:DD:EE:01" := 500%Q ]}
              initial_state in
  let attempted :=
    (probe_devices cfg w
       ["AA:BB:CC:DD:EE:01"; "AA:BB:CC:DD:EE:02"; "AA:BB:CC:DD:EE:03"] true
       (Some {[ "AA:BB:CC:DD:EE:02" ]}) None None st).1.*1 in
  (Z.of_nat (length attempted) <= 1)%Z
  /\ exists picked,
       oldest_first_selection (last_attempt (_last_connection_attempts st))
         (probe_candidates
            ["AA:BB:CC:DD:EE:01"; "AA:BB:CC:DD:EE:02"; "AA:BB:CC:DD:EE:03"]
            (Some {[ "AA:BB:CC:DD:EE:02" ]}))
         1 picked
       /\ attempted `sublist_of` picked.
Proof.
  intros cfg w st attempted.
  refine (proj1 (proj2 (probe_devices_fair_selection cfg w
                   ["AA:BB:CC:DD:EE:01"; "AA:BB:CC:DD:EE:02";
                    "AA:BB:CC:DD:EE:03"] true
                   (Some {[ "AA:BB:CC:DD:EE:02" ]}) None None st)) _).
  vm_compute. reflexivity.
Defined.

(** ** What a cycle leaves alone *)

#[global] Instance cycle_frame_preorder P : PreOrder (cycle_frame P).
Proof.
  split.
  - intros st. split; reflexivity.
  - intros st1 st2 st3 [F1 C1] [F2 C2]. split.
    + congruence.
    + etransitivity; eassumption.
Qed.

Lemma cycle_frame_mono (P Q : convex_call -> Prop) st st' :
  (forall c, P c -> Q c) -> cycle_frame P st st' -> cycle_frame Q st st'.
Proof. intros H [F C]. split; [exact F|]. eapply calls_added_mono; eauto. Qed.

Lemma frame_emit P e :
  match e with EvConvexSubmit c _ => P c | _ => True end ->
  steps (cycle_frame P) (emit e).
Proof.
  intros H st. split; [reflexivity|]. exists [e]. split; [reflexivity|].
  destruct e; simpl; auto.
Qed.

Lemma frame_modify P (f : State -> State) :
  (forall st, device_first_seen (f st) = device_first_seen st
              /\ trace (f st) = trace st) ->
  steps (cycle_frame P) (modify f).
Proof.
  intros H st. destruct (H st) as [F T]. split; [exact F|].
  exists []. simpl. rewrite T. auto.
Qed.

(** One step of a frame proof: follow the structure of the computation. *)
Ltac frame_step :=
  lazymatch goal with
  | |- steps _ (ret _) => apply steps_ret; apply _
  | |- steps _ (gets _) => apply steps_gets; apply _
  | |- steps _ (bind _ _) => apply steps_bind; [apply _ | | intros ?]
  | |- steps _ (for_each _ _) => apply steps_for_each; [apply _ | intros ? ?]
  | |- steps _ (emit _) => apply frame_emit; simpl; auto
  | |- steps _ (modify _) =>
      apply frame_modify; intros ?; split; reflexivity
  | |- steps _ (if ?x then _ else _) => destruct x
  | |- steps _ (match ?x with _ => _ end) => destruct x
  | |- steps _ _ => solve [eauto 2 with frame]
  end.

Ltac frame := cbv zeta; repeat frame_step.

Section Frames.
Context (cfg : Config) (w : World) (P : convex_call -> Prop).

Lemma frame_monotonic : steps (cycle_frame P) (monotonic w).
Proof. unfold monotonic. frame. Qed.

Lemma frame_time_time : steps (cycle_frame P) (time_time w).
Proof. unfold time_time. frame. Qed.

Lemma frame_sleep d : steps (cycle_frame P) (sleep d).
Proof. unfold sleep. frame. Qed.

Lemma frame_get_device_snapshot : steps (cycle_frame P) (get_device_snapshot w).
Proof. unfold get_device_snapshot. frame. Qed.

#[local] Hint Resolve frame_monotonic frame_time_time frame_sleep
  frame_get_device_snapshot : frame.

Lemma frame_snapshot_or snap : steps (cycle_frame P) (snapshot_or w snap).
Proof. unfold snapshot_or. frame. Qed.

#[local] Hint Resolve frame_snapshot_or : frame.

Lemma frame_check_device_connected mac snap :
  steps (cycle_frame P) (check_device_connected w mac snap).
Proof. unfold check_device_connected. frame. Qed.

Lemma frame_get_device_name mac snap :
  steps (cycle_frame P) (get_device_name w mac snap).
Proof. unfold get_device_name. frame. Qed.

Lemma frame_get_all_connected_devices snap :
  steps (cycle_frame P) (get_all_connected_devices w snap).
Proof. unfold get_all_connected_devices. frame. Qed.

Lemma frame_get_paired_devices snap :
  steps (cycle_frame P) (get_paired_devices w snap).
Proof. unfold get_paired_devices. frame. Qed.

Lemma frame_get_device_path mac snap :
  steps (cycle_frame P) (_get_device_path w mac snap).
Proof. unfold _get_device_path. frame. Qed.

#[local] Hint Resolve frame_check_device_connected frame_get_device_name
  frame_get_all_connected_devices frame_get_paired_devices
  frame_get_device_path : frame.

Lemma frame_trust_device mac snap :
  steps (cycle_frame P) (trust_device w mac snap).
Proof. unfold trust_device. frame. Qed.

Lemma frame_is_device_trusted mac snap :
  steps (cycle_frame P) (is_device_trusted w mac snap).
Proof. unfold is_device_trusted. frame. Qed.

Lemma frame_invoke_with_hard_timeout path method timeout hard :
  steps (cycle_frame P) (_invoke_with_hard_timeout w path method timeout hard).
Proof. unfold _invoke_with_hard_timeout. frame. Qed.

Lemma frame_run_bluetoothctl_operation command mac hard :
  steps (cycle_frame P) (_run_bluetoothctl_operation w command mac hard).
Proof. unfold _run_bluetoothctl_operation. frame. Qed.

Lemma frame_read_connected_property path :
  steps (cycle_frame P) (_read_connected_property w path).
Proof. unfold _read_connected_property. frame. Qed.

#[local] Hint Resolve frame_trust_device frame_is_device_trusted
  frame_invoke_with_hard_timeout frame_run_bluetoothctl_operation
  frame_read_connected_property : frame.

Lemma frame_verify_attempts max_attempts base_delay attempts path expect :
  steps (cycle_frame P)
    (verify_attempts w max_attempts base_delay attempts path expect).
Proof.
  induction attempts as [|attempt rest IH]; cbn [verify_attempts]; frame.
Qed.

#[local] Hint Resolve frame_verify_attempts : frame.

Lemma frame_verify_connected_state mac path expect :
  steps (cycle_frame P) (_verify_connected_state w mac path expect).
Proof. unfold _verify_connected_state. frame. Qed.

Lemma frame_record_probe_failure mac :
  steps (cycle_frame P) (_record_probe_failure cfg w mac).
Proof. unfold _record_probe_failure. frame. Qed.

Lemma frame_reset_probe_failure mac :
  steps (cycle_frame P) (_reset_probe_failure mac).
Proof. unfold _reset_probe_failure. frame. Qed.

#[local] Hint Resolve frame_verify_connected_state frame_record_probe_failure
  frame_reset_probe_failure : frame.

Lemma frame_connect_device mac snap timeout :
  steps (cycle_frame P) (connect_device cfg w mac snap timeout).
Proof. unfold connect_device. frame. Qed.

Lemma frame_disconnect_device mac snap :
  steps (cycle_frame P) (disconnect_device cfg w mac snap).
Proof. unfold disconnect_device. frame. Qed.

Lemma frame_get_managed_objects :
  steps (cycle_frame P) (_get_managed_objects w).
Proof. unfold _get_managed_objects. frame. Qed.

Lemma frame_get_adapter_path found :
  steps (cycle_frame P) (_get_adapter_path found).
Proof. unfold _get_adapter_path. frame. Qed.

#[local] Hint Resolve frame_get_managed_objects frame_get_adapter_path : frame.

Lemma frame_remove_device mac snap :
  steps (cycle_frame P) (remove_device w mac snap).
Proof. unfold remove_device. frame. Qed.

Lemma frame_can_attempt_reconnection mac :
  steps (cycle_frame P) (_can_attempt_reconnection w mac).
Proof. unfold _can_attempt_reconnection. frame. Qed.

Lemma frame_record_connection_attempt mac :
  steps (cycle_frame P) (_record_connection_attempt w mac).
Proof. unfold _record_connection_attempt. frame. Qed.

Lemma frame_pick_reconnect_candidates candidates max_count :
  steps (cycle_frame P) (_pick_reconnect_candidates w candidates max_count).
Proof. unfold _pick_reconnect_candidates. frame. Qed.

#[local] Hint Resolve frame_connect_device frame_disconnect_device frame_remove_device
  frame_can_attempt_reconnection frame_record_connection_attempt
  frame_pick_reconnect_candidates : frame.

Lemma frame_probe_single_device mac disconnect_after snap :
  steps (cycle_frame P) (_probe_single_device cfg w mac disconnect_after snap).
Proof. unfold _probe_single_device. frame. Qed.

#[local] Hint Resolve frame_probe_single_device : frame.

Lemma frame_probe_loop ordered disconnect_after snap budget start_time results :
  steps (cycle_frame P)
    (probe_loop cfg w ordered disconnect_after snap budget start_time results).
Proof.
  revert results.
  induction ordered as [|mac rest IH]; intros results; cbn [probe_loop]; frame.
Qed.

#[local] Hint Resolve frame_probe_loop : frame.

Lemma frame_probe_devices macs disconnect_after connected snap budget :
  steps (cycle_frame P)
    (probe_devices cfg w macs disconnect_after connected snap budget).
Proof. unfold probe_devices. frame. Qed.

Lemma frame_get_devices_in_range s now :
  steps (cycle_frame P) (get_devices_in_range cfg w s now).
Proof. unfold get_devices_in_range, _is_rssi_fresh. frame. Qed.

Lemma frame_refresh_discovery duration :
  steps (cycle_frame P) (refresh_discovery w duration).
Proof. unfold refresh_discovery. frame. Qed.

#[local] Hint Resolve frame_probe_devices frame_get_devices_in_range
  frame_refresh_discovery : frame.

Lemma frame_submit_convex_call {T} (fn : convex_fn T) description :
  P description ->
  steps (cycle_frame P) (_submit_convex_call cfg w fn description).
Proof. intros HP. unfold _submit_convex_call, executor_submit. frame. Qed.

#[local] Hint Resolve frame_submit_convex_call : frame.

Lemma frame_register_new_device mac name :
  (forall n, P (RegisterPendingDevice mac n)) ->
  steps (cycle_frame P) (register_new_device cfg w mac name).
Proof. intros HP. unfold register_new_device. frame. Qed.

Lemma frame_bump_recently_seen mac now :
  steps (cycle_frame P) (bump_recently_seen mac now).
Proof. unfold bump_recently_seen. frame. Qed.

Lemma frame_discard_failed_registration mac :
  steps (cycle_frame P) (discard_failed_registration mac).
Proof. unfold discard_failed_registration. frame. Qed.

Lemma frame_add_failed_registration mac :
  steps (cycle_frame P) (add_failed_registration mac).
Proof. unfold add_failed_registration. frame. Qed.

Lemma frame_set_previous_status mac status :
  steps (cycle_frame P) (set_previous_status mac status).
Proof. unfold set_previous_status. frame. Qed.

#[local] Hint Resolve frame_register_new_device frame_bump_recently_seen
  frame_discard_failed_registration frame_add_failed_registration
  frame_set_previous_status : frame.

Lemma frame_refresh_if_due now : steps (cycle_frame P) (refresh_if_due cfg w now).
Proof. unfold refresh_if_due. frame. Qed.

Lemma frame_disconnect_connected s connected_set :
  steps (cycle_frame P) (disconnect_connected cfg w s connected_set).
Proof. unfold disconnect_connected. frame. Qed.

Lemma frame_bump_newly_registered now device :
  steps (cycle_frame P) (bump_newly_registered cfg now device).
Proof. unfold bump_newly_registered. frame. Qed.

Lemma frame_full_probe s connected_set devices_in_range registered_macs now :
  steps (cycle_frame P)
    (full_probe cfg w s connected_set devices_in_range registered_macs now).
Proof. unfold full_probe. frame. Qed.

#[local] Hint Resolve frame_refresh_if_due frame_disconnect_connected
  frame_bump_newly_registered frame_full_probe : frame.

Lemma frame_track_presence now s connected_set devices_in_range devices :
  steps (cycle_frame P)
    (track_presence cfg w now s connected_set devices_in_range devices).
Proof. unfold track_presence. frame. Qed.

(** Registration of connected devices only registers connected, unknown
    addresses. *)
Lemma frame_register_connected_devices s connected_set devices_by_mac :
  (forall mac n, mac ∈ connected_set -> devices_by_mac !! mac = None ->
                 P (RegisterPendingDevice mac n)) ->
  steps (cycle_frame P)
    (register_connected_devices cfg w s connected_set devices_by_mac).
Proof.
  intros HP. unfold register_connected_devices.
  apply steps_for_each; [apply _|]. intros mac Hmac.
  apply set_order_elem in Hmac.
  destruct (devices_by_mac !! mac) eqn:E; [frame|].
  apply steps_bind; [apply _ | frame |]. intros name.
  apply steps_bind; [apply _ | | intros ok; frame].
  apply frame_register_new_device. intros n. apply HP; assumption.
Qed.

Section Not_registration.
Hypothesis P_other : forall c, not_registration c -> P c.

Lemma frame_get_known_devices : steps (cycle_frame P) (get_known_devices cfg w).
Proof.
  unfold get_known_devices.
  apply steps_bind; [apply _ | | intros r; frame].
  apply frame_submit_convex_call. apply P_other. exact I.
Qed.

Lemma frame_log_attendance mac name status :
  steps (cycle_frame P) (log_attendance cfg w mac name status).
Proof.
  unfold log_attendance.
  apply steps_bind; [apply _ | | intros r; frame].
  apply frame_submit_convex_call. apply P_other. exact I.
Qed.

#[local] Hint Resolve frame_get_known_devices frame_log_attendance : frame.

Lemma frame_get_device_by_mac mac :
  steps (cycle_frame P) (get_device_by_mac cfg w mac).
Proof. unfold get_device_by_mac. frame. Qed.

#[local] Hint Resolve frame_get_device_by_mac : frame.

Lemma frame_after_status_update mac new_status cache :
  steps (cycle_frame P) (after_status_update cfg w mac new_status cache).
Proof. unfold after_status_update. frame. Qed.

#[local] Hint Resolve frame_after_status_update : frame.

Lemma frame_update_device_status mac is_connected current cache :
  steps (cycle_frame P)
    (update_device_status cfg w mac is_connected current cache).
Proof.
  unfold update_device_status. cbv zeta.
  apply steps_bind; [apply _ | frame |]. intros remembered.
  destruct (bool_decide _); [frame|].
  apply steps_bind; [apply _ | | intros r; frame].
  apply frame_submit_convex_call. apply P_other. exact I.
Qed.

#[local] Hint Resolve frame_update_device_status : frame.

Lemma frame_update_known_devices present_set devices_by_mac devices :
  steps (cycle_frame P)
    (update_known_devices cfg w present_set devices_by_mac devices).
Proof. unfold update_known_devices, update_status_of_device. frame. Qed.

Lemma frame_cleanup_expired_devices snap :
  steps (cycle_frame P) (cleanup_expired_devices cfg w snap).
Proof.
  unfold cleanup_expired_devices.
  apply steps_bind; [apply _ | | intros r; frame].
  apply frame_submit_convex_call. apply P_other. exact I.
Qed.

Lemma frame_cleanup_stale_bluetooth_pairings devs snap :
  steps (cycle_frame P) (cleanup_stale_bluetooth_pairings cfg w devs snap).
Proof. unfold cleanup_stale_bluetooth_pairings. frame. Qed.

End Not_registration.

End Frames.

(** ** Cycles *)

Section Cycles.
Context (cfg : Config) (w : World).

(** [check_and_update_devices], stage by stage. *)
Lemma check_and_update_devices_unfold st :
  check_and_update_devices cfg w st
  = let (now, st1) := time_time w st in
    let (_, st2) := refresh_if_due cfg w now st1 in
    let (s, st3) := get_device_snapshot w st2 in
    let connected_set : gset string :=
      list_to_set (macs_where di_connected s) in
    let (devices, st4) := get_known_devices cfg w st3 in
    let (devices_in_range, st5) :=
      get_devices_in_range cfg w s (Some now) st4 in
    let (present_set, st6) :=
      track_presence cfg w now s connected_set devices_in_range devices st5 in
    let (_, st7) :=
      register_connected_devices cfg w s connected_set
        (devices_by_mac_of devices) st6 in
    let (_, st8) :=
      register_in_range_devices cfg w s connected_set now
        (devices_by_mac_of devices) st7 in
    cycle_rest cfg w s connected_set present_set devices st8.
Proof.
  unfold check_and_update_devices, cycle_rest, bind.
  destruct (time_time w st) as [now st1].
  destruct (refresh_if_due cfg w now st1) as [[] st2].
  destruct (get_device_snapshot w st2) as [s st3].
  destruct (get_known_devices cfg w st3) as [devices st4].
  destruct (get_devices_in_range cfg w s (Some now) st4) as [in_range st5].
  destruct (track_presence cfg w now s _ in_range devices st5)
    as [present_set st6].
  destruct (register_connected_devices cfg w s _ _ st6) as [[] st7].
  destruct (register_in_range_devices cfg w s _ now _ st7) as [[] st8].
  reflexivity.
Qed.

Lemma frame_cycle_rest s connected_set present_set devices :
  steps (cycle_frame not_registration)
    (cycle_rest cfg w s connected_set present_set devices).
Proof.
  unfold cycle_rest.
  apply steps_bind; [apply _ | apply frame_update_known_devices; auto |].
  intros _. apply steps_bind; [apply _ | apply frame_disconnect_connected |].
  intros _. apply steps_bind; [apply _ | apply frame_cleanup_expired_devices; auto |].
  intros _. apply frame_cleanup_stale_bluetooth_pairings; auto.
Qed.

(** One cycle: which store calls it may make, where its first-seen
    timestamps come from, and which ones it records. *)
Lemma cycle_spec st :
  let ob := cycle_observation cfg w st in
  let st' := (check_and_update_devices cfg w st).2 in
  Forall (cycle_call_allowed cfg ob (device_first_seen st)) (calls_since st st')
  /\ (forall mac t,
        device_first_seen st' !! mac = Some t ->
        device_first_seen st !! mac = Some t
        \/ (device_first_seen st !! mac = None /\ t = ob_now ob
            /\ observed ob mac))
  /\ (forall mac,
        device_first_seen st !! mac = None -> observed ob mac ->
        device_first_seen st' !! mac = Some (ob_now ob)).
Proof.
  intros ob st'. subst ob st'.
  unfold cycle_observation. rewrite check_and_update_devices_unfold.
  cbv zeta.
  set (Pc := fun (cs : gset string) (c : convex_call) =>
               match c with
               | RegisterPendingDevice mac _ => mac ∈ cs
               | _ => True
               end).
  assert (Pother : forall cs c, not_registration c -> Pc cs c).
  { intros cs c. destruct c; simpl; auto; contradiction. }
  pose proof (frame_time_time w (Pc ∅) st) as H1.
  destruct (time_time w st) as [now st1]. simpl in H1. cbn [snd].
  pose proof (frame_refresh_if_due cfg w (Pc ∅) now st1) as H2.
  destruct (refresh_if_due cfg w now st1) as [[] st2]. simpl in H2. cbn [snd].
  pose proof (frame_get_device_snapshot w (Pc ∅) st2) as H3.
  destruct (get_device_snapshot w st2) as [s st3]. simpl in H3. cbn [snd].
  set (connected_set := list_to_set (macs_where di_connected s) : gset string).
  pose proof (frame_get_known_devices cfg w (Pc ∅) (Pother ∅) st3) as H4.
  destruct (get_known_devices cfg w st3) as [devices st4]. simpl in H4.
  cbn [snd].
  pose proof (frame_get_devices_in_range cfg w (Pc ∅) s (Some now) st4) as H5.
  destruct (get_devices_in_range cfg w s (Some now) st4) as [in_range st5].
  simpl in H5. cbn [snd].
  pose proof (frame_track_presence cfg w (Pc ∅) now s connected_set in_range
                devices st5) as H6.
  destruct (track_presence cfg w now s connected_set in_range devices st5)
    as [present_set st6]. simpl in H6. cbn [snd].
  pose proof (frame_register_connected_devices cfg w (Pc connected_set) s
                connected_set (devices_by_mac_of devices)) as H7.
  specialize (H7 (fun mac n Hin _ => Hin) st6).
  destruct (register_connected_devices cfg w s connected_set _ st6)
    as [[] st7]. simpl in H7. cbn [snd].
  pose proof (register_in_range_devices_spec cfg w s connected_set now
                (devices_by_mac_of devices) st7) as H8.
  cbv zeta in H8.
  destruct (register_in_range_devices cfg w s connected_set now _ st7)
    as [[] st8]. simpl in H8. cbn [snd].
  destruct H8 as [R1 [R2 [R3 [evs8 E8]]]].
  pose proof (frame_cycle_rest s connected_set present_set devices st8) as H9.
  destruct (cycle_rest cfg w s connected_set present_set devices st8) as [[] st9].
  simpl in H9. cbn [snd].
  assert (Hpre : cycle_frame (Pc connected_set) st st7).
  { assert (Hw : forall a b, cycle_frame (Pc ∅) a b ->
                             cycle_frame (Pc connected_set) a b).
    { intros a b. apply cycle_frame_mono. intros c. destruct c; simpl; auto.
      intros X. exfalso. revert X. apply not_elem_of_empty. }
    etransitivity; [apply Hw; exact H1|].
    etransitivity; [apply Hw; exact H2|].
    etransitivity; [apply Hw; exact H3|].
    etransitivity; [apply Hw; exact H4|].
    etransitivity; [apply Hw; exact H5|].
    etransitivity; [apply Hw; exact H6|]. exact H7. }
  destruct Hpre as [F7 [evs7 [E7 S7]]].
  destruct H9 as [F9 [evs9 [E9 S9]]].
  split; [|split].
  - rewrite (calls_since_app st st9 (evs9 ++ evs8 ++ evs7))
      by (rewrite E9, E8, E7, <- !app_assoc; reflexivity).
    rewrite !submitted_app. apply Forall_app. split; [|apply Forall_app; split].
    + eapply Forall_impl; [exact S9|]. intros c. destruct c; simpl; tauto.
    + rewrite <- (calls_since_app st7 st8 evs8 E8).
      apply Forall_forall. intros c Hc.
      destruct (R1 c Hc) as [mac [name [info [-> [_ [Hr D]]]]]].
      destruct D as [D1 [_ [_ [t [D4 D5]]]]].
      simpl. right. split; [apply (set_order_elem w); exact Hr|].
      split; [exact D1|]. exists t. rewrite <- F7. auto.
    + eapply Forall_impl; [exact S7|]. intros c. destruct c; simpl; auto.
  - intros mac t Ht. rewrite F9 in Ht.
    destruct (R2 mac t Ht) as [R|[R [-> Hobs]]]; rewrite F7 in R; auto.
  - intros mac Hnone [Hin [Hnc [info [Hs Hreg]]]]. simpl in Hin, Hnc, Hs.
    rewrite F9. apply (R3 mac info); auto.
    + apply (set_order_elem w). exact Hin.
    + rewrite F7. exact Hnone.
Qed.

(** Along any run of cycles, first-seen timestamps stem from observations
    of earlier cycles. *)
Lemma cycles_run_justified history st :
  cycles_run cfg w history st -> first_seen_justified history st.
Proof.
  induction 1 as [|history st Hrun IH].
  - intros mac t H. simpl in H. rewrite lookup_empty in H. discriminate.
  - intros mac t H.
    destruct (cycle_spec st) as [_ [Hseen _]].
    destruct (Hseen mac t H) as [Hold|[_ [-> Hobs]]].
    + destruct (IH mac t Hold) as [ob [Hin Hob]].
      exists ob. split; [right; exact Hin | exact Hob].
    + exists (cycle_observation cfg w st). split; [left|]. auto.
Qed.

(** Registration across cycles. *)
Lemma registration_across_cycles history st :
  cycles_run cfg w history st ->
  let ob := cycle_observation cfg w st in
  let st' := (check_and_update_devices cfg w st).2 in
  forall mac name,
    RegisterPendingDevice mac name ∈ calls_since st st' ->
    mac ∈ ob_connected ob
    \/ (mac ∈ ob_in_range ob
        /\ (mac ∉ ob_connected ob)
        /\ exists earlier,
             earlier ∈ history
             /\ observed earlier mac
             /\ (inject_Z (FIRST_SEEN_DEBOUNCE_SECONDS cfg)
                 <= ob_now ob - ob_now earlier)%Q).
Proof.
  intros Hrun ob st' mac name Hin.
  destruct (cycle_spec st) as [Hcalls _]. fold ob st' in Hcalls.
  rewrite Forall_forall in Hcalls. specialize (Hcalls _ Hin). simpl in Hcalls.
  destruct Hcalls as [Hc|[Hr [Hnc [t [Ht Hd]]]]]; [left; exact Hc|].
  right. split; [exact Hr|]. split; [exact Hnc|].
  destruct (cycles_run_justified history st Hrun mac t Ht) as [e [He [Hn Ho]]].
  exists e. rewrite Hn. auto.
Qed.

(** C3. Along any run of cycles from the initial state: when a cycle
    calls [registerPendingDevice] for an address that is not connected in
    its snapshot, the address is in range in this cycle and was observed
    (in range, not connected, registrable) by an earlier cycle whose
    timestamp lies at least the debounce window before this cycle's.  A
    cycle that starts without a first-seen timestamp for a not connected
    address does not register it; it records its own timestamp as first
    seen when it observes the address, and records nothing for it when it
    does not.  The default window is 10 seconds. *)
Theorem registration_needs_two_cycles
    (history : list observation) (st : State) :
  cycles_run cfg w history st ->
  let ob := cycle_observation cfg w st in
  let st' := (check_and_update_devices cfg w st).2 in
  (forall mac name,
     RegisterPendingDevice mac name ∈ calls_since st st' ->
     mac ∉ ob_connected ob ->
     mac ∈ ob_in_range ob
     /\ exists earlier,
          earlier ∈ history
          /\ observed earlier mac
          /\ (inject_Z (FIRST_SEEN_DEBOUNCE_SECONDS cfg)
              <= ob_now ob - ob_now earlier)%Q)
  /\ (forall mac,
        device_first_seen st !! mac = None ->
        mac ∉ ob_connected ob ->
        (forall name, RegisterPendingDevice mac name ∉ calls_since st st')
        /\ (observed ob mac ->
            device_first_seen st' !! mac = Some (ob_now ob))
        /\ (~ observed ob mac -> device_first_seen st' !! mac = None))
  /\ FIRST_SEEN_DEBOUNCE_SECONDS default_config = 10%Z.
Proof.
  intros Hrun ob st'. split; [|split; [|reflexivity]].
  - intros mac name Hin Hnc.
    destruct (registration_across_cycles history st Hrun mac name Hin)
      as [Hc|[Hr [_ He]]]; [contradiction|].
    split; [exact Hr | exact He].
  - intros mac Hnone Hnc.
    destruct (cycle_spec st) as [Hcalls [Hseen Hrec]].
    fold ob st' in Hcalls, Hseen, Hrec.
    split; [|split].
    + intros name Hin. rewrite Forall_forall in Hcalls.
      specialize (Hcalls _ Hin). simpl in Hcalls.
      destruct Hcalls as [Hc|[_ [_ [t [Ht _]]]]]; [contradiction|congruence].
    + intros Hobs. apply Hrec; assumption.
    + intros Hno.
      destruct (device_first_seen st' !! mac) as [t|] eqn:E; [|reflexivity].
      destruct (Hseen mac t E) as [H|[_ [_ Hobs]]]; [congruence|contradiction].
Qed.

End Cycles.

(** Two cycles in [demo_world]: the first one, at time 100, records the
    device as first seen and registers nothing; the second one, at time
    120, registers it. *)
Example demo_first_cycle :
  let st1 := (check_and_update_devices default_config demo_world
                initial_state).2 in
  device_first_seen st1 !! "AA:BB:CC:DD:EE:FF" = Some 100%Q
  /\ calls_since initial_state st1 = [GetDevices; CleanupExpiredGracePeriods;
                                      GetDevices].
Proof. vm_compute. split; reflexivity. Qed.

Example demo_second_cycle :
  let st1 := (check_and_update_devices default_config demo_world
                initial_state).2 in
  let st2 := (check_and_update_devices default_config demo_world st1).2 in
  calls_since st1 st2
  = [GetDevices; CleanupExpiredGracePeriods;
     RegisterPendingDevice "AA:BB:CC:DD:EE:FF" ""; GetDevices].
Proof. vm_compute. reflexivity. Qed.

(** C3, at a concrete input: the registration of the second cycle is
    backed by the observation of the first. *)
Lemma registration_needs_two_cycles_witness :
  let st1 := (check_and_update_devices default_config demo_world
                initial_state).2 in
  exists earlier,
    earlier ∈ [cycle_observation default_config demo_world initial_state]
    /\ observed earlier "AA:BB:CC:DD:EE:FF"
    /\ (inject_Z (FIRST_SEEN_DEBOUNCE_SECONDS default_config)
        <= ob_now (cycle_observation default_config demo_world st1)
           - ob_now earlier)%Q.
Proof.
  intros st1.
  destruct (registration_needs_two_cycles default_config demo_world
              [cycle_observation default_config demo_world initial_state] st1
              (cycles_step default_config demo_world [] initial_state
                 (cycles_start default_config demo_world)))
    as [H _].
  apply (H "AA:BB:CC:DD:EE:FF" "").
  - pose proof demo_second_cycle as E. cbv zeta in E. fold st1 in E.
    rewrite E. right. right. left.
  - apply (bool_decide_unpack _). vm_compute. exact I.
Defined.

(* ===================================================================== *)
(** * The rest of the scanner *)
(* ===================================================================== *)

(** ** Queries on a snapshot *)

Section Snapshot_queries.
Context (w : World).

(** X1. The queries by address look the address up in upper case, so two
    spellings of an address that differ only in case get the same answer
    and cause the same interactions. *)
Theorem snapshot_queries_ignore_case
    (a b : string) (snap : option snapshot) (st : State) :
  upper a = upper b ->
  check_device_connected w a snap st = check_device_connected w b snap st
  /\ get_device_name w a snap st = get_device_name w b snap st
  /\ _get_device_path w a snap st = _get_device_path w b snap st
  /\ is_device_trusted w a snap st = is_device_trusted w b snap st
  /\ check_device_connected w (upper a) snap st
     = check_device_connected w a snap st.
Proof.
  intros E.
  unfold check_device_connected, get_device_name, _get_device_path,
    is_device_trusted, bind.
  destruct (snapshot_or w snap st) as [s st1].
  rewrite upper_idemp, E. auto.
Qed.

(** X2. On a snapshot that is not empty, [check_device_connected] says yes
    exactly for the addresses whose upper-case form
    [get_all_connected_devices] lists; neither talks to the world, and the
    list has no duplicates. *)
Theorem connected_queries_agree
    (mac : string) (s : snapshot) (st : State) :
  s <> ∅ ->
  let (connected, st1) := check_device_connected w mac (Some s) st in
  let (listed, st2) := get_all_connected_devices w (Some s) st in
  st1 = st /\ st2 = st
  /\ NoDup listed
  /\ (connected = true <-> upper mac ∈ listed).
Proof.
  intros Hs. unfold check_device_connected, get_all_connected_devices, bind.
  rewrite (snapshot_or_nonempty w s st Hs). simpl.
  assert (Hnd : NoDup (macs_where di_connected s)).
  { unfold macs_where. eapply NoDup_fmap_fst.
    - intros k x y Hx Hy.
      apply list_elem_of_filter in Hx. apply list_elem_of_filter in Hy.
      destruct Hx as [_ Hx]. destruct Hy as [_ Hy].
      apply elem_of_map_to_list in Hx. apply elem_of_map_to_list in Hy.
      congruence.
    - apply NoDup_filter. apply NoDup_map_to_list. }
  destruct (s !! upper mac) as [d|] eqn:E; simpl.
  - split; [reflexivity|]. split; [reflexivity|]. split; [exact Hnd|].
    rewrite elem_of_macs_where. split.
    + intros H. exists d. auto.
    + intros [d' [Hd' H]]. congruence.
  - split; [reflexivity|]. split; [reflexivity|]. split; [exact Hnd|].
    rewrite elem_of_macs_where. split; [discriminate|].
    intros [d' [Hd' _]]. congruence.
Qed.

End Snapshot_queries.

(** X1, at a concrete input: a lower-case and an upper-case spelling. *)
Lemma snapshot_queries_ignore_case_witness :
  let w := const_world 50 {[ "AA:BB:CC:DD:EE:FF" := demo_device ]} KReturned in
  get_device_name w "aa:bb:cc:dd:ee:ff" None initial_state
  = get_device_name w "AA:BB:CC:DD:EE:FF" None initial_state.
Proof.
  intros w.
  exact (proj1 (proj2 (snapshot_queries_ignore_case w "aa:bb:cc:dd:ee:ff"
                         "AA:BB:CC:DD:EE:FF" None initial_state
                         ltac:(reflexivity)))).
Defined.

(** X2, at a concrete input: the one device of the snapshot is not
    connected, and the list is empty. *)
Lemma connected_queries_agree_witness :
  let s : snapshot := {[ "AA:BB:CC:DD:EE:FF" := demo_device ]} in
  let w := const_world 50 s KReturned in
  (check_device_connected w "aa:bb:cc:dd:ee:ff" (Some s) initial_state).1 = true
  <-> "AA:BB:CC:DD:EE:FF"
        ∈ (get_all_connected_devices w (Some s) initial_state).1.
Proof.
  intros s w.
  assert (Hs : s <> ∅) by (apply insert_non_empty).
  pose proof (connected_queries_agree w "aa:bb:cc:dd:ee:ff" s initial_state Hs)
    as H.
  destruct (check_device_connected w "aa:bb:cc:dd:ee:ff" (Some s) initial_state)
    as [c st1].
  destruct (get_all_connected_devices w (Some s) initial_state) as [l st2].
  destruct H as [_ [_ [_ H]]]. exact H.
Defined.

(** ** Name listings *)

Lemma name_or_unknown_nonempty (info : device_info) :
  name_or_unknown info <> "".
Proof.
  unfold name_or_unknown, str_or.
  destruct (truthy_str (if truthy_str (di_alias info) then di_alias info
                        else di_name info)) eqn:E; [|discriminate].
  destruct (if truthy_str (di_alias info) then di_alias info else di_name info)
    as [n|]; [|discriminate].
  simpl in *. intros ->. discriminate.
Qed.

(** The dictionary a loop of conditional assignments builds from the
    entries of a map. *)
Lemma foldl_assign_lookup (p : device_info -> bool) (s : snapshot) (k : string) :
  foldl (fun (devices : gmap string string) (kv : string * device_info) =>
           if p kv.2 then <[kv.1 := name_or_unknown kv.2]> devices else devices)
        ∅ (map_to_list s) !! k
  = match s !! k with
    | Some info => if p info then Some (name_or_unknown info) else None
    | None => None
    end.
Proof.
  set (g := fun (devices : gmap string string) (kv : string * device_info) =>
              if p kv.2 then <[kv.1 := name_or_unknown kv.2]> devices
              else devices).
  assert (Hout : forall l (acc : gmap string string),
            k ∉ l.*1 -> foldl g acc l !! k = acc !! k).
  { induction l as [|[k' v] l IH]; intros acc Hk; [reflexivity|].
    simpl in *. apply not_elem_of_cons in Hk. destruct Hk as [Hne Hk].
    rewrite IH by exact Hk. unfold g. simpl.
    destruct (p v); [|reflexivity]. apply lookup_insert_ne. congruence. }
  assert (Hin : forall l (acc : gmap string string) v,
            NoDup l.*1 -> (k, v) ∈ l ->
            foldl g acc l !! k
            = if p v then Some (name_or_unknown v) else acc !! k).
  { induction l as [|[k' v'] l IH]; intros acc v Hnd Hkv.
    - apply elem_of_nil in Hkv. contradiction.
    - simpl in *. apply NoDup_cons in Hnd. destruct Hnd as [Hk' Hnd].
      apply elem_of_cons in Hkv. destruct Hkv as [Heq|Hkv].
      + injection Heq as <- <-. rewrite Hout by exact Hk'. unfold g. simpl.
        destruct (p v); [apply lookup_insert_eq | reflexivity].
      + rewrite (IH _ v Hnd Hkv). destruct (p v); [reflexivity|].
        unfold g. simpl. destruct (p v'); [|reflexivity].
        apply lookup_insert_ne. intros ->. apply Hk'.
        apply list_elem_of_fmap. exists (k, v). auto. }
  destruct (s !! k) as [info|] eqn:E.
  - rewrite (Hin _ ∅ info (NoDup_fst_map_to_list s)).
    + destruct (p info); [reflexivity | apply lookup_empty].
    + apply elem_of_map_to_list. exact E.
  - rewrite Hout; [apply lookup_empty|].
    intros Hk. apply list_elem_of_fmap in Hk. destruct Hk as [[k' v] [-> Hkv]].
    apply elem_of_map_to_list in Hkv. simpl in *. congruence.
Qed.

Section Name_listings.
Context (w : World).

(** X3. [scan_for_devices] lists every entry of the snapshot under its
    own key; the name is the alias if there is one, else the name if there
    is one, else ["Unknown"], and so never empty. *)
Theorem scan_for_devices_names (s : snapshot) (st : State) (k : string) :
  s <> ∅ ->
  let (devices, st') := scan_for_devices w (Some s) st in
  st' = st
  /\ dom devices = dom s
  /\ (forall name, devices !! k = Some name -> name <> "")
  /\ match s !! k with
     | Some info =>
         devices !! k
         = Some (if truthy_str (di_alias info) then default "" (di_alias info)
                 else if truthy_str (di_name info) then default "" (di_name info)
                 else "Unknown")
     | None => devices !! k = None
     end.
Proof.
  intros Hs. unfold scan_for_devices, bind.
  rewrite (snapshot_or_nonempty w s st Hs). simpl.
  assert (L : forall k',
            foldl (fun (devices : gmap string string) (kv : string * device_info) =>
                     <[kv.1 := name_or_unknown kv.2]> devices)
                  ∅ (map_to_list s) !! k'
            = name_or_unknown <$> s !! k').
  { intros k'. pose proof (foldl_assign_lookup (fun _ => true) s k') as H.
    cbv beta iota in H. rewrite H. destruct (s !! k'); reflexivity. }
  split; [reflexivity|]. split.
  { apply set_eq. intros k'. rewrite !elem_of_dom, L.
    destruct (s !! k'); simpl; split; intros [x Hx]; eauto; discriminate. }
  split.
  { intros name. rewrite L. destruct (s !! k) as [info|]; [|discriminate].
    simpl. intros [= <-]. apply name_or_unknown_nonempty. }
  rewrite L. destruct (s !! k) as [info|]; [|reflexivity]. simpl. f_equal.
  unfold name_or_unknown, str_or.
  destruct (di_alias info) as [a|], (di_name info) as [n|]; simpl;
    repeat match goal with
           | |- context [negb ?b] => destruct (negb b) eqn:?; simpl
           end;
    try reflexivity; congruence.
Qed.

(** X4. [scan_paired_devices] is [scan_for_devices] cut down to the
    paired entries, and its keys are the addresses [get_paired_devices]
    returns. *)
Theorem scan_paired_devices_restricts (s : snapshot) (st : State) :
  s <> ∅ ->
  let paired := (scan_paired_devices w (Some s) st).1 in
  let all := (scan_for_devices w (Some s) st).1 in
  paired ⊆ all
  /\ (forall k name,
        paired !! k = Some name <->
        all !! k = Some name /\ exists info, s !! k = Some info
                                             /\ di_paired info = true)
  /\ dom paired
     = (list_to_set (get_paired_devices w (Some s) st).1 : gset string).
Proof.
  intros Hs. unfold scan_paired_devices, scan_for_devices, get_paired_devices,
    bind.
  rewrite (snapshot_or_nonempty w s st Hs). simpl.
  set (paired := foldl _ ∅ (map_to_list s)).
  set (all := foldl _ ∅ (map_to_list s)).
  assert (Lp : forall k, paired !! k
                 = match s !! k with
                   | Some info =>
                       if di_paired info then Some (name_or_unknown info)
                       else None
                   | None => None
                   end)
    by (intros k; apply (foldl_assign_lookup di_paired)).
  assert (La : forall k, all !! k = name_or_unknown <$> s !! k).
  { intros k. subst all.
    pose proof (foldl_assign_lookup (fun _ => true) s k) as H.
    cbv beta iota in H. rewrite H. destruct (s !! k); reflexivity. }
  assert (Hiff : forall k name,
            paired !! k = Some name <->
            all !! k = Some name /\ exists info, s !! k = Some info
                                                 /\ di_paired info = true).
  { intros k name. rewrite Lp, La. destruct (s !! k) as [info|]; simpl.
    - destruct (di_paired info) eqn:Ep; split.
      + intros H. split; [exact H|]. eauto.
      + intros [H _]. exact H.
      + discriminate.
      + intros [_ [info' [[= <-] H]]]. congruence.
    - split; [discriminate|]. intros [H _]. discriminate. }
  split.
  { apply map_subseteq_spec. intros k name H. apply Hiff in H. tauto. }
  split; [exact Hiff|].
  apply set_eq. intros k. rewrite elem_of_dom, elem_of_list_to_set,
    elem_of_macs_where, Lp.
  destruct (s !! k) as [info|]; simpl.
  - destruct (di_paired info) eqn:Ep; split.
    + intros _. eauto.
    + intros _. eauto.
    + intros [x Hx]. discriminate.
    + intros [d [[= <-] H]]. congruence.
  - split; [intros [x Hx]; discriminate | intros [d [Hd _]]; discriminate].
Qed.

End Name_listings.

(** X3, at a concrete input: a snapshot with one nameless device. *)
Lemma scan_for_devices_names_witness :
  let s : snapshot := {[ "AA:BB:CC:DD:EE:FF" := demo_device ]} in
  let w := const_world 50 s KReturned in
  s <> ∅
  /\ (scan_for_devices w (Some s) initial_state).1 !! "AA:BB:CC:DD:EE:FF"
     = Some "Unknown".
Proof.
  intros s w.
  assert (Hs : s <> ∅) by (apply insert_non_empty).
  split; [exact Hs|].
  pose proof (scan_for_devices_names w s initial_state "AA:BB:CC:DD:EE:FF" Hs)
    as H.
  destruct (scan_for_devices w (Some s) initial_state) as [devices st'].
  destruct H as [_ [_ [_ H]]].
  unfold s in H. rewrite lookup_singleton_eq in H. exact H.
Defined.

(** X4, at a concrete input: the one device of the snapshot is paired. *)
Lemma scan_paired_devices_restricts_witness :
  let s : snapshot := {[ "AA:BB:CC:DD:EE:FF" := demo_device ]} in
  let w := const_world 50 s KReturned in
  s <> ∅
  /\ (scan_paired_devices w (Some s) initial_state).1
     ⊆ (scan_for_devices w (Some s) initial_state).1.
Proof.
  intros s w.
  assert (Hs : s <> ∅) by (apply insert_non_empty).
  split; [exact Hs|].
  exact (proj1 (scan_paired_devices_restricts w s initial_state Hs)).
Defined.

(** ** Presence signals *)

Section In_range.
Context (cfg : Config) (w : World).

Lemma presence_signal_without_rssi (info : device_info) :
  _device_has_presence_signal info false = di_connected info.
Proof. unfold _device_has_presence_signal. destruct (di_connected info); reflexivity. Qed.

Lemma macs_where_ext (P Q : device_info -> bool) (s : snapshot) :
  (forall d, P d = Q d) -> macs_where P s = macs_where Q s.
Proof.
  intros H. unfold macs_where. f_equal.
  apply list_filter_iff. intros [k d]. simpl. rewrite H. reflexivity.
Qed.

(** Candidates that are all connected are all skipped. *)
Lemma find_candidates_loop_connected macs s connected_set now candidates st :
  (forall mac, mac ∈ macs -> mac ∈ connected_set) ->
  find_candidates_loop cfg macs s connected_set now candidates st
  = (candidates, st).
Proof.
  induction macs as [|mac macs IH]; intros H; [reflexivity|].
  simpl. rewrite bool_decide_eq_true_2 by (apply H; left).
  apply IH. intros m Hm. apply H. right. exact Hm.
Qed.

(** X5. Whatever the time and the age of the RSSI data,
    [get_devices_in_range] returns every connected address of the
    snapshot, and returns only addresses of the snapshot that are connected
    or carry an RSSI or TxPower reading. *)
Theorem devices_in_range_bounds (s : snapshot) (now : option Q) (st : State) :
  let in_range := (get_devices_in_range cfg w s now st).1 in
  (forall mac, mac ∈ macs_where di_connected s -> mac ∈ in_range)
  /\ (forall mac,
        mac ∈ in_range ->
        exists info,
          s !! mac = Some info
          /\ (di_connected info = true
              \/ di_rssi info <> None \/ di_tx_power info <> None)).
Proof.
  unfold get_devices_in_range, bind.
  destruct (match now with
            | Some t => if Qeq_bool t 0 then time_time w else ret t
            | None => time_time w
            end st) as [now' st1].
  destruct (_is_rssi_fresh cfg now' st1) as [fresh st2]. simpl. split.
  - intros mac Hm. apply elem_of_list_to_set. apply elem_of_macs_where.
    apply elem_of_macs_where in Hm. destruct Hm as [d [Hd Hc]].
    exists d. split; [exact Hd|]. unfold _device_has_presence_signal.
    rewrite Hc. reflexivity.
  - intros mac Hm. apply elem_of_list_to_set in Hm.
    apply elem_of_macs_where in Hm. destruct Hm as [d [Hd Hp]].
    exists d. split; [exact Hd|]. unfold _device_has_presence_signal in Hp.
    destruct (di_connected d); [left; reflexivity|]. right.
    destruct (negb fresh); [discriminate|].
    apply orb_true_iff in Hp. destruct Hp as [Hp|Hp];
      apply bool_decide_eq_true in Hp; auto.
Qed.

(** X6. When the last discovery refresh is older than the freshness
    window, only connected devices are in range; the debounced
    registration path, which skips connected devices, then does nothing at
    all: no store call, no first-seen timestamp, no change of state. *)
Theorem stale_rssi_blocks_in_range_registration
    (s : snapshot) (connected_set : gset string) (now : Q)
    (devices_by_mac : gmap string store_device) (st : State) :
  ~ (now == 0)%Q ->
  (inject_Z (RSSI_FRESHNESS_SECONDS cfg) < now - _last_rssi_refresh_time st)%Q ->
  (forall mac, mac ∈ macs_where di_connected s -> mac ∈ connected_set) ->
  (get_devices_in_range cfg w s (Some now) st).1
  = list_to_set (macs_where di_connected s)
  /\ register_in_range_devices cfg w s connected_set now devices_by_mac st
     = (tt, st).
Proof.
  intros Hnow Hstale Hconn.
  assert (E : get_devices_in_range cfg w s (Some now) st
              = (list_to_set (macs_where di_connected s), st)).
  { unfold get_devices_in_range, _is_rssi_fresh, bind, gets, ret.
    destruct (Qeq_bool now 0) eqn:E0; [apply Qeq_bool_iff in E0; contradiction|].
    destruct (Qle_bool (now - _last_rssi_refresh_time st)
                (inject_Z (RSSI_FRESHNESS_SECONDS cfg))) eqn:Ef.
    - apply Qle_bool_iff in Ef. exfalso. apply (Qlt_not_le _ _ Hstale Ef).
    - rewrite (macs_where_ext _ di_connected s presence_signal_without_rssi).
      reflexivity. }
  split; [rewrite E; reflexivity|].
  rewrite register_in_range_devices_unfold, E.
  rewrite find_candidates_loop_connected; [reflexivity|].
  intros mac Hm. apply set_order_elem in Hm. apply elem_of_list_to_set in Hm.
  apply Hconn. exact Hm.
Qed.

End In_range.

(** X6, at a concrete input: the refresh happened at time 0, it is now
    100, and the one device of the snapshot has an RSSI reading but is not
    connected. *)
Lemma stale_rssi_blocks_in_range_registration_witness :
  let s : snapshot := {[ "AA:BB:CC:DD:EE:FF" := demo_device ]} in
  let w := const_world 100 s KReturned in
  register_in_range_devices default_config w s ∅ 100 ∅ initial_state
  = (tt, initial_state).
Proof.
  intros s w.
  refine (proj2 (stale_rssi_blocks_in_range_registration default_config w s ∅
                   100 ∅ initial_state _ _ _)).
  - vm_compute. discriminate.
  - vm_compute. reflexivity.
  - intros mac Hm. apply elem_of_macs_where in Hm. destruct Hm as [d [Hd Hc]].
    unfold s in Hd. apply lookup_singleton_Some in Hd. destruct Hd as [_ <-].
    vm_compute in Hc. discriminate.
Defined.

(* ===================================================================== *)
(** * Atomic steps and footprints *)
(* ===================================================================== *)

#[global] Instance runs_preorder A : PreOrder (runs A).
Proof.
  split.
  - intros st. apply runs_done.
  - intros st1 st2 st3 H12 H23. induction H12 as [|st a st' Ha H IH];
      [exact H23|]. eapply runs_step; [exact Ha | apply IH; exact H23].
Qed.

Lemma runs_atom A a st : A st a -> runs A st (apply_atom a st).
Proof. intros H. eapply runs_step; [exact H | apply runs_done]. Qed.

Lemma runs_mono (A B : State -> atom -> Prop) st st' :
  (forall st a, A st a -> B st a) -> runs A st st' -> runs B st st'.
Proof.
  intros HAB H. induction H as [|st a st' Ha H IH]; [apply runs_done|].
  eapply runs_step; [apply HAB; exact Ha | exact IH].
Qed.

(** A relation that every allowed step respects holds between the ends of
    a run. *)
Lemma runs_relate A (R : relation State) `{!PreOrder R} st st' :
  (forall st a, A st a -> R st (apply_atom a st)) -> runs A st st' -> R st st'.
Proof.
  intros HR H. induction H as [|st a st' Ha H IH]; [reflexivity|].
  etransitivity; [apply HR; exact Ha | exact IH].
Qed.

(** An invariant that every allowed step preserves holds at the end of a
    run. *)
Lemma runs_preserve A (I : State -> Prop) st st' :
  (forall st a, I st -> A st a -> I (apply_atom a st)) ->
  runs A st st' -> I st -> I st'.
Proof.
  intros HI H. induction H as [|st a st' Ha H IH]; [auto|].
  intros Hst. apply IH. apply HI; assumption.
Qed.

(** The trace only grows along a run. *)
Lemma runs_trace A st st' :
  runs A st st' -> exists evs, trace st' = evs ++ trace st.
Proof.
  intros H. induction H as [|st a st' Ha H [evs IH]]; [exists []; reflexivity|].
  destruct a; simpl in IH; try (exists evs; exact IH).
  - exists (evs ++ [e]). rewrite <- app_assoc. exact IH.
  - exists (evs ++ [EvConvexSubmit c k]). rewrite <- app_assoc. exact IH.
Qed.

Lemma steps_emit_runs A e : (forall st, A st (AEmit e)) -> steps (runs A) (emit e).
Proof. intros H st. apply (runs_atom A (AEmit e)). apply H. Qed.

Lemma steps_modify_runs A (a : atom) (f : State -> State) :
  (forall st, f st = apply_atom a st) -> (forall st, A st a) ->
  steps (runs A) (modify f).
Proof. intros Hf H st. simpl. rewrite Hf. apply runs_atom. apply H. Qed.

(** Inclusion of footprints, by cases on the step. *)
Ltac fp_incl :=
  let st := fresh "st" in
  let a := fresh "a" in
  let H := fresh "H" in
  intros st a H;
  unfold fp_probe in *;
  first
    [ exact H
    | solve [eauto 6]
    | solve [destruct a as [[]| | | | | | | | | | | | | | | | | | |];
             simpl in *;
             first [ contradiction
                   | solve [intuition eauto]
                   | solve [right; left; exists EmptyString; simpl;
                            intuition eauto]
                   | solve [right; right; left; exists EmptyString; simpl;
                            intuition eauto] ]] ].

(** A call of a function whose footprint is known, widened if need be. *)
Ltac footprint_call :=
  first
    [ solve [eauto 2 with footprint]
    | eapply steps_mono; cycle 1;
      [ solve [eauto 2 with footprint]
      | intros ? ?; apply runs_mono; fp_incl ] ].

Ltac footprint_modify :=
  first
    [ eapply (steps_modify_runs _ (ARecordAttempt _ _)); [intros ?; reflexivity|]
    | eapply (steps_modify_runs _ (AForgetAttempt _)); [intros ?; reflexivity|]
    | eapply (steps_modify_runs _ (AForgetFailure _)); [intros ?; reflexivity|]
    | eapply (steps_modify_runs _ (AScheduleProbe _ _)); [intros ?; reflexivity|]
    | eapply (steps_modify_runs _ (AForgetSchedule _)); [intros ?; reflexivity|]
    | eapply (steps_modify_runs _ (ASetRssiRefresh _)); [intros ?; reflexivity|]
    | eapply (steps_modify_runs _ (AAddFailedRegistration _));
      [intros ?; reflexivity|]
    | eapply (steps_modify_runs _ (ADiscardFailedRegistration _));
      [intros ?; reflexivity|]
    | eapply (steps_modify_runs _ (ASetPreviousStatus _ _));
      [intros ?; reflexivity|]
    | eapply (steps_modify_runs _ (ABumpRecentlySeen _ _));
      [intros ?; reflexivity|]
    | eapply (steps_modify_runs _ (AForgetFirstSeen _)); [intros ?; reflexivity|]
    | eapply (steps_modify_runs _ (ASetLastFullProbe _)); [intros ?; reflexivity|]
    | eapply (steps_modify_runs _ (ASetLastDiscoveryRefresh _));
      [intros ?; reflexivity|]
    | eapply (steps_modify_runs _ (ACacheAdapter _)); [intros ?; reflexivity|] ];
  intros ?; simpl; unfold fp_probe; simpl; intuition eauto.

(** One step of a footprint proof: follow the structure of the
    computation. *)
Ltac footprint_step :=
  lazymatch goal with
  | |- steps _ (ret _) => apply steps_ret; apply _
  | |- steps _ (gets _) => apply steps_gets; apply _
  | |- steps _ (bind _ _) => apply steps_bind; [apply _ | | intros ?]
  | |- steps _ (for_each _ _) => apply steps_for_each; [apply _ | intros ? ?]
  | |- steps _ (emit _) =>
      apply steps_emit_runs; intros ?; simpl; unfold fp_probe; simpl;
      intuition eauto
  | |- steps _ (modify _) => footprint_modify
  | |- steps _ (if ?x then _ else _) => destruct x
  | |- steps _ (match ?x with _ => _ end) => destruct x
  | |- steps _ _ => footprint_call
  end.

Ltac footprint := cbv zeta; repeat footprint_step.

Section Footprints.
Context (cfg : Config) (rcfg : ReconnectConfig) (w : World).

Lemma fp_monotonic : steps (runs fp_clock) (monotonic w).
Proof. unfold monotonic. footprint. Qed.

Lemma fp_time_time : steps (runs fp_clock) (time_time w).
Proof. unfold time_time. footprint. Qed.

Lemma fp_sleep d : steps (runs fp_verify) (sleep d).
Proof. unfold sleep. footprint. Qed.

Lemma fp_get_device_snapshot : steps (runs fp_query) (get_device_snapshot w).
Proof. unfold get_device_snapshot. footprint. Qed.

#[local] Hint Resolve fp_monotonic fp_time_time fp_sleep fp_get_device_snapshot
  : footprint.

Lemma fp_snapshot_or snap : steps (runs fp_query) (snapshot_or w snap).
Proof. unfold snapshot_or. footprint. Qed.

#[local] Hint Resolve fp_snapshot_or : footprint.

Lemma fp_check_device_connected mac snap :
  steps (runs fp_query) (check_device_connected w mac snap).
Proof. unfold check_device_connected. footprint. Qed.

Lemma fp_get_device_name mac snap :
  steps (runs fp_query) (get_device_name w mac snap).
Proof. unfold get_device_name. footprint. Qed.

Lemma fp_get_all_connected_devices snap :
  steps (runs fp_query) (get_all_connected_devices w snap).
Proof. unfold get_all_connected_devices. footprint. Qed.

Lemma fp_get_paired_devices snap :
  steps (runs fp_query) (get_paired_devices w snap).
Proof. unfold get_paired_devices. footprint. Qed.

Lemma fp_get_device_path mac snap :
  steps (runs fp_query) (_get_device_path w mac snap).
Proof. unfold _get_device_path. footprint. Qed.

Lemma fp_is_device_trusted mac snap :
  steps (runs fp_query) (is_device_trusted w mac snap).
Proof. unfold is_device_trusted. footprint. Qed.

#[local] Hint Resolve fp_check_device_connected fp_get_device_name
  fp_get_all_connected_devices fp_get_paired_devices fp_get_device_path
  fp_is_device_trusted : footprint.

Lemma fp_trust_device mac' mac snap :
  steps (runs (fp_connect mac')) (trust_device w mac snap).
Proof. unfold trust_device. footprint. Qed.

Lemma fp_read_connected_property path :
  steps (runs fp_verify) (_read_connected_property w path).
Proof. unfold _read_connected_property. footprint. Qed.

#[local] Hint Resolve fp_trust_device fp_read_connected_property : footprint.

Lemma fp_verify_attempts max_attempts base_delay attempts path expect :
  steps (runs fp_verify)
    (verify_attempts w max_attempts base_delay attempts path expect).
Proof.
  induction attempts as [|attempt rest IH]; simpl; [footprint|].
  footprint; exact IH.
Qed.

#[local] Hint Resolve fp_verify_attempts : footprint.

Lemma fp_verify_connected_state mac path expect :
  steps (runs fp_verify) (_verify_connected_state w mac path expect).
Proof. unfold _verify_connected_state. footprint. Qed.

#[local] Hint Resolve fp_verify_connected_state : footprint.

Lemma fp_reset_probe_failure mac :
  steps (runs (fp_connect mac)) (_reset_probe_failure mac).
Proof. unfold _reset_probe_failure. footprint. Qed.

Lemma fp_record_probe_failure mac :
  steps (runs (fp_connect mac)) (_record_probe_failure cfg w mac).
Proof.
  intros st. unfold _record_probe_failure, monotonic, bind, gets, emit, modify,
    ret. cbn [fst snd].
  set (st1 := set_failed_connection_attempts _ st).
  assert (E1 : st1 = apply_atom (ACountFailure mac) st) by reflexivity.
  assert (H1 : runs (fp_connect mac) st st1)
    by (rewrite E1; apply runs_atom; reflexivity).
  destruct (_ <=? 0)%Z; [exact H1|].
  destruct (probe_backoff cfg _) as [backoff|e]; [|exact H1].
  cbn [fst snd]. etransitivity; [exact H1|].
  eapply runs_step with (a := AEmit (EvMonotonic (w_monotonic w (trace st1))));
    [exact I|].
  apply (runs_atom _ (AScheduleProbe mac _)). reflexivity.
Qed.

#[local] Hint Resolve fp_reset_probe_failure fp_record_probe_failure
  : footprint.

Lemma fp_invoke_connect mac path timeout hard :
  steps (runs (fp_connect mac))
    (_invoke_with_hard_timeout w path "Connect" timeout hard).
Proof. unfold _invoke_with_hard_timeout. footprint. Qed.

Lemma fp_invoke_disconnect mac path timeout hard :
  steps (runs (fp_disconnect mac))
    (_invoke_with_hard_timeout w path "Disconnect" timeout hard).
Proof. unfold _invoke_with_hard_timeout. footprint. Qed.

Lemma fp_bluetoothctl_connect mac hard :
  steps (runs (fp_connect mac)) (_run_bluetoothctl_operation w "connect" mac hard).
Proof. unfold _run_bluetoothctl_operation. footprint. Qed.

Lemma fp_bluetoothctl_disconnect mac hard :
  steps (runs (fp_disconnect mac))
    (_run_bluetoothctl_operation w "disconnect" mac hard).
Proof. unfold _run_bluetoothctl_operation. footprint. Qed.

#[local] Hint Resolve fp_invoke_connect fp_invoke_disconnect
  fp_bluetoothctl_connect fp_bluetoothctl_disconnect : footprint.

Lemma fp_connect_device mac snap timeout :
  steps (runs (fp_connect mac)) (connect_device cfg w mac snap timeout).
Proof. unfold connect_device. footprint. Qed.

Lemma fp_disconnect_device mac snap :
  steps (runs (fp_disconnect mac)) (disconnect_device cfg w mac snap).
Proof. unfold disconnect_device. footprint. Qed.

Lemma fp_get_managed_objects mac :
  steps (runs (fp_remove mac)) (_get_managed_objects w).
Proof. unfold _get_managed_objects. footprint. Qed.

Lemma fp_get_adapter_path mac found :
  steps (runs (fp_remove mac)) (_get_adapter_path found).
Proof. unfold _get_adapter_path. footprint. Qed.

#[local] Hint Resolve fp_get_managed_objects fp_get_adapter_path : footprint.

Lemma fp_remove_device mac snap :
  steps (runs (fp_remove mac)) (remove_device w mac snap).
Proof. unfold remove_device. footprint. Qed.

#[local] Hint Resolve fp_connect_device fp_disconnect_device fp_remove_device
  : footprint.

Lemma fp_can_attempt_reconnection mac :
  steps (runs fp_clock) (_can_attempt_reconnection w mac).
Proof. unfold _can_attempt_reconnection. footprint. Qed.

Lemma fp_record_connection_attempt mac :
  steps (runs fp_probe) (_record_connection_attempt w mac).
Proof. unfold _record_connection_attempt. footprint. Qed.

Lemma fp_pick_reconnect_candidates candidates max_count :
  steps (runs fp_clock) (_pick_reconnect_candidates w candidates max_count).
Proof. unfold _pick_reconnect_candidates. footprint. Qed.

#[local] Hint Resolve fp_can_attempt_reconnection fp_record_connection_attempt
  fp_pick_reconnect_candidates : footprint.

Lemma fp_probe_single_device mac disconnect_after snap :
  steps (runs fp_probe) (_probe_single_device cfg w mac disconnect_after snap).
Proof. unfold _probe_single_device. footprint. Qed.

#[local] Hint Resolve fp_probe_single_device : footprint.

Lemma fp_probe_loop ordered disconnect_after snap budget start_time results :
  steps (runs fp_probe)
    (probe_loop cfg w ordered disconnect_after snap budget start_time results).
Proof.
  revert results. induction ordered as [|mac rest IH]; intros results; simpl;
    [footprint|].
  footprint; apply IH.
Qed.

#[local] Hint Resolve fp_probe_loop : footprint.

Lemma fp_probe_devices macs disconnect_after connected snap budget :
  steps (runs fp_probe)
    (probe_devices cfg w macs disconnect_after connected snap budget).
Proof. unfold probe_devices. footprint. Qed.

Lemma fp_get_devices_in_range s now :
  steps (runs fp_clock) (get_devices_in_range cfg w s now).
Proof. unfold get_devices_in_range, _is_rssi_fresh. footprint. Qed.

#[local] Hint Resolve fp_probe_devices fp_get_devices_in_range : footprint.

Lemma fp_cleanup_old_attempts : steps (runs fp_probe) (_cleanup_old_attempts w).
Proof. unfold _cleanup_old_attempts. footprint. Qed.

Lemma fp_reconnect_single_device mac disconnect snap :
  steps (runs fp_probe) (_reconnect_single_device cfg w mac disconnect snap).
Proof. unfold _reconnect_single_device. footprint. Qed.

#[local] Hint Resolve fp_cleanup_old_attempts fp_reconnect_single_device
  : footprint.

Lemma fp_reconnect_loop ordered disconnect s results :
  steps (runs fp_probe) (reconnect_loop cfg w ordered disconnect s results).
Proof.
  revert results. induction ordered as [|mac rest IH]; intros results; simpl;
    [footprint|].
  footprint; apply IH.
Qed.

#[local] Hint Resolve fp_reconnect_loop : footprint.

Lemma fp_auto_reconnect_paired_devices whitelist registered disconnect :
  steps (runs fp_probe)
    (auto_reconnect_paired_devices cfg rcfg w whitelist registered disconnect).
Proof. unfold auto_reconnect_paired_devices. footprint. Qed.

End Footprints.

#[global] Instance kept_preorder {T} (f : State -> T) : PreOrder (kept f).
Proof.
  split.
  - intros st. reflexivity.
  - intros st1 st2 st3 H12 H23. unfold kept in *. congruence.
Qed.

Lemma runs_kept A {T} (f : State -> T) st st' :
  (forall st a, A st a -> f (apply_atom a st) = f st) ->
  runs A st st' -> f st' = f st.
Proof. intros H Hr. exact (runs_relate A (kept f) st st' H Hr). Qed.

(** A run of steps that are all interactions only extends the trace. *)
Lemma runs_only_events A (P : event -> Prop) st st' :
  (forall st a, A st a -> exists e, a = AEmit e /\ P e) ->
  runs A st st' -> only_events P st st'.
Proof.
  intros H. apply runs_relate; [apply _|].
  intros st0 a Ha. destruct (H st0 a Ha) as [e [-> HP]].
  exists [e]. split; [reflexivity|]. constructor; auto.
Qed.

(** The interactions a run adds, store calls included. *)
Lemma runs_new_events A (P : event -> Prop) st st' :
  (forall st a, A st a ->
     match a with
     | AEmit e => P e
     | ACallCompleted c k => P (EvConvexSubmit c k)
     | _ => True
     end) ->
  runs A st st' -> new_events P st st'.
Proof.
  intros H. apply runs_relate; [apply _|].
  intros st0 a Ha. specialize (H st0 a Ha).
  destruct a; simpl;
    try (exists []; split; [reflexivity | constructor]).
  - exists [e]. split; [reflexivity|]. constructor; auto.
  - exists [EvConvexSubmit c k]. split; [reflexivity|]. constructor; auto.
Qed.

(** ** The link controller *)

Lemma verification_run_true_last mac path expect evs :
  verification_run mac path expect evs true ->
  exists e, last evs = Some e
            /\ match e with
               | EvReadConnected _ r => read_matches expect r = true
               | EvSnapshot s => snapshot_matches mac expect s = true
               | _ => False
               end.
Proof.
  intros H. inversion H; subst; simpl;
    (eexists; split; [reflexivity|]); simpl; auto; congruence.
Qed.

Lemma link_events_no_calls evs : Forall is_link_event evs -> submitted evs = [].
Proof.
  induction 1 as [|e evs He F IH]; [reflexivity|].
  destruct e; simpl in *; try contradiction; exact IH.
Qed.

Section Link.
Context (cfg : Config) (w : World).

(** X7. [connect_device] is confined to the address it is given: of the
    globals it can change only the failure count and the backoff entry of
    that address; attempt times, the state of other addresses and the
    tracker's globals stay as they are.  It talks to BlueZ only through
    [Connect] and [bluetoothctl connect <address>] (besides trust, reads
    and snapshots): it never disconnects, unpairs, scans or calls the
    store. *)
Theorem connect_device_confined
    (mac : string) (snap : option snapshot) (timeout : Z) (st : State) :
  let st' := (connect_device cfg w mac snap timeout st).2 in
  tracker_state st' = tracker_state st
  /\ _last_connection_attempts st' = _last_connection_attempts st
  /\ (forall m, m <> mac ->
        _failed_connection_attempts st' !! m = _failed_connection_attempts st !! m
        /\ _next_probe_allowed_at st' !! m = _next_probe_allowed_at st !! m)
  /\ new_events (allowed_event (fp_connect mac)) st st'.
Proof.
  intros st'. pose proof (fp_connect_device cfg w mac snap timeout st) as Hr.
  fold st' in Hr.
  split; [|split; [|split]].
  - apply (runs_kept (fp_connect mac)); [|exact Hr].
    intros st0 a Ha. destruct a; simpl in Ha; try contradiction; reflexivity.
  - apply (runs_kept (fp_connect mac)); [|exact Hr].
    intros st0 a Ha. destruct a; simpl in Ha; try contradiction; reflexivity.
  - intros m Hm. split.
    + apply (runs_kept (fp_connect mac)
               (fun s => _failed_connection_attempts s !! m)); [|exact Hr].
      intros st0 a Ha. destruct a; simpl in Ha; try contradiction;
        try reflexivity; subst; simpl.
      * apply lookup_insert_ne. congruence.
      * apply lookup_delete_ne. congruence.
    + apply (runs_kept (fp_connect mac)
               (fun s => _next_probe_allowed_at s !! m)); [|exact Hr].
      intros st0 a Ha. destruct a; simpl in Ha; try contradiction;
        try reflexivity; subst; simpl.
      * apply lookup_insert_ne. congruence.
      * apply lookup_delete_ne. congruence.
  - apply (runs_new_events (fp_connect mac)); [|exact Hr].
    intros st0 a Ha. destruct a; simpl in Ha; try contradiction; auto.
    intros st1. exact Ha.
Qed.

(** X8. [disconnect_device] first looks up the device path.  Without a
    usable path it returns [False] and has done nothing but the snapshot
    fetches of that lookup.  With a path it calls [Disconnect] over D-Bus
    exactly once, runs [bluetoothctl disconnect <address>] exactly when
    that call did not report success, and then verifies that the device is
    disconnected; its result is the result of that verification, whatever
    the two disconnect paths reported, so it returns [True] only when the
    last interaction showed the device as not connected.  It leaves
    every global of the state as it is. *)
Theorem disconnect_device_run
    (mac : string) (snap : option snapshot) (st : State) :
  let (device_path, st1) := _get_device_path w mac snap st in
  let (result, st') := disconnect_device cfg w mac snap st in
  (exists pre,
     st1 = set_trace (pre ++ trace st) st /\ Forall is_snapshot_fetch pre)
  /\ if truthy_str device_path
     then
       let path := default "" device_path in
       exists o fallback run,
         st' = set_trace
                 (rev run ++ fallback
                  ++ EvDbusMethod path "Disconnect"
                       (CONNECT_TIMEOUT_SECONDS cfg) o :: trace st1) st1
         /\ (if dbus_failed o
             then exists bo, fallback = [EvBluetoothctl "disconnect" mac bo]
             else fallback = [])
         /\ verification_run mac path false run result
         /\ (result = true ->
             exists e, last run = Some e /\ confirms_disconnected mac e)
     else result = false /\ st' = st1.
Proof.
  unfold disconnect_device, bind.
  pose proof (steps_get_device_path w mac snap st) as H1.
  destruct (_get_device_path w mac snap st) as [p st1]. simpl in H1.
  destruct (truthy_str p) eqn:Ep; cbn [negb];
    [|split; [exact H1 | split; reflexivity]].
  cbv zeta. set (path := default "" p).
  set (o := w_dbus_method w (trace st1) path "Disconnect"
              (CONNECT_TIMEOUT_SECONDS cfg) (HARD_CONNECT_TIMEOUT_SECONDS cfg)).
  set (st2 := set_trace (EvDbusMethod path "Disconnect"
                           (CONNECT_TIMEOUT_SECONDS cfg) o :: trace st1) st1).
  assert (E2 : _invoke_with_hard_timeout w path "Disconnect"
                 (CONNECT_TIMEOUT_SECONDS cfg) (HARD_CONNECT_TIMEOUT_SECONDS cfg) st1
               = ((negb (dbus_failed o),
                   match o with
                   | WorkerStuck => Some "hard timeout"
                   | WorkerDone error => if truthy_str error then error else None
                   end), st2)).
  { unfold _invoke_with_hard_timeout, bind, gets, emit, modify, ret.
    cbn [fst snd]. fold o. fold st2.
    destruct o as [error|]; simpl; [|reflexivity].
    destruct (truthy_str error); reflexivity. }
  rewrite E2. cbn [fst]. clear E2.
  set (fallback := if dbus_failed o
                   then [EvBluetoothctl "disconnect" mac
                           (w_bluetoothctl w (trace st2) "disconnect" mac
                              (HARD_CONNECT_TIMEOUT_SECONDS cfg))]
                   else []).
  set (st3 := if dbus_failed o
              then (_run_bluetoothctl_operation w "disconnect" mac
                      (HARD_CONNECT_TIMEOUT_SECONDS cfg) st2).2
              else st2).
  assert (E3 : st3 = set_trace (fallback ++ trace st2) st2).
  { subst st3 fallback. destruct (dbus_failed o).
    - unfold _run_bluetoothctl_operation, bind, gets, emit, modify, ret.
      cbn [fst snd].
      destruct (w_bluetoothctl w (trace st2) "disconnect" mac _); reflexivity.
    - symmetry. apply set_trace_id. }
  assert (Hfb : if dbus_failed o
                then exists bo, fallback = [EvBluetoothctl "disconnect" mac bo]
                else fallback = []).
  { subst fallback. destruct (dbus_failed o); eauto. }
  assert (Estep : (if negb (negb (dbus_failed o))
                   then bind (_run_bluetoothctl_operation w "disconnect" mac
                                (HARD_CONNECT_TIMEOUT_SECONDS cfg))
                          (fun _ => ret tt)
                   else ret tt) st2 = (tt, st3)).
  { subst st3. destruct (dbus_failed o); cbn [negb]; [|reflexivity].
    unfold bind, ret.
    destruct (_run_bluetoothctl_operation w "disconnect" mac _ st2).
    reflexivity. }
  unfold bind in Estep. rewrite Estep. clear Estep.
  clearbody fallback st3.
  pose proof (verify_connected_state_run w mac path false st3) as H7.
  destruct (_verify_connected_state w mac path false st3) as [result st'].
  destruct H7 as [run [E7 Hrun]].
  split; [exact H1|].
  exists o, fallback, run.
  split; [rewrite E7, E3; subst st2; reflexivity|].
  split; [exact Hfb|]. split; [exact Hrun|].
  intros ->.
  destruct (verification_run_true_last _ _ _ _ Hrun) as [e [Hl He]].
  exists e. split; [exact Hl|].
  destruct e; simpl in *; try contradiction; auto.
  destruct r as [[]|]; simpl in He; congruence.
Qed.

Lemma snapshot_or_consulted snap st :
  let (s, st') := snapshot_or w snap st in
  exists evs,
    st' = set_trace (evs ++ trace st) st
    /\ Forall is_snapshot_fetch evs
    /\ consulted snap evs s.
Proof.
  unfold snapshot_or, get_device_snapshot, bind, gets, emit, modify, ret,
    consulted.
  destruct snap as [s|]; [destruct (bool_decide (s = ∅))|]; simpl.
  - eexists [_]. split; [reflexivity|]. split; [repeat constructor|].
    right. apply list_elem_of_here.
  - exists []. split; [symmetry; apply set_trace_id|]. split; [constructor|].
    left. reflexivity.
  - eexists [_]. split; [reflexivity|]. split; [repeat constructor|].
    right. apply list_elem_of_here.
Qed.

Lemma set_adapter_path_cache_id (st : State) :
  set_adapter_path_cache (_adapter_path_cache st) st = st.
Proof. destruct st; reflexivity. Qed.

(** X9. [remove_device] settles on a snapshot and looks up the device
    path in it.  Without a usable path it returns [False] and has done
    nothing but fetch snapshots.  With a path it fetches the managed
    objects; when that raises it returns [False].  Otherwise the adapter
    is the cached adapter path if there is one, else the adapter found in
    the objects, which is then cached.  Without an adapter it returns
    [False]; with one it calls [RemoveDevice] exactly once, for the
    address it was given and the device path it looked up, and returns
    whether that call succeeded.  Of the globals of the state, the
    adapter path cache is the only one it can write. *)
Theorem remove_device_run (mac : string) (snap : option snapshot) (st : State) :
  let (s, st1) := snapshot_or w snap st in
  let (device_path, st2) := _get_device_path w mac (Some s) st1 in
  let objects := w_adapter w (trace st2) in
  let adapter :=
    match objects with
    | LookupRaised => None
    | LookupDone found =>
        match _adapter_path_cache st2 with
        | Some cached => Some cached
        | None => found
        end
    end in
  let cache :=
    match objects with
    | LookupRaised => _adapter_path_cache st2
    | LookupDone _ => adapter
    end in
  let (result, st') := remove_device w mac snap st in
  (exists pre,
     st2 = set_trace (pre ++ trace st) st /\ Forall is_snapshot_fetch pre)
  /\ if truthy_str device_path
     then
       exists calls,
         st' = set_adapter_path_cache cache
                 (set_trace (calls ++ EvAdapterLookup objects :: trace st2)
                    st2)
         /\ if truthy_str adapter
            then calls = [EvRemoveDevice mac (default "" device_path) result]
            else calls = [] /\ result = false
     else result = false /\ st' = st2.
Proof.
  unfold remove_device, bind.
  pose proof (steps_snapshot_or w snap st) as H1.
  destruct (snapshot_or w snap st) as [s st1]. simpl in H1.
  pose proof (steps_get_device_path w mac (Some s) st1) as H2.
  destruct (_get_device_path w mac (Some s) st1) as [p st2]. simpl in H2.
  cbv zeta.
  assert (Hpre : exists pre,
            st2 = set_trace (pre ++ trace st) st
            /\ Forall is_snapshot_fetch pre).
  { destruct H1 as [evs1 [E1 F1]], H2 as [evs2 [E2 F2]].
    exists (evs2 ++ evs1). split; [|apply Forall_app; auto].
    rewrite E2, E1. simpl. rewrite <- app_assoc. reflexivity. }
  destruct (truthy_str p) eqn:Ep; cbn [negb];
    [|split; [exact Hpre | split; reflexivity]].
  unfold _get_managed_objects, _get_adapter_path, bind, gets, emit, modify,
    ret. cbn [fst snd].
  destruct (w_adapter w (trace st2)) as [|found] eqn:Eo.
  { split; [exact Hpre|]. exists []. split; [|split; reflexivity].
    cbn [app]. set (st3 := set_trace _ st2).
    change (_adapter_path_cache st2) with (_adapter_path_cache st3).
    symmetry. apply set_adapter_path_cache_id. }
  set (st3 := set_trace (EvAdapterLookup (LookupDone found) :: trace st2) st2).
  change (_adapter_path_cache st3) with (_adapter_path_cache st2).
  assert (Ekeep : forall calls cached,
            _adapter_path_cache st2 = cached ->
            set_trace (calls ++ trace st3) st3
            = set_adapter_path_cache cached
                (set_trace
                   (calls ++ EvAdapterLookup (LookupDone found) :: trace st2)
                   st2)).
  { intros calls cached <-.
    change (_adapter_path_cache st2)
      with (_adapter_path_cache
              (set_trace
                 (calls ++ EvAdapterLookup (LookupDone found) :: trace st2)
                 st2)).
    rewrite set_adapter_path_cache_id. reflexivity. }
  destruct (_adapter_path_cache st2) as [cached|] eqn:Ec; cbn [fst snd].
  - destruct (truthy_str (Some cached)) eqn:Ea; cbn [negb fst snd];
      (split; [exact Hpre|]).
    + eexists [_]. split; [|reflexivity]. apply (Ekeep [_]). reflexivity.
    + exists []. split; [|split; reflexivity].
      rewrite <- (Ekeep [] _ eq_refl). symmetry. apply set_trace_id.
  - destruct found as [path|]; cbn [fst snd].
    + destruct (truthy_str (Some path)) eqn:Ea; cbn [negb fst snd];
        (split; [exact Hpre|]).
      * eexists [_]. split; reflexivity.
      * exists []. split; [reflexivity | split; reflexivity].
    + cbn [truthy_str negb]. split; [exact Hpre|].
      exists []. split; [|split; reflexivity].
      rewrite <- (Ekeep [] _ eq_refl). symmetry. apply set_trace_id.
Qed.

(** X10. [probe_devices] leaves the tracker's globals, the circuit
    breaker and the RSSI clock as they are, and its interactions are
    clock reads, sleeps, snapshots, trust, connect and disconnect calls and
    property reads: probing never unpairs a device, never starts a
    discovery and never calls the store. *)
Theorem probe_devices_footprint
    (mac_addresses : list string) (disconnect_after : bool)
    (connected_macs : option (gset string)) (snap : option snapshot)
    (time_budget_seconds : option Q) (st : State) :
  let st' := (probe_devices cfg w mac_addresses disconnect_after
                connected_macs snap time_budget_seconds st).2 in
  tracker_state st' = tracker_state st
  /\ new_events is_link_event st st'
  /\ submitted (trace st') = submitted (trace st).
Proof.
  intros st'.
  pose proof (fp_probe_devices cfg w mac_addresses disconnect_after
                connected_macs snap time_budget_seconds st) as Hr.
  fold st' in Hr.
  assert (Hev : new_events is_link_event st st').
  { apply (runs_new_events fp_probe); [|exact Hr].
    intros st0 a Ha. unfold fp_probe in Ha.
    destruct a as [[]| | | | | | | | | | | | | | | | | | |]; simpl in *;
      try exact I;
      destruct Ha as [Ha|[[m Ha]|[[m Ha]|Ha]]]; simpl in Ha; contradiction. }
  split; [|split; [exact Hev|]].
  - apply (runs_kept fp_probe); [|exact Hr].
    intros st0 a Ha. unfold fp_probe in Ha.
    destruct a; try reflexivity;
      destruct Ha as [Ha|[[m Ha]|[[m Ha]|Ha]]]; simpl in Ha; contradiction.
  - destruct Hev as [evs [E F]]. rewrite E, submitted_app.
    rewrite (link_events_no_calls evs F). reflexivity.
Qed.

End Link.

(** ** The reconnect gate *)

Section Gate.
Context (cfg : Config) (w : World).

(** [_can_attempt_reconnection], evaluated: the monotonic clock is read
    first, then the wall clock; the cooldown is measured on the wall
    clock, the backoff on the monotonic one, and a backoff entry of 0
    counts as none. *)
Lemma can_attempt_reconnection_run mac st :
  let now := w_monotonic w (trace st) in
  let t := w_time w (EvMonotonic now :: trace st) in
  let last := default 0%Q (_last_connection_attempts st !! mac) in
  _can_attempt_reconnection w mac st
  = (negb (Qltb (t - last) RECONNECT_COOLDOWN)
     && negb (match _next_probe_allowed_at st !! mac with
              | Some next => negb (Qeq_bool next 0) && Qltb now next
              | None => false
              end),
     set_trace (EvTime t :: EvMonotonic now :: trace st) st).
Proof.
  unfold _can_attempt_reconnection, monotonic, time_time, bind, gets, emit,
    modify, ret. cbn [fst snd trace set_trace _last_connection_attempts
                      _next_probe_allowed_at].
  destruct (Qltb _ RECONNECT_COOLDOWN); [reflexivity|].
  cbn [negb andb fst snd _next_probe_allowed_at set_trace].
  destruct (_next_probe_allowed_at st !! mac) as [next|]; [|reflexivity].
  destruct (negb (Qeq_bool next 0) && Qltb (w_monotonic w (trace st)) next);
    reflexivity.
Qed.

Lemma record_connection_attempt_run mac st :
  _record_connection_attempt w mac st
  = (tt, apply_atom (ARecordAttempt mac (w_time w (trace st)))
           (apply_atom (AEmit (EvTime (w_time w (trace st)))) st)).
Proof. reflexivity. Qed.

(** X11. A probe records its start on the wall clock before anything
    else, whatever its outcome, and for that address only; as long as the
    wall clock reads less than 30 seconds past that time, the gate refuses
    the address, backoff or not. *)
Theorem probe_starts_cooldown
    (mac : string) (disconnect_after : bool) (snap : option snapshot)
    (st : State) :
  let st1 := (_probe_single_device cfg w mac disconnect_after snap st).2 in
  let t0 := w_time w (trace st) in
  _last_connection_attempts st1 !! mac = Some t0
  /\ (forall m, m <> mac ->
        _last_connection_attempts st1 !! m = _last_connection_attempts st !! m)
  /\ (forall st2,
        _last_connection_attempts st2 !! mac = Some t0 ->
        (w_time w (EvMonotonic (w_monotonic w (trace st2)) :: trace st2) - t0
         < RECONNECT_COOLDOWN)%Q ->
        (_can_attempt_reconnection w mac st2).1 = false).
Proof.
  intros st1 t0.
  assert (Hlast : _last_connection_attempts st1
                  = <[mac := t0]> (_last_connection_attempts st)).
  { subst st1. unfold _probe_single_device, bind.
    rewrite record_connection_attempt_run.
    set (st0 := apply_atom _ (apply_atom _ st)).
    assert (E0 : _last_connection_attempts st0
                 = <[mac := t0]> (_last_connection_attempts st))
      by reflexivity.
    rewrite <- E0.
    pose proof (fp_connect_device cfg w mac snap
                  (PROBE_CONNECT_TIMEOUT_SECONDS cfg) st0) as Hc.
    destruct (connect_device cfg w mac snap _ st0) as [attempt st2].
    simpl in Hc.
    assert (E2 : _last_connection_attempts st2 = _last_connection_attempts st0).
    { apply (runs_kept (fp_connect mac)); [|exact Hc].
      intros s a Ha. destruct a; simpl in Ha; try contradiction; reflexivity. }
    destruct attempt as [success|e]; [|exact E2].
    destruct (success && disconnect_after); [|exact E2].
    unfold bind. pose proof (fp_disconnect_device cfg w mac snap st2) as Hd.
    destruct (disconnect_device cfg w mac snap st2) as [d st3].
    cbn [fst snd ret] in Hd |- *. unfold ret. cbn [snd].
    rewrite <- E2. apply (runs_kept (fp_disconnect mac)); [|exact Hd].
    intros s a Ha. destruct a; simpl in Ha; try contradiction; reflexivity. }
  split; [rewrite Hlast; apply lookup_insert_eq|].
  split; [intros m Hm; rewrite Hlast; apply lookup_insert_ne; congruence|].
  intros st2 Hentry Hcool. rewrite can_attempt_reconnection_run. cbn [fst].
  rewrite Hentry. simpl default.
  apply Qltb_lt in Hcool. rewrite Hcool. reflexivity.
Qed.

(** X12. While the failure count is below 1024, a verified failure of
    [connect_device] closes the gate for the address until the monotonic
    clock reaches the scheduled time [t + min (base * 2 ^ (n - 1)) cap],
    [n] being the new failure count, whatever the cooldown says. *)
Theorem failed_connect_delays_next_probe
    (mac : string) (snap : option snapshot) (timeout : Z) (st : State) :
  (forall n, _failed_connection_attempts st !! mac = Some n -> (0 <= n)%Z) ->
  (default 0 (_failed_connection_attempts st !! mac) < 1024)%Z ->
  let n := (default 0 (_failed_connection_attempts st !! mac) + 1)%Z in
  let (result, st1) := connect_device cfg w mac snap timeout st in
  result = Ok false ->
  Exists is_connected_read (take (length (trace st1) - length (trace st))
                                 (trace st1)) ->
  exists t,
    head (trace st1) = Some (EvMonotonic t)
    /\ _next_probe_allowed_at st1 !! mac
       = Some (t + Qmin (PROBE_BACKOFF_BASE_SECONDS cfg * inject_Z (2 ^ (n - 1)))
                        (PROBE_BACKOFF_MAX_SECONDS cfg))%Q
    /\ forall st2,
         _next_probe_allowed_at st2 !! mac = _next_probe_allowed_at st1 !! mac ->
         ~ (t + Qmin (PROBE_BACKOFF_BASE_SECONDS cfg * inject_Z (2 ^ (n - 1)))
                     (PROBE_BACKOFF_MAX_SECONDS cfg) == 0)%Q ->
         (w_monotonic w (trace st2)
          < t + Qmin (PROBE_BACKOFF_BASE_SECONDS cfg * inject_Z (2 ^ (n - 1)))
                     (PROBE_BACKOFF_MAX_SECONDS cfg))%Q ->
         (_can_attempt_reconnection w mac st2).1 = false.
Proof.
  intros Hinv Hlt n.
  pose proof (connect_device_failure_state cfg w mac snap timeout st Hinv Hlt)
    as H.
  destruct (connect_device cfg w mac snap timeout st) as [result st1].
  destruct H as [evs [Etr [_ [_ [Hfail _]]]]].
  intros -> Hread.
  assert (Hevs : take (length (trace st1) - length (trace st)) (trace st1) = evs).
  { rewrite Etr, length_app.
    replace (length evs + length (trace st) - length (trace st))%nat
      with (length evs) by lia.
    apply take_app_length. }
  rewrite Hevs in Hread.
  destruct (Hfail eq_refl Hread) as [_ [t [rest [Eevs Hnext]]]].
  exists t. fold n in Hnext. split.
  { rewrite Etr, Eevs. reflexivity. }
  split.
  { rewrite Hnext. apply lookup_insert_eq. }
  intros st2 Hentry Hnz Hnow. rewrite can_attempt_reconnection_run. cbn [fst].
  rewrite Hentry, Hnext, lookup_insert_eq.
  apply Qltb_lt in Hnow. rewrite Hnow.
  destruct (Qeq_bool _ 0) eqn:Ez; [apply Qeq_bool_iff in Ez; contradiction|].
  simpl. apply andb_false_r.
Qed.

End Gate.

(** X12, at a concrete input: a first failure at time 50 schedules the next
    probe for 55, and the gate is closed at 50. *)
Lemma failed_connect_delays_next_probe_witness :
  let mac := "AA:BB:CC:DD:EE:FF" in
  let snap : snapshot := {[ mac := demo_device ]} in
  let w := const_world 50 snap KReturned in
  let st1 := (connect_device default_config w mac (Some snap) 5
                initial_state).2 in
  (_can_attempt_reconnection w mac st1).1 = false.
Proof.
  intros mac snap w st1.
  assert (Hinv : forall n,
            _failed_connection_attempts initial_state !! mac = Some n ->
            (0 <= n)%Z)
    by (intros n H; vm_compute in H; discriminate).
  assert (Hlt : (default 0 (_failed_connection_attempts initial_state !! mac)
                 < 1024)%Z) by (vm_compute; reflexivity).
  pose proof (failed_connect_delays_next_probe default_config w mac (Some snap)
                5 initial_state Hinv Hlt) as H.
  cbv zeta in H. subst st1.
  destruct (connect_device default_config w mac (Some snap) 5 initial_state)
    as [result st1] eqn:E.
  vm_compute in E. injection E as <- <-.
  destruct H as [t [Hhead [_ Hgate]]].
  - reflexivity.
  - apply Exists_exists.
    exists (EvReadConnected "/org/bluez/hci0/dev_AA_BB_CC_DD_EE_FF" None).
    split; [|exact I]. vm_compute.
    repeat first [apply list_elem_of_here | apply list_elem_of_further].
  - injection Hhead as <-. apply Hgate.
    + reflexivity.
    + intros Hz. vm_compute in Hz. discriminate.
    + vm_compute. reflexivity.
Defined.

(** ** Forgetting old attempts and reconnecting *)

Lemma foldl_delete_lookup {V} (l : list string) (m : gmap string V) (k : string) :
  foldl (fun acc key => delete key acc) m l !! k
  = if bool_decide (k ∈ l) then None else m !! k.
Proof.
  revert m. induction l as [|x l IH]; intros m; cbn [foldl].
  - rewrite bool_decide_eq_false_2; [reflexivity | apply not_elem_of_nil].
  - rewrite IH. destruct (bool_decide (k ∈ l)) eqn:E.
    + apply bool_decide_eq_true in E.
      rewrite bool_decide_eq_true_2; [reflexivity | right; exact E].
    + apply bool_decide_eq_false in E. destruct (decide (k = x)) as [->|Hne].
      * rewrite lookup_delete_eq.
        rewrite bool_decide_eq_true_2; [reflexivity | left].
      * rewrite lookup_delete_ne by congruence.
        rewrite bool_decide_eq_false_2; [reflexivity|].
        intros Hin. apply elem_of_cons in Hin. destruct Hin; contradiction.
Qed.

Section Reconnect.
Context (cfg : Config) (rcfg : ReconnectConfig) (w : World).

Lemma for_each_forget_attempts (l : list string) (st : State) :
  for_each l (fun mac_address =>
    modify (fun s =>
      set_last_connection_attempts
        (delete mac_address (_last_connection_attempts s)) s)) st
  = (tt, set_last_connection_attempts
           (foldl (fun acc key => delete key acc)
                  (_last_connection_attempts st) l) st).
Proof.
  revert st. induction l as [|x l IH]; intros st.
  - simpl. unfold ret. f_equal. destruct st; reflexivity.
  - simpl. unfold bind, modify. rewrite IH. reflexivity.
Qed.

(** X13. [_cleanup_old_attempts] reads the wall clock once and forgets
    exactly the attempts made more than 60 seconds before that reading; the
    attempts it keeps are unchanged, as is every other global. *)
Theorem cleanup_old_attempts_forgets_old (st : State) :
  let now := w_time w (trace st) in
  let st' := (_cleanup_old_attempts w st).2 in
  (forall mac t,
     _last_connection_attempts st' !! mac = Some t <->
     _last_connection_attempts st !! mac = Some t
     /\ (now - t <= RECENT_ATTEMPT_WINDOW)%Q)
  /\ _failed_connection_attempts st' = _failed_connection_attempts st
  /\ _next_probe_allowed_at st' = _next_probe_allowed_at st
  /\ tracker_state st' = tracker_state st
  /\ trace st' = EvTime now :: trace st.
Proof.
  intros now st'. subst st'.
  unfold _cleanup_old_attempts, time_time, bind, gets, emit, modify, ret.
  cbn [fst snd trace set_trace _last_connection_attempts].
  rewrite for_each_forget_attempts. cbn [snd].
  split; [|repeat split].
  intros mac t. cbn [_last_connection_attempts set_last_connection_attempts
                     set_trace].
  rewrite foldl_delete_lookup. fold now.
  set (old := fun kv : string * Q =>
                Is_true (Qltb RECENT_ATTEMPT_WINDOW (now - kv.2))).
  destruct (bool_decide _) eqn:E.
  - apply bool_decide_eq_true in E. apply list_elem_of_fmap in E.
    destruct E as [[k t'] [-> Hin]]. apply list_elem_of_filter in Hin.
    destruct Hin as [Hold Hin]. apply elem_of_map_to_list in Hin.
    simpl in *. unfold old in Hold. simpl in Hold.
    apply Is_true_true, Qltb_lt in Hold.
    split; [discriminate|]. intros [Hk Hle]. rewrite Hin in Hk.
    injection Hk as ->. exfalso. apply (Qlt_not_le _ _ Hold Hle).
  - apply bool_decide_eq_false in E. split.
    + intros Hk. split; [exact Hk|].
      destruct (Qlt_le_dec RECENT_ATTEMPT_WINDOW (now - t)) as [Hold|Hle];
        [|exact Hle].
      exfalso. apply E. apply list_elem_of_fmap. exists (mac, t).
      split; [reflexivity|]. apply list_elem_of_filter. split.
      * unfold old. simpl. apply Is_true_true, Qltb_lt. exact Hold.
      * apply elem_of_map_to_list. exact Hk.
    + intros [Hk _]. exact Hk.
Qed.

(** X14. [_reconnect_single_device] asks the gate first.  When the gate
    refuses, it returns [None] and has done nothing but the gate's two
    clock reads: no attempt is recorded and the device is not touched.
    When the gate allows, the attempt time is recorded and the result
    names the address; a result of [True] means the failure count and the
    backoff entry of the address are gone. *)
Theorem reconnect_single_device_respects_gate
    (mac : string) (disconnect_after_success : bool) (snap : option snapshot)
    (st : State) :
  let (can, st0) := _can_attempt_reconnection w mac st in
  let (attempt, st') :=
    _reconnect_single_device cfg w mac disconnect_after_success snap st in
  if can
  then exists success,
         attempt = Some (mac, success)
         /\ _last_connection_attempts st' !! mac = Some (w_time w (trace st0))
         /\ (success = true ->
             _failed_connection_attempts st' !! mac = None
             /\ _next_probe_allowed_at st' !! mac = None)
  else attempt = None /\ st' = st0.
Proof.
  unfold _reconnect_single_device, bind.
  destruct (_can_attempt_reconnection w mac st) as [can st0].
  destruct can; cbn [negb]; [|split; reflexivity].
  rewrite record_connection_attempt_run.
  set (st1 := apply_atom _ (apply_atom _ st0)).
  assert (E1 : _last_connection_attempts st1 !! mac
               = Some (w_time w (trace st0)))
    by (apply lookup_insert_eq).
  pose proof (fp_connect_device cfg w mac snap
                (PROBE_CONNECT_TIMEOUT_SECONDS cfg) st1) as Hc.
  pose proof (connect_device_stages cfg w mac snap
                (PROBE_CONNECT_TIMEOUT_SECONDS cfg) st1) as Hs.
  destruct (connect_device cfg w mac snap _ st1) as [result st2].
  cbn [snd] in Hc.
  assert (E2 : _last_connection_attempts st2 = _last_connection_attempts st1).
  { apply (runs_kept (fp_connect mac)); [|exact Hc].
    intros s a Ha. destruct a; simpl in Ha; try contradiction; reflexivity. }
  destruct result as [success|e].
  2:{ exists false. unfold ret. split; [reflexivity|].
      split; [rewrite E2; exact E1 | discriminate]. }
  assert (Hclear : success = true ->
            _failed_connection_attempts st2 !! mac = None
            /\ _next_probe_allowed_at st2 !! mac = None).
  { intros ->. destruct Hs as [evs Hs]. cbv zeta in Hs.
    destruct Hs as [[Hx _]|[[_ [_ ->]]|[_ Hx]]].
    - discriminate.
    - destruct (reset_probe_failure_state mac
                  (set_trace (evs ++ trace st1) st1)) as [F1 [F2 _]].
      rewrite F1, F2. split; apply lookup_delete_eq.
    - destruct (_record_probe_failure cfg w mac _) as [[|] ?];
        destruct Hx as [_ Hx]; discriminate. }
  destruct success; [destruct disconnect_after_success|]; unfold bind, ret.
  - pose proof (fp_disconnect_device cfg w mac snap st2) as Hd.
    destruct (disconnect_device cfg w mac snap st2) as [d st3].
    cbn [snd] in Hd.
    assert (K : forall {T} (f : State -> T),
              (forall s a, fp_disconnect mac s a -> f (apply_atom a s) = f s) ->
              f st3 = f st2)
      by (intros T f Hf; apply (runs_kept (fp_disconnect mac)); assumption).
    exists true. split; [reflexivity|].
    rewrite (K _ _last_connection_attempts), (K _ _failed_connection_attempts),
      (K _ _next_probe_allowed_at);
      try (intros s a Ha; destruct a; simpl in Ha; try contradiction;
           reflexivity).
    split; [rewrite E2; exact E1 | exact Hclear].
  - exists true. split; [reflexivity|].
    split; [rewrite E2; exact E1 | exact Hclear].
  - exists false. split; [reflexivity|].
    split; [rewrite E2; exact E1 | exact Hclear].
Qed.

Lemma reconnect_loop_keys ordered disconnect s :
  NoDup ordered ->
  forall results st,
    (forall k, k ∈ results.*1 -> k ∉ ordered) ->
    exists attempted,
      (reconnect_loop cfg w ordered disconnect s results st).1.*1
      = results.*1 ++ attempted
      /\ attempted `sublist_of` ordered.
Proof.
  intros Hnd. induction Hnd as [|mac rest Hnotin Hnd IH]; intros results st Hres.
  { exists []. simpl. rewrite app_nil_r. split; [reflexivity | constructor]. }
  cbn [reconnect_loop]. unfold bind at 1.
  destruct (_reconnect_single_device cfg w mac disconnect (Some s) st)
    as [[r|] st1].
  - assert (Hk : mac ∉ results.*1).
    { intros Hin. apply (Hres mac Hin). left. }
    destruct (IH (dict_set mac r.2 results) st1) as [att [E S]].
    { intros k Hin. rewrite dict_set_keys in Hin by exact Hk.
      apply elem_of_app in Hin. destruct Hin as [Hin|Hin].
      - intros Hr. apply (Hres k Hin). right. exact Hr.
      - apply list_elem_of_singleton in Hin. subst k. exact Hnotin. }
    exists (mac :: att). split.
    + rewrite E, dict_set_keys by exact Hk. rewrite <- app_assoc. reflexivity.
    + apply sublist_skip. exact S.
  - destruct (IH results st1) as [att [E S]].
    { intros k Hin Hr. apply (Hres k Hin). right. exact Hr. }
    exists att. split; [exact E|]. apply sublist_cons. exact S.
Qed.

Lemma listing_consulted (P : device_info -> bool) (s : snapshot) (st : State) :
  let (s', st') := snapshot_or w (Some s) st in
  exists evs,
    trace st' = evs ++ trace st
    /\ (s' = s \/ EvSnapshot s' ∈ evs).
Proof.
  pose proof (snapshot_or_consulted w (Some s) st) as H.
  destruct (snapshot_or w (Some s) st) as [s' st'].
  destruct H as [evs [E [_ C]]]. exists evs. split; [rewrite E; reflexivity|].
  destruct C as [[= ->]|C]; auto.
Qed.

Lemma fp_probe_footprint st st' :
  runs fp_probe st st' ->
  tracker_state st' = tracker_state st /\ new_events is_link_event st st'.
Proof.
  intros Hr. split.
  - apply (runs_kept fp_probe); [|exact Hr].
    intros st0 a Ha. unfold fp_probe in Ha.
    destruct a; try reflexivity;
      destruct Ha as [Ha|[[m Ha]|[[m Ha]|Ha]]]; simpl in Ha; contradiction.
  - apply (runs_new_events fp_probe); [|exact Hr].
    intros st0 a Ha. unfold fp_probe in Ha.
    destruct a as [[]| | | | | | | | | | | | | | | | | | |]; simpl in *;
      try exact I;
      destruct Ha as [Ha|[[m Ha]|[[m Ha]|Ha]]]; simpl in Ha; contradiction.
Qed.

Lemma devices_to_connect_spec paired_set connected_set devices_in_range
    whitelist registered mac :
  mac ∈ devices_to_connect_of rcfg paired_set connected_set devices_in_range
          whitelist registered ->
  mac ∈ paired_set /\ (mac ∉ connected_set)
  /\ (forall allowed, whitelist = Some allowed -> mac ∈ allowed)
  /\ (forall allowed, registered = Some allowed -> mac ∈ allowed).
Proof.
  unfold devices_to_connect_of.
  destruct (bool_decide (devices_in_range = ∅)
            && ALLOW_PAIRED_PROBE_ON_EMPTY_SCAN rcfg);
    destruct whitelist as [wl|], registered as [reg|]; intros H;
    repeat (apply elem_of_intersection in H; destruct H as [H ?]);
    apply elem_of_difference in H; destruct H as [H Hc];
    apply elem_of_intersection in H; destruct H as [H _];
    (split; [exact H|]); (split; [exact Hc|]);
    split; intros allowed E; try discriminate; injection E as <-; assumption.
Qed.

(** X15. [auto_reconnect_paired_devices] attempts only addresses that are
    paired and not connected in the snapshots it fetched, and that lie in
    the whitelist and in the registered set when these are given; no
    address is attempted twice, and under a positive per-cycle maximum at
    most that many are attempted.  Like probing, it leaves the tracker's
    globals alone and neither unpairs, scans nor calls the store. *)
Theorem auto_reconnect_candidates
    (whitelist_macs registered_macs : option (gset string))
    (disconnect_after_success : option bool) (st : State) :
  let (results, st') :=
    auto_reconnect_paired_devices cfg rcfg w whitelist_macs registered_macs
      disconnect_after_success st in
  tracker_state st' = tracker_state st
  /\ new_events is_link_event st st'
  /\ NoDup results.*1
  /\ ((0 < MAX_RECONNECT_PER_CYCLE cfg)%Z ->
      (Z.of_nat (length results) <= MAX_RECONNECT_PER_CYCLE cfg)%Z)
  /\ exists sp sc,
       fetched_between st st' sp /\ fetched_between st st' sc
       /\ forall mac,
            mac ∈ results.*1 ->
            paired_in sp mac /\ ~ connected_in sc mac
            /\ (forall allowed, whitelist_macs = Some allowed -> mac ∈ allowed)
            /\ (forall allowed, registered_macs = Some allowed -> mac ∈ allowed).
Proof.
  pose proof (fp_auto_reconnect_paired_devices cfg rcfg w whitelist_macs
                registered_macs disconnect_after_success st) as Hr.
  apply fp_probe_footprint in Hr.
  destruct (auto_reconnect_paired_devices cfg rcfg w whitelist_macs
              registered_macs disconnect_after_success st)
    as [results st'] eqn:Eq.
  cbn [snd] in Hr. destruct Hr as [Hk Hev].
  split; [exact Hk|]. split; [exact Hev|].
  unfold auto_reconnect_paired_devices, bind in Eq.
  pose proof (fp_cleanup_old_attempts w st) as H0. apply runs_trace in H0.
  destruct (_cleanup_old_attempts w st) as [[] st0]. cbn [snd] in H0.
  destruct H0 as [evs0 E0].
  unfold get_device_snapshot, bind, gets, emit, modify, ret in Eq.
  cbn [fst snd] in Eq.
  set (s := w_snapshot w (trace st0)) in Eq.
  set (st1 := set_trace (EvSnapshot s :: trace st0) st0) in Eq.
  assert (E1 : trace st1 = EvSnapshot s :: trace st0) by reflexivity.
  unfold get_all_connected_devices, get_paired_devices, bind, ret in Eq.
  pose proof (listing_consulted di_connected s st1) as H2.
  destruct (snapshot_or w (Some s) st1) as [sc st2].
  destruct H2 as [evs2 [E2 C2]].
  pose proof (listing_consulted di_paired s st2) as H3.
  destruct (snapshot_or w (Some s) st2) as [sp st3].
  destruct H3 as [evs3 [E3 C3]].
  pose proof (fp_get_devices_in_range cfg w s None st3) as H4.
  apply runs_trace in H4.
  destruct (get_devices_in_range cfg w s None st3) as [in_range st4].
  cbn [snd] in H4. destruct H4 as [evs4 E4].
  set (todo := devices_to_connect_of rcfg _ _ in_range whitelist_macs
                 registered_macs) in Eq.
  assert (Htr4 : trace st4
                 = (evs4 ++ evs3 ++ evs2 ++ EvSnapshot s :: evs0) ++ trace st).
  { rewrite E4, E3, E2, E1, E0. rewrite <- !app_assoc. reflexivity. }
  assert (Hsp : EvSnapshot sp ∈ evs4 ++ evs3 ++ evs2 ++ EvSnapshot s :: evs0).
  { destruct C3 as [->|C3].
    - rewrite !elem_of_app. right. right. right. left.
    - rewrite !elem_of_app. right. left. exact C3. }
  assert (Hsc : EvSnapshot sc ∈ evs4 ++ evs3 ++ evs2 ++ EvSnapshot s :: evs0).
  { destruct C2 as [->|C2].
    - rewrite !elem_of_app. right. right. right. left.
    - rewrite !elem_of_app. right. right. left. exact C2. }
  assert (Hfin : forall (results : list (string * bool)) (st' : State),
            NoDup results.*1 ->
            (forall k, k ∈ results.*1 -> k ∈ todo) ->
            ((0 < MAX_RECONNECT_PER_CYCLE cfg)%Z ->
             (Z.of_nat (length results) <= MAX_RECONNECT_PER_CYCLE cfg)%Z) ->
            (exists evs5, trace st' = evs5 ++ trace st4) ->
            NoDup results.*1
            /\ ((0 < MAX_RECONNECT_PER_CYCLE cfg)%Z ->
                (Z.of_nat (length results) <= MAX_RECONNECT_PER_CYCLE cfg)%Z)
            /\ exists sp sc,
                 fetched_between st st' sp /\ fetched_between st st' sc
                 /\ forall mac,
                      mac ∈ results.*1 ->
                      paired_in sp mac /\ ~ connected_in sc mac
                      /\ (forall allowed,
                            whitelist_macs = Some allowed -> mac ∈ allowed)
                      /\ (forall allowed,
                            registered_macs = Some allowed -> mac ∈ allowed)).
  { intros res stf Hnd Hin Hlen [evs5 E5].
    split; [exact Hnd|]. split; [exact Hlen|].
    exists sp, sc.
    assert (Etr : trace stf
                  = (evs5 ++ evs4 ++ evs3 ++ evs2 ++ EvSnapshot s :: evs0)
                    ++ trace st).
    { rewrite E5, Htr4. rewrite <- !app_assoc. reflexivity. }
    split; [eexists; split; [exact Etr|]; apply elem_of_app; right; exact Hsp|].
    split; [eexists; split; [exact Etr|]; apply elem_of_app; right; exact Hsc|].
    intros mac Hm. apply Hin in Hm. subst todo.
    apply devices_to_connect_spec in Hm.
    destruct Hm as [Hp [Hc [Hw Hg]]].
    split.
    { apply elem_of_list_to_set, elem_of_macs_where in Hp. exact Hp. }
    split; [|auto].
    intros Hx. apply Hc. apply elem_of_list_to_set, elem_of_macs_where.
    exact Hx. }
  assert (Hnil : forall stf,
            stf = st4 ->
            NoDup ([] : list (string * bool)).*1
            /\ ((0 < MAX_RECONNECT_PER_CYCLE cfg)%Z ->
                (Z.of_nat (length ([] : list (string * bool)))
                 <= MAX_RECONNECT_PER_CYCLE cfg)%Z)
            /\ exists sp sc,
                 fetched_between st stf sp /\ fetched_between st stf sc
                 /\ forall mac,
                      mac ∈ ([] : list (string * bool)).*1 ->
                      paired_in sp mac /\ ~ connected_in sc mac
                      /\ (forall allowed,
                            whitelist_macs = Some allowed -> mac ∈ allowed)
                      /\ (forall allowed,
                            registered_macs = Some allowed -> mac ∈ allowed)).
  { intros stf ->. apply Hfin.
    - constructor.
    - intros k Hin. inversion Hin.
    - simpl. lia.
    - exists []. reflexivity. }
  destruct (bool_decide (todo = ∅)).
  { injection Eq as <- <-. apply Hnil. reflexivity. }
  pose proof (pick_reconnect_candidates_subset w todo
                (if (0 <? MAX_RECONNECT_PER_CYCLE cfg)%Z
                 then MAX_RECONNECT_PER_CYCLE cfg else 0%Z) st4) as Hp.
  destruct (_pick_reconnect_candidates w todo _ st4) as [ordered st5].
  destruct Hp as [-> [Hnd [Hin Hlen]]].
  destruct ordered as [|o ordered].
  { injection Eq as <- <-. apply Hnil. reflexivity. }
  pose proof (reconnect_loop_keys (o :: ordered)
                (default (DISCONNECT_AFTER_SUCCESS rcfg)
                   disconnect_after_success) s Hnd [] st4) as Hl.
  pose proof (fp_reconnect_loop cfg w (o :: ordered)
                (default (DISCONNECT_AFTER_SUCCESS rcfg)
                   disconnect_after_success) s [] st4) as H5.
  apply runs_trace in H5. rewrite Eq in Hl, H5. cbn [fst snd] in Hl, H5.
  destruct Hl as [att [Ek Hsub]]; [intros k Hx; inversion Hx|].
  simpl in Ek. apply Hfin.
  - rewrite Ek. eapply sublist_NoDup; [exact Hnd | exact Hsub].
  - intros k Hx. rewrite Ek in Hx. apply Hin.
    eapply sublist_subseteq; [exact Hsub | exact Hx].
  - intros Hmax. apply Z.ltb_lt in Hmax as Hb. rewrite Hb in Hlen.
    specialize (Hlen Hmax).
    assert (Hle : (length results <= length (o :: ordered))%nat).
    { assert (El : length results.*1 = length results) by apply length_fmap.
      rewrite <- El, Ek. apply sublist_length. exact Hsub. }
    lia.
  - exact H5.
Qed.

End Reconnect.

(** ** Anatomy of a connect attempt *)

Section Connect_anatomy.
Context (cfg : Config) (w : World).

Lemma get_device_path_found mac (s : snapshot) d st :
  s <> ∅ -> s !! upper mac = Some d ->
  _get_device_path w mac (Some s) st = (di_path d, st).
Proof.
  intros Hs Hd. unfold _get_device_path, bind.
  rewrite (snapshot_or_nonempty w s st Hs), Hd. reflexivity.
Qed.

(** X16. With a snapshot that records a path for the address,
    [connect_device] goes through the same steps every time: it trusts
    the device first exactly when the snapshot shows it untrusted; it
    calls [Connect] over D-Bus once; it runs [bluetoothctl connect]
    exactly when that call did not report success; it then verifies.
    The result is [True] exactly when the verification matched,
    whatever the two connect paths reported; after a failed verification
    the only further interaction is the clock read of the backoff. *)
Theorem connect_device_anatomy
    (mac : string) (s : snapshot) (d : device_info) (path : string)
    (timeout : Z) (st : State) :
  s <> ∅ -> s !! upper mac = Some d -> di_path d = Some path -> path <> "" ->
  let (result, st') := connect_device cfg w mac (Some s) timeout st in
  exists trust o fallback run verified tail,
    trace st'
    = tail ++ rev run ++ fallback
      ++ EvDbusMethod path "Connect" timeout o :: trust ++ trace st
    /\ (if di_trusted d then trust = []
        else exists ok, trust = [EvTrust path ok])
    /\ (if dbus_failed o
        then exists bo, fallback = [EvBluetoothctl "connect" mac bo]
        else fallback = [])
    /\ verification_run mac path true run verified
    /\ (if verified then result = Ok true /\ tail = []
        else result <> Ok true
             /\ (tail = [] \/ exists t, tail = [EvMonotonic t])).
Proof.
  intros Hs Hd Hp Hne. rewrite connect_device_unfold. cbv zeta.
  rewrite (snapshot_or_nonempty w s st Hs).
  assert (Ht : is_device_trusted w mac (Some s) st = (di_trusted d, st)).
  { unfold is_device_trusted, bind.
    rewrite (snapshot_or_nonempty w s st Hs), Hd. reflexivity. }
  rewrite Ht.
  set (trust := if di_trusted d then []
                else [EvTrust path (w_trust w (trace st) path)]).
  set (st3 := if di_trusted d then st
              else (trust_device w mac (Some s) st).2).
  assert (E3 : st3 = set_trace (trust ++ trace st) st).
  { subst st3 trust. destruct (di_trusted d).
    - symmetry. apply set_trace_id.
    - unfold trust_device, bind.
      rewrite (snapshot_or_nonempty w s st Hs).
      rewrite (get_device_path_found mac s d st Hs Hd), Hp.
      assert (Hn : negb (truthy_str (Some path)) = false).
      { simpl. destruct (String.eqb_spec path ""); [contradiction|reflexivity]. }
      rewrite Hn. reflexivity. }
  assert (Htrust : if di_trusted d then trust = []
                   else exists ok, trust = [EvTrust path ok]).
  { subst trust. destruct (di_trusted d); eauto. }
  clearbody trust st3.
  rewrite (get_device_path_found mac s d st3 Hs Hd), Hp.
  assert (Hn : negb (truthy_str (Some path)) = false).
  { simpl. destruct (String.eqb_spec path ""); [contradiction|reflexivity]. }
  rewrite Hn. cbn [default from_option id].
  set (hard := if (timeout =? PROBE_CONNECT_TIMEOUT_SECONDS cfg)%Z
               then HARD_PROBE_CONNECT_TIMEOUT_SECONDS cfg
               else (inject_Z timeout + CONNECT_TIMEOUT_BUFFER_SECONDS cfg)%Q).
  set (o := w_dbus_method w (trace st3) path "Connect" timeout hard).
  set (st5 := set_trace (EvDbusMethod path "Connect" timeout o :: trace st3)
                st3).
  assert (E5 : _invoke_with_hard_timeout w path "Connect" timeout hard st3
               = ((negb (dbus_failed o),
                   match o with
                   | WorkerStuck => Some "hard timeout"
                   | WorkerDone error => if truthy_str error then error else None
                   end), st5)).
  { unfold _invoke_with_hard_timeout, bind, gets, emit, modify, ret.
    cbn [fst snd]. fold o. fold st5.
    destruct o as [error|]; simpl; [|reflexivity].
    destruct (truthy_str error); reflexivity. }
  rewrite E5. cbn [fst]. clear E5.
  set (fallback := if dbus_failed o
                   then [EvBluetoothctl "connect" mac
                           (w_bluetoothctl w (trace st5) "connect" mac hard)]
                   else []).
  set (st6 := if negb (dbus_failed o) then st5
              else (_run_bluetoothctl_operation w "connect" mac hard st5).2).
  assert (E6 : st6 = set_trace (fallback ++ trace st5) st5).
  { subst st6 fallback. destruct (dbus_failed o); cbn [negb].
    - unfold _run_bluetoothctl_operation, bind, gets, emit, modify, ret.
      cbn [fst snd].
      destruct (w_bluetoothctl w (trace st5) "connect" mac hard); reflexivity.
    - symmetry. apply set_trace_id. }
  assert (Hfb : if dbus_failed o
                then exists bo, fallback = [EvBluetoothctl "connect" mac bo]
                else fallback = []).
  { subst fallback. destruct (dbus_failed o); eauto. }
  clearbody fallback st6.
  pose proof (verify_connected_state_run w mac path true st6) as H7.
  destruct (_verify_connected_state w mac path true st6) as [verified st7].
  destruct H7 as [run [E7 Hrun]].
  assert (Etr : trace st7
                = rev run ++ fallback
                  ++ EvDbusMethod path "Connect" timeout o :: trust
                  ++ trace st).
  { rewrite E7, E6. subst st5. rewrite E3. reflexivity. }
  destruct verified.
  - exists trust, o, fallback, run, true, [].
    destruct (reset_probe_failure_state mac st7) as [_ [_ F3]].
    cbn [snd]. rewrite F3, Etr.
    split; [reflexivity|]. split; [exact Htrust|]. split; [exact Hfb|].
    split; [exact Hrun|]. split; reflexivity.
  - pose proof (fp_record_probe_failure cfg w mac st7) as Hr.
    destruct (_record_probe_failure cfg w mac st7) as [recorded st8] eqn:E8.
    cbn [snd] in Hr.
    assert (Htail : trace st8 = trace st7
                    \/ exists t, trace st8 = EvMonotonic t :: trace st7).
    { unfold _record_probe_failure, monotonic, bind, gets, emit, modify, ret
        in E8. cbn [fst snd] in E8.
      destruct (_ <=? 0)%Z; [injection E8 as _ <-; left; reflexivity|].
      destruct (probe_backoff cfg _); cbn [fst snd] in E8;
        injection E8 as _ <-; [right; eexists; reflexivity | left; reflexivity]. }
    destruct Htail as [Et|[t Et]].
    + exists trust, o, fallback, run, false, [].
      rewrite Et, Etr. split; [reflexivity|]. split; [exact Htrust|].
      split; [exact Hfb|]. split; [exact Hrun|].
      split; [destruct recorded; discriminate | left; reflexivity].
    + exists trust, o, fallback, run, false, [EvMonotonic t].
      rewrite Et, Etr. split; [reflexivity|]. split; [exact Htrust|].
      split; [exact Hfb|]. split; [exact Hrun|].
      split; [destruct recorded; discriminate | right; eauto].
Qed.

End Connect_anatomy.

(** X16, at a concrete input: an untrusted device, every primitive
    failing; the attempt is not a success. *)
Lemma connect_device_anatomy_witness :
  let mac := "AA:BB:CC:DD:EE:FF" in
  let s : snapshot := {[ mac := demo_device ]} in
  let w := const_world 50 s KReturned in
  (connect_device default_config w mac (Some s) 5 initial_state).1 <> Ok true.
Proof.
  intros mac s w.
  pose proof (connect_device_anatomy default_config w mac s demo_device
                "/org/bluez/hci0/dev_AA_BB_CC_DD_EE_FF" 5 initial_state
                ltac:(apply insert_non_empty)
                ltac:(apply lookup_singleton_eq)
                ltac:(reflexivity) ltac:(discriminate)) as H.
  destruct (connect_device default_config w mac (Some s) 5 initial_state)
    as [result st'] eqn:E.
  vm_compute in E. injection E as <- _. discriminate.
Defined.

(** ** Edge cases of probing *)

Section Probe_edges.
Context (cfg : Config) (w : World).

Lemma probe_candidates_upper macs connected k :
  k ∈ probe_candidates macs connected ->
  exists m, m ∈ macs /\ k = upper m.
Proof.
  unfold probe_candidates. intros H. apply elem_of_difference in H.
  destruct H as [H _]. apply elem_of_list_to_set, list_elem_of_fmap in H.
  destruct H as [m [-> Hm]]. eauto.
Qed.

Lemma probe_devices_result_keys macs disconnect_after connected snap budget st :
  let r := probe_devices cfg w macs disconnect_after connected snap budget st in
  NoDup r.1.*1
  /\ (forall k, k ∈ r.1.*1 -> k ∈ probe_candidates macs connected).
Proof.
  intros r.
  pose proof (probe_devices_attempted cfg w macs disconnect_after
                connected snap budget st) as H.
  cbv zeta in H. fold r in H.
  destruct H as [H|[ordered [st0 [Epick Hsub]]]].
  { rewrite H. split; [constructor|]. intros k Hk. inversion Hk. }
  pose proof (pick_reconnect_candidates_subset w
                (probe_candidates macs connected)
                (if (0 <? MAX_RECONNECT_PER_CYCLE cfg)%Z
                 then MAX_RECONNECT_PER_CYCLE cfg else 0%Z) st) as Hp.
  rewrite Epick in Hp. destruct Hp as [_ [Hnd [Hin _]]].
  specialize (Hsub Hnd). split.
  - eapply sublist_NoDup; [exact Hnd | exact Hsub].
  - intros k Hk. apply Hin.
    eapply sublist_subseteq; [exact Hsub | exact Hk].
Qed.

(** X17. [probe_devices] with nothing to probe (an empty list, or a list
    whose addresses are all connected) returns the empty dictionary
    without a single interaction.  In general the keys of its result are
    upper-cased addresses of the list it was given, each at most once. *)
Theorem probe_devices_keys
    (mac_addresses : list string) (disconnect_after : bool)
    (connected_macs : option (gset string)) (snap : option snapshot)
    (time_budget_seconds : option Q) (st : State) :
  let r := probe_devices cfg w mac_addresses disconnect_after connected_macs
             snap time_budget_seconds st in
  (probe_candidates mac_addresses connected_macs = ∅ -> r = ([], st))
  /\ NoDup r.1.*1
  /\ (forall k, k ∈ r.1.*1 ->
        upper k = k /\ exists m, m ∈ mac_addresses /\ k = upper m).
Proof.
  intros r. split.
  { intros Hempty. subst r. unfold probe_devices.
    destruct mac_addresses as [|m macs]; [reflexivity|].
    set (cs := match connected_macs with
               | Some c =>
                   if bool_decide (c = ∅)
                   then list_to_set (upper <$> m :: macs)
                   else list_to_set (upper <$> m :: macs) ∖ set_map upper c
               | None => list_to_set (upper <$> m :: macs)
               end).
    assert (Hcs : cs = probe_candidates (m :: macs) connected_macs).
    { subst cs. unfold probe_candidates.
      destruct connected_macs as [c|]; simpl.
      - destruct (bool_decide (c = ∅)) eqn:E; [|reflexivity].
        apply bool_decide_eq_true in E. subst c.
        rewrite set_map_empty, difference_empty_L. reflexivity.
      - rewrite set_map_empty, difference_empty_L. reflexivity. }
    rewrite Hcs, Hempty. rewrite bool_decide_eq_true_2 by reflexivity.
    reflexivity. }
  destruct (probe_devices_result_keys mac_addresses disconnect_after
              connected_macs snap time_budget_seconds st) as [Hnd Hin].
  fold r in Hnd, Hin. split; [exact Hnd|].
  intros k Hk.
  destruct (probe_candidates_upper _ _ _ (Hin k Hk)) as [m [Hm ->]].
  split; [apply upper_idemp | eauto].
Qed.

(** X18. The time budget is checked before every candidate, against a
    clock started just before the loop.  With a budget of zero or less and
    a monotonic clock that never runs backwards, [probe_devices] probes
    nothing and returns the empty dictionary. *)
Theorem probe_devices_without_budget
    (mac_addresses : list string) (disconnect_after : bool)
    (connected_macs : option (gset string)) (snap : option snapshot)
    (budget : Q) (st : State) :
  (budget <= 0)%Q ->
  (forall tr tr', (w_monotonic w tr <= w_monotonic w (tr' ++ tr))%Q) ->
  let r := probe_devices cfg w mac_addresses disconnect_after connected_macs
             snap (Some budget) st in
  r.1 = []
  /\ _last_connection_attempts r.2 = _last_connection_attempts st
  /\ Forall (fun e => match e with EvMonotonic _ => True | _ => False end)
       (take (length (trace r.2) - length (trace st)) (trace r.2)).
Proof.
  intros Hb Hmono r.
  set (start := w_monotonic w (trace st)).
  set (st1 := set_trace (EvMonotonic start :: trace st) st).
  assert (Hr : r = ([], st)
               \/ r = ([], set_trace (EvMonotonic (w_monotonic w (trace st1))
                                      :: trace st1) st1)).
  { subst r. unfold probe_devices.
    destruct mac_addresses as [|m macs]; [left; reflexivity|].
    cbv zeta.
    set (cs := match connected_macs with
               | Some c =>
                   if bool_decide (c = ∅)
                   then list_to_set (upper <$> m :: macs)
                   else list_to_set (upper <$> m :: macs) ∖ set_map upper c
               | None => list_to_set (upper <$> m :: macs)
               end).
    clearbody cs.
    destruct (bool_decide (cs = ∅)); [left; reflexivity|].
    pose proof (pick_reconnect_candidates_subset w) as Hp.
    unfold bind.
    match goal with
    | |- context [_pick_reconnect_candidates w ?c ?n st] =>
        specialize (Hp c n st);
        destruct (_pick_reconnect_candidates w c n st) as [ordered st0]
    end.
    destruct Hp as [-> _].
    destruct ordered as [|o ordered]; [left; reflexivity|].
    right.
    assert (E : Qle_bool budget (w_monotonic w (trace st1) - start) = true).
    { apply Qle_bool_iff.
      assert (Hle : (start <= w_monotonic w (trace st1))%Q)
        by (apply (Hmono (trace st) [EvMonotonic start])).
      apply (Qle_trans _ 0); [exact Hb|].
      apply (Qplus_le_l _ _ start). ring_simplify. exact Hle. }
    subst st1 start. cbn [trace set_trace] in E |- *.
    cbn [probe_loop].
    repeat (unfold bind, monotonic, gets, emit, modify, ret;
            cbn [fst snd trace set_trace]).
    rewrite E. reflexivity. }
  destruct Hr as [-> | ->]; cbn [fst snd].
  - split; [reflexivity|]. split; [reflexivity|].
    rewrite Nat.sub_diag. constructor.
  - split; [reflexivity|]. split; [reflexivity|].
    subst st1. cbn [trace set_trace].
    match goal with
    | |- Forall _ (take ?n _) => replace n with 2%nat by (simpl; lia)
    end.
    repeat constructor.
Qed.

End Probe_edges.

(** X18, at a concrete input: a budget of zero and a clock that stands
    still. *)
Lemma probe_devices_without_budget_witness :
  let w := const_world 1000 ∅ KReturned in
  (probe_devices default_config w ["AA:BB:CC:DD:EE:01"] true None None
     (Some 0%Q) initial_state).1 = [].
Proof.
  intros w.
  refine (proj1 (probe_devices_without_budget default_config w
                   ["AA:BB:CC:DD:EE:01"] true None None 0%Q initial_state
                   _ _)).
  - apply Qle_refl.
  - intros tr tr'. apply Qle_refl.
Defined.

(** ** Presence tracking *)

Section Presence.
Context (cfg : Config) (w : World).

(** A loop whose body marks the selected addresses as seen at [now]. *)
Lemma for_each_bump {A} (now : Q) (sel : A -> option string)
    (body : A -> M unit) (xs : list A) (st : State) :
  (forall x st0,
     (body x st0).2
     = match sel x with
       | Some m =>
           set_recently_seen_devices
             (<[m := now]> (recently_seen_devices st0)) st0
       | None => st0
       end) ->
  forall mac,
    recently_seen_devices (for_each xs body st).2 !! mac
    = if bool_decide (Some mac ∈ sel <$> xs) then Some now
      else recently_seen_devices st !! mac.
Proof.
  intros Hbody. revert st. induction xs as [|x xs IH]; intros st mac.
  - cbn [for_each fmap list_fmap]. unfold ret. cbn [snd].
    rewrite bool_decide_eq_false_2 by apply not_elem_of_nil. reflexivity.
  - cbn [for_each]. unfold bind.
    pose proof (Hbody x st) as H1.
    destruct (body x st) as [u st1]. cbn [snd] in H1.
    rewrite IH, fmap_cons.
    destruct (bool_decide (Some mac ∈ sel <$> xs)) eqn:Et.
    + apply bool_decide_eq_true in Et.
      rewrite bool_decide_eq_true_2 by (apply list_elem_of_further; exact Et).
      reflexivity.
    + apply bool_decide_eq_false in Et. subst st1.
      destruct (sel x) as [m|] eqn:Es.
      * destruct (decide (m = mac)) as [->|Hne].
        -- rewrite bool_decide_eq_true_2 by apply list_elem_of_here.
           simpl. rewrite lookup_insert_eq. reflexivity.
        -- rewrite bool_decide_eq_false_2.
           ++ simpl. rewrite lookup_insert_ne by exact Hne. reflexivity.
           ++ intros Hin. apply elem_of_cons in Hin.
              destruct Hin as [Hin|Hin]; [congruence | contradiction].
      * rewrite bool_decide_eq_false_2; [reflexivity|].
        intros Hin. apply elem_of_cons in Hin.
        destruct Hin as [Hin|Hin]; [discriminate | contradiction].
Qed.

(** The full probe leaves the recently-seen times alone, and the keys of
    its results are upper-cased addresses of registered devices that are
    not in range. *)
Lemma full_probe_spec s connected_set devices_in_range registered_macs now st :
  let p := full_probe cfg w s connected_set devices_in_range registered_macs
             now st in
  recently_seen_devices p.2 = recently_seen_devices st
  /\ (forall k, k ∈ p.1.*1 ->
        exists m, m ∈ registered_macs /\ (m ∉ devices_in_range) /\ k = upper m).
Proof.
  intros p. subst p. unfold full_probe, bind, gets, modify, ret. cbn [fst snd].
  assert (Hnil : forall st0 : State,
            recently_seen_devices st0 = recently_seen_devices st ->
            recently_seen_devices (([] : list (string * bool)), st0).2
            = recently_seen_devices st
            /\ (forall k, k ∈ (([] : list (string * bool)), st0).1.*1 ->
                  exists m, m ∈ registered_macs /\ (m ∉ devices_in_range)
                            /\ k = upper m)).
  { intros st0 E. split; [exact E|]. intros k Hk. inversion Hk. }
  destruct (negb (bool_decide (registered_macs = ∅)) && FULL_PROBE_ENABLED cfg
            && Qle_bool _ _); [|apply Hnil; reflexivity].
  match goal with
  | |- context [bool_decide (?c = ∅)] =>
      set (stale := c); destruct (bool_decide (stale = ∅));
        [apply Hnil; reflexivity|]
  end.
  pose proof (fp_probe_devices cfg w (elements stale)
                (FULL_PROBE_DISCONNECT_AFTER cfg) (Some connected_set)
                (Some s) (Some (PROBE_TIME_BUDGET_SECONDS cfg)) st) as Hr.
  pose proof (probe_devices_result_keys cfg w (elements stale)
                (FULL_PROBE_DISCONNECT_AFTER cfg) (Some connected_set)
                (Some s) (Some (PROBE_TIME_BUDGET_SECONDS cfg)) st) as Hk.
  cbv zeta in Hk.
  destruct (probe_devices cfg w (elements stale) _ _ _ _ st)
    as [results st'].
  cbn [fst snd] in *. split.
  - apply fp_probe_footprint in Hr. destruct Hr as [Ht _].
    unfold tracker_state in Ht. simpl. congruence.
  - intros k Hin. destruct Hk as [_ Hk].
    destruct (probe_candidates_upper _ _ _ (Hk k Hin)) as [m [Hm ->]].
    apply elem_of_elements in Hm. subst stale.
    apply elem_of_filter in Hm. destruct Hm as [Hp Hm].
    apply Is_true_true, andb_true_iff in Hp. destruct Hp as [Hp _].
    apply negb_true_iff, bool_decide_eq_false in Hp.
    exists m. auto.
Qed.

Lemma track_presence_unfold now s connected_set devices_in_range devices st :
  let st1 := (for_each (w_set_order w devices_in_range)
                (fun mac => bump_recently_seen mac now) st).2 in
  let p := full_probe cfg w s connected_set devices_in_range
             (registered_macs_of devices) now st1 in
  let st3 := (for_each p.1
                (fun r => if (r.2 : bool) then bump_recently_seen r.1 now
                          else ret tt) p.2).2 in
  let st4 := (for_each devices (bump_newly_registered cfg now) st3).2 in
  let fresh :=
    filter (fun kv => Is_true (Qle_bool (now - kv.2)
                                 (inject_Z (PRESENT_TTL_SECONDS cfg))))
           (recently_seen_devices st4) in
  track_presence cfg w now s connected_set devices_in_range devices st
  = (dom fresh, set_recently_seen_devices fresh st4).
Proof.
  intros st1 p st3 st4 fresh. subst fresh st4 st3 p st1.
  unfold track_presence, bind.
  destruct (for_each (w_set_order w devices_in_range) _ st) as [u1 s1].
  cbn [snd].
  destruct (full_probe cfg w s connected_set devices_in_range _ now s1)
    as [results s2].
  cbn [fst snd].
  destruct (for_each results _ s2) as [u3 s3]. cbn [snd].
  destruct (for_each devices _ s3) as [u4 s4]. cbn [snd].
  reflexivity.
Qed.

Lemma bump_newly_registered_state now device st :
  (bump_newly_registered cfg now device st).2
  = match (if truthy_str (sd_macAddress device)
           then match sd_connectedSince device with
                | Some connected_since =>
                    if negb (Qeq_bool connected_since 0)
                       && bool_decide (sd_status device
                                       = Some (Some "present"))
                       && Qle_bool (now - connected_since / 1000)
                            (inject_Z (NEWLY_REGISTERED_GRACE_PERIOD cfg))
                    then sd_macAddress device else None
                | None => None
                end
           else None) with
    | Some m =>
        set_recently_seen_devices
          (<[m := now]> (recently_seen_devices st)) st
    | None => st
    end.
Proof.
  unfold bump_newly_registered.
  destruct (sd_macAddress device) as [m|]; simpl; [|reflexivity].
  destruct (negb (m =? "")%string); simpl; [|reflexivity].
  destruct (sd_connectedSince device) as [cs|]; [|reflexivity].
  destruct (negb (Qeq_bool cs 0) && _ && _); reflexivity.
Qed.

Lemma newly_registered_iff now device mac :
  (if truthy_str (sd_macAddress device)
   then match sd_connectedSince device with
        | Some connected_since =>
            if negb (Qeq_bool connected_since 0)
               && bool_decide (sd_status device = Some (Some "present"))
               && Qle_bool (now - connected_since / 1000)
                    (inject_Z (NEWLY_REGISTERED_GRACE_PERIOD cfg))
            then sd_macAddress device else None
        | None => None
        end
   else None) = Some mac
  <-> newly_registered cfg now device mac.
Proof.
  unfold newly_registered.
  destruct (sd_macAddress device) as [m|]; simpl.
  2:{ split; [discriminate | intros [H _]; discriminate]. }
  destruct (String.eqb_spec m "") as [->|Hm]; simpl.
  { split; [discriminate|]. intros [H [Hne _]]. congruence. }
  destruct (sd_connectedSince device) as [cs|].
  2:{ split; [discriminate|]. intros [_ [_ [_ [c [H _]]]]]. discriminate. }
  destruct (Qeq_bool cs 0) eqn:E0; simpl.
  { split; [discriminate|]. intros [_ [_ [_ [c [H [Hz _]]]]]].
    injection H as <-. apply Qeq_bool_iff in E0. contradiction. }
  destruct (bool_decide (sd_status device = Some (Some "present"))) eqn:Es;
    simpl.
  2:{ apply bool_decide_eq_false in Es.
      split; [discriminate|]. intros [_ [_ [H _]]]. contradiction. }
  apply bool_decide_eq_true in Es.
  destruct (Qle_bool (now - cs / 1000) _) eqn:Eg.
  - apply Qle_bool_iff in Eg. split.
    + intros H. injection H as ->. split; [reflexivity|].
      split; [assumption|]. split; [assumption|].
      exists cs. split; [reflexivity|]. split; [|exact Eg].
      intros Hz. apply Qeq_bool_iff in Hz. congruence.
    + intros [H _]. exact H.
  - split; [discriminate|]. intros [_ [_ [_ [c [H [_ Hg]]]]]].
    injection H as <-. apply Qle_bool_iff in Hg. congruence.
Qed.

Lemma within_ttl_now now :
  (0 <= PRESENT_TTL_SECONDS cfg)%Z -> within_ttl cfg now now.
Proof.
  intros H. unfold within_ttl.
  assert (E : (now - now == inject_Z 0)%Q) by (simpl; ring).
  rewrite E, <- Zle_Qle. exact H.
Qed.

(** X19. Presence tracking in a cycle, for a presence TTL that is not
    negative.  The present set is the key set of the recently-seen
    dictionary left behind, and every time left in it is within the TTL.
    Present are: every device in range, every store record registered a
    moment ago, and every device whose earlier time is still within the
    TTL.  Nothing else is present, except upper-cased addresses of
    registered devices out of range, which is what a successful probe
    adds. *)
Theorem track_presence_present_set
    (now : Q) (s : snapshot) (connected_set devices_in_range : gset string)
    (devices : list store_device) (st : State) :
  (0 <= PRESENT_TTL_SECONDS cfg)%Z ->
  let r := track_presence cfg w now s connected_set devices_in_range devices
             st in
  r.1 = dom (recently_seen_devices r.2)
  /\ (forall mac t,
        recently_seen_devices r.2 !! mac = Some t -> within_ttl cfg now t)
  /\ (forall mac, mac ∈ devices_in_range -> mac ∈ r.1)
  /\ (forall device mac,
        device ∈ devices -> newly_registered cfg now device mac -> mac ∈ r.1)
  /\ (forall mac t,
        recently_seen_devices st !! mac = Some t -> within_ttl cfg now t ->
        mac ∈ r.1)
  /\ (forall mac, mac ∈ r.1 ->
        mac ∈ devices_in_range
        \/ (exists t, recently_seen_devices st !! mac = Some t
                      /\ within_ttl cfg now t)
        \/ (exists device, device ∈ devices
                           /\ newly_registered cfg now device mac)
        \/ (exists m, m ∈ registered_macs_of devices
                      /\ (m ∉ devices_in_range) /\ mac = upper m)).
Proof.
  intros Httl r.
  pose proof (track_presence_unfold now s connected_set devices_in_range
                devices st) as E.
  cbv zeta in E. subst r. rewrite E. clear E. cbn [fst snd].
  set (order := w_set_order w devices_in_range).
  set (st1 := (for_each order _ st).2).
  destruct (full_probe_spec s connected_set devices_in_range
              (registered_macs_of devices) now st1) as [Hp2 Hkeys].
  set (p := full_probe cfg w s connected_set devices_in_range _ now st1) in *.
  set (sel2 := fun r : string * bool => if r.2 then Some r.1 else None).
  set (st3 := (for_each p.1 _ p.2).2).
  set (sel3 := fun device : store_device =>
        if truthy_str (sd_macAddress device)
        then match sd_connectedSince device with
             | Some connected_since =>
                 if negb (Qeq_bool connected_since 0)
                    && bool_decide (sd_status device = Some (Some "present"))
                    && Qle_bool (now - connected_since / 1000)
                         (inject_Z (NEWLY_REGISTERED_GRACE_PERIOD cfg))
                 then sd_macAddress device else None
             | None => None
             end
        else None).
  set (st4 := (for_each devices _ st3).2).
  set (fresh := filter _ (recently_seen_devices st4)).
  change (recently_seen_devices (set_recently_seen_devices fresh st4))
    with fresh.
  assert (H1 : forall mac,
            recently_seen_devices st1 !! mac
            = if bool_decide (mac ∈ devices_in_range) then Some now
              else recently_seen_devices st !! mac).
  { intros mac. subst st1.
    rewrite (for_each_bump now Some) by (intros; reflexivity).
    erewrite bool_decide_ext; [reflexivity|].
    rewrite list_elem_of_fmap. subst order. split.
    - intros [x [Hx Hin]]. injection Hx as ->.
      apply (set_order_elem w) in Hin. exact Hin.
    - intros Hin. exists mac. split; [reflexivity|].
      apply (set_order_elem w). exact Hin. }
  assert (H3 : forall mac,
            recently_seen_devices st3 !! mac
            = if bool_decide (Some mac ∈ sel2 <$> p.1) then Some now
              else recently_seen_devices st1 !! mac).
  { intros mac. subst st3. rewrite (for_each_bump now sel2).
    - rewrite Hp2. reflexivity.
    - intros [k b] st0. destruct b; reflexivity. }
  assert (H4 : forall mac,
            recently_seen_devices st4 !! mac
            = if bool_decide (Some mac ∈ sel3 <$> devices) then Some now
              else recently_seen_devices st3 !! mac).
  { intros mac. subst st4. rewrite (for_each_bump now sel3); [reflexivity|].
    intros device st0. apply bump_newly_registered_state. }
  assert (Hfresh : forall mac,
            mac ∈ dom fresh
            <-> exists t, recently_seen_devices st4 !! mac = Some t
                          /\ within_ttl cfg now t).
  { intros mac. rewrite elem_of_dom. unfold is_Some. subst fresh.
    split; intros [t Ht]; exists t.
    - apply map_lookup_filter_Some in Ht. destruct Ht as [Ht Hw].
      split; [exact Ht|]. apply Qle_bool_iff, Is_true_true. exact Hw.
    - destruct Ht as [Ht Hw]. apply map_lookup_filter_Some.
      split; [exact Ht|]. apply Is_true_true, Qle_bool_iff. exact Hw. }
  pose proof (within_ttl_now now Httl) as Hnow.
  split; [reflexivity|].
  split.
  { intros mac t Ht. subst fresh. apply map_lookup_filter_Some in Ht.
    destruct Ht as [_ Hw]. apply Qle_bool_iff, Is_true_true. exact Hw. }
  split.
  { intros mac Hin. apply Hfresh. exists now. split; [|exact Hnow].
    rewrite H4, H3, H1. rewrite (bool_decide_eq_true_2 _ Hin).
    repeat match goal with |- context [bool_decide ?P] =>
             destruct (bool_decide P) end; reflexivity. }
  split.
  { intros device mac Hin Hreg. apply Hfresh. exists now.
    split; [|exact Hnow]. rewrite H4.
    rewrite bool_decide_eq_true_2; [reflexivity|].
    apply list_elem_of_fmap. exists device. split; [|exact Hin].
    symmetry. apply newly_registered_iff. exact Hreg. }
  split.
  { intros mac t Ht Hw. apply Hfresh. rewrite H4, H3, H1, Ht.
    repeat match goal with |- context [bool_decide ?P] =>
             destruct (bool_decide P) end; eauto. }
  intros mac Hin. apply Hfresh in Hin. destruct Hin as [t [Ht Hw]].
  rewrite H4 in Ht.
  destruct (bool_decide (Some mac ∈ sel3 <$> devices)) eqn:E3.
  { apply bool_decide_eq_true, list_elem_of_fmap in E3.
    destruct E3 as [device [Hsel Hd]].
    right; right; left. exists device. split; [exact Hd|].
    apply newly_registered_iff. symmetry. exact Hsel. }
  rewrite H3 in Ht.
  destruct (bool_decide (Some mac ∈ sel2 <$> p.1)) eqn:E2.
  { apply bool_decide_eq_true, list_elem_of_fmap in E2.
    destruct E2 as [[k b] [Hsel Hr]]. subst sel2. cbn [fst snd] in Hsel.
    destruct b; [|discriminate]. injection Hsel as ->.
    right; right; right. apply Hkeys.
    apply list_elem_of_fmap. exists (k, true). split; [reflexivity|exact Hr]. }
  rewrite H1 in Ht.
  destruct (bool_decide (mac ∈ devices_in_range)) eqn:E1.
  { apply bool_decide_eq_true in E1. left. exact E1. }
  right; left. exists t. auto.
Qed.

End Presence.

(** X19, at a concrete input: one device in range, nothing known. *)
Lemma track_presence_present_set_witness :
  let w := const_world 1000 ∅ KReturned in
  "AA:BB:CC:DD:EE:01"
  ∈ (track_presence default_config w 1000 ∅ ∅ {["AA:BB:CC:DD:EE:01"]} []
       initial_state).1.
Proof.
  intros w.
  refine (proj1 (proj2 (proj2 (track_presence_present_set default_config w
                   1000 ∅ ∅ {["AA:BB:CC:DD:EE:01"]} [] initial_state _)))
            "AA:BB:CC:DD:EE:01" _).
  - vm_compute. discriminate.
  - apply elem_of_singleton. reflexivity.
Defined.

(** ** The footprint of a cycle *)

(** Inclusion into the footprints of the tracker, by cases on the step. *)
Ltac tracker_incl :=
  let st := fresh "st" in
  let a := fresh "a" in
  let H := fresh "H" in
  intros st a H;
  first
    [ exact H
    | solve [eauto 6]
    | solve [unfold fp_probe, fp_cycle, fp_tracker in *;
             destruct a as [[]| | | | | | | | | | | | | | | | | | |];
             simpl in *;
             repeat match goal with
                    | H : False |- _ => contradiction
                    | H : _ \/ _ |- _ => destruct H
                    | H : ex _ |- _ => destruct H
                    | H : _ /\ _ |- _ => destruct H
                    end;
             simpl in *; try contradiction; try discriminate;
             solve [intuition eauto] ] ].

Ltac tracker_call :=
  first
    [ solve [eauto 2 with footprint]
    | eapply steps_mono; cycle 1;
      [ solve [eauto 2 with footprint]
      | intros ? ?; apply runs_mono; tracker_incl ] ].

Ltac tracker_modify :=
  first
    [ eapply (steps_modify_runs _ (ASetRssiRefresh _)); [intros ?; reflexivity|]
    | eapply (steps_modify_runs _ (AAddFailedRegistration _));
      [intros ?; reflexivity|]
    | eapply (steps_modify_runs _ (ADiscardFailedRegistration _));
      [intros ?; reflexivity|]
    | eapply (steps_modify_runs _ (ASetPreviousStatus _ _));
      [intros ?; reflexivity|]
    | eapply (steps_modify_runs _ (ABumpRecentlySeen _ _));
      [intros ?; reflexivity|]
    | eapply (steps_modify_runs _ (AForgetFirstSeen _)); [intros ?; reflexivity|]
    | eapply (steps_modify_runs _ (ASetLastFullProbe _)); [intros ?; reflexivity|]
    | eapply (steps_modify_runs _ (ASetLastDiscoveryRefresh _));
      [intros ?; reflexivity|]
    | eapply (steps_modify_runs _ (ACacheAdapter _)); [intros ?; reflexivity|] ];
  intros ?; unfold fp_cycle, fp_tracker; simpl; auto.

Ltac tracker_step :=
  lazymatch goal with
  | |- steps _ (ret _) => apply steps_ret; apply _
  | |- steps _ (gets _) => apply steps_gets; apply _
  | |- steps _ (bind _ _) => apply steps_bind; [apply _ | | intros ?]
  | |- steps _ (for_each _ _) => apply steps_for_each; [apply _ | intros ? ?]
  | |- steps _ (emit _) =>
      apply steps_emit_runs; intros ?; unfold fp_cycle, fp_tracker; simpl;
      auto
  | |- steps _ (modify _) => tracker_modify
  | |- steps _ (if ?x then _ else _) => destruct x
  | |- steps _ (match ?x with _ => _ end) => destruct x
  | |- steps _ _ => tracker_call
  end.

Ltac tracker := cbv zeta; repeat tracker_step.

Section Cycle_footprint.
Context (cfg : Config) (w : World).

#[local] Hint Resolve fp_monotonic fp_time_time fp_sleep fp_get_device_snapshot
  fp_snapshot_or fp_get_device_name fp_get_all_connected_devices
  fp_get_paired_devices fp_disconnect_device fp_remove_device
  fp_probe_devices fp_get_devices_in_range : footprint.

(** The sync client, step by step. *)
Lemma fp_submit_convex_call {T} (fn : convex_fn T) description :
  steps (runs (fp_tracker cfg w)) (_submit_convex_call cfg w fn description).
Proof.
  intros st.
  assert (Hclock : forall st0 t, fp_tracker cfg w st0 (AEmit (EvMonotonic t)))
    by (intros; left; exact I).
  unfold _submit_convex_call, executor_submit, monotonic, bind, gets, emit,
    modify, ret. simpl.
  set (now := w_monotonic w (trace st)).
  destruct (Qltb now (_convex_circuit_open_until st)) eqn:E; simpl.
  { apply (runs_atom _ (AEmit (EvMonotonic now))). apply Hclock. }
  apply Qltb_ge in E.
  assert (Hcall : forall k,
            fp_tracker cfg w (apply_atom (AEmit (EvMonotonic now)) st)
              (ACallCompleted description k)).
  { intros k. left. exists (trace st). split; [reflexivity | exact E]. }
  apply (runs_step _ _ (AEmit (EvMonotonic now))); [apply Hclock|].
  destruct (fn (EvMonotonic now :: trace st)) as [res| |]; simpl.
  - apply (runs_atom _ (ACallCompleted description KReturned)). apply Hcall.
  - apply (runs_step _ _ (ACallCompleted description KTimedOut));
      [apply Hcall|].
    destruct (MAX_CONVEX_CONSECUTIVE_TIMEOUTS cfg
              <=? _convex_consecutive_timeouts st + 1)%Z eqn:Em;
      simpl; [|apply runs_done].
    apply Z.leb_le in Em.
    eapply (runs_step _ _ (AEmit (EvMonotonic _))); [apply Hclock|].
    eapply (runs_step _ _ (AOpenCircuit _)); [|apply runs_done].
    left. eexists _, _. split; [|split; [reflexivity | exact Em]].
    exists (trace st). split; [reflexivity | exact E].
  - apply (runs_atom _ (ACallCompleted description KRaised)). apply Hcall.
Qed.

#[local] Hint Resolve fp_submit_convex_call : footprint.

Lemma fp_get_known_devices :
  steps (runs (fp_tracker cfg w)) (get_known_devices cfg w).
Proof. unfold get_known_devices. tracker. Qed.

Lemma fp_register_new_device mac name :
  steps (runs (fp_tracker cfg w)) (register_new_device cfg w mac name).
Proof. unfold register_new_device. tracker. Qed.

Lemma fp_log_attendance mac name status :
  steps (runs (fp_tracker cfg w)) (log_attendance cfg w mac name status).
Proof. unfold log_attendance. tracker. Qed.

#[local] Hint Resolve fp_get_known_devices fp_register_new_device
  fp_log_attendance : footprint.

Lemma fp_get_device_by_mac mac :
  steps (runs (fp_tracker cfg w)) (get_device_by_mac cfg w mac).
Proof. unfold get_device_by_mac. tracker. Qed.

Lemma fp_discard_failed_registration mac :
  steps (runs (fp_tracker cfg w)) (discard_failed_registration mac).
Proof. unfold discard_failed_registration. tracker. Qed.

Lemma fp_add_failed_registration mac :
  steps (runs (fp_tracker cfg w)) (add_failed_registration mac).
Proof. unfold add_failed_registration. tracker. Qed.

Lemma fp_set_previous_status mac status :
  steps (runs (fp_tracker cfg w)) (set_previous_status mac status).
Proof. unfold set_previous_status. tracker. Qed.

Lemma fp_bump_recently_seen mac now :
  steps (runs (fp_tracker cfg w)) (bump_recently_seen mac now).
Proof. unfold bump_recently_seen. tracker. Qed.

Lemma fp_pop_first_seen mac :
  steps (runs (fp_tracker cfg w)) (pop_first_seen mac).
Proof. unfold pop_first_seen. tracker. Qed.

#[local] Hint Resolve fp_get_device_by_mac fp_discard_failed_registration
  fp_add_failed_registration fp_set_previous_status fp_bump_recently_seen
  fp_pop_first_seen : footprint.

Lemma fp_get_managed_objects_tracker :
  steps (runs (fp_tracker cfg w)) (_get_managed_objects w).
Proof. unfold _get_managed_objects. tracker. Qed.

Lemma fp_get_adapter_path_tracker found :
  steps (runs (fp_tracker cfg w)) (_get_adapter_path found).
Proof. unfold _get_adapter_path. tracker. Qed.

#[local] Hint Resolve fp_get_managed_objects_tracker
  fp_get_adapter_path_tracker : footprint.

Lemma fp_refresh_discovery duration :
  steps (runs (fp_tracker cfg w)) (refresh_discovery w duration).
Proof. unfold refresh_discovery. tracker. Qed.

#[local] Hint Resolve fp_refresh_discovery : footprint.

Lemma fp_refresh_if_due now :
  steps (runs (fp_tracker cfg w)) (refresh_if_due cfg w now).
Proof. unfold refresh_if_due. tracker. Qed.

Lemma fp_should_register_device mac info now :
  steps (runs (fp_tracker cfg w)) (_should_register_device cfg mac info now).
Proof.
  intros st. unfold _should_register_device, bind, gets, modify, ret.
  destruct (negb (di_paired info || di_connected info || di_trusted info));
    [apply runs_done|].
  destruct (negb _); [apply runs_done|]. cbn [fst snd].
  destruct (device_first_seen st !! mac) as [first_seen|].
  - destruct (Qltb _ _); apply runs_done.
  - apply (runs_atom _ (ASetFirstSeen mac now)). right. exact I.
Qed.

#[local] Hint Resolve fp_refresh_if_due fp_should_register_device : footprint.

Lemma fp_find_candidates_loop macs s connected_set now candidates :
  steps (runs (fp_tracker cfg w))
    (find_candidates_loop cfg macs s connected_set now candidates).
Proof.
  revert candidates.
  induction macs as [|mac rest IH]; intros candidates; simpl; [tracker|].
  tracker; apply IH.
Qed.

#[local] Hint Resolve fp_find_candidates_loop : footprint.

Lemma fp_find_registration_candidates s connected_set now :
  steps (runs (fp_tracker cfg w))
    (_find_registration_candidates cfg w s connected_set now).
Proof. unfold _find_registration_candidates. tracker. Qed.

Lemma fp_register_connected_devices s connected_set devices_by_mac :
  steps (runs (fp_tracker cfg w))
    (register_connected_devices cfg w s connected_set devices_by_mac).
Proof. unfold register_connected_devices. tracker. Qed.

Lemma fp_register_candidate devices_by_mac candidate :
  steps (runs (fp_tracker cfg w))
    (register_candidate cfg w devices_by_mac candidate).
Proof. unfold register_candidate. tracker. Qed.

#[local] Hint Resolve fp_find_registration_candidates
  fp_register_connected_devices fp_register_candidate : footprint.

Lemma fp_register_in_range_devices s connected_set now devices_by_mac :
  steps (runs (fp_tracker cfg w))
    (register_in_range_devices cfg w s connected_set now devices_by_mac).
Proof. unfold register_in_range_devices. tracker. Qed.

Lemma fp_after_status_update mac new_status cache :
  steps (runs (fp_tracker cfg w))
    (after_status_update cfg w mac new_status cache).
Proof. unfold after_status_update. tracker. Qed.

#[local] Hint Resolve fp_register_in_range_devices fp_after_status_update
  : footprint.

Lemma fp_update_device_status mac is_connected current cache :
  steps (runs (fp_tracker cfg w))
    (update_device_status cfg w mac is_connected current cache).
Proof. unfold update_device_status. tracker. Qed.

#[local] Hint Resolve fp_update_device_status : footprint.

Lemma fp_update_status_of_device present_set devices_by_mac device :
  steps (runs (fp_tracker cfg w))
    (update_status_of_device cfg w present_set devices_by_mac device).
Proof. unfold update_status_of_device. tracker. Qed.

#[local] Hint Resolve fp_update_status_of_device : footprint.

Lemma fp_update_known_devices present_set devices_by_mac devices :
  steps (runs (fp_tracker cfg w))
    (update_known_devices cfg w present_set devices_by_mac devices).
Proof. unfold update_known_devices. tracker. Qed.

Lemma fp_full_probe s connected_set devices_in_range registered_macs now :
  steps (runs (fp_tracker cfg w))
    (full_probe cfg w s connected_set devices_in_range registered_macs now).
Proof. unfold full_probe. tracker. Qed.

Lemma fp_bump_newly_registered now device :
  steps (runs (fp_tracker cfg w)) (bump_newly_registered cfg now device).
Proof. unfold bump_newly_registered. tracker. Qed.

#[local] Hint Resolve fp_update_known_devices fp_full_probe
  fp_bump_newly_registered : footprint.

Lemma fp_track_presence now s connected_set devices_in_range devices :
  steps (runs (fp_tracker cfg w))
    (track_presence cfg w now s connected_set devices_in_range devices).
Proof.
  unfold track_presence.
  do 4 (apply steps_bind; [apply _ | solve [tracker] | intros ?]).
  intros st. unfold bind, gets, modify, ret. cbn [fst snd].
  apply (runs_atom _ (APruneRecentlySeen now (PRESENT_TTL_SECONDS cfg))).
  right. exact I.
Qed.

Lemma fp_disconnect_connected s connected_set :
  steps (runs (fp_tracker cfg w)) (disconnect_connected cfg w s connected_set).
Proof. unfold disconnect_connected. tracker. Qed.

#[local] Hint Resolve fp_track_presence fp_disconnect_connected : footprint.

Lemma fp_cleanup_expired_devices snap :
  steps (runs (fp_cycle cfg w)) (cleanup_expired_devices cfg w snap).
Proof. unfold cleanup_expired_devices. tracker. Qed.

Lemma fp_cleanup_stale_bluetooth_pairings devs snap :
  steps (runs (fp_cycle cfg w))
    (cleanup_stale_bluetooth_pairings cfg w devs snap).
Proof. unfold cleanup_stale_bluetooth_pairings. tracker. Qed.

#[local] Hint Resolve fp_cleanup_expired_devices
  fp_cleanup_stale_bluetooth_pairings : footprint.

Lemma fp_check_and_update_devices :
  steps (runs (fp_cycle cfg w)) (check_and_update_devices cfg w).
Proof. unfold check_and_update_devices. tracker. Qed.

End Cycle_footprint.

(** ** What holds of every cycle *)

Section Cycle_invariants.
Context (cfg : Config) (w : World).

Lemma fp_cycle_no_bare_submit st c k :
  ~ fp_cycle cfg w st (AEmit (EvConvexSubmit c k)).
Proof.
  intros [[H|H]|[mac H]]; simpl in H; contradiction.
Qed.

Lemma fp_cycle_call st c k :
  fp_cycle cfg w st (ACallCompleted c k) -> after_closed_read w st [].
Proof.
  intros [[H|H]|[mac H]]; simpl in H; [exact H | contradiction..].
Qed.

Lemma fp_cycle_open st open_until :
  fp_cycle cfg w st (AOpenCircuit open_until) ->
  exists t c,
    after_closed_read w st [EvMonotonic t; EvConvexSubmit c KTimedOut]
    /\ open_until = (t + CONVEX_CIRCUIT_OPEN_SECONDS cfg)%Q
    /\ (MAX_CONVEX_CONSECUTIVE_TIMEOUTS cfg
        <= _convex_consecutive_timeouts st)%Z.
Proof.
  intros [[H|H]|[mac H]]; simpl in H; [exact H | contradiction..].
Qed.

Lemma breaker_invariant_step st a :
  fp_cycle cfg w st a ->
  _convex_consecutive_timeouts st = timeout_streak (trace st)
  /\ opening_justified cfg st ->
  _convex_consecutive_timeouts (apply_atom a st)
  = timeout_streak (trace (apply_atom a st))
  /\ opening_justified cfg (apply_atom a st).
Proof.
  intros Ha [Hc Ho].
  assert (Hgrow : forall e st',
            trace st' = e :: trace st ->
            _convex_circuit_open_until st' = _convex_circuit_open_until st ->
            opening_justified cfg st').
  { intros e st' Et Eo. destruct Ho as [Ho|[evs [t [c [tr [E [Eu Hs]]]]]]].
    - left. congruence.
    - right. exists (e :: evs), t, c, tr. rewrite Et, E, Eo.
      split; [reflexivity|]. split; assumption. }
  destruct a as [e| | | | | | | | | | | | | | | | | |c k|u];
    try (split; [exact Hc | exact Ho]).
  - destruct e; try (split; [exact Hc | eapply Hgrow; reflexivity]).
    exfalso. exact (fp_cycle_no_bare_submit _ _ _ Ha).
  - split; [|eapply Hgrow; reflexivity].
    simpl. destruct k; simpl; [reflexivity | rewrite Hc; reflexivity
                               | reflexivity].
  - split; [exact Hc|].
    destruct (fp_cycle_open _ _ Ha) as [t [c [[tr [E _]] [-> Hmax]]]].
    right. exists [], t, c, (EvMonotonic (w_monotonic w tr) :: tr).
    split; [exact E|]. split; [reflexivity|].
    rewrite Hc, E in Hmax. exact Hmax.
Qed.

(** X20. In every state the tracker reaches by running cycles from the
    initial state, the counter of the circuit breaker is the number of
    store calls that timed out since the last call that did not; and
    when the circuit was last opened, it was opened for the configured
    time after a streak of timeouts that had reached the threshold. *)
Theorem breaker_counts_consecutive_timeouts
    (history : list observation) (st : State) :
  cycles_run cfg w history st ->
  _convex_consecutive_timeouts st = timeout_streak (trace st)
  /\ opening_justified cfg st.
Proof.
  induction 1 as [|history st Hrun IH].
  - split; [reflexivity | left; reflexivity].
  - apply (runs_preserve (fp_cycle cfg w)
             (fun s => _convex_consecutive_timeouts s = timeout_streak (trace s)
                       /\ opening_justified cfg s) st).
    + intros s a Hs Ha. apply breaker_invariant_step; assumption.
    + apply fp_check_and_update_devices.
    + exact IH.
Qed.

(** X21. While the circuit is open (the monotonic clock stays below
    [_convex_circuit_open_until]), a whole cycle sends nothing to the
    store and leaves the breaker as it is. *)
Theorem open_circuit_cycle_is_silent (st : State) :
  (forall tr, (w_monotonic w tr < _convex_circuit_open_until st)%Q) ->
  let st' := (check_and_update_devices cfg w st).2 in
  submitted (trace st') = submitted (trace st)
  /\ _convex_circuit_open_until st' = _convex_circuit_open_until st
  /\ _convex_consecutive_timeouts st' = _convex_consecutive_timeouts st.
Proof.
  intros Hopen st'.
  apply (runs_preserve (fp_cycle cfg w)
           (fun s => submitted (trace s) = submitted (trace st)
                     /\ _convex_circuit_open_until s
                        = _convex_circuit_open_until st
                     /\ _convex_consecutive_timeouts s
                        = _convex_consecutive_timeouts st) st);
    [| apply fp_check_and_update_devices | auto].
  intros s a [Hs [Ho Hc]] Ha.
  destruct a as [e| | | | | | | | | | | | | | | | | |c k|u];
    try (split; [exact Hs | split; [exact Ho | exact Hc]]).
  - destruct e; try (split; [exact Hs | split; [exact Ho | exact Hc]]).
    exfalso. exact (fp_cycle_no_bare_submit _ _ _ Ha).
  - exfalso. destruct (fp_cycle_call _ _ _ Ha) as [tr [_ Hle]].
    rewrite Ho in Hle. exact (Qlt_not_le _ _ (Hopen tr) Hle).
  - exfalso. destruct (fp_cycle_open _ _ Ha) as [t [c [[tr [_ Hle]] _]]].
    rewrite Ho in Hle. exact (Qlt_not_le _ _ (Hopen tr) Hle).
Qed.

(** Sequencing, when more is known of the value the first computation
    returns than of an arbitrary one. *)
Lemma steps_bind_result (R : relation State) `{!PreOrder R} {A B}
    (c : M A) (k : A -> M B) :
  steps R c -> (forall st, steps R (k (c st).1)) -> steps R (bind c k).
Proof.
  intros Hc Hk st. unfold bind.
  specialize (Hc st). specialize (Hk st).
  destruct (c st) as [a st1]. cbn [fst snd] in *.
  etransitivity; [exact Hc | apply Hk].
Qed.

Lemma tracker_no_removal st st' :
  runs (fp_tracker cfg w) st st' ->
  new_events (fun e => ~ is_removal e) st st'.
Proof.
  apply runs_new_events. intros s a Ha.
  destruct a as [[]| | | | | | | | | | | | | | | | | | |]; simpl; auto.
  destruct Ha as [Ha|Ha]; simpl in Ha; contradiction.
Qed.

(** A result of the sync client is a result of the store function. *)
Lemma submit_convex_call_result {T} (fn : convex_fn T) description st r :
  (_submit_convex_call cfg w fn description st).1 = Some r ->
  exists tr, fn tr = Returned (Some r).
Proof.
  unfold _submit_convex_call, executor_submit, monotonic, bind, gets, emit,
    modify, ret. simpl.
  destruct (Qltb _ _); simpl; [discriminate|].
  destruct (fn _) as [res| |] eqn:E; simpl.
  - intros ->. eauto.
  - destruct (_ <=? _)%Z; simpl; discriminate.
  - discriminate.
Qed.

Section No_answer.
Hypothesis Hdevices : forall tr, ~ yields_devices (w_getDevices w tr).
Hypothesis Hexpired :
  forall tr, ~ yields_expired (w_cleanupExpiredGracePeriods w tr).

Let quiet : relation State := new_events (fun e => ~ is_removal e).

Lemma tracker_quiet {A} (c : M A) :
  steps (runs (fp_tracker cfg w)) c -> steps quiet c.
Proof. intros H st. apply tracker_no_removal, H. Qed.

Lemma cleanup_expired_quiet snap :
  steps quiet (cleanup_expired_devices cfg w snap).
Proof.
  unfold cleanup_expired_devices.
  apply steps_bind_result; [apply _ | apply tracker_quiet, fp_submit_convex_call |].
  intros st.
  destruct (_submit_convex_call cfg w _ _ st).1 as [r|] eqn:E;
    [|apply steps_ret; apply _].
  destruct (submit_convex_call_result _ _ _ _ E) as [tr Htr].
  pose proof (Hexpired tr) as Hno. rewrite Htr in Hno. simpl in Hno.
  apply steps_bind; [apply _ | | intros; apply steps_ret; apply _].
  destruct (0 <? default 0 (cr_deletedCount r))%Z eqn:Ec;
    [|apply steps_ret; apply _].
  apply Z.ltb_lt in Ec.
  destruct (default [] (cr_deletedMacs r)) as [|m ms];
    [apply steps_ret; apply _|].
  exfalso. apply Hno. split; [exact Ec | discriminate].
Qed.

Lemma cleanup_stale_quiet snap :
  steps quiet (cleanup_stale_bluetooth_pairings cfg w (Some []) snap).
Proof.
  intros st.
  destruct (cleanup_stale_run cfg w (Some []) snap st)
    as [evs [E [_ [_ F]]]].
  exists evs. split; [exact E|].
  rewrite (get_known_devices_empty cfg w _ Hdevices) in F.
  eapply Forall_impl; [exact F|].
  intros e He Hr. destruct e; simpl in *; try contradiction.
  destruct He as [Hne _]. contradiction.
Qed.

Lemma cycle_quiet : steps quiet (check_and_update_devices cfg w).
Proof.
  unfold check_and_update_devices.
  apply steps_bind; [apply _ | apply tracker_quiet, steps_mono with (R := runs fp_clock) | intros now].
  { intros ? ?. apply runs_mono. tracker_incl. }
  { apply fp_time_time. }
  apply steps_bind; [apply _ | apply tracker_quiet, fp_refresh_if_due |].
  intros _.
  apply steps_bind; [apply _ | apply tracker_quiet, steps_mono with (R := runs fp_query) | intros s].
  { intros ? ?. apply runs_mono. tracker_incl. }
  { apply fp_get_device_snapshot. }
  apply steps_bind_result; [apply _ | apply tracker_quiet, fp_get_known_devices |].
  intros st0. rewrite (get_known_devices_empty cfg w st0 Hdevices).
  apply steps_bind; [apply _ | apply tracker_quiet, steps_mono with (R := runs fp_clock) | intros devices_in_range].
  { intros ? ?. apply runs_mono. tracker_incl. }
  { apply fp_get_devices_in_range. }
  apply steps_bind; [apply _ | apply tracker_quiet, fp_track_presence |].
  intros present_set.
  apply steps_bind;
    [apply _ | apply tracker_quiet, fp_register_connected_devices |].
  intros _.
  apply steps_bind;
    [apply _ | apply tracker_quiet, fp_register_in_range_devices |].
  intros _.
  apply steps_bind; [apply _ | apply tracker_quiet, fp_update_known_devices |].
  intros _.
  apply steps_bind; [apply _ | apply tracker_quiet, fp_disconnect_connected |].
  intros _.
  apply steps_bind; [apply _ | apply cleanup_expired_quiet |].
  intros _. apply cleanup_stale_quiet.
Qed.

End No_answer.

(** X22. A cycle unpairs a device only on the word of the store: when the
    device query never yields a record and the cleanup action never
    reports an expired device (the store is down, slow, or has nothing to
    say), a whole cycle removes no device from the adapter. *)
Theorem cycle_unpairs_only_on_store_answer (st : State) :
  (forall tr, ~ yields_devices (w_getDevices w tr)) ->
  (forall tr, ~ yields_expired (w_cleanupExpiredGracePeriods w tr)) ->
  new_events (fun e => ~ is_removal e) st
    (check_and_update_devices cfg w st).2.
Proof. intros Hd He. exact (cycle_quiet Hd He st). Qed.

End Cycle_invariants.

(** X20, at a concrete input: after one cycle in the demo world. *)
Lemma breaker_counts_consecutive_timeouts_witness :
  let st := (check_and_update_devices default_config demo_world
               initial_state).2 in
  _convex_consecutive_timeouts st = timeout_streak (trace st)
  /\ opening_justified default_config st.
Proof.
  intros st.
  apply (breaker_counts_consecutive_timeouts default_config demo_world
           [cycle_observation default_config demo_world initial_state]).
  apply cycles_step. apply cycles_start.
Defined.

(** X21, at a concrete input: the circuit open until 2000, the clock at
    1000. *)
Lemma open_circuit_cycle_is_silent_witness :
  let w := const_world 1000 ∅ KReturned in
  let st := set_convex_circuit_open_until 2000 initial_state in
  submitted (trace (check_and_update_devices default_config w st).2) = [].
Proof.
  intros w st.
  refine (proj1 (open_circuit_cycle_is_silent default_config w st _)).
  intros tr. reflexivity.
Defined.

(** X22, at a concrete input: a store that always times out. *)
Lemma cycle_unpairs_only_on_store_answer_witness :
  new_events (fun e => ~ is_removal e) initial_state
    (check_and_update_devices default_config (const_world 50 ∅ KTimedOut)
       initial_state).2.
Proof.
  apply (cycle_unpairs_only_on_store_answer default_config
           (const_world 50 ∅ KTimedOut) initial_state).
  - intros tr H. exact H.
  - intros tr H. exact H.
Defined.
